(** * PyTensor: tensor algebra, decomposed-tensor models and the
    alternating-optimisation driver, embedded from the Python sources.

  Arrays are modelled the way numpy stores C-contiguous arrays: a shape
  and the row-major list of entries.  Floating-point entries are
  idealised as real numbers, so every statement below is a statement
  about exact arithmetic.  Python exceptions are values of [Py.exn];
  a computation that may raise returns a [Py.result]. *)

From Stdlib Require Import String Ascii.
From Stdlib Require Import List ZArith Reals Lra Lia Bool Arith.
Import ListNotations.


(* ================================================================== *)
(** * Python runtime: exceptions, sequence indexing, list methods      *)
(* ================================================================== *)

Module Py.

Inductive exn : Type :=
| ValueError (msg : string)
| IndexError
| NameError (name : string)
| AttributeError (attr : string)
| TypeError (msg : string)
| AxisError
| AssertionError
| Warning (msg : string)
| NotModelled (what : string).

Inductive result (A : Type) : Type :=
| Ok (a : A)
| Raise (e : exn).
Arguments Ok {A} a.
Arguments Raise {A} e.

Definition bind {A B} (m : result A) (k : A -> result B) : result B :=
  match m with
  | Ok a => k a
  | Raise e => Raise e
  end.

Definition is_ok {A} (m : result A) : bool :=
  match m with Ok _ => true | Raise _ => false end.

(** Index normalisation of sequences: [i] in [-n, n), negatives count
    from the end; anything else is an [IndexError]. *)
Definition index (n : nat) (i : Z) : result nat :=
  if ((0 <=? i) && (i <? Z.of_nat n))%Z then Ok (Z.to_nat i)
  else if ((- Z.of_nat n <=? i) && (i <? 0))%Z
       then Ok (Z.to_nat (i + Z.of_nat n))
       else Raise IndexError.

(** [l[i]] *)
Definition getitem {A} (l : list A) (i : Z) : result A :=
  bind (index (length l) i)
       (fun k => match nth_error l k with
                 | Some x => Ok x
                 | None => Raise IndexError
                 end).

(** [l.pop(i)]: the removed element and the remaining list. *)
Definition pop {A} (l : list A) (i : Z) : result (A * list A) :=
  bind (index (length l) i)
       (fun k => match nth_error l k with
                 | Some x => Ok (x, firstn k l ++ skipn (S k) l)
                 | None => Raise IndexError
                 end).

(** [l[i] = x] *)
Definition setitem {A} (l : list A) (i : Z) (x : A) : result (list A) :=
  bind (index (length l) i)
       (fun k => Ok (firstn k l ++ x :: skipn (S k) l)).

(** [l.insert(i, x)]: the position is clamped into [0, len(l)]. *)
Definition insert {A} (l : list A) (i : Z) (x : A) : list A :=
  let n := Z.of_nat (length l) in
  let j := (if i <? 0 then Z.max 0 (i + n) else Z.min i n)%Z in
  firstn (Z.to_nat j) l ++ x :: skipn (Z.to_nat j) l.

(** [min(l)] of a sequence of sizes; the empty sequence is a
    [ValueError]. *)
Definition min_of (l : list nat) : result nat :=
  match l with
  | [] => Raise (ValueError "min() arg is an empty sequence")
  | x :: r => Ok (fold_right Nat.min x r)
  end.

End Py.

Notation "x <- e ;; k" := (Py.bind e (fun x => k))
(at level 61, e at next level, right associativity).
Notation "' p <- e ;; k" := (Py.bind e (fun p => k))
(at level 61, p pattern, e at next level, right associativity).

(* ================================================================== *)
(** * numpy: n-dimensional arrays                                      *)
(* ================================================================== *)

Module Np.
Import Py.

Record ndarray : Type := mk_ndarray { shape : list nat; data : list R }.

Definition prod (s : list nat) : nat := fold_right Nat.mul 1 s.

(** An array value holds exactly [prod shape] entries. *)
Definition wf (A : ndarray) : Prop := length (data A) = prod (shape A).

Definition ndim (A : ndarray) : nat := length (shape A).

(** The [i]-th run of [Q] consecutive entries of [l]. *)
Definition block (Q i : nat) (l : list R) : list R :=
  firstn Q (skipn (i * Q) l).

(** ** reshape
    A requested dimension is either a size or the placeholder [-1]
    ([None]).  As in numpy, at most one placeholder is allowed, and it
    cannot be resolved when the known sizes multiply to zero. *)
Definition known (dims : list (option nat)) : nat :=
  fold_right (fun d acc => match d with Some k => k * acc | None => acc end)
             1 dims.

Definition unknowns (dims : list (option nat)) : nat :=
  length (filter (fun d => match d with None => true | Some _ => false end)
                 dims).

Definition resolve (total : nat) (dims : list (option nat))
  : result (list nat) :=
  match unknowns dims with
  | 0 => if known dims =? total
         then Ok (map (fun d => match d with Some k => k | None => 0 end) dims)
         else Raise (ValueError "cannot reshape array")
  | 1 => if (known dims =? 0) || negb (total mod known dims =? 0)
         then Raise (ValueError "cannot reshape array")
         else Ok (map (fun d => match d with
                                | Some k => k
                                | None => total / known dims
                                end) dims)
  | _ => Raise (ValueError "can only specify one unknown dimension")
  end.

Definition reshape (A : ndarray) (dims : list (option nat))
  : result ndarray :=
  s <- resolve (prod (shape A)) dims ;;
  Ok (mk_ndarray s (data A)).

(** ** moveaxis
    The array is viewed as [P] x [d] x [Q] (the axes before the moved
    one, the moved axis, the axes after it).  Moving the axis to the
    front yields the [d] x [P] x [Q] arrangement; moving the first
    axis to position [t] is the converse. *)
Definition axis_to_front (P d Q : nat) (l : list R) : list R :=
  flat_map (fun j => flat_map (fun p => block Q (p * d + j) l) (seq 0 P))
           (seq 0 d).

Definition axis_from_front (P d Q : nat) (l : list R) : list R :=
  flat_map (fun p => flat_map (fun j => block Q (j * P + p) l) (seq 0 d))
           (seq 0 P).

Definition normalize_axis_index (axis : Z) (nd : nat) : result nat :=
  match index nd axis with
  | Ok k => Ok k
  | Raise _ => Raise AxisError
  end.

Definition moveaxis (A : ndarray) (source destination : Z)
  : result ndarray :=
  s <- normalize_axis_index source (ndim A) ;;
  t <- normalize_axis_index destination (ndim A) ;;
  let sh := shape A in
  let d := nth s sh 0 in
  let rest := firstn s sh ++ skipn (S s) sh in
  let front := axis_to_front (prod (firstn s sh)) d (prod (skipn (S s) sh))
                             (data A) in
  Ok (mk_ndarray (firstn t rest ++ d :: skipn t rest)
                 (axis_from_front (prod (firstn t rest)) d
                                  (prod (skipn t rest)) front)).

(** [A.shape[n]] *)
Definition shape_at (A : ndarray) (n : Z) : result nat :=
  getitem (shape A) n.

(** ** Matrices: two-dimensional arrays *)

Definition zip_with (f : R -> R -> R) (u v : list R) : list R :=
  map (fun p => f (fst p) (snd p)) (combine u v).

Definition sum (l : list R) : R := fold_right Rplus 0%R l.

Definition dot (u v : list R) : R := sum (zip_with Rmult u v).

(** The rows of a buffer holding [r] rows of [c] entries. *)
Definition rows_of (r c : nat) (l : list R) : list (list R) :=
  map (fun i => block c i l) (seq 0 r).

Definition column (j : nat) (rws : list (list R)) : list R :=
  map (fun row => nth j row 0%R) rws.

Definition cols_of (r c : nat) (l : list R) : list (list R) :=
  map (fun j => column j (rows_of r c l)) (seq 0 c).

(** [A @ B] for two-dimensional operands. *)
Definition matmul (A B : ndarray) : result ndarray :=
  match shape A, shape B with
  | [m; k], [k'; n] =>
      if k =? k'
      then Ok (mk_ndarray [m; n]
                 (flat_map (fun ra => map (fun cb => dot ra cb)
                                          (cols_of k' n (data B)))
                           (rows_of m k (data A))))
      else Raise (ValueError "matmul: mismatch in core dimension")
  | _, _ => Raise (NotModelled "matmul of operands that are not 2-D")
  end.

(** [A.T] for arrays of at most two dimensions. *)
Definition transpose (A : ndarray) : result ndarray :=
  match shape A with
  | [] | [_] => Ok A
  | [r; c] => Ok (mk_ndarray [c; r] (concat (cols_of r c (data A))))
  | _ => Raise (NotModelled "transpose of more than two axes")
  end.

(** [np.zeros(shape)] *)
Definition zeros (s : list nat) : ndarray :=
  mk_ndarray s (repeat 0%R (prod s)).

(** [np.ones(shape)] *)
Definition ones (s : list nat) : ndarray :=
  mk_ndarray s (repeat 1%R (prod s)).

(** [A[i]]: the [i]-th sub-array along the first axis. *)
Definition subarray (A : ndarray) (i : Z) : result ndarray :=
  match shape A with
  | [] => Raise IndexError
  | n :: rest =>
      k <- index n i ;;
      Ok (mk_ndarray rest (block (prod rest) k (data A)))
  end.

(** [A[a:b]] for non-negative bounds: a slice of the first axis, the
    bounds clamped to its length. *)
Definition slice (A : ndarray) (a b : nat) : result ndarray :=
  match shape A with
  | [] => Raise IndexError
  | n :: rest =>
      let start := Nat.min a n in
      let stop := Nat.min b n in
      Ok (mk_ndarray ((stop - start) :: rest)
            (firstn ((stop - start) * prod rest)
                    (skipn (start * prod rest) (data A))))
  end.

(** [A += B] for operands of one shape. *)
Definition iadd (A B : ndarray) : result ndarray :=
  if list_eq_dec Nat.eq_dec (shape A) (shape B)
  then Ok (mk_ndarray (shape A) (zip_with Rplus (data A) (data B)))
  else Raise (NotModelled "in-place addition of operands of different shapes").

(** [V *= G] for operands of one shape. *)
Definition imul (V G : ndarray) : result ndarray :=
  if list_eq_dec Nat.eq_dec (shape V) (shape G)
  then Ok (mk_ndarray (shape V) (zip_with Rmult (data V) (data G)))
  else Raise (NotModelled "in-place product of operands of different shapes").

(** [row[np.newaxis, :] * brow] for one row of a two-dimensional
    right operand: a single-entry row is broadcast along it. *)
Definition broadcast_row_mul (row brow : list R) : list R :=
  match row with
  | [x] => map (Rmult x) brow
  | _ => zip_with Rmult row brow
  end.

(** A row vector [v] against the rows of an [r] x [c] matrix, as
    broadcasting combines shapes [(1, n)] and [(r, c)]: [f] takes
    the entry of [v] first. *)
Definition broadcast_row (f : R -> R -> R) (v : list R) (r c : nat)
           (m : list R) : result ndarray :=
  let n := length v in
  if n =? c
  then Ok (mk_ndarray [r; c]
             (flat_map (fun row => zip_with f v row) (rows_of r c m)))
  else if n =? 1
  then Ok (mk_ndarray [r; c] (map (f (hd 0%R v)) m))
  else if c =? 1
  then Ok (mk_ndarray [r; n] (flat_map (fun x => map (fun y => f y x) v) m))
  else Raise (ValueError "operands could not be broadcast together").

(** [v * M] and [v[np.newaxis] * M] for a vector and a matrix. *)
Definition mul_row (v M : ndarray) : result ndarray :=
  match shape v, shape M with
  | [_], [r; c] | [1; _], [r; c] => broadcast_row Rmult (data v) r c (data M)
  | _, _ => Raise (NotModelled "product of other shapes")
  end.

(** [x == 0] on reals, as a truth value. *)
Definition is_zero (x : R) : bool := if Req_dec_T x 0%R then true else false.

(** [M / v[np.newaxis]] for a matrix and a vector.  Floating-point
    division by zero yields [inf] or [nan], which real numbers do not
    have: a zero divisor is outside the model. *)
Definition div_row (M v : ndarray) : result ndarray :=
  match shape M, shape v with
  | [r; c], [_] =>
      if existsb is_zero (data v)
      then Raise (NotModelled "division by zero")
      else broadcast_row (fun d x => (x / d)%R) (data v) r c (data M)
  | _, _ => Raise (NotModelled "quotient of other shapes")
  end.

(** [w *= v] for vectors: [v] must broadcast to the shape of [w]. *)
Definition imul_vec (w v : ndarray) : result ndarray :=
  match shape w, shape v with
  | [n], [k] =>
      if k =? n then Ok (mk_ndarray [n] (zip_with Rmult (data w) (data v)))
      else if k =? 1
      then Ok (mk_ndarray [n] (map (fun x => (x * hd 0 (data v))%R) (data w)))
      else Raise (ValueError "non-broadcastable output operand")
  | _, _ => Raise (NotModelled "in-place product of other shapes")
  end.

(** The Euclidean norm of a vector. *)
Definition norm2 (u : list R) : R := sqrt (sum (map (fun x => (x * x)%R) u)).

(** [np.linalg.norm(M, axis=0)]: the norms of the columns of a matrix. *)
Definition norm_axis0 (M : ndarray) : result ndarray :=
  match shape M with
  | [r; c] => Ok (mk_ndarray [c] (map norm2 (cols_of r c (data M))))
  | _ => Raise (NotModelled "column norms of an array that is not 2-D")
  end.

(** [len(A)] *)
Definition len (A : ndarray) : result nat :=
  match shape A with
  | [] => Raise (NotModelled "len of a 0-d array")
  | n :: _ => Ok n
  end.

(** [np.diag(v)] of a vector. *)
Definition diag (v : ndarray) : result ndarray :=
  match shape v with
  | [n] => Ok (mk_ndarray [n; n]
                 (flat_map (fun i => map (fun j => if i =? j
                                                   then nth i (data v) 0%R
                                                   else 0%R) (seq 0 n))
                           (seq 0 n)))
  | _ => Raise (NotModelled "diag of an array that is not 1-D")
  end.

(** ** Broadcasting into a target shape *)

Definition option_bind {A B} (o : option A) (k : A -> option B) : option B :=
  match o with Some a => k a | None => None end.

(** The buffer of an array of shape [s] broadcast to the shape [t] of
    the same number of axes: an axis either has the target length or
    length one, in which case its content is repeated. *)
Fixpoint broadcast_data (s t : list nat) (l : list R) : option (list R) :=
  match s, t with
  | [], [] => Some l
  | a :: s', b :: t' =>
      if a =? b
      then fold_right
             (fun i acc =>
                option_bind (broadcast_data s' t' (block (prod s') i l))
                  (fun d => option_bind acc (fun rest => Some (d ++ rest))))
             (Some []) (seq 0 a)
      else if a =? 1
      then option_bind (broadcast_data s' t' l)
                       (fun d => Some (concat (repeat d b)))
      else None
  | _, _ => None
  end.

(** Leading axes of length one in excess of the target are dropped. *)
Fixpoint strip_ones (excess : nat) (s : list nat) : option (list nat) :=
  match excess, s with
  | O, _ => Some s
  | S e, 1 :: s' => strip_ones e s'
  | S _, _ => None
  end.

(** [target[:] = value], and the write into an [out=] operand: the
    value is broadcast to the shape of the target. *)
Definition assign (target value : ndarray) : result ndarray :=
  let t := shape target in
  let s := shape value in
  match strip_ones (length s - length t) s with
  | None => Raise (ValueError "could not broadcast input array")
  | Some s =>
      match broadcast_data (repeat 1%nat (length t - length s) ++ s) t
                           (data value) with
      | Some d => Ok (mk_ndarray t d)
      | None => Raise (ValueError "could not broadcast input array")
      end
  end.

(** [A + B] and [A - B] for operands of one shape. *)
Definition add (A B : ndarray) : result ndarray :=
  if list_eq_dec Nat.eq_dec (shape A) (shape B)
  then Ok (mk_ndarray (shape A) (zip_with Rplus (data A) (data B)))
  else Raise (NotModelled "sum of operands of different shapes").

Definition sub (A B : ndarray) : result ndarray :=
  if list_eq_dec Nat.eq_dec (shape A) (shape B)
  then Ok (mk_ndarray (shape A) (zip_with Rminus (data A) (data B)))
  else Raise (NotModelled "difference of operands of different shapes").

(** [c * A] for a scalar [c]. *)
Definition scale (c : R) (A : ndarray) : ndarray :=
  mk_ndarray (shape A) (map (Rmult c) (data A)).

(** [np.maximum(A, 0)] *)
Definition maximum0 (A : ndarray) : ndarray :=
  mk_ndarray (shape A) (map (fun x => Rmax x 0) (data A)).

(** [np.zeros_like(A)] *)
Definition zeros_like (A : ndarray) : ndarray := zeros (shape A).

(** [np.identity(n)] *)
Definition identity (n : nat) : ndarray :=
  mk_ndarray [n; n]
    (flat_map (fun i => map (fun j => if i =? j then 1%R else 0%R) (seq 0 n))
              (seq 0 n)).

(** [np.concatenate([A, B], axis=0)] *)
Definition concatenate0 (A B : ndarray) : result ndarray :=
  match shape A, shape B with
  | a :: ra, b :: rb =>
      if list_eq_dec Nat.eq_dec ra rb
      then Ok (mk_ndarray ((a + b) :: ra) (data A ++ data B))
      else Raise (ValueError "all the input array dimensions except for the concatenation axis must match exactly")
  | _, _ => Raise (ValueError "zero-dimensional arrays cannot be concatenated")
  end.

(** [np.linalg.norm(A)]: the norm of the flattened array. *)
Definition norm (A : ndarray) : R := norm2 (data A).

(** [x < y] on reals, as a truth value. *)
Definition Rltb (x y : R) : bool := if Rlt_dec x y then true else false.

End Np.

(* ================================================================== *)
(** * base.py: unfolding and folding                                   *)
(* ================================================================== *)

Module Base.
Import Py Np.

(** [np.moveaxis(A, n, 0).reshape(A.shape[n], -1)] *)
Definition unfold (A : ndarray) (n : Z) : result ndarray :=
  moved <- moveaxis A n 0 ;;
  dn <- shape_at A n ;;
  reshape moved [Some dn; None].

(** [fold(M, n, shape)] *)
Definition fold (M : ndarray) (n : Z) (shp : list nat) : result ndarray :=
  let newshape := shp in
  '(mode_dim, newshape) <- pop newshape n ;;
  let newshape := insert newshape 0 mode_dim in
  reshaped <- reshape M (map Some newshape) ;;
  moveaxis reshaped 0 n.

(** [khatri_rao_binary(A, B)]: row [i * J + j] of the result is the
    entrywise product of row [i] of [A] and row [j] of [B].  The loop
    body runs once per row of [A]; the broadcast inside it needs the
    column counts to agree (or [A] to have a single column). *)
Definition khatri_rao_binary (A B : ndarray) : result ndarray :=
match shape A, shape B with
| [nI; KA], [nJ; K] =>
    if (nI =? 0) || (KA =? K) || (KA =? 1)
    then Ok (mk_ndarray [nI * nJ; K]
               (flat_map (fun row =>
                            flat_map (fun brow => broadcast_row_mul row brow)
                                     (rows_of nJ K (data B)))
                         (rows_of nI KA (data A))))
    else Raise (ValueError "operands could not be broadcast together")
| _, _ => Raise (ValueError "not enough values to unpack")
end.

(** [khatri_rao(factors..., skip=skip)] *)
Definition khatri_rao (factors : list ndarray) (skip : option Z)
  : result ndarray :=
factors <- match skip with
           | None => Ok factors
           | Some s => popped <- pop factors s ;; Ok (snd popped)
           end ;;
product <- getitem factors 0 ;;
fold_left (fun acc f => product <- acc ;; khatri_rao_binary product f)
          (tl factors) (Ok product).

(** [_mttkrp_mid_with_krp(tensor, krp)] *)
Definition _mttkrp_mid_with_krp (tensor krp : ndarray) : result ndarray :=
let shp := shape tensor in
block_size <- getitem shp (-1) ;;
num_rows <- getitem shp (-2) ;;
num_cols <- getitem (shape krp) (-1) ;;
let product := zeros [num_rows; num_cols] in
n0 <- getitem shp 0 ;;
fold_left (fun acc i =>
             product <- acc ;;
             let idx := (i mod n0)%nat in
             slab <- subarray tensor (Z.of_nat idx) ;;
             rowsblock <- slice krp (i * block_size) ((i + 1) * block_size) ;;
             term <- matmul slab rowsblock ;;
             iadd product term)
          (seq 0 n0) (Ok product).

(** [_mttkrp_mid(tensor, matrices)] *)
Definition _mttkrp_mid (tensor : ndarray) (matrices : list ndarray)
  : result ndarray :=
krp <- khatri_rao matrices (Some 1%Z) ;;
_mttkrp_mid_with_krp tensor krp.

(** [_mttkrp3(X, factors, mode)]; a mode other than 0, 1, 2 and -1
    falls off the end of the function, which returns Python's [None]. *)
Definition _mttkrp3 (X : ndarray) (factors : list ndarray) (mode : Z)
  : result (option ndarray) :=
if (mode =? 0)%Z then
  d0 <- shape_at X 0 ;;
  U <- reshape X [Some d0; None] ;;
  K <- khatri_rao factors (Some mode) ;;
  M <- matmul U K ;;
  Ok (Some M)
else if (mode =? 1)%Z then
  M <- _mttkrp_mid X factors ;;
  Ok (Some M)
else if ((mode =? 2) || (mode =? -1))%Z then
  moved <- moveaxis X (-1) 0 ;;
  dl <- shape_at X (-1) ;;
  U <- reshape moved [Some dl; None] ;;
  K <- khatri_rao factors (Some mode) ;;
  M <- matmul U K ;;
  Ok (Some M)
else Ok None.

(** [matrix_khatri_rao_product(X, factors, mode)] *)
Definition matrix_khatri_rao_product
           (X : ndarray) (factors : list ndarray) (mode : Z)
  : result (option ndarray) :=
if negb (length (shape X) =? length factors) then Raise AssertionError
else if length factors =? 3 then _mttkrp3 X factors mode
else
  U <- unfold X mode ;;
  K <- khatri_rao factors (Some mode) ;;
  M <- matmul U K ;;
  Ok (Some M).

(** The generic formula of the specification,
    [unfold(X, mode) @ khatriRao(factors, skip=mode)]. *)
Definition mttkrp_spec (X : ndarray) (factors : list ndarray) (mode : Z)
  : result ndarray :=
U <- unfold X mode ;;
K <- khatri_rao factors (Some mode) ;;
matmul U K.

(** ** Name resolution
    The names bound at module level of base.py, and a lookup that
    raises [NameError] for a name bound neither locally nor there. *)
Definition module_names : list string :=
  ["np"; "ABC"; "abstractmethod"; "jit"; "prange"; "withjit"; "make_fast";
   "jsafe_range"; "kron_binary_vectors"; "khatri_rao_binary"; "khatri_rao";
   "kron"; "kron_binary"; "matrix_khatri_rao_product"; "_mttkrp3";
   "_mttkrp_mid"; "_mttkrp_mid_with_krp"; "unfold"; "fold";
   "unflatten_factors"; "flatten_factors"; "ktensor"; "BaseDecomposedTensor";
   "KruskalTensor"; "EvolvingTensor"; "Parafac2Tensor"]%string.

Definition lookup_name (locals : list string) (name : string) : result unit :=
  if in_dec string_dec name (locals ++ module_names) then Ok tt
  else Raise (NameError name).

(** ** KruskalTensor *)

Record KruskalTensor : Type := mk_KruskalTensor {
  rank : nat;
  factor_matrices : list ndarray;
  weights : ndarray
}.

(** The loop of [KruskalTensor.__init__] over the factor matrices.  The
    message of its [ValueError] is an f-string that reads [self.rank],
    [i] and [factor_matrix.shape[1]]; the loop binds [factor_matrix]
    only. *)
Fixpoint check_columns (rank : nat) (fms : list ndarray) : result unit :=
  match fms with
  | [] => Ok tt
  | factor_matrix :: rest =>
      cols <- shape_at factor_matrix 1 ;;
      if negb (cols =? rank)
      then
        _ <- lookup_name ["self"; "factor_matrices"; "weights";
                          "factor_matrix"]%string "i" ;;
        Raise (ValueError
                 "All factor matrices must have the same number of columns.")
      else check_columns rank rest
  end.

(** [KruskalTensor(factor_matrices, weights=None)] *)
Definition KruskalTensor_init (fms : list ndarray) (w : option ndarray)
  : result KruskalTensor :=
  first <- getitem fms 0 ;;
  rank <- shape_at first 1 ;;
  _ <- check_columns rank fms ;;
  w <- match w with
       | None => Ok (ones [rank])
       | Some w =>
           n <- len w ;;
           if negb (n =? rank)
           then Raise (ValueError
                  "There must be as many weights as there are columns in the factor matrices.")
           else Ok w
       end ;;
  Ok (mk_KruskalTensor rank fms w).

(** [KruskalTensor.construct_tensor]: the tensor, and the object with
    its weights promoted to a row when they were a vector. *)
Definition construct_tensor (self : KruskalTensor)
  : result (ndarray * KruskalTensor) :=
  let self :=
    if length (shape (weights self)) =? 1
    then mk_KruskalTensor (rank self) (factor_matrices self)
           (mk_ndarray (1 :: shape (weights self)) (data (weights self)))
    else self in
  shp <- fold_right (fun f acc => n <- shape_at f 0 ;; tl <- acc ;; Ok (n :: tl))
                    (Ok []) (factor_matrices self) ;;
  first <- getitem (factor_matrices self) 0 ;;
  scaled <- mul_row (weights self) first ;;
  krp <- khatri_rao (tl (factor_matrices self)) None ;;
  krpT <- transpose krp ;;
  tensor <- matmul scaled krpT ;;
  folded <- fold tensor 0 shp ;;
  Ok (folded, self).

(** The loop of [normalize_components]: the factor matrices seen so
    far, normalised, and the running product of their column norms. *)
Definition normalize_step (acc : result (list ndarray * ndarray))
           (factor_matrix : ndarray) : result (list ndarray * ndarray) :=
  st <- acc ;;
  norms <- norm_axis0 factor_matrix ;;
  normalised <- div_row factor_matrix norms ;;
  w <- imul_vec (snd st) norms ;;
  Ok (fst st ++ [normalised], w).

(** [KruskalTensor.normalize_components(update_weights)] *)
Definition normalize_components (self : KruskalTensor) (update_weights : bool)
  : result KruskalTensor :=
  let w := ones [rank self] in
  st <- fold_left normalize_step (factor_matrices self) (Ok ([], w)) ;;
  Ok (mk_KruskalTensor (rank self) (fst st)
        (if update_weights then snd st else weights self)).

(** The tensor alone, as [construct_tensor()] returns it. *)
Definition constructed (self : KruskalTensor) : result ndarray :=
  r <- construct_tensor self ;; Ok (fst r).

(** ** EvolvingTensor *)

Record EvolvingTensor : Type := mk_EvolvingTensor {
  loadings_matrix : ndarray;          (* factor_matrices[0] *)
  evolving_matrices : list ndarray;   (* factor_matrices[1] *)
  slice_weights : ndarray             (* factor_matrices[2] *)
}.

(** [EvolvingTensor.__init__]: computing [slice_shapes] reads the
    attribute [shape] of the Python list [self.factor_matrices] once
    per evolving factor matrix. *)
Definition EvolvingTensor_init (A : ndarray) (Bs : list ndarray) (C : ndarray)
  : result EvolvingTensor :=
  match Bs with
  | [] => Ok (mk_EvolvingTensor A Bs C)
  | _ :: _ => Raise (AttributeError "shape")
  end.

(** [EvolvingTensor.construct_slice(k)] *)
Definition construct_slice (self : EvolvingTensor) (k : Z) : result ndarray :=
  let loadings := loadings_matrix self in
  ck <- subarray (slice_weights self) k ;;
  bk <- getitem (evolving_matrices self) k ;;
  scores <- mul_row ck bk ;;
  matmul loadings scores.

(** The slice the specification describes,
    [A @ diag(C[k]) @ B_k.T]. *)
Definition construct_slice_spec (A : ndarray) (Bs : list ndarray)
           (C : ndarray) (k : Z) : result ndarray :=
  ck <- subarray C k ;;
  bk <- getitem Bs k ;;
  d <- diag ck ;;
  ad <- matmul A d ;;
  bkT <- transpose bk ;;
  matmul ad bkT.

End Base.


(* ================================================================== *)
(** * Notions used to state the properties                             *)
(* ================================================================== *)

Module Props.
Import Py Np Base.

(** The row-major buffer of the [m] x [n] matrix with entries [f i j]. *)
Definition tabulate (m n : nat) (f : nat -> nat -> R) : list R :=
  flat_map (fun i => map (fun j => f i j) (seq 0 n)) (seq 0 m).

(** The rows and the columns of a matrix. *)
Definition rows (M : ndarray) : list (list R) :=
  match shape M with
  | [r; c] => rows_of r c (data M)
  | _ => []
  end.

Definition cols (M : ndarray) : list (list R) :=
  match shape M with
  | [r; c] => cols_of r c (data M)
  | _ => []
  end.

(** A factor matrix of a rank-[r] Kruskal tensor: a well-formed
    two-dimensional array with [r] columns. *)
Definition factor_matrix_of_rank (r : nat) (F : ndarray) : Prop :=
  wf F /\ exists n, shape F = [n; r].

(** The invariant of a Kruskal tensor. *)
Definition kruskal_invariant (kt : KruskalTensor) : Prop :=
  Forall (factor_matrix_of_rank (rank kt)) (factor_matrices kt).

(** No column of the matrix is the zero vector. *)
Definition nonzero_columns (F : ndarray) : Prop :=
  Forall (fun col => Exists (fun x => x <> 0%R) col) (cols F).

(** Every column of the matrix has Euclidean norm one. *)
Definition unit_columns (F : ndarray) : Prop :=
  Forall (fun col => norm2 col = 1%R) (cols F).

(** The norms of the columns of a matrix given by its rows. *)
Definition col_norms (c : nat) (rws : list (list R)) : list R :=
  map (fun j => norm2 (column j rws)) (seq 0 c).

(** The entrywise product of the column norms of a list of factor
    matrices, column by column. *)
Definition norm_products (r : nat) (fms : list ndarray) : list R :=
  fold_left (fun w F => zip_with Rmult w (col_norms r (rows F)))
            fms (repeat 1%R r).

(** The matrix with the given rows of [c] entries. *)
Definition of_rows (c : nat) (rws : list (list R)) : ndarray :=
  mk_ndarray [length rws; c] (concat rws).

(** The rows of a Khatri-Rao product, from the rows of its factors. *)
Definition krb_rows (ra rb : list (list R)) : list (list R) :=
  flat_map (fun a => map (fun b => zip_with Rmult a b) rb) ra.

(** Every row scaled entrywise by the vector [u]. *)
Definition scale_rows (u : list R) (rws : list (list R)) : list (list R) :=
  map (fun row => zip_with Rmult row u) rws.

(** The entry in row [i] and column [a] of a matrix given by its rows. *)
Definition entry_of (rws : list (list R)) (i a : nat) : R :=
  nth a (nth i rws []) 0%R.

(** The rows of the Khatri-Rao product of all the given matrices of [r]
    columns, from the single row of ones for no matrix at all. *)
Definition krp_all (r : nat) (Rs : list (list (list R))) : list (list R) :=
  fold_right krb_rows [repeat 1%R r] Rs.

End Props.

(* ================================================================== *)
(** * Finite sums                                                      *)
(* ================================================================== *)

Module Sums.
Import Np.

(** The sum of [f 0], ..., [f (n - 1)]. *)
Definition bigsum (n : nat) (f : nat -> R) : R := sum (map f (seq 0 n)).

(** The inner product of two vectors of [n] entries. *)
Definition ip (n : nat) (f g : nat -> R) : R :=
  bigsum n (fun t => (f t * g t)%R).

(** The unfolding of a tensor along an axis of length [d] between [P]
    leading and [Q] trailing positions, as a function of the row and the
    column. *)
Definition unfolded (P d Q : nat) (x : list R) (j t : nat) : R :=
  nth t (block (P * Q) j (axis_to_front P d Q x)) 0%R.

(* Linear least squares *)

#[local] Open Scope R_scope.

(** The residual of the coefficients [s] for the target vector [x] and the
    design matrix [K] of [T] rows and [r] columns. *)
Definition residual_at (r : nat) (K : nat -> nat -> R) (x s : nat -> R)
  (t : nat) : R :=
  x t - bigsum r (fun b => s b * K t b).

(** [s] solves the normal equations of the problem. *)
Definition normal (T r : nat) (K : nat -> nat -> R) (x s : nat -> R) : Prop :=
  forall a, (a < r)%nat ->
    ip T (fun t => K t a) (residual_at r K x s) = 0.

(** The squared norm of the residual. *)
Definition residual_norm (T r : nat) (K : nat -> nat -> R) (x s : nat -> R)
  : R :=
  ip T (residual_at r K x s) (residual_at r K x s).

(** The Gram matrix of the design matrix and the right-hand side of the
    normal equations. *)
Definition gram (T : nat) (K : nat -> nat -> R) (a b : nat) : R :=
  ip T (fun t => K t a) (fun t => K t b).

Definition moment (T : nat) (K : nat -> nat -> R) (x : nat -> R) (a : nat) : R :=
  ip T x (fun t => K t a).

(** The Gram matrix of a matrix given by its rows, and the entrywise
    product of the Gram matrices of a list of matrices. *)
Definition gram_rows (rws : list (list R)) (a b : nat) : R :=
  ip (length rws) (fun t => Props.entry_of rws t a)
     (fun t => Props.entry_of rws t b).

Definition gram_product (Rs : list (list (list R))) (a b : nat) : R :=
  fold_right (fun rws acc => (gram_rows rws a b * acc)%R) 1%R Rs.

(** The squared error of the flat buffer [t] against [x]. *)
Definition squared_error (x t : list R) : R :=
  bigsum (length x) (fun i => ((nth i x 0 - nth i t 0)
                               * (nth i x 0 - nth i t 0))%R).

(** A well-formed two-dimensional array of [m] rows and [n] columns. *)
Definition is_matrix (m n : nat) (M : ndarray) : Prop :=
  wf M /\ shape M = [m; n].

(** The squared Frobenius norm of [S @ lhs.T - rhs]. *)
Definition rightsolve_residual (m r : nat) (lhs rhs S : ndarray) : R :=
  bigsum m (fun j =>
    bigsum r (fun a =>
      let e := (bigsum r (fun b => (Props.entry_of (Props.rows S) j b
                                    * Props.entry_of (Props.rows lhs) a b)%R)
                - Props.entry_of (Props.rows rhs) j a)%R in
      (e * e)%R)).

(** Modelled from the spec: [rightsolve(lhs, rhs)] solves
    [X @ lhs.T = rhs] in the least-squares sense: what it returns for
    an [r] x [r] matrix [lhs] and an [m] x [r] matrix [rhs] is an
    [m] x [r] matrix, and no matrix of that shape has a smaller
    residual. *)
Definition least_squares_solver
           (rightsolve : ndarray -> ndarray -> Py.result ndarray) : Prop :=
  forall (m r : nat) (lhs rhs S : ndarray),
    is_matrix r r lhs -> is_matrix m r rhs ->
    rightsolve lhs rhs = Py.Ok S ->
    is_matrix m r S /\
    forall S', is_matrix m r S' ->
      (rightsolve_residual m r lhs rhs S
       <= rightsolve_residual m r lhs rhs S')%R.

End Sums.

(* ================================================================== *)
(** * decomposition/base_decomposer.py and decomposition/cp.py         *)
(* ================================================================== *)

Module Decomposer.
Import Py Np Base.

(** [np.inf] or a real number. *)
Inductive ext_real : Type :=
| Finite (x : R)
| Infinity.

(** The attributes of a CP decomposer.  An attribute that has not been
    assigned yet is [None]; reading it is an [AttributeError]. *)
Record decomposer : Type := mk_decomposer {
  checkpoint_frequency : Z;
  checkpoint_path : option string;
  model_rank : nat;
  max_its : Z;
  convergence_tol : R;
  init : string;
  X : option ndarray;
  X_norm : option R;
  decomposition : option KruskalTensor;
  current_iteration : option Z;
  rel_function_change : option ext_real;
  prev_SSE : option R;
  non_negativity_constraints : option (list bool)
}.

Definition set_max_its (v : Z) (s : decomposer) : decomposer :=
  mk_decomposer (checkpoint_frequency s) (checkpoint_path s) (model_rank s)
    v (convergence_tol s) (init s) (X s) (X_norm s) (decomposition s)
    (current_iteration s) (rel_function_change s) (prev_SSE s)
    (non_negativity_constraints s).

Definition set_X (x : ndarray) (n : R) (s : decomposer) : decomposer :=
  mk_decomposer (checkpoint_frequency s) (checkpoint_path s) (model_rank s)
    (max_its s) (convergence_tol s) (init s) (Some x) (Some n)
    (decomposition s) (current_iteration s) (rel_function_change s)
    (prev_SSE s) (non_negativity_constraints s).

Definition set_decomposition (d : KruskalTensor) (s : decomposer)
  : decomposer :=
  mk_decomposer (checkpoint_frequency s) (checkpoint_path s) (model_rank s)
    (max_its s) (convergence_tol s) (init s) (X s) (X_norm s) (Some d)
    (current_iteration s) (rel_function_change s) (prev_SSE s)
    (non_negativity_constraints s).

Definition set_current_iteration (i : Z) (s : decomposer) : decomposer :=
  mk_decomposer (checkpoint_frequency s) (checkpoint_path s) (model_rank s)
    (max_its s) (convergence_tol s) (init s) (X s) (X_norm s)
    (decomposition s) (Some i) (rel_function_change s) (prev_SSE s)
    (non_negativity_constraints s).

(** Methods run on the object and may raise: the object as the method
    left it comes back in either case. *)
Definition method (A : Type) : Type := decomposer -> result A * decomposer.

Definition ret {A} (a : A) : method A := fun s => (Ok a, s).

Definition raise {A} (e : exn) : method A := fun s => (Raise e, s).

Definition lift {A} (r : result A) : method A := fun s => (r, s).

Definition bindm {A B} (m : method A) (k : A -> method B) : method B :=
  fun s => match m s with
           | (Ok a, s') => k a s'
           | (Raise e, s') => (Raise e, s')
           end.

Definition update (f : decomposer -> decomposer) : method unit :=
  fun s => (Ok tt, f s).

(** Reading an attribute. *)
Definition attribute {A} (name : string) (get : decomposer -> option A)
  : method A :=
  fun s => match get s with
           | Some a => (Ok a, s)
           | None => (Raise (AttributeError name), s)
           end.

End Decomposer.

Notation "x <~ e ;; k" := (Decomposer.bindm e (fun x => k))
  (at level 61, e at next level, right associativity).
Notation "e ;;; k" := (Decomposer.bindm e (fun _ => k))
  (at level 61, right associativity).

(** ** Strings *)

Module Str.

Definition lower_ascii (c : ascii) : ascii :=
  let n := nat_of_ascii c in
  if (65 <=? n) && (n <=? 90) then ascii_of_nat (n + 32) else c.

(** [s.lower()] on ASCII text. *)
Fixpoint lower (s : string) : string :=
  match s with
  | EmptyString => EmptyString
  | String c r => String (lower_ascii c) (lower r)
  end.

Definition digit (n : nat) : ascii := ascii_of_nat (48 + n).

(** The decimal digits of a natural number, most significant first. *)
Fixpoint digits_fuel (fuel n : nat) (acc : string) : string :=
  match fuel with
  | O => acc
  | S fuel' =>
      let acc' := String (digit (n mod 10)) acc in
      if n / 10 =? 0 then acc' else digits_fuel fuel' (n / 10) acc'
  end.

Definition digits (n : nat) : string := digits_fuel (S n) n EmptyString.

Fixpoint zeros (k : nat) : string :=
  match k with
  | O => EmptyString
  | S k' => String "0" (zeros k')
  end.

(** [f'{z:05d}']: zero-padded to five characters, the sign included. *)
Definition format_05d (z : Z) : string :=
  let d := digits (Z.abs_nat z) in
  if (z <? 0)%Z
  then String "-" (zeros (4 - String.length d) ++ d)
  else (zeros (5 - String.length d) ++ d).

End Str.

(** ** The checkpoint store *)

Module H5.

Inductive attr : Type :=
| AInt (z : Z)
| AInts (l : list Z)
| AStr (s : string).

(** An open HDF5 file: its attributes and its named groups; [G] is
    what a group holds. *)
Record file (G : Type) : Type := mk_file {
  attrs : string -> option attr;
  groups : string -> option G
}.
Arguments attrs {G} f name.
Arguments groups {G} f name.

End H5.

Module BaseDecomposer.
Import Py Np Base Decomposer.

Section Methods.

(** What a checkpoint group holds, and the collaborators that are not
    part of the modelled sources: the file opener of h5py and the
    loader of the decomposition type. *)
Variable G : Type.
Variable h5py_File : string -> result (H5.file G).
Variable load_from_hdf5_group : G -> result KruskalTensor.

(** The abstract methods of the class. *)
Variable init_components : option (KruskalTensor + string) -> method unit.
Variable _fit : method unit.
Variable _check_valid_components : KruskalTensor -> method unit.

(** [set_target(X)] *)
Definition set_target (x : ndarray) : method unit :=
  update (set_X x (norm2 (data x))).

(** [_init_fit(X, max_its, initial_decomposition)] *)
Definition _init_fit (x : ndarray) (its : option Z)
           (initial_decomposition : option (KruskalTensor + string))
  : method unit :=
  update (set_current_iteration 0) ;;;
  set_target x ;;;
  init_components initial_decomposition ;;;
  match its with
  | Some v => update (set_max_its v)
  | None => ret tt
  end.

(** [fit(X, y=None, max_its=None, initial_decomposition=None)] *)
Definition fit (x : ndarray) (its : option Z)
           (initial_decomposition : option (KruskalTensor + string))
  : method unit :=
  _init_fit x its initial_decomposition ;;;
  _fit.

(** [continue_fit(max_its=None)] *)
Definition continue_fit (its : option Z) : method unit :=
  match its with
  | Some v => update (set_max_its v)
  | None => ret tt
  end ;;;
  _fit.

(** [load_checkpoint(checkpoint_path, load_it=None)] *)
Definition load_checkpoint (path : string) (load_it : option Z)
  : method unit :=
  h5 <~ lift (h5py_File path) ;;
  match H5.attrs h5 "final_iteration" with
  | None => raise (ValueError "There is no checkpoints")
  | Some final =>
      load_it <~ match load_it with
                 | Some it => ret it
                 | None =>
                     match final with
                     | H5.AInt z => ret z
                     | _ => raise (NotModelled "final_iteration that is not an integer")
                     end
                 end ;;
      update (set_current_iteration load_it) ;;;
      let group_name := ("checkpoint_" ++ Str.format_05d load_it)%string in
      match H5.groups h5 group_name with
      | None => raise (ValueError "There is no checkpoint")
      | Some checkpoint_group =>
          initial_decomposition <~ lift (load_from_hdf5_group checkpoint_group) ;;
          _check_valid_components initial_decomposition ;;;
          update (set_decomposition initial_decomposition)
      end
  end.

End Methods.

End BaseDecomposer.

Module BaseCP.
Import Py Np Base Decomposer.

Section Methods.

Variable G : Type.
Variable h5py_File : string -> result (H5.file G).
Variable load_from_hdf5_group : G -> result KruskalTensor.

(** [np.linalg.svd(M)[0]]: the matrix of left singular vectors. *)
Variable svd_u : ndarray -> result ndarray.

(** [KruskalTensor.random_init(sizes, rank)]: draws from the random
    number generator. *)
Variable random_init : list nat -> nat -> result KruskalTensor.

(** [u[:, :k]]: the first [k] columns of a matrix. *)
Definition take_columns (k : nat) (u : ndarray) : result ndarray :=
  match shape u with
  | [r; c] => Ok (mk_ndarray [r; Nat.min k c]
                    (flat_map (firstn k) (rows_of r c (data u))))
  | _ => Raise IndexError
  end.

(** [init_random()] *)
Definition init_random : method unit :=
  x <~ attribute "X" X ;;
  r <~ (fun s => (Ok (model_rank s), s)) ;;
  d <~ lift (random_init (shape x) r) ;;
  update (set_decomposition d).

(** The loop of [init_svd] over the modes [i], [i+1], ... *)
Fixpoint svd_factors (x : ndarray) (r : nat) (i : nat) (n : nat)
  : result (list ndarray) :=
  match n with
  | O => Ok []
  | S n' =>
      M <- unfold x (Z.of_nat i) ;;
      u <- svd_u M ;;
      f <- take_columns r u ;;
      rest <- svd_factors x r (S i) n' ;;
      Ok (f :: rest)
  end.

(** [init_svd()] *)
Definition init_svd : method unit :=
  x <~ attribute "X" X ;;
  let n_modes := length (shape x) in
  r <~ (fun s => (Ok (model_rank s), s)) ;;
  smallest <~ lift (min_of (shape x)) ;;
  if smallest <? r
  then raise (ValueError
    "SVD initialisation does not work when rank is larger than the smallest dimension of X.")
  else
    factor_matrices <~ lift (svd_factors x r 0 n_modes) ;;
    d <~ lift (KruskalTensor_init factor_matrices None) ;;
    update (set_decomposition d).

(** The loop of [_check_valid_components] from factor [i] on. *)
Fixpoint check_factors (r : nat) (xshape : option (list nat)) (i : nat)
         (fms : list ndarray) : result unit :=
  match fms with
  | [] => Ok tt
  | factor_matrix :: rest =>
      match shape factor_matrix with
      | [len_; rank] =>
          if negb (rank =? r)
          then Raise (ValueError
            "The specified factor matrix' rank does not agree with the model's rank.")
          else
            match xshape with
            | None => Raise (AttributeError "X")
            | Some shp =>
                xlen <- getitem shp (Z.of_nat i) ;;
                if negb (len_ =? xlen)
                then Raise (ValueError
                  "The length of the component is not the same as the length of X's dimension.")
                else check_factors r xshape (S i) rest
            end
      | _ => Raise (ValueError "wrong number of values to unpack")
      end
  end.

(** [_check_valid_components(decomposition)] *)
Definition _check_valid_components (d : KruskalTensor) : method unit :=
  fun s => (check_factors (model_rank s) (option_map shape (X s)) 0
                          (factor_matrices d), s).

Definition load_checkpoint :=
  BaseDecomposer.load_checkpoint G h5py_File load_from_hdf5_group
                                 _check_valid_components.

(** [init_components(initial_decomposition=None)]; the argument is a
    decomposition, or the path of a checkpoint file.  The call
    [self.init_random()] runs the method of the class of the object,
    which CP_ALS and CMTF_ALS override: it is [self_init_random]. *)
Definition init_components_of
           (self_init_random : method unit)
           (initial_decomposition : option (KruskalTensor + string))
  : method unit :=
  kind <~ (fun s => (Ok (Str.lower (init s)), s)) ;;
  if match initial_decomposition with Some _ => true | None => false end
     && negb (String.eqb kind "precomputed" || String.eqb kind "from_checkpoint")
  then raise (Warning
    "Precomputed components were passed even though another initialisation is used.")
  else if String.eqb kind "random" then self_init_random
  else if String.eqb kind "svd" then init_svd
  else if String.eqb kind "from_checkpoint" then
    match initial_decomposition with
    | Some (inr path) => load_checkpoint path None
    | _ => raise (NotModelled "a checkpoint path that is not a string")
    end
  else if String.eqb kind "precomputed" then
    match initial_decomposition with
    | Some (inl d) =>
        _check_valid_components d ;;;
        update (set_decomposition d)
    | _ => raise (NotModelled "precomputed components that are no decomposition")
    end
  else raise (ValueError
    "Init method must be either `random`, `svd`, `from_checkpoint` or `precomputed`.").

(** [init_components] on an object whose [init_random] is the one of
    BaseCP. *)
Definition init_components
  : option (KruskalTensor + string) -> method unit :=
  init_components_of init_random.

End Methods.

End BaseCP.

(* ================================================================== *)
(** * decomposition/cp.py: CP_ALS                                      *)
(* ================================================================== *)

Module CP_ALS.
Import Py Np Base Decomposer.

Section Methods.

(** Modelled from the spec: [base.rightsolve(lhs, rhs)] solves
    [X @ lhs.T = rhs] for [X] in the least-squares sense.  The function
    is not part of the sources at hand; what the properties below need
    of it is stated where they are proved. *)
Variable rightsolve : ndarray -> ndarray -> result ndarray.

(** Modelled from the spec: [base.non_negative_rightsolve(lhs, rhs)],
    the same with a non-negativity constraint. *)
Variable non_negative_rightsolve : ndarray -> ndarray -> result ndarray.

(** The properties [factor_matrices] and [reconstructed_X] of BaseCP. *)
Definition factor_matrices_of : method (list ndarray) :=
  d <~ attribute "decomposition" decomposition ;;
  ret (factor_matrices d).

Definition reconstructed_X : method ndarray :=
  d <~ attribute "decomposition" decomposition ;;
  r <~ lift (construct_tensor d) ;;
  update (set_decomposition (snd r)) ;;;
  ret (fst r).

(** The property [SSE] of BaseDecomposer:
    [np.linalg.norm(self.X - self.reconstructed_X)**2]. *)
Definition SSE : method R :=
  x <~ attribute "X" X ;;
  recon <~ reconstructed_X ;;
  diff <~ lift (sub x recon) ;;
  ret ((norm diff) ^ 2)%R.

(** The loop of [_get_als_lhs] over the enumerated factor matrices. *)
Definition als_lhs_step (skip_mode : nat) (acc : result ndarray)
           (p : nat * ndarray) : result ndarray :=
  V <- acc ;;
  if fst p =? skip_mode then Ok V
  else
    FT <- transpose (snd p) ;;
    G <- matmul FT (snd p) ;;
    imul V G.

(** [_get_als_lhs(skip_mode)] *)
Definition _get_als_lhs (skip_mode : nat) : method ndarray :=
  r <~ (fun s => (Ok (model_rank s), s)) ;;
  let V := ones [r; r] in
  fms <~ factor_matrices_of ;;
  lift (fold_left (als_lhs_step skip_mode)
                  (combine (seq 0 (length fms)) fms) (Ok V)).

(** [_get_als_rhs(mode)] *)
Definition _get_als_rhs (mode : nat) : method (option ndarray) :=
  x <~ attribute "X" X ;;
  fms <~ factor_matrices_of ;;
  lift (matrix_khatri_rao_product x fms (Z.of_nat mode)).

(** [_update_als_factor(mode)]: the solution is written into the
    factor matrix of the mode. *)
Definition _update_als_factor (mode : nat) : method unit :=
  lhs <~ _get_als_lhs mode ;;
  rhs <~ _get_als_rhs mode ;;
  new_factor <~ lift (match rhs with
                      | Some rhs => rightsolve lhs rhs
                      | None => Raise (NotModelled "rightsolve of None")
                      end) ;;
  d <~ attribute "decomposition" decomposition ;;
  target <~ lift (getitem (factor_matrices d) (Z.of_nat mode)) ;;
  written <~ lift (assign target new_factor) ;;
  fms <~ lift (setitem (factor_matrices d) (Z.of_nat mode) written) ;;
  update (set_decomposition (mk_KruskalTensor (rank d) fms (weights d))).

(** [_update_als_factor_non_negative(mode)]: the solution replaces the
    factor matrix of the mode. *)
Definition _update_als_factor_non_negative (mode : nat) : method unit :=
  lhs <~ _get_als_lhs mode ;;
  rhs <~ _get_als_rhs mode ;;
  new_factor <~ lift (match rhs with
                      | Some rhs => non_negative_rightsolve lhs rhs
                      | None => Raise (NotModelled "rightsolve of None")
                      end) ;;
  d <~ attribute "decomposition" decomposition ;;
  fms <~ lift (setitem (factor_matrices d) (Z.of_nat mode) new_factor) ;;
  update (set_decomposition (mk_KruskalTensor (rank d) fms (weights d))).

(** [self.decomposition.normalize_components()] *)
Definition normalize : method unit :=
  d <~ attribute "decomposition" decomposition ;;
  d' <~ lift (normalize_components d true) ;;
  update (set_decomposition d').

(** The body of the loop of [_update_als_factors] for one mode. *)
Definition update_mode (mode : nat) : method unit :=
  constraints <~ (fun s => (Ok (non_negativity_constraints s), s)) ;;
  match constraints with
  | None => raise (TypeError "'NoneType' object is not subscriptable")
  | Some l =>
      c <~ lift (getitem l (Z.of_nat mode)) ;;
      (if c : bool then _update_als_factor_non_negative mode
       else _update_als_factor mode) ;;;
      normalize
  end.

(** [_update_als_factors()] *)
Definition _update_als_factors : method unit :=
  x <~ attribute "X" X ;;
  let num_modes := length (shape x) in
  fold_left (fun acc mode => acc ;;; update_mode mode)
            (seq 0 num_modes) (ret tt).

End Methods.

End CP_ALS.

(* ================================================================== *)
(** * Notions used to state the properties of the sweep                *)
(* ================================================================== *)

Module AlsProps.
Import Py Np Base Props Sums Decomposer.

(** A rank-[r] Kruskal tensor that fits the target [x]: its factor
    matrices are well-formed matrices of [r] columns with as many rows
    as the modes of [x] are long, and it has [r] weights, held as a
    vector or as a row. *)
Definition fitting (r : nat) (x : ndarray) (kt : KruskalTensor) : Prop :=
  rank kt = r /\
  Forall (factor_matrix_of_rank r) (factor_matrices kt) /\
  map (fun F => length (rows F)) (factor_matrices kt) = shape x /\
  (shape (weights kt) = [r] \/ shape (weights kt) = [1; r]) /\
  length (data (weights kt)) = r.

(** No mode carries a non-negativity constraint. *)
Definition unconstrained (s : decomposer) : Prop :=
  exists l, non_negativity_constraints s = Some l /\
            Forall (fun c => c = false) l.

(** The entries of the tensor that the Kruskal tensor describes, and
    their squared error against the target. *)
Definition model_data (r : nat) (kt : KruskalTensor) : list R :=
  map sum (scale_rows (data (weights kt))
                      (krp_all r (map rows (factor_matrices kt)))).

Definition model_error (r : nat) (x : ndarray) (kt : KruskalTensor) : R :=
  squared_error (data x) (model_data r kt).

End AlsProps.

(* ================================================================== *)
(** * decomposition/block_parafac2.py: the ADMM sub-problem            *)
(* ================================================================== *)

Module BlockParafac2.
Import Py Np Base.

Record ADMMSubproblem : Type := mk_ADMMSubproblem {
  non_negativity : bool;
  rho : R;
  mode : Z;
  tol : R;
  max_it : nat
}.

Section Methods.

(** [np.linalg.lstsq(A, B)[0]] *)
Variable lstsq : ndarray -> ndarray -> result ndarray.

(** [prox_reg_lstsq(A, B, reg, C, D)] *)
Definition prox_reg_lstsq (A B : ndarray) (reg : R) (C D : ndarray)
  : result ndarray :=
  let reg := sqrt (reg / 2) in
  A_new <- concatenate0 A (scale reg C) ;;
  B_new <- concatenate0 B (scale reg D) ;;
  lstsq A_new B_new.

(** [init_aux_factor_matrix(decomposition)], on the factor matrix of
    the sub-problem's mode. *)
Definition init_aux_factor_matrix (self : ADMMSubproblem) (fm : ndarray)
  : ndarray :=
  maximum0 fm.

(** [update_constraint(decomposition, aux_fm, dual_variable)]: the new
    content of [aux_fm]. *)
Definition update_constraint (self : ADMMSubproblem)
           (fm aux_fm dual_variable : ndarray) : result ndarray :=
  shifted <- add fm dual_variable ;;
  assign aux_fm (maximum0 shifted).

(** [has_converged(fm, aux_fm)] *)
Definition has_converged (self : ADMMSubproblem) (fm aux_fm : ndarray)
  : result bool :=
  d <- sub fm aux_fm ;;
  Ok (Rltb (norm d) (tol self)).

(** The loop of [update_decomposition] with [n] passes left; its state
    is the factor matrix, the auxiliary and the dual variable. *)
Fixpoint admm_loop (self : ADMMSubproblem) (lhs rhs identity : ndarray)
         (n : nat) (fm aux_fm dual_variable : ndarray)
  : result (ndarray * ndarray * ndarray) :=
  match n with
  | O => Ok (fm, aux_fm, dual_variable)
  | S n' =>
      converged <- has_converged self fm aux_fm ;;
      if converged then Ok (fm, aux_fm, dual_variable)
      else
        lhsT <- transpose lhs ;;
        rhsT <- transpose rhs ;;
        auxT <- transpose aux_fm ;;
        dualT <- transpose dual_variable ;;
        target <- sub auxT dualT ;;
        solution <- prox_reg_lstsq lhsT rhsT (rho self / 2) identity target ;;
        solutionT <- transpose solution ;;
        fm <- assign fm solutionT ;;
        aux_fm <- update_constraint self fm aux_fm dual_variable ;;
        diff <- sub fm aux_fm ;;
        dual_variable <- iadd dual_variable diff ;;
        admm_loop self lhs rhs identity n' fm aux_fm dual_variable
  end.

(** [update_decomposition(X, decomposition)], on the list
    [decomposition.factor_matrices]: the list with the factor matrix
    of the sub-problem's mode as the call leaves it. *)
Definition update_decomposition (self : ADMMSubproblem) (X : ndarray)
           (factor_matrices : list ndarray) : result (list ndarray) :=
  krp <- khatri_rao factor_matrices (Some (mode self)) ;;
  lhs <- transpose krp ;;
  rhs <- unfold X (mode self) ;;
  fm <- getitem factor_matrices (mode self) ;;
  columns <- shape_at fm 1 ;;
  let I := identity columns in
  lhsT <- transpose lhs ;;
  rhsT <- transpose rhs ;;
  solution <- lstsq lhsT rhsT ;;
  solutionT <- transpose solution ;;
  fm <- assign fm solutionT ;;
  let aux_fm := init_aux_factor_matrix self fm in
  let dual_variable := zeros_like fm in
  st <- admm_loop self lhs rhs I (max_it self) fm aux_fm dual_variable ;;
  fm <- assign (fst (fst st)) (snd (fst st)) ;;
  setitem factor_matrices (mode self) fm.

End Methods.

End BlockParafac2.

(* ================================================================== *)
(** * Notions and examples used to state and check the properties      *)
(* ================================================================== *)

Import Py Np Base Props.
Open Scope R_scope.

(** The contribution of slab [i] to entry [(j, r)] of the product. *)
Definition mid_term (nJ nK nR : nat) (x kd : list R) (i j r : nat) : R :=
  dot (block nK j (block (nJ * nK)%nat i x))
      (column r (rows_of nK nR (block (nK * nR)%nat i kd))).

(** One pass through the loop body of [_mttkrp_mid_with_krp]. *)
Definition mid_step (tensor krp : ndarray) (n0 block_size : nat)
           (acc : result ndarray) (i : nat) : result ndarray :=
  product <- acc ;;
  let idx := (i mod n0)%nat in
  slab <- subarray tensor (Z.of_nat idx) ;;
  rowsblock <- slice krp (i * block_size)%nat ((i + 1) * block_size)%nat ;;
  term <- matmul slab rowsblock ;;
  iadd product term.

(** The rows of a factor matrix after [factor_matrix / norms]. *)
Definition normalised_rows (c : nat) (rws : list (list R)) : list (list R) :=
  map (fun row => zip_with (fun d x => x / d) (col_norms c rws) row) rws.

(** The factor matrix after [factor_matrix / norms[np.newaxis]]. *)
Definition normalised (c : nat) (F : ndarray) : ndarray :=
  mk_ndarray (shape F) (concat (normalised_rows c (rows F))).

(** Every row has [c] entries. *)
Definition rows_ok (c : nat) (rws : list (list R)) : Prop :=
  Forall (fun r => length r = c) rws.

(** The rows of [khatri_rao(F1, ..., Fk)]. *)
Definition krp_rows (first : list (list R)) (rest : list (list (list R)))
  : list (list R) :=
  fold_left krb_rows rest first.

(** [[f.shape[0] for f in self.factor_matrices]] *)
Definition shape_list (fms : list ndarray) : result (list nat) :=
  fold_right (fun f acc => n <- shape_at f 0 ;; tl <- acc ;; Ok (n :: tl))
             (Ok []) fms.

(** The reciprocals of the column norms of a factor matrix. *)
Definition inv_norms (r : nat) (F : ndarray) : list R :=
  map Rinv (col_norms r (rows F)).

Import Decomposer.

(** The text consists of ASCII characters only: on such text
    [Str.lower] does what [str.lower()] does. *)
Definition ascii_only (s : string) : bool :=
  forallb (fun c => (nat_of_ascii c <? 128)%nat) (list_ascii_of_string s).

(** The iteration that is loaded: the requested one, or the recorded
    final one when none is requested. *)
Definition loaded_iteration (load_it : option Z) (final : H5.attr) (it : Z)
  : Prop :=
  load_it = Some it \/ (load_it = None /\ final = H5.AInt it).

(** [f'checkpoint_{load_it:05d}'] *)
Definition group_name (it : Z) : string :=
  ("checkpoint_" ++ Str.format_05d it)%string.

(** A store with one checkpoint, of iteration 7, and a decomposer of
    rank one that loads from it. *)
Definition example_checkpoint : KruskalTensor :=
  mk_KruskalTensor 1 [mk_ndarray [1;1]%nat [1]; mk_ndarray [1;1]%nat [1]]
                   (ones [1%nat]).

Definition example_store : H5.file KruskalTensor :=
  H5.mk_file KruskalTensor
    (fun name => if String.eqb name "final_iteration"
                 then Some (H5.AInt 7) else None)
    (fun name => if String.eqb name "checkpoint_00007"
                 then Some example_checkpoint else None).

Definition example_decomposer : decomposer :=
  mk_decomposer (-1) None 1 10 (1 / 10) "from_checkpoint"
                (Some (mk_ndarray [1;1]%nat [1])) (Some 1) None None None None
                None.

(** The same decomposer with rank two, for which the stored checkpoint
    of rank one is not valid; it holds a decomposition already. *)
Definition example_rank_two : decomposer :=
  mk_decomposer (-1) None 2 10 (1 / 10) "from_checkpoint"
                (Some (mk_ndarray [1;1]%nat [1])) (Some 1)
                (Some (mk_KruskalTensor 2 [] (ones [2%nat]))) None None None
                None.

(** With [full_matrices=True], the left singular vectors of an
    [m] x [n] matrix form an [m] x [m] matrix. *)
Definition svd_full (svd_u : ndarray -> result ndarray) : Prop :=
  forall M m n, shape M = [m; n] ->
                exists U, svd_u M = Ok U /\ shape U = [m; m].

(** Factor [k] holds the first [r] left singular vectors of the
    mode-[k] unfolding of [x]. *)
Definition leading_singular_vectors (svd_u : ndarray -> result ndarray)
           (x : ndarray) (r k : nat) (F : ndarray) : Prop :=
  exists M U, unfold x (Z.of_nat k) = Ok M /\ svd_u M = Ok U /\
              BaseCP.take_columns r U = Ok F /\
              shape F = [nth k (shape x) 0%nat; r].

(** The error of [init_svd] for a rank above the smallest dimension. *)
Definition invalid_rank : exn :=
  ValueError
    "SVD initialisation does not work when rank is larger than the smallest dimension of X.".

(** A stand-in for [np.linalg.svd(M)[0]] on matrices whose left
    singular vectors are the unit vectors. *)
Definition unit_vectors_svd (M : ndarray) : result ndarray :=
  match shape M with
  | [m; n] => Ok (mk_ndarray [m; m]
                    (tabulate m m (fun i j => if (i =? j)%nat then 1 else 0)))
  | _ => Raise (NotModelled "svd of an array that is not 2-D")
  end.

(** Stand-ins for the file system, the loader and the random number
    generator, which the SVD initialisation does not reach. *)
Definition no_file : string -> result (H5.file unit) :=
  fun _ => Raise (NotModelled "no file system").

Definition no_loader : unit -> result KruskalTensor :=
  fun _ => Raise (NotModelled "no loader").

Definition no_random : list nat -> nat -> result KruskalTensor :=
  fun _ _ => Raise (NotModelled "no random numbers").

(** A decomposer of rank [r] with the SVD initialisation and the
    target [x]. *)
Definition svd_decomposer (r : nat) (x : ndarray) : decomposer :=
  mk_decomposer (-1) None r 10 (1 / 10) "SVD" (Some x) (Some 1)
                None None None None None.

Import BlockParafac2.

(** Every entry of the array is non-negative. *)
Definition nonnegative (A : ndarray) : Prop :=
  Forall (fun x => 0 <= x) (data A).

(** A solver that returns a negative entry, and a sub-problem for
    mode 0 that runs one iteration. *)
Definition example_lstsq (A B : ndarray) : result ndarray :=
  Ok (mk_ndarray [1;1]%nat [-2]).

Definition example_subproblem : ADMMSubproblem :=
  mk_ADMMSubproblem false 1 0 (1 / 1000) 1.

Import Sums AlsProps.

(** The rows of the Khatri-Rao product of all factor matrices but the
    one of the mode, as a function of the row and the column; [As] and
    [Bs] hold the rows of the factor matrices before and after it. *)
Definition design (r : nat) (As Bs : list (list (list R))) (t a : nat) : R :=
  entry_of (krp_all r (As ++ Bs)) t a.

(** What [_get_als_lhs] and [_get_als_rhs] return for the mode of the
    factor matrix [Fn] between the factor matrices [A] and [B]: the
    entrywise product of the Gram matrices of the others, and the
    unfolding of the target [x] times their Khatri-Rao product. *)
Definition mode_lhs (r : nat) (A B : list ndarray) : ndarray :=
  mk_ndarray [r; r] (tabulate r r (gram_product (map rows (A ++ B)))).

Definition mode_rhs (r : nat) (A B : list ndarray) (Fn x : ndarray)
  : ndarray :=
  let P := length (krp_all r (map rows A)) in
  let Q := length (krp_all r (map rows B)) in
  let d := length (rows Fn) in
  mk_ndarray [d; r]
    (tabulate d r
       (fun j a => moment (P * Q) (design r (map rows A) (map rows B))
                          (unfolded P d Q (data x) j) a)).

(** The state of the decomposer between two passes of the loop of
    [_update_als_factors]: it holds the target [x] and a rank-[r]
    Kruskal tensor that fits it, whose squared error is at most
    [bound]. *)
Definition sweep_invariant (r : nat) (x : ndarray) (bound : R)
           (s : decomposer) : Prop :=
  exists kt,
    X s = Some x /\ decomposition s = Some kt /\ model_rank s = r /\
    fitting r x kt /\ unconstrained s /\ model_error r x kt <= bound.

(** The method leaves the target of the decomposer in place. *)
Definition keeps_target {A} (m : method A) : Prop :=
  forall s, X (snd (m s)) = X s.

(** A [rightsolve] for systems with one unknown per row. *)
Definition example_rightsolve (lhs rhs : ndarray) : result ndarray :=
  match shape lhs, data lhs, shape rhs, data rhs with
  | [1%nat; 1%nat], [l], [1%nat; 1%nat], [b] =>
      if is_zero l then Raise (NotModelled "a singular system")
      else Ok (mk_ndarray [1%nat; 1%nat] [b / l])
  | _, _, _, _ => Raise (NotModelled "systems of other sizes")
  end.

(** A rank-one model of a 1 x 1 target. *)
Definition example_factor : ndarray := mk_ndarray [1%nat; 1%nat] [1].

Definition example_model : KruskalTensor :=
  mk_KruskalTensor 1 [example_factor; example_factor] (mk_ndarray [1%nat] [1]).

Definition example_als : decomposer :=
  mk_decomposer (-1) None 1 10 (1 / 10) "precomputed"
                (Some (mk_ndarray [1%nat; 1%nat] [1])) (Some 1)
                (Some example_model) (Some 0%Z) None None
                (Some [false; false]).

(** A [rightsolve] for the systems of rank one, [S * l = b] with one
    unknown per row: their least-squares solution, the one of least
    norm when [l] is zero. *)
Definition rank_one_rightsolve (lhs rhs : ndarray) : result ndarray :=
  match shape lhs, data lhs, shape rhs with
  | [1%nat; 1%nat], [l], [m; 1%nat] =>
      Ok (mk_ndarray [m; 1%nat]
            (map (fun b => if is_zero l then 0 else b / l) (data rhs)))
  | _, _, _ => Raise (NotModelled "systems of other sizes")
  end.

(** A 2 x 1 target and a rank-one model of it that does not fit it:
    the squared error is 20.  One sweep gives the model that fits it
    exactly. *)
Definition example_target : ndarray := mk_ndarray [2%nat; 1%nat] [3; 4].

Definition example_direction : ndarray := mk_ndarray [2%nat; 1%nat] [1; 0].

Definition example_fitted : ndarray :=
  mk_ndarray [2%nat; 1%nat] [3 / 5; 4 / 5].

Definition example_start : KruskalTensor :=
  mk_KruskalTensor 1 [example_direction; example_factor]
                   (mk_ndarray [1%nat] [1]).

Definition example_swept : KruskalTensor :=
  mk_KruskalTensor 1 [example_fitted; example_factor]
                   (mk_ndarray [1%nat] [5]).

(** A decomposer with that target and model and one iteration to run;
    the relative change and the previous error are what [_init_fit]
    sets them to. *)
Definition example_fit : decomposer :=
  mk_decomposer (-1) None 1 1 (1 / 10) "precomputed"
                (Some example_target) (Some 5)
                (Some example_start) (Some 0%Z) (Some Infinity) (Some 20)
                (Some [false; false]).

(** The same model with a target of zeros: the first update gives a
    factor matrix whose column is the zero vector. *)
Definition example_zeros : ndarray := mk_ndarray [2%nat; 1%nat] [0; 0].

Definition example_zero_target : decomposer :=
  mk_decomposer (-1) None 1 1 (1 / 10) "precomputed"
                (Some example_zeros) (Some 0)
                (Some example_start) (Some 0%Z) (Some Infinity) (Some 1)
                (Some [false; false]).

(** A decomposer without constraints whose relative change is below
    the tolerance already. *)
Definition example_converged : decomposer :=
  mk_decomposer (-1) None 1 10 (1 / 10) "precomputed"
                (Some (mk_ndarray [1%nat; 1%nat] [1])) (Some 1)
                (Some example_model) (Some 0%Z) (Some (Finite 0)) (Some 0)
                None.

(* ================================================================== *)
(** * base.py: the remaining functions                                 *)
(* ================================================================== *)

Module BaseRest.

(** [A[:, k]]: a column of a matrix. *)
Definition column_of (A : ndarray) (k : Z) : result ndarray :=
  match shape A with
  | [r; c] =>
      j <- index c k ;;
      Ok (mk_ndarray [r] (column j (rows_of r c (data A))))
  | [] | [_] => Raise IndexError
  | _ => Raise (NotModelled "a column of an array of more than two axes")
  end.

(** [kron_binary_vectors(u, v)] *)
Definition kron_binary_vectors (u v : ndarray) : result ndarray :=
  match shape u with
  | [n] =>
      match shape v with
      | [m] =>
          let kprod := flat_map (fun x => map (fun y => x * y) (data v))
                                (data u) in
          Ok (mk_ndarray [(n * m)%nat] kprod)
      | _ => Raise (ValueError "wrong number of values to unpack")
      end
  | _ => Raise (ValueError "wrong number of values to unpack")
  end.

(** [kron_binary(A, B)]: the product of the operands broadcast to four
    axes, [(n, p, m, q)], read as a matrix of [n * p] rows. *)
Definition kron_binary (A B : ndarray) : result ndarray :=
  match shape A with
  | [n; m] =>
      match shape B with
      | [p; q] =>
          let kprod :=
            flat_map
              (fun ra =>
                 flat_map
                   (fun rb =>
                      flat_map (fun a => map (fun b => a * b) rb) ra)
                   (rows_of p q (data B)))
              (rows_of n m (data A)) in
          Ok (mk_ndarray [(n * p)%nat; (m * q)%nat] kprod)
      | _ => Raise (ValueError "wrong number of values to unpack")
      end
  | _ => Raise (ValueError "wrong number of values to unpack")
  end.

(** [kron(factors...)] *)
Definition kron (factors : list ndarray) : result ndarray :=
  product <- getitem factors 0 ;;
  fold_left (fun acc f => product <- acc ;; kron_binary product f)
            (tl factors) (Ok product).

(** [unflatten_factors(A, rank, sizes)]: the loop keeps the offset and
    the factors read so far. *)
Definition unflatten_step (A : ndarray) (rank : nat)
           (acc : result (nat * list ndarray)) (s : nat)
  : result (nat * list ndarray) :=
  st <- acc ;;
  let offset := fst st in
  let stop := (offset + s * rank)%nat in
  piece <- slice A offset stop ;;
  matrix <- reshape piece [Some s; Some rank] ;;
  Ok (stop, snd st ++ [matrix]).

Definition unflatten_factors (A : ndarray) (rank : nat) (sizes : list nat)
  : result (list ndarray) :=
  st <- fold_left (unflatten_step A rank) sizes (Ok (0%nat, [])) ;;
  Ok (snd st).

(** [np.cumsum(l)] *)
Definition cumsum (l : list nat) : list nat :=
  snd (fold_left (fun st x => ((fst st + x)%nat, snd st ++ [(fst st + x)%nat]))
                 l (0%nat, [])).

(** [A.ravel()] *)
Definition ravel (A : ndarray) : ndarray :=
  mk_ndarray [prod (shape A)] (data A).

(** [buffer[a:b] = value] on a one-dimensional buffer, for
    non-negative bounds: the bounds are clamped to its length, and the
    value has as many entries as the slice, or a single one. *)
Definition set_slice (buffer : ndarray) (a b : nat) (value : ndarray)
  : result ndarray :=
  match shape buffer, shape value with
  | [n], [m] =>
      let start := Nat.min a n in
      let count := (Nat.min b n - start)%nat in
      if m =? count
      then Ok (mk_ndarray [n] (firstn start (data buffer) ++ data value
                               ++ skipn (start + count) (data buffer)))
      else if m =? 1
      then Ok (mk_ndarray [n] (firstn start (data buffer)
                               ++ repeat (hd 0 (data value)) count
                               ++ skipn (start + count) (data buffer)))
      else Raise (ValueError "could not broadcast input array")
  | _, _ => Raise (NotModelled "slice assignment on other shapes")
  end.

Section Flatten.

(** What the fresh memory of [np.empty] holds, position by position. *)
Variable garbage : nat -> R.

(** [np.empty(n)] *)
Definition empty (n : nat) : ndarray :=
  mk_ndarray [n] (map garbage (seq 0 n)).

(** One pass of the loop of [flatten_factors]. *)
Definition flatten_step (acc : result ndarray)
           (item : nat * (nat * ndarray)) : result ndarray :=
  flattened <- acc ;;
  let offset := fst item in
  let size := fst (snd item) in
  let factor := snd (snd item) in
  set_slice flattened offset (offset + size) (ravel factor).

(** [flatten_factors(factors)].  [np.prod] of the shape of a
    zero-dimensional array and [np.sum] of no sizes at all are
    floating-point numbers, which [np.empty] refuses as a length. *)
Definition flatten_factors (factors : list ndarray) : result ndarray :=
  let sizes := map (fun factor => prod (shape factor)) factors in
  let offsets := removelast (cumsum (0%nat :: sizes)) in
  if (length factors =? 0)
     || existsb (fun factor => length (shape factor) =? 0) factors
  then Raise (TypeError
                "'numpy.float64' object cannot be interpreted as an integer")
  else
    let flattened := empty (list_sum sizes) in
    fold_left flatten_step (combine offsets (combine sizes factors))
              (Ok flattened).

End Flatten.

(** [weights * factors[0]] in [ktensor]: operands of one shape are
    multiplied entry by entry, a row of weights is broadcast. *)
Definition times (weights M : ndarray) : result ndarray :=
  if list_eq_dec Nat.eq_dec (shape weights) (shape M)
  then Ok (mk_ndarray (shape M) (zip_with Rmult (data weights) (data M)))
  else mul_row weights M.

(** [np.ones_like(A)] *)
Definition ones_like (A : ndarray) : ndarray := ones (shape A).

(** [ktensor(factors..., weights=None)] *)
Definition ktensor (factors : list ndarray) (weights : option ndarray)
  : result ndarray :=
  weights <- match weights with
             | None => first <- getitem factors 0 ;; Ok (ones_like first)
             | Some w => Ok w
             end ;;
  let weights :=
    if length (shape weights) =? 1
    then mk_ndarray (1%nat :: shape weights) (data weights)
    else weights in
  shp <- fold_right (fun f acc => n <- shape_at f 0 ;; tl <- acc ;; Ok (n :: tl))
                    (Ok []) factors ;;
  first <- getitem factors 0 ;;
  scaled <- times weights first ;;
  krp <- khatri_rao (tl factors) None ;;
  krpT <- transpose krp ;;
  tensor <- matmul scaled krpT ;;
  fold tensor 0 shp.

Section Random.

(** The random number generator: what the [k]-th call of
    [np.random.randn(size, rank)] and of
    [np.random.uniform(size=(size, rank))] returns. *)
Variable randn : nat -> nat -> nat -> ndarray.
Variable uniform : nat -> nat -> nat -> ndarray.

(** [[draw(size, rank) for size in sizes]] *)
Definition draw_all (draw : nat -> nat -> nat -> ndarray) (rank : nat)
           (sizes : list nat) : list ndarray :=
  map (fun p => draw (fst p) (snd p) rank)
      (combine (seq 0 (length sizes)) sizes).

(** [KruskalTensor.random_init(sizes, rank, random_method='normal')] *)
Definition random_init (sizes : list nat) (rank : nat)
           (random_method : string) : result KruskalTensor :=
  factor_matrices <-
    (if String.eqb (Str.lower random_method) "normal"
     then Ok (draw_all randn rank sizes)
     else if String.eqb (Str.lower random_method) "uniform"
     then Ok (draw_all uniform rank sizes)
     else Raise (ValueError
                   "`random_method` must be either 'normal' or 'uniform'")) ;;
  kt <- KruskalTensor_init factor_matrices None ;;
  normalize_components kt false.

End Random.

End BaseRest.

(* ================================================================== *)
(** * Notions used to state the properties of these functions          *)
(* ================================================================== *)

(** The running sums of a list from [acc] on, and the offsets at which
    consecutive pieces of the given sizes start. *)
Fixpoint sums_from (acc : nat) (l : list nat) : list nat :=
  match l with
  | [] => []
  | x :: rest => (acc + x)%nat :: sums_from (acc + x) rest
  end.

Fixpoint offsets_from (o : nat) (sizes : list nat) : list nat :=
  match sizes with
  | [] => []
  | s :: rest => o :: offsets_from (o + s) rest
  end.

(* ================================================================== *)
(** * decomposition/base_decomposer.py and decomposition/cp.py: the     *)
(** * error measures and the iteration loop                            *)
(* ================================================================== *)

Module Fit.
Import Py Np Base Decomposer.

Definition set_rel_function_change (c : ext_real) (s : decomposer)
  : decomposer :=
  mk_decomposer (checkpoint_frequency s) (checkpoint_path s) (model_rank s)
    (max_its s) (convergence_tol s) (init s) (X s) (X_norm s)
    (decomposition s) (current_iteration s) (Some c) (prev_SSE s)
    (non_negativity_constraints s).

Definition set_prev_SSE (v : R) (s : decomposer) : decomposer :=
  mk_decomposer (checkpoint_frequency s) (checkpoint_path s) (model_rank s)
    (max_its s) (convergence_tol s) (init s) (X s) (X_norm s)
    (decomposition s) (current_iteration s) (rel_function_change s) (Some v)
    (non_negativity_constraints s).

Definition set_non_negativity_constraints (l : list bool) (s : decomposer)
  : decomposer :=
  mk_decomposer (checkpoint_frequency s) (checkpoint_path s) (model_rank s)
    (max_its s) (convergence_tol s) (init s) (X s) (X_norm s)
    (decomposition s) (current_iteration s) (rel_function_change s)
    (prev_SSE s) (Some l).

(** Reading an attribute that the constructor has set. *)
Definition read {A} (get : decomposer -> A) : method A :=
  fun s => (Ok (get s), s).

(** ** The error measures of BaseDecomposer

    The quotients are quotients of floating-point numbers, which give
    [inf] or [nan] for a zero divisor: that case is outside the
    model. *)

(** The property [explained_variance]:
    [1 - self.SSE/np.linalg.norm(self.X)**2]. *)
Definition explained_variance : method R :=
  sse <~ CP_ALS.SSE ;;
  x <~ attribute "X" X ;;
  let n2 := ((norm x) ^ 2)%R in
  if is_zero n2 then raise (NotModelled "division by zero")
  else ret (1 - sse / n2)%R.

(** The property [MSE]: [self.SSE/np.prod(self.X.shape)]. *)
Definition MSE : method R :=
  sse <~ CP_ALS.SSE ;;
  x <~ attribute "X" X ;;
  let size := prod (shape x) in
  if size =? 0 then raise (NotModelled "division by zero")
  else ret (sse / INR size)%R.

(** The property [RMSE]: [np.sqrt(self.MSE)]. *)
Definition RMSE : method R :=
  mse <~ MSE ;;
  ret (sqrt mse).

(** [loss()] of BaseCP *)
Definition loss : method R := CP_ALS.SSE.

Section Methods.

Variable rightsolve : ndarray -> ndarray -> result ndarray.
Variable non_negative_rightsolve : ndarray -> ndarray -> result ndarray.

(** [KruskalTensor.random_init(sizes, rank)]: draws from the random
    number generator. *)
Variable random_init : list nat -> nat -> result KruskalTensor.

(** Attributes that the constructor sets and that the object record
    does not hold: [print_frequency], and the loggers, each given by
    what its [log(self)] does. *)
Variable print_frequency : Z.
Variable loggers : list (method unit).

(** [store_checkpoint()]: it writes the decomposition to the HDF5 file
    of the checkpoint path; the file system is not part of the
    model. *)
Variable store_checkpoint : method unit.

(** [np.abs(A)] *)
Definition absolute (A : ndarray) : ndarray :=
  mk_ndarray (shape A) (map Rabs (data A)).

(** The body of the loop of [CP_ALS.init_random]. *)
Definition init_random_step (p : nat * bool) : method unit :=
  d <~ attribute "decomposition" decomposition ;;
  fm <~ lift (getitem (factor_matrices d) (Z.of_nat (fst p))) ;;
  if snd p then
    written <~ lift (assign fm (absolute fm)) ;;
    fms <~ lift (setitem (factor_matrices d) (Z.of_nat (fst p)) written) ;;
    update (set_decomposition (mk_KruskalTensor (rank d) fms (weights d)))
  else ret tt.

(** [init_random()] of CP_ALS *)
Definition init_random : method unit :=
  BaseCP.init_random random_init ;;;
  constraints <~ read non_negativity_constraints ;;
  match constraints with
  | None => ret tt
  | Some l =>
      fold_left (fun acc p => acc ;;; init_random_step p)
                (combine (seq 0 (length l)) l) (ret tt)
  end.

(** [_init_fit(X, max_its, initial_decomposition)] of CP_ALS *)
Definition _init_fit
           (init_components : option (KruskalTensor + string) -> method unit)
           (x : ndarray) (its : option Z)
           (initial_decomposition : option (KruskalTensor + string))
  : method unit :=
  BaseDecomposer._init_fit init_components x its initial_decomposition ;;;
  update (set_rel_function_change Infinity) ;;;
  sse <~ CP_ALS.SSE ;;
  update (set_prev_SSE sse).

(** [_update_convergence()] *)
Definition _update_convergence : method unit :=
  prev <~ attribute "prev_SSE" prev_SSE ;;
  sse <~ CP_ALS.SSE ;;
  divisor <~ attribute "prev_SSE" prev_SSE ;;
  (if is_zero divisor then raise (NotModelled "division by zero")
   else update (set_rel_function_change
                  (Finite ((prev - sse) / divisor)%R))) ;;;
  sse <~ CP_ALS.SSE ;;
  update (set_prev_SSE sse).

(** [a % b == 0] on integers; Python raises [ZeroDivisionError] for
    [b = 0], an exception that the model does not have. *)
Definition divides (b a : Z) : method bool :=
  if (b =? 0)%Z then raise (NotModelled "ZeroDivisionError")
  else ret ((a mod b =? 0)%Z).

(** [_after_fit_iteration()] *)
Definition _after_fit_iteration : method unit :=
  fold_left (fun acc log => acc ;;; log) loggers (ret tt) ;;;
  it <~ attribute "current_iteration" current_iteration ;;
  frequency <~ read checkpoint_frequency ;;
  due <~ divides frequency (it + 1)%Z ;;
  (if due then
     frequency <~ read checkpoint_frequency ;;
     if (frequency >? 0)%Z then store_checkpoint else ret tt
   else ret tt) ;;;
  it <~ attribute "current_iteration" current_iteration ;;
  update (set_current_iteration (it + 1)%Z).

(** The message that [_fit] prints is not modelled; building it reads
    [self.MSE], [self.loss()] and [self._rel_function_change]. *)
Definition print_progress : method unit :=
  MSE ;;; loss ;;;
  attribute "_rel_function_change" rel_function_change ;;;
  ret tt.

(** [abs(self._rel_function_change) < self.convergence_tol] *)
Definition below (change : ext_real) (tolerance : R) : bool :=
  match change with
  | Finite c => Rltb (Rabs c) tolerance
  | Infinity => false
  end.

(** The body of the loop of [_fit] after the convergence test. *)
Definition fit_iteration (it : Z) : method unit :=
  CP_ALS._update_als_factors rightsolve non_negative_rightsolve ;;;
  _update_convergence ;;;
  due <~ divides print_frequency it ;;
  (if due && (print_frequency >? 0)%Z then print_progress else ret tt) ;;;
  _after_fit_iteration.

(** The loop of [_fit] over the iterations that are left; it returns
    the value that the loop variable [it] holds when the loop is left,
    if it was assigned at all. *)
Fixpoint fit_loop (its : list Z) (last : option Z) : method (option Z) :=
  match its with
  | [] => ret last
  | it :: rest =>
      change <~ attribute "_rel_function_change" rel_function_change ;;
      tolerance <~ read convergence_tol ;;
      if below change tolerance then ret (Some it)
      else fit_iteration it ;;; fit_loop rest (Some it)
  end.

(** [_fit()] of CP_ALS.  Reading the loop variable after a loop that
    never ran is an [UnboundLocalError], which is a [NameError]. *)
Definition _fit : method unit :=
  constraints <~ read non_negativity_constraints ;;
  match constraints with
  | Some _ => ret tt
  | None =>
      fms <~ CP_ALS.factor_matrices_of ;;
      update (set_non_negativity_constraints (repeat false (length fms)))
  end ;;;
  n <~ read max_its ;;
  last <~ fit_loop (map Z.of_nat (seq 0 (Z.to_nat n))) None ;;
  match last with
  | None => raise (NameError "it")
  | Some it =>
      frequency <~ read checkpoint_frequency ;;
      due <~ divides frequency (it + 1)%Z ;;
      if negb due then store_checkpoint else ret tt
  end.

End Methods.

End Fit.

(* ================================================================== *)
(** * Notions used to state the properties of the loop                 *)
(* ================================================================== *)

(** The method changes at most the decomposition and the two
    convergence trackers of the decomposer. *)
Definition fitting_frame {A} (m : Decomposer.method A) : Prop :=
  forall s, exists d change prev,
    snd (m s)
    = Decomposer.mk_decomposer
        (Decomposer.checkpoint_frequency s) (Decomposer.checkpoint_path s)
        (Decomposer.model_rank s) (Decomposer.max_its s)
        (Decomposer.convergence_tol s) (Decomposer.init s) (Decomposer.X s)
        (Decomposer.X_norm s) d (Decomposer.current_iteration s) change prev
        (Decomposer.non_negativity_constraints s).

(** The method changes at most the decomposition of the decomposer. *)
Definition decomposition_frame {A} (m : Decomposer.method A) : Prop :=
  forall s, exists d,
    snd (m s)
    = Decomposer.mk_decomposer
        (Decomposer.checkpoint_frequency s) (Decomposer.checkpoint_path s)
        (Decomposer.model_rank s) (Decomposer.max_its s)
        (Decomposer.convergence_tol s) (Decomposer.init s) (Decomposer.X s)
        (Decomposer.X_norm s) d (Decomposer.current_iteration s)
        (Decomposer.rel_function_change s) (Decomposer.prev_SSE s)
        (Decomposer.non_negativity_constraints s).

(** The method leaves the value of [get] on the decomposer as it is. *)
Definition preserves {A B} (get : Decomposer.decomposer -> B)
           (m : Decomposer.method A) : Prop :=
  forall s, get (snd (m s)) = get s.

(** The factor matrices with the absolute value taken of those whose
    mode carries a non-negativity constraint. *)
Fixpoint absolute_where (constraints : list bool) (fms : list Np.ndarray)
  : list Np.ndarray :=
  match constraints, fms with
  | flag :: constraints', F :: fms' =>
      (if flag then Fit.absolute F else F) :: absolute_where constraints' fms'
  | _, _ => fms
  end.

(** The decomposer as [_fit] has it when its loop starts: with the
    default constraints, one [False] for every factor matrix, filled
    in when none were given. *)
Definition fit_entry (s : Decomposer.decomposer) : Decomposer.decomposer :=
  match Decomposer.non_negativity_constraints s, Decomposer.decomposition s
  with
  | None, Some d =>
      Fit.set_non_negativity_constraints
        (repeat false (length (Base.factor_matrices d))) s
  | _, _ => s
  end.

(** The method advances the iteration counter by one when it returns
    and leaves it as it is when it raises. *)
Definition counts {A} (m : Decomposer.method A) : Prop :=
  forall s c,
    Decomposer.current_iteration s = Some c ->
    Decomposer.current_iteration (snd (m s))
    = Some (match fst (m s) with
            | Py.Ok _ => (c + 1)%Z
            | Py.Raise _ => c
            end).

Section Completed.

Variable rightsolve : Np.ndarray -> Np.ndarray -> Py.result Np.ndarray.
Variable non_negative_rightsolve
  : Np.ndarray -> Np.ndarray -> Py.result Np.ndarray.
Variable print_frequency : Z.
Variable loggers : list (Decomposer.method unit).
Variable store_checkpoint : Decomposer.method unit.

(** The number of passes through the loop of [_fit] over [its] that
    run to their end, from the decomposer [s] on: the loop is left at
    the first pass that finds the relative change below the tolerance,
    and at the first one that raises. *)
Fixpoint completed (its : list Z) (s : Decomposer.decomposer) : nat :=
  match its with
  | [] => 0
  | it :: rest =>
      match Decomposer.rel_function_change s with
      | None => 0
      | Some change =>
          if Fit.below change (Decomposer.convergence_tol s) then 0
          else
            match Fit.fit_iteration rightsolve non_negative_rightsolve
                    print_frequency loggers store_checkpoint it s with
            | (Py.Ok _, s') => S (completed rest s')
            | (Py.Raise _, _) => 0
            end
      end
  end.

(** The number of iterations that a call of [_fit] completes: none
    when the call raises before its loop, for want of a decomposition
    to take the default constraints from. *)
Definition completed_iterations (s : Decomposer.decomposer) : nat :=
  match Decomposer.non_negativity_constraints s, Decomposer.decomposition s
  with
  | None, None => 0
  | _, _ =>
      completed (map Z.of_nat (seq 0 (Z.to_nat (Decomposer.max_its s))))
                (fit_entry s)
  end.

End Completed.

Example unfold_2x3_mode1 :
unfold (mk_ndarray [2;3]%nat [1;2;3;4;5;6]) 1
= Ok (mk_ndarray [3;2]%nat [1;4;2;5;3;6]).
Proof. reflexivity. Qed.

Example unfold_2x2x2_mode2 :
unfold (mk_ndarray [2;2;2]%nat [1;2;3;4;5;6;7;8]) 2
= Ok (mk_ndarray [2;4]%nat [1;3;5;7;2;4;6;8]).
Proof. reflexivity. Qed.

Example unfold_2x2x2_mode1 :
unfold (mk_ndarray [2;2;2]%nat [1;2;3;4;5;6;7;8]) 1
= Ok (mk_ndarray [2;4]%nat [1;2;5;6;3;4;7;8]).
Proof. reflexivity. Qed.

Example fold_unfold_neg1 :
(M <- unfold (mk_ndarray [2;3]%nat [1;2;3;4;5;6]) (-1) ;; fold M (-1) [2;3]%nat)
= Ok (mk_ndarray [2;3]%nat [1;2;3;4;5;6]).
Proof. reflexivity. Qed.

Example unfold_empty_mode :
unfold (mk_ndarray [0;3]%nat []) 0 = Raise (ValueError "cannot reshape array").
Proof. reflexivity. Qed.

(* ================================================================== *)
(** * Lists of blocks                                                  *)
(* ================================================================== *)

Section Blocks.
Variable A : Type.

Lemma flat_map_map_seq (f : nat -> list A) (g : nat -> nat) (l : list nat) :
  flat_map f (map g l) = flat_map (fun i => f (g i)) l.
Proof.
  induction l as [|x l IH]; simpl; [reflexivity | now rewrite IH].
Qed.

Lemma flat_map_seq_S (f : nat -> list A) (N : nat) :
  flat_map f (seq 0 (S N)) = f 0%nat ++ flat_map (fun i => f (S i)) (seq 0 N).
Proof.
  simpl. now rewrite <- seq_shift, flat_map_map_seq.
Qed.

Lemma flat_map_seq_ext (f g : nat -> list A) (a N : nat) :
  (forall i, (a <= i < a + N)%nat -> f i = g i) ->
  flat_map f (seq a N) = flat_map g (seq a N).
Proof.
  revert a; induction N as [|N IH]; intros a H; simpl; [reflexivity|].
  rewrite H by lia. f_equal. apply IH. intros i Hi. apply H. lia.
Qed.

Lemma flat_map_seq_length (f : nat -> list A) (Q a N : nat) :
  (forall i, (a <= i < a + N)%nat -> length (f i) = Q) ->
  length (flat_map f (seq a N)) = (N * Q)%nat.
Proof.
  revert a; induction N as [|N IH]; intros a H; simpl; [reflexivity|].
  rewrite length_app, H by lia. f_equal. apply IH. intros i Hi. apply H. lia.
Qed.

Lemma seq_as_map (a N : nat) : seq a N = map (fun i => (a + i)%nat) (seq 0 N).
Proof.
  revert a; induction N as [|N IH]; intros a; simpl; [reflexivity|].
  f_equal; [lia|]. rewrite <- (seq_shift N 0), map_map, (IH (S a)).
  apply map_ext. intros; lia.
Qed.

(** Row-major flattening of two nested ranges is one range. *)
Lemma flat_map_seq_mul (g : nat -> list A) (d P : nat) :
  flat_map (fun j => flat_map (fun p => g (j * P + p)%nat) (seq 0 P)) (seq 0 d)
  = flat_map g (seq 0 (d * P)).
Proof.
  induction d as [|d IH].
  - reflexivity.
  - replace (S d * P)%nat with (d * P + P)%nat by lia.
    rewrite seq_app, flat_map_app, <- IH.
    replace (S d) with (d + 1)%nat by lia.
    rewrite seq_app, flat_map_app. f_equal. simpl.
    rewrite app_nil_r.
    rewrite (seq_as_map (d * P) P).
    rewrite flat_map_map_seq. apply flat_map_seq_ext.
    intros i _. f_equal.
Qed.

End Blocks.

(* ================================================================== *)
(** * Blocks of a row-major buffer                                     *)
(* ================================================================== *)

Lemma block_0 (Q : nat) (l : list R) : block Q 0 l = firstn Q l.
Proof. reflexivity. Qed.

Lemma block_S (Q i : nat) (l : list R) :
  block Q (S i) l = block Q i (skipn Q l).
Proof.
  unfold block. simpl. now rewrite Nat.add_comm, skipn_skipn.
Qed.

Lemma block_length (Q i : nat) (l : list R) :
  ((i + 1) * Q <= length l)%nat -> length (block Q i l) = Q.
Proof.
  intros H. unfold block. rewrite length_firstn, length_skipn. lia.
Qed.

(** Concatenating the consecutive blocks of a buffer gives the buffer. *)
Lemma flat_map_block (Q N : nat) (l : list R) :
  length l = (N * Q)%nat ->
  flat_map (fun i => block Q i l) (seq 0 N) = l.
Proof.
  revert l; induction N as [|N IH]; intros l H.
  - destruct l; [reflexivity | discriminate].
  - rewrite flat_map_seq_S, block_0.
    rewrite (flat_map_seq_ext _ _ (fun i => block Q i (skipn Q l)))
      by (intros; apply block_S).
    rewrite IH by (rewrite length_skipn; lia).
    apply firstn_skipn.
Qed.

(** The [i]-th block of a concatenation of equally long pieces. *)
Lemma block_flat_map (Q N : nat) (f : nat -> list R) (i : nat) :
  (forall k, (k < N)%nat -> length (f k) = Q) ->
  (i < N)%nat ->
  block Q i (flat_map f (seq 0 N)) = f i.
Proof.
  revert f i; induction N as [|N IH]; intros f i Hlen Hi; [lia|].
  rewrite flat_map_seq_S.
  assert (H0 : length (f 0%nat) = Q) by (apply Hlen; lia).
  destruct i as [|i].
  - rewrite block_0, firstn_app, H0, Nat.sub_diag, firstn_O, app_nil_r.
    rewrite <- H0. apply firstn_all.
  - assert (Hs : skipn Q (f 0%nat) = []) by (rewrite <- H0; apply skipn_all).
    rewrite block_S, skipn_app, H0, Nat.sub_diag, skipn_O, Hs. simpl.
    rewrite (IH (fun k => f (S k))); [reflexivity | | lia].
    intros k Hk. apply Hlen. lia.
Qed.

Lemma block_index_bound (P d Q p j n : nat) :
  n = (P * d * Q)%nat -> (p < P)%nat -> (j < d)%nat ->
  ((p * d + j + 1) * Q <= n)%nat.
Proof.
  intros -> Hp Hj. apply Nat.mul_le_mono_r.
  replace (p * d + j + 1)%nat with (p * d + S j)%nat by lia.
  apply Nat.le_trans with (p * d + d)%nat; [lia|].
  replace (p * d + d)%nat with (S p * d)%nat by lia.
  apply Nat.mul_le_mono_r. lia.
Qed.

Lemma axis_to_front_length (P d Q : nat) (l : list R) :
  length l = (P * d * Q)%nat ->
  length (axis_to_front P d Q l) = (d * (P * Q))%nat.
Proof.
  intros H. unfold axis_to_front.
  apply flat_map_seq_length. intros j Hj.
  apply flat_map_seq_length. intros p Hp.
  apply block_length. apply (block_index_bound P d); [assumption | lia | lia].
Qed.

(** Every [Q]-block of the moved buffer is a [Q]-block of the source:
    block [(j, p)] of the result is block [(p, j)] of the argument. *)
Lemma block_axis_to_front (P d Q : nat) (l : list R) (j p : nat) :
  length l = (P * d * Q)%nat -> (j < d)%nat -> (p < P)%nat ->
  block Q (j * P + p) (axis_to_front P d Q l) = block Q (p * d + j) l.
Proof.
  intros H Hj Hp.
  assert (Hdm : forall a b, (b < P)%nat ->
                 ((a * P + b) mod P * d + (a * P + b) / P = b * d + a)%nat).
  { intros a b Hb.
    rewrite (Nat.add_comm (a * P) b), Nat.Div0.mod_add, Nat.mod_small by lia.
    rewrite Nat.div_add by lia. rewrite Nat.div_small by lia. lia. }
  assert (E : axis_to_front P d Q l
              = flat_map (fun k => block Q (k mod P * d + k / P) l)
                         (seq 0 (d * P))).
  { unfold axis_to_front. rewrite <- flat_map_seq_mul.
    apply flat_map_seq_ext. intros j0 _.
    apply flat_map_seq_ext. intros p0 Hp0.
    cbv beta. now rewrite Hdm by lia. }
  rewrite E, (block_flat_map Q).
  - now rewrite Hdm.
  - intros k Hk. apply block_length.
    apply (block_index_bound P d); [assumption | | ].
    + apply Nat.mod_upper_bound; lia.
    + apply Nat.Div0.div_lt_upper_bound; lia.
  - apply Nat.lt_le_trans with (j * P + P)%nat; [lia|].
    replace (j * P + P)%nat with (S j * P)%nat by lia.
    apply Nat.mul_le_mono_r. lia.
Qed.

(** Moving an axis to the front and back again restores the buffer. *)
Lemma axis_roundtrip (P d Q : nat) (l : list R) :
  length l = (P * d * Q)%nat ->
  axis_from_front P d Q (axis_to_front P d Q l) = l.
Proof.
  intros H. unfold axis_from_front.
  rewrite (flat_map_seq_ext _ _
             (fun p => flat_map (fun j => block Q (p * d + j) l) (seq 0 d))).
  - rewrite (flat_map_seq_mul _ (fun k => block Q k l) P d).
    now apply flat_map_block.
  - intros p Hp. apply flat_map_seq_ext. intros j Hj.
    apply block_axis_to_front; [assumption | lia | lia].
Qed.

(** With no axes in front of it, the first axis already is in front. *)
Lemma axis_to_front_1 (d Q : nat) (l : list R) :
  length l = (d * Q)%nat -> axis_to_front 1 d Q l = l.
Proof.
  intros H. unfold axis_to_front. simpl.
  rewrite (flat_map_seq_ext _ _ (fun j => block Q j l)).
  - now apply flat_map_block.
  - intros j _. now rewrite app_nil_r.
Qed.

Lemma axis_from_front_1 (d Q : nat) (l : list R) :
  length l = (d * Q)%nat -> axis_from_front 1 d Q l = l.
Proof.
  intros H. unfold axis_from_front. simpl. rewrite app_nil_r.
  rewrite (flat_map_seq_ext _ _ (fun j => block Q j l)).
  - now apply flat_map_block.
  - intros j _. f_equal. lia.
Qed.

(* ================================================================== *)
(** * Shapes and indices                                               *)
(* ================================================================== *)

Lemma prod_app (a b : list nat) : prod (a ++ b) = (prod a * prod b)%nat.
Proof.
  induction a as [|x a IH].
  - simpl. lia.
  - change (prod ((x :: a) ++ b)) with (x * prod (a ++ b))%nat.
    change (prod (x :: a)) with (x * prod a)%nat. rewrite IH. lia.
Qed.

Lemma prod_cons (x : nat) (a : list nat) : prod (x :: a) = (x * prod a)%nat.
Proof. reflexivity. Qed.

Lemma split_at_nth (s : list nat) (k : nat) :
  (k < length s)%nat -> s = firstn k s ++ nth k s 0%nat :: skipn (S k) s.
Proof.
  revert k; induction s as [|x s IH]; intros k Hk; simpl in Hk; [lia|].
  destruct k as [|k]; simpl; [reflexivity|]. f_equal. apply IH. lia.
Qed.

Lemma index_range (nd : nat) (n : Z) :
  (- Z.of_nat nd <= n < Z.of_nat nd)%Z ->
  exists k, index nd n = Ok k /\ (k < nd)%nat.
Proof.
  intros H. unfold index.
  destruct (Z.leb_spec 0 n); destruct (Z.ltb_spec n (Z.of_nat nd)); simpl;
    try lia.
  - exists (Z.to_nat n). split; [reflexivity | lia].
  - destruct (Z.leb_spec (- Z.of_nat nd) n); destruct (Z.ltb_spec n 0); simpl;
      try lia.
    exists (Z.to_nat (n + Z.of_nat nd)). split; [reflexivity | lia].
Qed.

Lemma index_bound (nd : nat) (n : Z) (k : nat) :
  index nd n = Ok k -> (k < nd)%nat.
Proof.
  unfold index.
  destruct (Z.leb_spec 0 n); destruct (Z.ltb_spec n (Z.of_nat nd)); simpl;
    try (intros [= <-]; lia);
    destruct (Z.leb_spec (- Z.of_nat nd) n); destruct (Z.ltb_spec n 0); simpl;
    try discriminate; intros [= <-]; lia.
Qed.

Lemma index_0 (nd : nat) : (0 < nd)%nat -> index nd 0 = Ok 0%nat.
Proof.
  intros H. unfold index.
  destruct (Z.ltb_spec 0 (Z.of_nat nd)); simpl; [reflexivity | lia].
Qed.

Lemma getitem_index {A} (l : list A) (n : Z) (k : nat) (dflt : A) :
  index (length l) n = Ok k -> getitem l n = Ok (nth k l dflt).
Proof.
  intros H. unfold getitem. rewrite H. simpl.
  pose proof (index_bound _ _ _ H) as Hk.
  destruct (nth_error l k) eqn:E.
  - now rewrite (nth_error_nth _ _ dflt E).
  - apply nth_error_None in E. lia.
Qed.

Lemma pop_index {A} (l : list A) (n : Z) (k : nat) (dflt : A) :
  index (length l) n = Ok k ->
  pop l n = Ok (nth k l dflt, firstn k l ++ skipn (S k) l).
Proof.
  intros H. unfold pop. rewrite H. simpl.
  pose proof (index_bound _ _ _ H) as Hk.
  destruct (nth_error l k) eqn:E.
  - now rewrite (nth_error_nth _ _ dflt E).
  - apply nth_error_None in E. lia.
Qed.

Lemma insert_0 {A} (l : list A) (x : A) : insert l 0 x = x :: l.
Proof.
  unfold insert. simpl.
  replace (Z.to_nat (Z.min 0 (Z.of_nat (length l)))) with 0%nat by lia.
  reflexivity.
Qed.

Lemma moveaxis_eq (A : ndarray) (src dst : Z) (s t : nat) :
  index (ndim A) src = Ok s -> index (ndim A) dst = Ok t ->
  moveaxis A src dst =
  let sh := shape A in
  let d := nth s sh 0%nat in
  let rest := firstn s sh ++ skipn (S s) sh in
  Ok (mk_ndarray
        (firstn t rest ++ d :: skipn t rest)
        (axis_from_front (prod (firstn t rest)) d (prod (skipn t rest))
           (axis_to_front (prod (firstn s sh)) d (prod (skipn (S s) sh))
                          (data A)))).
Proof.
  intros Hs Ht. unfold moveaxis, normalize_axis_index. now rewrite Hs, Ht.
Qed.

Lemma known_map_Some (s : list nat) : known (map Some s) = prod s.
Proof. induction s as [|x s IH]; simpl; [reflexivity | now rewrite IH]. Qed.

Lemma unknowns_map_Some (s : list nat) : unknowns (map Some s) = 0%nat.
Proof. induction s as [|x s IH]; simpl; [reflexivity | exact IH]. Qed.

Lemma reshape_full (A : ndarray) (s : list nat) :
  prod s = prod (shape A) ->
  reshape A (map Some s) = Ok (mk_ndarray s (data A)).
Proof.
  intros H. unfold reshape, resolve.
  rewrite unknowns_map_Some, known_map_Some, H, Nat.eqb_refl. simpl.
  rewrite map_map, map_id. reflexivity.
Qed.

Lemma reshape_rows (A : ndarray) (d q : nat) :
  prod (shape A) = (d * q)%nat -> d <> 0%nat ->
  reshape A [Some d; None] = Ok (mk_ndarray [d; q] (data A)).
Proof.
  intros H Hd. unfold reshape, resolve. simpl.
  rewrite H, Nat.mul_1_r.
  destruct (Nat.eqb_spec d 0) as [|_]; [contradiction|].
  rewrite Nat.mul_comm, Nat.Div0.mod_mul. simpl.
  now rewrite Nat.div_mul.
Qed.

Lemma reshape_rows_empty (A : ndarray) :
  reshape A [Some 0%nat; None] = Raise (ValueError "cannot reshape array").
Proof. reflexivity. Qed.

(* ================================================================== *)
(** * Folding inverts unfolding                                        *)
(* ================================================================== *)

Lemma unfold_eq (T : ndarray) (n : Z) (k : nat) :
  wf T -> index (ndim T) n = Ok k -> nth k (shape T) 0%nat <> 0%nat ->
  unfold T n =
  Ok (mk_ndarray
        [nth k (shape T) 0%nat;
         prod (firstn k (shape T) ++ skipn (S k) (shape T))]
        (axis_to_front (prod (firstn k (shape T))) (nth k (shape T) 0%nat)
                       (prod (skipn (S k) (shape T))) (data T))).
Proof.
  intros Hwf Hk Hd.
  pose proof (index_bound _ _ _ Hk) as Hlt. unfold ndim in Hlt.
  unfold unfold.
  rewrite (moveaxis_eq T n 0 k 0 Hk) by (apply index_0; unfold ndim; lia).
  cbv zeta. simpl firstn. simpl skipn. simpl app.
  unfold shape_at. rewrite (getitem_index _ _ _ 0%nat Hk). cbn [bind].
  set (d := nth k (shape T) 0%nat) in *.
  set (pre := firstn k (shape T)). set (post := skipn (S k) (shape T)).
  assert (Hsplit : shape T = pre ++ d :: post) by (apply split_at_nth; lia).
  assert (Hlen : length (data T) = (prod pre * d * prod post)%nat).
  { unfold wf in Hwf. rewrite Hwf, Hsplit, prod_app, prod_cons. lia. }
  change (prod []) with 1%nat.
  rewrite axis_from_front_1
    by (rewrite axis_to_front_length, prod_app by assumption; lia).
  rewrite (reshape_rows _ d (prod (pre ++ post))); [reflexivity | | assumption].
  reflexivity.
Qed.

(** C2 (as amended).  For every array [T] and every valid mode index
    [n], negative indices included, whose mode has non-zero length,
    [fold(unfold(T, n), n, T.shape)] returns [T] itself. *)
Theorem fold_unfold_inverse (T : ndarray) (n : Z) :
  wf T ->
  (- Z.of_nat (ndim T) <= n < Z.of_nat (ndim T))%Z ->
  shape_at T n <> Ok 0%nat ->
  (M <- unfold T n ;; fold M n (shape T)) = Ok T.
Proof.
  intros Hwf Hn Hd.
  destruct (index_range _ _ Hn) as (k & Hk & Hlt). unfold ndim in Hlt.
  unfold shape_at in Hd. rewrite (getitem_index _ _ _ 0%nat Hk) in Hd.
  assert (Hd' : nth k (shape T) 0%nat <> 0%nat) by congruence.
  rewrite (unfold_eq T n k Hwf Hk Hd'). cbn [bind].
  unfold fold. rewrite (pop_index _ _ _ 0%nat Hk). cbn [bind].
  pose proof (split_at_nth (shape T) k Hlt) as Hsplit.
  assert (Hpre : length (firstn k (shape T)) = k)
    by (rewrite length_firstn; lia).
  destruct T as [sh dat]. unfold wf, ndim in *. cbn [shape data] in *.
  remember (nth k sh 0%nat) as d eqn:Ed.
  remember (firstn k sh) as pre eqn:Epre.
  remember (skipn (S k) sh) as post eqn:Epost.
  clear Ed Epre Epost Hd.
  assert (Hlen : length dat = (prod pre * d * prod post)%nat).
  { rewrite Hwf, Hsplit, prod_app, prod_cons. lia. }
  rewrite insert_0.
  rewrite reshape_full by (simpl; lia). cbn [bind].
  assert (Hf : firstn k (pre ++ post) = pre).
  { rewrite firstn_app, Hpre, Nat.sub_diag, firstn_O, app_nil_r.
    rewrite <- Hpre. apply firstn_all. }
  assert (Hs : skipn k (pre ++ post) = post).
  { rewrite skipn_app, Hpre, Nat.sub_diag, skipn_O.
    rewrite <- Hpre at 1. now rewrite skipn_all. }
  rewrite (moveaxis_eq _ 0 n 0 k).
  - cbv zeta. cbn [shape data nth firstn skipn app].
    rewrite Hf, Hs. change (prod []) with 1%nat.
    rewrite axis_to_front_1
      by (rewrite axis_to_front_length, prod_app by assumption; lia).
    rewrite axis_roundtrip by assumption.
    now rewrite <- Hsplit.
  - apply index_0. unfold ndim. simpl. lia.
  - unfold ndim. cbn [shape].
    replace (length (d :: pre ++ post)) with (length sh); [exact Hk|].
    rewrite Hsplit at 1. cbn [length]. rewrite !length_app. cbn [length]. lia.
Qed.

Lemma fold_unfold_inverse_witness :
  (M <- unfold (mk_ndarray [2;3;2]%nat [1;2;3;4;5;6;7;8;9;10;11;12]) (-2) ;;
   fold M (-2) [2;3;2]%nat)
  = Ok (mk_ndarray [2;3;2]%nat [1;2;3;4;5;6;7;8;9;10;11;12]).
Proof.
  apply (fold_unfold_inverse
           (mk_ndarray [2;3;2]%nat [1;2;3;4;5;6;7;8;9;10;11;12]) (-2)).
  - reflexivity.
  - simpl; lia.
  - discriminate.
Defined.

(** C2 as stated fails on a mode of length zero: [unfold] raises
    because the placeholder dimension of its reshape cannot be resolved. *)
Lemma fold_unfold_empty_mode :
  let T := mk_ndarray [0;3]%nat [] in
  wf T /\ (- Z.of_nat (ndim T) <= 0 < Z.of_nat (ndim T))%Z /\
  (M <- unfold T 0 ;; fold M 0 (shape T)) <> Ok T.
Proof.
  simpl. repeat split; try lia. discriminate.
Qed.

Example khatri_rao_binary_2x2_2x2 :
  khatri_rao_binary (mk_ndarray [2;2]%nat [1;2;3;4])
                    (mk_ndarray [2;2]%nat [5;6;7;8])
  = Ok (mk_ndarray [4;2]%nat
          [1*5; 2*6; 1*7; 2*8; 3*5; 4*6; 3*7; 4*8]).
Proof. reflexivity. Qed.

Example matmul_2x2 :
  matmul (mk_ndarray [2;2]%nat [1;2;3;4]) (mk_ndarray [2;2]%nat [5;6;7;8])
  = Ok (mk_ndarray [2;2]%nat
          [1*5+(2*7+0); 1*6+(2*8+0); 3*5+(4*7+0); 3*6+(4*8+0)]).
Proof. reflexivity. Qed.

(* ================================================================== *)
(** * Matrices as tables of entries                                    *)
(* ================================================================== *)

Lemma tabulate_ext (m n : nat) (f g : nat -> nat -> R) :
  (forall i j, (i < m)%nat -> (j < n)%nat -> f i j = g i j) ->
  tabulate m n f = tabulate m n g.
Proof.
  intros H. unfold tabulate. apply flat_map_seq_ext. intros i Hi.
  apply map_ext_in. intros j Hj. apply in_seq in Hj. apply H; lia.
Qed.

Lemma zip_with_map_seq (g : R -> R -> R) (f1 f2 : nat -> R) (l : list nat) :
  zip_with g (map f1 l) (map f2 l) = map (fun j => g (f1 j) (f2 j)) l.
Proof.
  unfold zip_with. induction l as [|x l IH]; simpl; [reflexivity|].
  now rewrite IH.
Qed.

Lemma zip_with_app (g : R -> R -> R) (a1 a2 b1 b2 : list R) :
  length a1 = length b1 ->
  zip_with g (a1 ++ a2) (b1 ++ b2) = zip_with g a1 b1 ++ zip_with g a2 b2.
Proof.
  unfold zip_with. revert b1; induction a1 as [|x a1 IH]; intros [|y b1] H;
    simpl in *; try discriminate; [reflexivity|].
  f_equal. apply IH. lia.
Qed.

Lemma zip_with_tabulate (g : R -> R -> R) (m n : nat)
      (f1 f2 : nat -> nat -> R) :
  zip_with g (tabulate m n f1) (tabulate m n f2)
  = tabulate m n (fun i j => g (f1 i j) (f2 i j)).
Proof.
  unfold tabulate. generalize 0%nat at 2 4 6 as a.
  induction m as [|m IH]; intros a; simpl; [reflexivity|].
  rewrite zip_with_app by (now rewrite !length_map).
  now rewrite zip_with_map_seq, IH.
Qed.

Lemma repeat_map_seq (x : R) (b n : nat) :
  repeat x n = map (fun _ => x) (seq b n).
Proof.
  revert b; induction n as [|n IH]; intros b; simpl;
    [reflexivity | f_equal; apply IH].
Qed.

Lemma repeat_tabulate (x : R) (m n : nat) :
  repeat x (m * n) = tabulate m n (fun _ _ => x).
Proof.
  unfold tabulate. generalize 0%nat at 2 as a.
  induction m as [|m IH]; intros a; simpl; [reflexivity|].
  rewrite repeat_app, (IH (S a)). f_equal. apply repeat_map_seq.
Qed.

(** The buffer of a matrix product, entry by entry. *)
Lemma matmul_tabulate (m k n : nat) (a b : list R) :
  flat_map (fun ra => map (fun cb => dot ra cb) (cols_of k n b)) (rows_of m k a)
  = tabulate m n (fun i j => dot (block k i a) (column j (rows_of k n b))).
Proof.
  unfold tabulate, rows_of at 1, cols_of.
  rewrite flat_map_concat_map, map_map, <- flat_map_concat_map.
  apply flat_map_seq_ext. intros i _. now rewrite map_map.
Qed.

Lemma combine_nil_r {A B} (l : list A) : combine l (@nil B) = [].
Proof. now destruct l. Qed.

Lemma dot_app (a1 a2 b1 b2 : list R) :
  length a1 = length b1 ->
  dot (a1 ++ a2) (b1 ++ b2) = dot a1 b1 + dot a2 b2.
Proof.
  intros H. unfold dot. rewrite zip_with_app by assumption.
  unfold sum. generalize (zip_with Rmult a1 b1) as u.
  induction u as [|x u IH]; simpl; [lra | rewrite IH; lra].
Qed.

(** The dot product of two concatenations of blocks, block by block. *)
Lemma dot_flat_map (f g : nat -> list R) (l : list nat) :
  (forall i, In i l -> length (f i) = length (g i)) ->
  dot (flat_map f l) (flat_map g l)
  = sum (map (fun i => dot (f i) (g i)) l).
Proof.
  induction l as [|x l IH]; intros H; simpl; [reflexivity|].
  rewrite dot_app by (apply H; now left).
  rewrite IH; [reflexivity|]. intros i Hi. apply H. now right.
Qed.

Lemma fold_left_sum (t : nat -> R) (l : list nat) (x : R) :
  fold_left (fun acc i => acc + t i) l x = x + sum (map t l).
Proof.
  revert x; induction l as [|i l IH]; intros x; simpl; [lra|].
  rewrite IH. lra.
Qed.

(** A block of a block. *)
Lemma block_block (Q n i j : nat) (l : list R) :
  (j < n)%nat -> block Q j (block (n * Q) i l) = block Q (i * n + j) l.
Proof.
  intros Hj. unfold block.
  rewrite skipn_firstn_comm, firstn_firstn, skipn_skipn.
  replace (Nat.min Q (n * Q - j * Q)) with Q by nia.
  f_equal. f_equal. lia.
Qed.

Lemma map_as_flat_map {A B} (f : A -> B) (l : list A) :
  map f l = flat_map (fun x => [f x]) l.
Proof. induction l as [|x l IH]; simpl; [reflexivity | now rewrite IH]. Qed.

(** A column of a tall matrix is the concatenation of the columns of
    its row blocks. *)
Lemma column_blocks (n Q c r : nat) (l : list R) :
  column r (rows_of (n * Q) c l)
  = flat_map (fun i => column r (rows_of Q c (block (Q * c) i l))) (seq 0 n).
Proof.
  unfold column, rows_of. rewrite map_map.
  rewrite map_as_flat_map, <- (flat_map_seq_mul _ _ n Q).
  apply flat_map_seq_ext. intros i _.
  rewrite map_map, map_as_flat_map. apply flat_map_seq_ext. intros k Hk. cbv beta.
  now rewrite block_block by lia.
Qed.

(* ================================================================== *)
(** * The mid-mode MTTKRP loop                                         *)
(* ================================================================== *)

Lemma index_of_nat (n i : nat) : (i < n)%nat -> index n (Z.of_nat i) = Ok i.
Proof.
  intros H. unfold index.
  destruct (Z.leb_spec 0 (Z.of_nat i)); [|lia].
  destruct (Z.ltb_spec (Z.of_nat i) (Z.of_nat n)); [|lia].
  simpl. now rewrite Nat2Z.id.
Qed.

Lemma mid_step_eq (nI nJ nK nR : nat) (x kd : list R)
      (f : nat -> nat -> R) (i : nat) :
  (i < nI)%nat ->
  mid_step (mk_ndarray [nI; nJ; nK] x) (mk_ndarray [(nI * nK)%nat; nR] kd) nI nK
           (Ok (mk_ndarray [nJ; nR] (tabulate nJ nR f))) i
  = Ok (mk_ndarray [nJ; nR]
          (tabulate nJ nR (fun j r => f j r + mid_term nJ nK nR x kd i j r))).
Proof.
  intros Hi. unfold mid_step. cbn [bind].
  rewrite Nat.mod_small by assumption.
  unfold subarray. cbn [shape data]. rewrite index_of_nat by assumption.
  cbn [bind]. unfold slice. cbn [shape data bind].
  assert (Hstart : Nat.min (i * nK)%nat (nI * nK)%nat = (i * nK)%nat) by nia.
  assert (Hstop : Nat.min ((i + 1) * nK)%nat (nI * nK)%nat = ((i + 1) * nK)%nat)
    by nia.
  rewrite Hstart, Hstop.
  replace ((i + 1) * nK - i * nK)%nat with nK by lia.
  unfold matmul. cbn [shape data]. rewrite Nat.eqb_refl. cbn [bind].
  unfold iadd. cbn [shape data].
  destruct (list_eq_dec Nat.eq_dec [nJ; nR] [nJ; nR]) as [_|N];
    [|now contradiction N].
  rewrite matmul_tabulate, zip_with_tabulate.
  f_equal. f_equal. apply tabulate_ext. intros j r Hj Hr. f_equal.
  unfold mid_term, block, prod. cbn [fold_right].
  rewrite !Nat.mul_1_r. do 4 f_equal. f_equal. lia.
Qed.

Lemma mid_loop_eq (nI nJ nK nR : nat) (x kd : list R) (l : list nat) :
  forall f : nat -> nat -> R,
  (forall i, In i l -> (i < nI)%nat) ->
  fold_left (mid_step (mk_ndarray [nI; nJ; nK] x)
                      (mk_ndarray [(nI * nK)%nat; nR] kd) nI nK)
            l (Ok (mk_ndarray [nJ; nR] (tabulate nJ nR f)))
  = Ok (mk_ndarray [nJ; nR]
          (tabulate nJ nR
             (fun j r => f j r
                         + sum (map (fun i => mid_term nJ nK nR x kd i j r) l)))).
Proof.
  induction l as [|i l IH]; intros f Hl.
  - simpl. f_equal. f_equal. apply tabulate_ext. intros. lra.
  - cbn [fold_left]. rewrite mid_step_eq by (apply Hl; now left).
    rewrite IH by (intros k Hk; apply Hl; now right).
    f_equal. f_equal. apply tabulate_ext. intros j r _ _. simpl. lra.
Qed.

Lemma mttkrp_mid_with_krp_eq (nI nJ nK nR : nat) (x kd : list R) :
  _mttkrp_mid_with_krp (mk_ndarray [nI; nJ; nK] x)
                       (mk_ndarray [(nI * nK)%nat; nR] kd)
  = Ok (mk_ndarray [nJ; nR]
          (tabulate nJ nR
             (fun j r =>
                sum (map (fun i => mid_term nJ nK nR x kd i j r) (seq 0 nI))))).
Proof.
  unfold _mttkrp_mid_with_krp. cbn [shape]. 
  change (getitem [nI; nJ; nK] (-1)) with (@Ok nat nK).
  change (getitem [nI; nJ; nK] (-2)) with (@Ok nat nJ).
  change (getitem [(nI * nK)%nat; nR] (-1)) with (@Ok nat nR).
  change (getitem [nI; nJ; nK] 0) with (@Ok nat nI).
  cbn [bind]. unfold zeros. unfold prod at 1. cbn [fold_right].
  rewrite Nat.mul_1_r, repeat_tabulate.
  change (fun (acc : result ndarray) (i : nat) =>
            product <- acc ;;
            slab <- subarray (mk_ndarray [nI; nJ; nK] x)
                             (Z.of_nat (i mod nI)) ;;
            rowsblock <- slice (mk_ndarray [(nI * nK)%nat; nR] kd)
                               (i * nK)%nat ((i + 1) * nK)%nat ;;
            term <- matmul slab rowsblock ;; iadd product term)
    with (mid_step (mk_ndarray [nI; nJ; nK] x)
                   (mk_ndarray [(nI * nK)%nat; nR] kd) nI nK).
  rewrite mid_loop_eq by (intros i Hi; apply in_seq in Hi; lia).
  f_equal. f_equal. apply tabulate_ext. intros. lra.
Qed.

(** Entry [(j, r)] of the generic product, slab by slab. *)
Lemma spec_entry (nI nJ nK nR : nat) (x kd : list R) (j r : nat) :
  length x = (nI * nJ * nK)%nat -> (j < nJ)%nat ->
  dot (block (nI * nK) j (axis_to_front nI nJ nK x))
      (column r (rows_of (nI * nK) nR kd))
  = sum (map (fun i => mid_term nJ nK nR x kd i j r) (seq 0 nI)).
Proof.
  intros Hx Hj. unfold axis_to_front.
  rewrite (block_flat_map (nI * nK) nJ
             (fun j0 => flat_map (fun p => block nK (p * nJ + j0) x) (seq 0 nI)));
    [ | | assumption].
  - rewrite column_blocks, dot_flat_map.
    + f_equal. apply map_ext_in. intros i Hi. unfold mid_term.
      now rewrite block_block by assumption.
    + intros i Hi. apply in_seq in Hi.
      rewrite block_length
        by (apply (block_index_bound nI nJ); [assumption | lia | lia]).
      unfold column, rows_of. now rewrite !length_map, length_seq.
  - intros k Hk. apply flat_map_seq_length. intros p Hp.
    apply block_length.
    apply (block_index_bound nI nJ); [assumption | lia | lia].
Qed.

Lemma khatri_rao_skip_1 (A B C : ndarray) :
  khatri_rao [A; B; C] (Some 1%Z) = khatri_rao_binary A C.
Proof. reflexivity. Qed.

Lemma khatri_rao_binary_shape (A C : ndarray) (nI nK nR : nat) :
  shape A = [nI; nR] -> shape C = [nK; nR] ->
  exists kd, khatri_rao_binary A C = Ok (mk_ndarray [(nI * nK)%nat; nR] kd).
Proof.
  intros HA HC. unfold khatri_rao_binary. rewrite HA, HC, Nat.eqb_refl.
  rewrite orb_true_r. simpl. eexists. reflexivity.
Qed.

Lemma moveaxis_0_0 (X : ndarray) :
  wf X -> (0 < ndim X)%nat -> moveaxis X 0 0 = Ok X.
Proof.
  intros Hwf Hnd. destruct X as [[|d rest] x];
    [unfold ndim in Hnd; simpl in Hnd; lia|].
  rewrite (moveaxis_eq _ 0 0 0 0) by (apply index_0; assumption).
  cbv zeta. cbn [shape data nth firstn skipn app].
  unfold wf in Hwf. cbn [shape data] in Hwf. rewrite prod_cons in Hwf.
  change (prod []) with 1%nat.
  rewrite axis_to_front_1, axis_from_front_1 by assumption. reflexivity.
Qed.

Lemma bind_assoc_some (r1 r2 : result ndarray) :
  (U <- r1 ;; K <- r2 ;; M <- matmul U K ;; Ok (Some M))
  = (M <- (U <- r1 ;; K <- r2 ;; matmul U K) ;; Ok (Some M)).
Proof. destruct r1; [|reflexivity]. destruct r2; reflexivity. Qed.

(** The three branches of [_mttkrp3] against the generic formula. *)
Lemma mttkrp3_first (X : ndarray) (factors : list ndarray) :
  wf X -> (0 < ndim X)%nat ->
  _mttkrp3 X factors 0
  = (M <- mttkrp_spec X factors 0 ;; Ok (Some M)).
Proof.
  intros Hwf Hnd. unfold _mttkrp3, mttkrp_spec, unfold.
  cbn [Z.eqb]. rewrite moveaxis_0_0 by assumption.
  cbn [bind]. destruct (shape_at _ 0); [|reflexivity]. cbn [bind].
  apply bind_assoc_some.
Qed.

Lemma mttkrp3_mid (x : list R) (A B C : ndarray) (nI nJ nK nR : nat) :
  let X := mk_ndarray [nI; nJ; nK] x in
  wf X ->
  shape A = [nI; nR] -> shape C = [nK; nR] ->
  nJ <> 0%nat ->
  _mttkrp_mid X [A; B; C] = mttkrp_spec X [A; B; C] 1.
Proof.
  intros X Hwf HA HC HJ. unfold X in *. clear X.
  unfold mttkrp_spec.
  unfold wf in Hwf. cbn [shape data] in Hwf.
  assert (Hx : length x = (nI * nJ * nK)%nat).
  { rewrite Hwf. unfold prod. simpl. lia. }
  rewrite (unfold_eq _ 1 1) by (assumption || reflexivity).
  cbn [shape data firstn skipn nth app bind].
  unfold _mttkrp_mid. rewrite khatri_rao_skip_1.
  destruct (khatri_rao_binary_shape A C nI nK nR HA HC) as [kd ->].
  cbn [bind]. rewrite mttkrp_mid_with_krp_eq.
  unfold matmul. cbn [shape data]. unfold prod. cbn [fold_right app].
  rewrite !Nat.mul_1_r, Nat.eqb_refl.
  rewrite matmul_tabulate. do 2 f_equal.
  apply tabulate_ext. intros j r Hj Hr. symmetry.
  now apply spec_entry.
Qed.

Lemma mttkrp3_last (X : ndarray) (factors : list ndarray)
      (nI nJ nK : nat) (mode : Z) :
  shape X = [nI; nJ; nK] -> mode = 2%Z \/ mode = (-1)%Z ->
  _mttkrp3 X factors mode
  = (M <- mttkrp_spec X factors mode ;; Ok (Some M)).
Proof.
  intros HX Hmode. unfold _mttkrp3, mttkrp_spec, unfold.
  assert (Hm : moveaxis X mode 0 = moveaxis X (-1) 0).
  { destruct Hmode as [-> | ->]; [|reflexivity].
    unfold moveaxis, ndim. now rewrite HX. }
  assert (Hs : shape_at X mode = shape_at X (-1)).
  { destruct Hmode as [-> | ->]; [|reflexivity].
    unfold shape_at. now rewrite HX. }
  rewrite Hm, Hs.
  replace ((mode =? 0)%Z) with false by (destruct Hmode; now subst).
  replace ((mode =? 1)%Z) with false by (destruct Hmode; now subst).
  replace (((mode =? 2) || (mode =? -1))%Z) with true
    by (destruct Hmode; now subst).
  destruct (moveaxis _ (-1) 0); [|reflexivity]. cbn [bind].
  destruct (shape_at _ (-1)); [|reflexivity]. cbn [bind].
  apply bind_assoc_some.
Qed.

(** C1 (as amended).  For a 3-mode tensor and three factor matrices
    with matching row counts and a shared column count,
    [matrix_khatri_rao_product] computes for the modes 0, 1, 2 and -1
    what the generic formula [unfold(X, mode) @ khatri_rao(factors,
    skip=mode)] computes (the same matrix, or the same failure);
    for mode 1, where the block-accumulation loop with its
    [idx = i % shape[0]] runs, provided the mode-1 axis is not empty. *)
Theorem matrix_khatri_rao_product_refines_spec
        (X A B C : ndarray) (mode : Z) (nI nJ nK nR : nat) :
  wf X -> shape X = [nI; nJ; nK] ->
  shape A = [nI; nR] -> shape B = [nJ; nR] -> shape C = [nK; nR] ->
  In mode [0; 1; 2; -1]%Z ->
  (mode = 1%Z -> nJ <> 0%nat) ->
  matrix_khatri_rao_product X [A; B; C] mode
  = (M <- mttkrp_spec X [A; B; C] mode ;; Ok (Some M)).
Proof.
  intros Hwf HX HA HB HC Hmode HJ.
  unfold matrix_khatri_rao_product. rewrite HX.
  cbn [shape length Nat.eqb negb].
  destruct Hmode as [<-|[<-|[<-|[<-|[]]]]].
  - (* mode 0 *)
    apply mttkrp3_first; [assumption|]. unfold ndim. rewrite HX. simpl. lia.
  - (* mode 1 *)
    specialize (HJ eq_refl).
    destruct X as [sh x]. cbn [shape] in HX. subst sh.
    unfold _mttkrp3. cbn [Z.eqb Pos.eqb].
    now rewrite (mttkrp3_mid x A B C nI nJ nK nR Hwf HA HC HJ).
  - (* mode 2 *)
    apply (mttkrp3_last X _ nI nJ nK); auto.
  - (* mode -1 *)
    apply (mttkrp3_last X _ nI nJ nK); auto.
Qed.

Example mttkrp_mode1_2x2x2 :
  matrix_khatri_rao_product
    (mk_ndarray [2;2;2]%nat [1;2;3;4;5;6;7;8])
    [mk_ndarray [2;1]%nat [1;2]; mk_ndarray [2;1]%nat [1;1];
     mk_ndarray [2;1]%nat [1;3]] 1
  = Ok (Some (mk_ndarray [2;1]%nat [53; 77])).
Proof.
  cbv -[Rplus Rmult IZR]. do 4 f_equal; [lra | f_equal; lra].
Qed.

Example mttkrp_spec_mode1_2x2x2 :
  mttkrp_spec
    (mk_ndarray [2;2;2]%nat [1;2;3;4;5;6;7;8])
    [mk_ndarray [2;1]%nat [1;2]; mk_ndarray [2;1]%nat [1;1];
     mk_ndarray [2;1]%nat [1;3]] 1
  = Ok (mk_ndarray [2;1]%nat [53; 77]).
Proof.
  cbv -[Rplus Rmult IZR]. do 3 f_equal; [lra | f_equal; lra].
Qed.

Lemma matrix_khatri_rao_product_refines_spec_witness :
  let X := mk_ndarray [2;2;2]%nat [1;2;3;4;5;6;7;8] in
  let A := mk_ndarray [2;1]%nat [1;2] in
  let B := mk_ndarray [2;1]%nat [1;1] in
  let C := mk_ndarray [2;1]%nat [1;3] in
  matrix_khatri_rao_product X [A; B; C] 1
  = (M <- mttkrp_spec X [A; B; C] 1 ;; Ok (Some M)).
Proof.
  intros X A B C.
  apply (matrix_khatri_rao_product_refines_spec X A B C 1 2 2 2 1);
    try reflexivity.
  - simpl. auto.
  - intros _. discriminate.
Defined.

(** C1 as stated fails for mode 1 on a tensor whose mode-1 axis is
    empty: the loop returns an empty matrix where the generic formula
    raises in [unfold]. *)
Lemma mttkrp_mode1_empty_axis :
  let X := mk_ndarray [1;0;1]%nat [] in
  let A := mk_ndarray [1;1]%nat [1] in
  let B := mk_ndarray [0;1]%nat [] in
  let C := mk_ndarray [1;1]%nat [1] in
  wf X /\ wf A /\ wf B /\ wf C /\
  matrix_khatri_rao_product X [A; B; C] 1
    = Ok (Some (mk_ndarray [0;1]%nat [])) /\
  mttkrp_spec X [A; B; C] 1 = Raise (ValueError "cannot reshape array").
Proof.
  cbv zeta. repeat split.
Qed.

(* ================================================================== *)
(** * Construction of a Kruskal tensor                                 *)
(* ================================================================== *)

Lemma check_columns_mismatch (r : nat) (fms : list ndarray) :
  Forall (fun f => exists n c, shape f = [n; c]) fms ->
  Exists (fun f => shape_at f 1 <> Ok r) fms ->
  check_columns r fms = Raise (NameError "i").
Proof.
  intros Hall Hex. induction Hall as [|f fms (n & c & Hf) Hall IH].
  - inversion Hex.
  - cbn [check_columns]. unfold shape_at in *. rewrite Hf in *.
    change (getitem [n; c] 1) with (@Ok nat c) in *. cbn [bind].
    destruct (Nat.eqb_spec c r) as [->|Hne]; cbn [negb].
    + apply IH. inversion Hex as [? ? H|]; [|assumption].
      rewrite Hf in H. now contradiction H.
    + reflexivity.
Qed.

(** C6, first half, on the code.  Whenever some factor matrix does not
    share the first one's column count, the constructor evaluates the
    error message, which reads the unbound name [i]: the exception that
    leaves the constructor is a [NameError], never the [ValueError]
    naming the offending factor. *)
Theorem KruskalTensor_init_column_mismatch
        (first : ndarray) (fms : list ndarray) (w : option ndarray) (r : nat) :
  Forall (fun f => exists n c, shape f = [n; c]) (first :: fms) ->
  shape_at first 1 = Ok r ->
  Exists (fun f => shape_at f 1 <> Ok r) fms ->
  KruskalTensor_init (first :: fms) w = Raise (NameError "i").
Proof.
  intros Hall Hr Hex. unfold KruskalTensor_init.
  change (getitem (first :: fms) 0) with (Ok first). cbn [bind].
  rewrite Hr. cbn [bind].
  rewrite (check_columns_mismatch r (first :: fms) Hall);
    [reflexivity | now right].
Qed.

Lemma KruskalTensor_init_column_mismatch_witness :
  KruskalTensor_init [zeros [2;2]%nat; zeros [2;3]%nat] None
  = Raise (NameError "i").
Proof.
  apply (KruskalTensor_init_column_mismatch
           (zeros [2;2]%nat) [zeros [2;3]%nat] None 2).
  - repeat constructor; cbn; eauto.
  - reflexivity.
  - left. discriminate.
Defined.

(** C6, second half: a weight vector of the wrong length is refused
    with a [ValueError]. *)
Lemma KruskalTensor_init_weights_mismatch :
  KruskalTensor_init [zeros [2;2]%nat; zeros [3;2]%nat] (Some (ones [3]%nat))
  = Raise (ValueError
      "There must be as many weights as there are columns in the factor matrices.").
Proof. reflexivity. Qed.

Example KruskalTensor_init_ok :
  KruskalTensor_init [zeros [2;2]%nat; zeros [3;2]%nat] None
  = Ok (mk_KruskalTensor 2 [zeros [2;2]%nat; zeros [3;2]%nat] (ones [2]%nat)).
Proof. reflexivity. Qed.

(* ================================================================== *)
(** * Slices of an evolving tensor                                     *)
(* ================================================================== *)

(** C4 on the code.  [construct_slice] multiplies the loadings with
    [C[k] * B_k] as it stands, without transposing it.  With a slice
    factor of two rows and rank one the product is refused for its
    shapes, where the specification describes the 1 x 2 slice
    [A @ diag(C[k]) @ B_k.T]; when [B_k] is square the call returns,
    but not that matrix. *)
Theorem construct_slice_not_transposed :
  let A := mk_ndarray [1;1]%nat [1] in
  let B0 := mk_ndarray [2;1]%nat [1;1] in
  let C := mk_ndarray [1;1]%nat [1] in
  construct_slice (mk_EvolvingTensor A [B0] C) 0
    = Raise (ValueError "matmul: mismatch in core dimension") /\
  construct_slice_spec A [B0] C 0
    = Ok (mk_ndarray [1;2]%nat
            [(1 * 1 + 0) * 1 + 0; (1 * 1 + 0) * 1 + 0]) /\
  let A2 := mk_ndarray [2;2]%nat [1;0;0;1] in
  let B2 := mk_ndarray [2;2]%nat [0;1;0;0] in
  let C2 := mk_ndarray [1;2]%nat [1;1] in
  (exists M N, construct_slice (mk_EvolvingTensor A2 [B2] C2) 0 = Ok M /\
               construct_slice_spec A2 [B2] C2 0 = Ok N /\
               nth 1 (data M) 0 = 1 /\ nth 1 (data N) 0 = 0).
Proof.
  cbv zeta. split; [reflexivity|]. split; [reflexivity|].
  eexists. eexists. split; [reflexivity|]. split; [reflexivity|].
  cbv -[Rplus Rmult IZR]. split; lra.
Qed.

(** The constructor itself cannot build an evolving tensor with a
    slice: it reads [self.factor_matrices.shape] of a list. *)
Lemma EvolvingTensor_init_raises (A B0 C : ndarray) (Bs : list ndarray) :
  EvolvingTensor_init A (B0 :: Bs) C = Raise (AttributeError "shape").
Proof. reflexivity. Qed.

(* ================================================================== *)
(** * Matrices as lists of rows                                        *)
(* ================================================================== *)

Lemma rows_of_S (n c : nat) (l : list R) :
  rows_of (S n) c l = firstn c l :: rows_of n c (skipn c l).
Proof.
  unfold rows_of. cbn [seq map]. rewrite block_0. f_equal.
  rewrite <- seq_shift, map_map. apply map_ext. intros i. apply block_S.
Qed.

(** The rows of a buffer built from rows are those rows. *)
Lemma rows_of_concat (c : nat) (rws : list (list R)) :
  Forall (fun r => length r = c) rws ->
  rows_of (length rws) c (concat rws) = rws.
Proof.
  induction 1 as [|r rws Hr Hall IH]; [reflexivity|].
  cbn [length concat]. rewrite rows_of_S.
  assert (Hf : firstn c r = r) by (rewrite <- Hr; apply firstn_all).
  assert (Hs : skipn c r = []) by (rewrite <- Hr; apply skipn_all).
  rewrite firstn_app, skipn_app, Hr, Nat.sub_diag, firstn_O, skipn_O, app_nil_r.
  rewrite Hf, Hs. cbn [app]. now rewrite IH.
Qed.

Lemma rows_of_length (n c : nat) (l : list R) : length (rows_of n c l) = n.
Proof. unfold rows_of. now rewrite length_map, length_seq. Qed.

Lemma rows_of_row_length (n c : nat) (l : list R) :
  length l = (n * c)%nat -> Forall (fun r => length r = c) (rows_of n c l).
Proof.
  intros H. unfold rows_of. apply Forall_map, Forall_forall. intros i Hi.
  apply in_seq in Hi. apply block_length. nia.
Qed.

Lemma concat_rows_of (n c : nat) (l : list R) :
  length l = (n * c)%nat -> concat (rows_of n c l) = l.
Proof.
  intros H. unfold rows_of. rewrite <- flat_map_concat_map.
  now apply flat_map_block.
Qed.

Lemma concat_row_length (c : nat) (rws : list (list R)) :
  Forall (fun r => length r = c) rws ->
  length (concat rws) = (length rws * c)%nat.
Proof.
  induction 1 as [|r rws Hr Hall IH]; [reflexivity|].
  cbn [concat length]. rewrite length_app, Hr, IH. lia.
Qed.

Lemma column_length (j : nat) (rws : list (list R)) :
  length (column j rws) = length rws.
Proof. unfold column. apply length_map. Qed.

Lemma zip_with_length (f : R -> R -> R) (u v : list R) :
  length (zip_with f u v) = Nat.min (length u) (length v).
Proof. unfold zip_with. now rewrite length_map, length_combine. Qed.

Lemma nth_zip_with (f : R -> R -> R) (u v : list R) (j : nat) :
  (j < length u)%nat -> (j < length v)%nat ->
  nth j (zip_with f u v) 0 = f (nth j u 0) (nth j v 0).
Proof.
  unfold zip_with. revert v j; induction u as [|x u IH]; intros [|y v] j Hu Hv;
    simpl in *; try lia.
  destruct j as [|j]; [reflexivity|]. apply IH; lia.
Qed.

(* ================================================================== *)
(** * Norms of columns                                                 *)
(* ================================================================== *)

Lemma sum_squares_nonneg (u : list R) : 0 <= sum (map (fun x => x * x) u).
Proof.
  induction u as [|x u IH]; simpl; [lra|]. pose proof (Rle_0_sqr x) as H.
  unfold Rsqr in H. lra.
Qed.

Lemma sum_squares_pos (u : list R) :
  Exists (fun x => x <> 0) u -> 0 < sum (map (fun x => x * x) u).
Proof.
  induction 1 as [x u Hx | x u _ IH]; simpl.
  - pose proof (sum_squares_nonneg u). assert (0 < x * x) by nra. lra.
  - pose proof (Rle_0_sqr x) as H. unfold Rsqr in H. lra.
Qed.

Lemma norm2_pos (u : list R) : Exists (fun x => x <> 0) u -> 0 < norm2 u.
Proof. intros H. unfold norm2. apply sqrt_lt_R0. now apply sum_squares_pos. Qed.

Lemma sum_squares_scale (a : R) (u : list R) :
  sum (map (fun x => x * x) (map (fun x => x / a) u))
  = sum (map (fun x => x * x) u) * (/ a * / a).
Proof.
  induction u as [|x u IH]; simpl; [lra|]. rewrite IH. unfold Rdiv. lra.
Qed.

(** Dividing a non-zero vector by its norm gives a unit vector. *)
Lemma norm2_normalised (u : list R) :
  Exists (fun x => x <> 0) u ->
  norm2 (map (fun x => x / norm2 u) u) = 1.
Proof.
  intros H. pose proof (norm2_pos u H) as Hpos.
  unfold norm2 at 1. rewrite sum_squares_scale.
  rewrite sqrt_mult_alt by apply sum_squares_nonneg.
  fold (norm2 u). rewrite sqrt_square.
  - field. lra.
  - left. now apply Rinv_0_lt_compat.
Qed.

(* ================================================================== *)
(** * Normalising the components of a Kruskal tensor                   *)
(* ================================================================== *)

Lemma nth_map_seq (h : nat -> R) (c j : nat) :
  (j < c)%nat -> nth j (map h (seq 0 c)) 0 = h j.
Proof.
  intros H. rewrite (nth_indep _ 0 (h 0%nat)) by now rewrite length_map, length_seq.
  now rewrite map_nth, seq_nth.
Qed.

Lemma col_norms_length (c : nat) (rws : list (list R)) :
  length (col_norms c rws) = c.
Proof. unfold col_norms. now rewrite length_map, length_seq. Qed.

Lemma normalised_rows_length (c : nat) (rws : list (list R)) :
  Forall (fun r => length r = c) rws ->
  Forall (fun r => length r = c) (normalised_rows c rws).
Proof.
  intros H. unfold normalised_rows. apply Forall_map.
  eapply Forall_impl; [|exact H]. intros r Hr. cbv beta.
  rewrite zip_with_length, col_norms_length, Hr. lia.
Qed.

Lemma column_normalised_rows (c j : nat) (rws : list (list R)) :
  Forall (fun r => length r = c) rws -> (j < c)%nat ->
  column j (normalised_rows c rws)
  = map (fun x => x / norm2 (column j rws)) (column j rws).
Proof.
  intros Hall Hj. unfold column at 1 3, normalised_rows. rewrite !map_map.
  apply map_ext_in. intros row Hrow.
  rewrite Forall_forall in Hall. specialize (Hall row Hrow).
  rewrite nth_zip_with by (rewrite ?col_norms_length; lia).
  unfold col_norms. now rewrite nth_map_seq.
Qed.

Lemma factor_rows (r : nat) (F : ndarray) :
  factor_matrix_of_rank r F ->
  exists n, shape F = [n; r] /\ length (rows F) = n /\
            Forall (fun row => length row = r) (rows F) /\
            data F = concat (rows F).
Proof.
  intros [Hwf [n Hs]]. exists n. unfold rows. rewrite Hs.
  unfold wf in Hwf. rewrite Hs in Hwf. unfold prod in Hwf. cbn in Hwf.
  rewrite Nat.mul_1_r in Hwf.
  repeat split.
  - apply rows_of_length.
  - now apply rows_of_row_length.
  - symmetry. now apply concat_rows_of.
Qed.

Lemma existsb_is_zero (l : list R) :
  Forall (fun x => x <> 0) l -> existsb is_zero l = false.
Proof.
  induction 1 as [|x l Hx Hall IH]; [reflexivity|]. cbn. rewrite IH.
  unfold is_zero. now destruct (Req_dec_T x 0).
Qed.

Lemma col_norms_of_nonzero (r : nat) (F : ndarray) :
  factor_matrix_of_rank r F -> nonzero_columns F ->
  Forall (fun x => x <> 0) (col_norms r (rows F)).
Proof.
  intros [_ [n Hs]] Hnz.
  unfold nonzero_columns, cols in Hnz. rewrite Hs in Hnz.
  unfold cols_of in Hnz. rewrite Forall_map in Hnz.
  unfold col_norms, rows. rewrite Hs. apply Forall_map.
  eapply Forall_impl; [|exact Hnz]. intros j Hj. cbv beta in *.
  pose proof (norm2_pos _ Hj). lra.
Qed.

(** One pass through the loop of [normalize_components]. *)
Lemma normalize_step_eq (r : nat) (F : ndarray) (acc : list ndarray)
      (wv : list R) :
  factor_matrix_of_rank r F -> nonzero_columns F -> length wv = r ->
  normalize_step (Ok (acc, mk_ndarray [r] wv)) F
  = Ok (acc ++ [normalised r F],
        mk_ndarray [r] (zip_with Rmult wv (col_norms r (rows F)))).
Proof.
  intros HF Hnz Hw.
  pose proof (col_norms_of_nonzero r F HF Hnz) as Hnorms.
  destruct (factor_rows r F HF) as (n & Hs & Hn & Hlen & Hd).
  unfold col_norms, rows in Hnorms. rewrite Hs in Hnorms.
  unfold normalize_step. cbn [bind fst snd].
  unfold norm_axis0. rewrite Hs. cbn [bind].
  unfold div_row. rewrite Hs. cbn [shape data].
  unfold broadcast_row. unfold cols_of. rewrite map_map.
  rewrite (existsb_is_zero _ Hnorms).
  rewrite length_map, length_seq, Nat.eqb_refl. cbn [bind].
  unfold imul_vec. cbn [shape data]. rewrite Nat.eqb_refl. cbn [bind].
  unfold normalised, normalised_rows, col_norms, rows. rewrite Hs.
  now rewrite flat_map_concat_map.
Qed.

Lemma normalize_loop_eq (r : nat) (fms : list ndarray) :
  Forall (fun F => factor_matrix_of_rank r F /\ nonzero_columns F) fms ->
  forall (acc : list ndarray) (wv : list R), length wv = r ->
  fold_left normalize_step fms (Ok (acc, mk_ndarray [r] wv))
  = Ok (acc ++ map (normalised r) fms,
        mk_ndarray [r]
          (fold_left (fun w F => zip_with Rmult w (col_norms r (rows F)))
                     fms wv)).
Proof.
  induction 1 as [|F fms [HF HnzF] Hall IH]; intros acc wv Hw.
  - cbn. now rewrite app_nil_r.
  - cbn [fold_left map]. rewrite normalize_step_eq by assumption.
    rewrite IH by (rewrite zip_with_length, col_norms_length; lia).
    now rewrite <- app_assoc.
Qed.

Lemma normalize_components_eq (kt : KruskalTensor) :
  kruskal_invariant kt ->
  Forall nonzero_columns (factor_matrices kt) ->
  normalize_components kt true
  = Ok (mk_KruskalTensor (rank kt)
          (map (normalised (rank kt)) (factor_matrices kt))
          (mk_ndarray [rank kt] (norm_products (rank kt) (factor_matrices kt)))).
Proof.
  intros H Hnz. unfold normalize_components, ones. cbn [prod fold_right].
  rewrite Nat.mul_1_r.
  rewrite (normalize_loop_eq (rank kt)); [reflexivity | | apply repeat_length].
  unfold kruskal_invariant in H. rewrite Forall_forall in *. auto.
Qed.

Lemma normalised_cols (r : nat) (F : ndarray) :
  factor_matrix_of_rank r F ->
  cols (normalised r F)
  = map (fun col => map (fun x => x / norm2 col) col) (cols F).
Proof.
  intros HF. destruct (factor_rows r F HF) as (n & Hs & Hn & Hlen & Hd).
  unfold cols, normalised. cbn [shape data]. rewrite Hs.
  unfold cols_of. rewrite map_map.
  assert (Hrows : rows_of n r (concat (normalised_rows r (rows F)))
                  = normalised_rows r (rows F)).
  { replace n with (length (normalised_rows r (rows F)))
      by (unfold normalised_rows; now rewrite length_map).
    apply rows_of_concat. now apply normalised_rows_length. }
  rewrite Hrows. apply map_ext_in. intros j Hj. apply in_seq in Hj.
  rewrite column_normalised_rows by (assumption || lia).
  unfold rows. now rewrite Hs.
Qed.

Lemma normalised_unit_columns (r : nat) (F : ndarray) :
  factor_matrix_of_rank r F -> nonzero_columns F ->
  unit_columns (normalised r F).
Proof.
  intros HF Hnz. unfold unit_columns. rewrite (normalised_cols r F HF).
  apply Forall_map. eapply Forall_impl; [|exact Hnz].
  intros col Hcol. now apply norm2_normalised.
Qed.

(* ================================================================== *)
(** * Khatri-Rao products and reconstruction, row by row               *)
(* ================================================================== *)

Lemma factor_as_rows (r : nat) (F : ndarray) :
  factor_matrix_of_rank r F -> F = of_rows r (rows F) /\ rows_ok r (rows F).
Proof.
  intros HF. destruct (factor_rows r F HF) as (n & Hs & Hn & Hlen & Hd).
  split; [|exact Hlen]. unfold of_rows. rewrite Hn, <- Hd, <- Hs.
  now destruct F.
Qed.

Lemma rows_of_rows (c : nat) (rws : list (list R)) :
  rows_ok c rws -> rows (of_rows c rws) = rws.
Proof. intros H. unfold rows, of_rows. cbn. now apply rows_of_concat. Qed.

Lemma broadcast_row_mul_zip (a b : list R) :
  length a = length b -> broadcast_row_mul a b = zip_with Rmult a b.
Proof.
  intros H. destruct a as [|x [|y a]]; try reflexivity.
  destruct b as [|z [|? ?]]; try discriminate. reflexivity.
Qed.

Lemma krb_rows_ok (c : nat) (ra rb : list (list R)) :
  rows_ok c ra -> rows_ok c rb -> rows_ok c (krb_rows ra rb).
Proof.
  intros Ha Hb. unfold rows_ok, krb_rows. apply Forall_flat_map.
  eapply Forall_impl; [|exact Ha]. intros a Hla. cbv beta.
  apply Forall_map. eapply Forall_impl; [|exact Hb]. intros b Hlb. cbv beta.
  rewrite zip_with_length, Hla, Hlb. lia.
Qed.

Lemma krb_rows_length (ra rb : list (list R)) :
  length (krb_rows ra rb) = (length ra * length rb)%nat.
Proof.
  unfold krb_rows. induction ra as [|a ra IH]; [reflexivity|].
  cbn [flat_map length]. rewrite length_app, length_map, IH. lia.
Qed.

Lemma concat_flat_map_map {A B} (f : A -> B -> list R) (la : list A)
      (lb : list B) :
  concat (flat_map (fun a => map (fun b => f a b) lb) la)
  = flat_map (fun a => flat_map (fun b => f a b) lb) la.
Proof.
  induction la as [|a la IH]; [reflexivity|].
  cbn [flat_map]. rewrite concat_app, IH. f_equal.
  now rewrite flat_map_concat_map.
Qed.

Lemma flat_map_ext_in {A} (f g : A -> list R) (l : list A) :
  (forall x, In x l -> f x = g x) -> flat_map f l = flat_map g l.
Proof.
  induction l as [|x l IH]; intros H; [reflexivity|]. cbn [flat_map].
  rewrite H by now left. f_equal. apply IH. intros y Hy. apply H. now right.
Qed.

Lemma khatri_rao_binary_rows (c : nat) (ra rb : list (list R)) :
  rows_ok c ra -> rows_ok c rb ->
  khatri_rao_binary (of_rows c ra) (of_rows c rb)
  = Ok (of_rows c (krb_rows ra rb)).
Proof.
  intros Ha Hb. unfold khatri_rao_binary, of_rows. cbn [shape data].
  rewrite Nat.eqb_refl, orb_true_r. cbn [orb].
  rewrite krb_rows_length. do 2 f_equal.
  rewrite (rows_of_concat c ra Ha), (rows_of_concat c rb Hb).
  unfold krb_rows. rewrite concat_flat_map_map.
  apply flat_map_ext_in. intros a Hia. apply flat_map_ext_in. intros b Hib.
  apply broadcast_row_mul_zip.
  unfold rows_ok in *. rewrite Forall_forall in Ha, Hb.
  now rewrite (Ha a Hia), (Hb b Hib).
Qed.

Lemma khatri_rao_fold_rows (c : nat) (rest : list (list (list R))) :
  Forall (rows_ok c) rest ->
  forall first, rows_ok c first ->
  fold_left (fun acc f => product <- acc ;; khatri_rao_binary product f)
            (map (of_rows c) rest) (Ok (of_rows c first))
  = Ok (of_rows c (krp_rows first rest)) /\
  rows_ok c (krp_rows first rest).
Proof.
  induction 1 as [|rb rest Hb Hall IH]; intros first Hf.
  - now split.
  - cbn [map fold_left bind]. rewrite khatri_rao_binary_rows by assumption.
    apply IH. now apply krb_rows_ok.
Qed.

Lemma khatri_rao_rows (c : nat) (first : list (list R))
      (rest : list (list (list R))) :
  rows_ok c first -> Forall (rows_ok c) rest ->
  khatri_rao (map (of_rows c) (first :: rest)) None
  = Ok (of_rows c (krp_rows first rest)).
Proof.
  intros Hf Hr. unfold khatri_rao. cbn [bind map].
  change (getitem (of_rows c first :: map (of_rows c) rest) 0)
    with (Ok (of_rows c first)).
  cbn [bind tl]. now apply khatri_rao_fold_rows.
Qed.

(** Scaling commutes with the Khatri-Rao product. *)
Lemma zip_mul_4 (a u b v : list R) :
  zip_with Rmult (zip_with Rmult a u) (zip_with Rmult b v)
  = zip_with Rmult (zip_with Rmult a b) (zip_with Rmult u v).
Proof.
  unfold zip_with. revert u b v.
  induction a as [|x a IH]; intros [|y u] [|z b] [|t v]; cbn; try reflexivity.
  f_equal; [lra | apply IH].
Qed.

Lemma krb_rows_scale (u v : list R) (ra rb : list (list R)) :
  krb_rows (scale_rows u ra) (scale_rows v rb)
  = scale_rows (zip_with Rmult u v) (krb_rows ra rb).
Proof.
  unfold krb_rows, scale_rows.
  rewrite flat_map_concat_map, map_map, <- flat_map_concat_map.
  induction ra as [|a ra IH]; [reflexivity|].
  cbn [flat_map]. rewrite map_app, IH. f_equal.
  rewrite !map_map. apply map_ext. intros b. apply zip_mul_4.
Qed.

Lemma krp_rows_scale (us : list (list R)) (rest : list (list (list R))) :
  length us = length rest ->
  forall u first,
  krp_rows (scale_rows u first)
           (map (fun p => scale_rows (fst p) (snd p)) (combine us rest))
  = scale_rows (fold_left (zip_with Rmult) us u) (krp_rows first rest).
Proof.
  revert rest. induction us as [|v us IH]; intros [|rb rest] Hlen u first;
    try discriminate; [reflexivity|].
  cbn [combine map krp_rows fold_left fst snd].
  rewrite krb_rows_scale. apply IH. cbn in Hlen. lia.
Qed.

Lemma zip_div_as_mul (nv row : list R) :
  zip_with (fun d x => x / d) nv row = zip_with Rmult row (map Rinv nv).
Proof.
  unfold zip_with. revert row; induction nv as [|d nv IH]; intros [|x row];
    cbn; try reflexivity.
  f_equal. apply IH.
Qed.

Lemma normalised_as_scaled (r : nat) (F : ndarray) :
  factor_matrix_of_rank r F ->
  normalised r F
  = of_rows r (scale_rows (map Rinv (col_norms r (rows F))) (rows F)).
Proof.
  intros HF. destruct (factor_rows r F HF) as (n & Hs & Hn & Hlen & Hd).
  unfold normalised, of_rows, scale_rows, normalised_rows.
  rewrite Hs, length_map, Hn. do 2 f_equal.
  apply map_ext. intros row. apply zip_div_as_mul.
Qed.

Lemma scale_rows_ok (c : nat) (u : list R) (rws : list (list R)) :
  length u = c -> rows_ok c rws -> rows_ok c (scale_rows u rws).
Proof.
  intros Hu H. unfold rows_ok, scale_rows. apply Forall_map.
  eapply Forall_impl; [|exact H]. intros row Hr. cbv beta.
  rewrite zip_with_length, Hr, Hu. lia.
Qed.

Lemma map_nth_all {A} (l : list A) (d : A) :
  map (fun i => nth i l d) (seq 0 (length l)) = l.
Proof.
  apply (nth_ext _ _ d d).
  - now rewrite length_map, length_seq.
  - intros n Hn. rewrite length_map, length_seq in Hn.
    rewrite (nth_indep _ d (nth 0 l d)) by now rewrite length_map, length_seq.
    now rewrite (map_nth (fun i => nth i l d)), seq_nth.
Qed.

Lemma nth_column (j t : nat) (rws : list (list R)) :
  nth t (column j rws) 0 = nth j (nth t rws []) 0.
Proof.
  unfold column.
  assert (E : nth j (@nil R) 0 = 0) by now destruct j.
  pose proof (map_nth (fun row : list R => nth j row 0) rws [] t) as H.
  cbv beta in H. now rewrite E in H.
Qed.

(** The columns of the transpose are the rows. *)
Lemma cols_of_transposed (c : nat) (rws : list (list R)) :
  rows_ok c rws ->
  cols_of c (length rws)
          (concat (map (fun j => column j rws) (seq 0 c)))
  = rws.
Proof.
  intros H. unfold cols_of.
  set (CL := map (fun j => column j rws) (seq 0 c)).
  assert (HCL : rows_of c (length rws) (concat CL) = CL).
  { replace c with (length CL) at 1
      by (unfold CL; now rewrite length_map, length_seq).
    apply rows_of_concat. unfold CL. apply Forall_map, Forall_forall.
    intros j _. apply column_length. }
  rewrite HCL. rewrite <- (map_nth_all rws []) at 2.
  apply map_ext_in. intros t Ht. apply in_seq in Ht.
  unfold CL, column at 1. rewrite map_map.
  rewrite (map_ext _ (fun j => nth j (nth t rws []) 0))
    by (intros j; apply nth_column).
  assert (Hlen : length (nth t rws []) = c).
  { unfold rows_ok in H. rewrite Forall_forall in H. apply H, nth_In. lia. }
  rewrite <- Hlen. apply map_nth_all.
Qed.

(** [A @ K.T]: the dot products of the rows of [A] with the rows of [K]. *)
Lemma matmul_transpose_rows (c : nat) (ra rk : list (list R)) :
  rows_ok c ra -> rows_ok c rk ->
  (KT <- transpose (of_rows c rk) ;; matmul (of_rows c ra) KT)
  = Ok (mk_ndarray [length ra; length rk]
          (flat_map (fun a => map (fun k => dot a k) rk) ra)).
Proof.
  intros Ha Hk. unfold transpose, of_rows. cbn [shape data bind].
  unfold matmul. cbn [shape data]. rewrite Nat.eqb_refl.
  rewrite (rows_of_concat c ra Ha).
  unfold cols_of at 2. rewrite (rows_of_concat c rk Hk).
  now rewrite cols_of_transposed.
Qed.

Lemma mul_row_rows (c : nat) (wv : list R) (rws : list (list R)) :
  length wv = c -> rows_ok c rws ->
  mul_row (mk_ndarray [1%nat; c] wv) (of_rows c rws)
  = Ok (of_rows c (map (fun row => zip_with Rmult wv row) rws)).
Proof.
  intros Hw H. unfold mul_row, of_rows. cbn [shape data].
  unfold broadcast_row. rewrite Hw, Nat.eqb_refl.
  rewrite (rows_of_concat c rws H), length_map.
  now rewrite flat_map_concat_map.
Qed.

(* Entrywise products of vectors *)

Lemma zip_mul_assoc (a b c : list R) :
  zip_with Rmult a (zip_with Rmult b c)
  = zip_with Rmult (zip_with Rmult a b) c.
Proof.
  unfold zip_with. revert b c.
  induction a as [|x a IH]; intros [|y b] [|z c]; cbn; try reflexivity.
  f_equal; [lra | apply IH].
Qed.

Lemma zip_mul_ones_l (l : list R) :
  zip_with Rmult (repeat 1 (length l)) l = l.
Proof.
  unfold zip_with. induction l as [|x l IH]; cbn; [reflexivity|].
  f_equal; [lra | exact IH].
Qed.

Lemma zip_mul_ones_r (l : list R) :
  zip_with Rmult l (repeat 1 (length l)) = l.
Proof.
  unfold zip_with. induction l as [|x l IH]; cbn; [reflexivity|].
  f_equal; [lra | exact IH].
Qed.

Lemma zip_mul_inv (n : list R) :
  Forall (fun x => x <> 0) n ->
  zip_with Rmult n (map Rinv n) = repeat 1 (length n).
Proof.
  unfold zip_with. induction 1 as [|x n Hx Hall IH]; cbn; [reflexivity|].
  f_equal; [now apply Rinv_r | exact IH].
Qed.

Lemma zip_mul_cancel (c : nat) (a b n : list R) :
  length a = c -> length b = c -> length n = c ->
  Forall (fun x => x <> 0) n ->
  zip_with Rmult (zip_with Rmult a n) (zip_with Rmult b (map Rinv n))
  = zip_with Rmult a b.
Proof.
  intros Ha Hb Hn Hnz. rewrite zip_mul_4, zip_mul_inv by assumption.
  rewrite Hn.
  replace c with (length (zip_with Rmult a b))
    by (rewrite zip_with_length; lia).
  apply zip_mul_ones_r.
Qed.

(** The product of vectors against the product of their inverses. *)
Lemma fold_zip_cancel (c : nat) (ns : list (list R)) :
  Forall (fun n => length n = c /\ Forall (fun x => x <> 0) n) ns ->
  forall a b, length a = c -> length b = c ->
  zip_with Rmult (fold_left (zip_with Rmult) ns a)
                 (fold_left (zip_with Rmult) (map (map Rinv) ns) b)
  = zip_with Rmult a b.
Proof.
  induction 1 as [|n ns [Hn Hnz] Hall IH]; intros a b Ha Hb; [reflexivity|].
  cbn [map fold_left].
  rewrite IH by (rewrite zip_with_length, ?length_map; lia).
  now apply (zip_mul_cancel c).
Qed.

Lemma zip_into_fold (u b : list R) (L : list (list R)) :
  zip_with Rmult u (fold_left (zip_with Rmult) L b)
  = fold_left (zip_with Rmult) L (zip_with Rmult u b).
Proof.
  revert b; induction L as [|x L IH]; intros b; [reflexivity|].
  cbn [fold_left]. now rewrite IH, zip_mul_assoc.
Qed.

Lemma fold_left_map_zip {A} (g : A -> list R) (l : list A) (w : list R) :
  fold_left (fun w F => zip_with Rmult w (g F)) l w
  = fold_left (zip_with Rmult) (map g l) w.
Proof.
  revert w; induction l as [|x l IH]; intros w; [reflexivity|].
  cbn [map fold_left]. apply IH.
Qed.

(* ================================================================== *)
(** * Reconstruction after normalisation                               *)
(* ================================================================== *)

(** [construct_tensor] for a weight vector, step by step. *)
Lemma constructed_eq (r : nat) (fms : list ndarray) (wv : list R) :
  constructed (mk_KruskalTensor r fms (mk_ndarray [r] wv))
  = (shp <- shape_list fms ;;
     first <- getitem fms 0 ;;
     scaled <- mul_row (mk_ndarray [1%nat; r] wv) first ;;
     krp <- khatri_rao (tl fms) None ;;
     M <- (krpT <- transpose krp ;; matmul scaled krpT) ;;
     fold M 0 shp).
Proof.
  unfold constructed, construct_tensor.
  cbn [weights shape length Nat.eqb factor_matrices data].
  fold (shape_list fms).
  destruct (shape_list fms); [|reflexivity]. cbn [bind].
  destruct (getitem fms 0); [|reflexivity]. cbn [bind].
  destruct (mul_row _ _); [|reflexivity]. cbn [bind].
  destruct (khatri_rao _ _); [|reflexivity]. cbn [bind].
  destruct (transpose _); [|reflexivity]. cbn [bind].
  destruct (matmul _ _); [|reflexivity]. cbn [bind].
  destruct (fold _ _ _); reflexivity.
Qed.

Lemma shape_list_normalised (r : nat) (fms : list ndarray) :
  shape_list (map (normalised r) fms) = shape_list fms.
Proof.
  induction fms as [|F fms IH]; [reflexivity|].
  cbn [map shape_list fold_right]. fold (shape_list (map (normalised r) fms)).
  fold (shape_list fms). now rewrite IH.
Qed.

Lemma col_norms_nonzero (r : nat) (F : ndarray) :
  factor_matrix_of_rank r F -> nonzero_columns F ->
  length (col_norms r (rows F)) = r /\
  Forall (fun x => x <> 0) (col_norms r (rows F)).
Proof.
  intros HF Hnz. split; [apply col_norms_length|].
  now apply col_norms_of_nonzero.
Qed.

(** The weights after normalisation cancel the scales of the factors. *)
Lemma norm_products_cancel (r : nat) (F0 F1 : ndarray) (rest : list ndarray) :
  Forall (factor_matrix_of_rank r) (F0 :: F1 :: rest) ->
  Forall nonzero_columns (F0 :: F1 :: rest) ->
  zip_with Rmult (norm_products r (F0 :: F1 :: rest))
    (zip_with Rmult (inv_norms r F0)
       (fold_left (zip_with Rmult) (map (inv_norms r) rest) (inv_norms r F1)))
  = repeat 1 r.
Proof.
  intros Hall Hnz.
  set (g := fun F : ndarray => col_norms r (rows F)).
  assert (Hns : Forall (fun n => length n = r /\ Forall (fun x => x <> 0) n)
                       (map g (F0 :: F1 :: rest))).
  { apply Forall_map. rewrite Forall_forall in *. intros F HF.
    apply col_norms_nonzero; auto. }
  unfold norm_products. rewrite (fold_left_map_zip g).
  rewrite zip_into_fold.
  assert (E : fold_left (zip_with Rmult) (map (inv_norms r) rest)
                (zip_with Rmult (inv_norms r F0) (inv_norms r F1))
              = fold_left (zip_with Rmult)
                  (map (map Rinv) (map g (F0 :: F1 :: rest))) (repeat 1 r)).
  { pose proof (zip_mul_ones_l (inv_norms r F0)) as H1.
    unfold inv_norms in H1 at 1.
    rewrite length_map, col_norms_length in H1.
    cbn [map fold_left]. rewrite map_map. unfold g at 2.
    fold (inv_norms r F0). rewrite H1. reflexivity. }
  rewrite E, (fold_zip_cancel r) by (assumption || apply repeat_length).
  rewrite <- (repeat_length 1 r) at 1. apply zip_mul_ones_l.
Qed.

(** A row of the scaled factor against a row of the scaled Khatri-Rao
    product, when the scales cancel. *)
Lemma zip_scaled (c : nat) :
  forall a k w u0 U : list R,
  length a = c -> length k = c -> length w = c -> length u0 = c ->
  length U = c ->
  zip_with Rmult w (zip_with Rmult u0 U) = repeat 1 c ->
  zip_with Rmult (zip_with Rmult w (zip_with Rmult a u0)) (zip_with Rmult k U)
  = zip_with Rmult a k.
Proof.
  unfold zip_with. induction c as [|c IH];
    intros [|a0 a] [|k0 k] [|w0 w] [|u00 u0] [|U0 U]; cbn;
    try discriminate; try reflexivity.
  intros Ha Hk Hw Hu HU H. injection H as H0 Ht.
  f_equal.
  - replace (w0 * (a0 * u00) * (k0 * U0)) with (a0 * k0 * (w0 * (u00 * U0)))
      by ring.
    rewrite H0. ring.
  - apply IH; (lia || assumption).
Qed.

Lemma map_scale_combine (r : nat) (rest : list ndarray) :
  map (fun F => scale_rows (inv_norms r F) (rows F)) rest
  = map (fun p => scale_rows (fst p) (snd p))
        (combine (map (inv_norms r) rest) (map rows rest)).
Proof.
  induction rest as [|F rest IH]; [reflexivity|]. cbn. now rewrite IH.
Qed.

Lemma krp_rows_ok (c : nat) (rest : list (list (list R))) :
  Forall (rows_ok c) rest ->
  forall first, rows_ok c first -> rows_ok c (krp_rows first rest).
Proof.
  induction 1 as [|rb rest Hb Hall IH]; intros first Hf; [assumption|].
  cbn. apply IH. now apply krb_rows_ok.
Qed.

Lemma fold_zip_length (c : nat) (L : list (list R)) :
  Forall (fun n => length n = c) L ->
  forall b, length b = c -> length (fold_left (zip_with Rmult) L b) = c.
Proof.
  induction 1 as [|x L Hx Hall IH]; intros b Hb; [exact Hb|].
  cbn [fold_left]. apply IH. rewrite zip_with_length. lia.
Qed.

Lemma inv_norms_length (r : nat) (F : ndarray) : length (inv_norms r F) = r.
Proof. unfold inv_norms. now rewrite length_map, col_norms_length. Qed.

Lemma weighted_rows_ok (c : nat) (w : list R) (rws : list (list R)) :
  length w = c -> rows_ok c rws ->
  rows_ok c (map (fun row => zip_with Rmult w row) rws).
Proof.
  intros Hw H. unfold rows_ok. apply Forall_map.
  eapply Forall_impl; [|exact H]. intros row Hr. cbv beta.
  rewrite zip_with_length, Hr, Hw. lia.
Qed.

Lemma map_normalised_as_rows (r : nat) (fms : list ndarray) :
  Forall (factor_matrix_of_rank r) fms ->
  map (normalised r) fms
  = map (of_rows r) (map (fun F => scale_rows (inv_norms r F) (rows F)) fms).
Proof.
  intros H. rewrite map_map. apply map_ext_in. intros F HF.
  rewrite Forall_forall in H. now apply normalised_as_scaled, H.
Qed.

Lemma map_as_rows (r : nat) (fms : list ndarray) :
  Forall (factor_matrix_of_rank r) fms ->
  fms = map (of_rows r) (map rows fms) /\ Forall (rows_ok r) (map rows fms).
Proof.
  induction 1 as [|F fms HF Hall [IH1 IH2]]; [now split|].
  destruct (factor_as_rows r F HF) as [E Hok]. cbn [map]. split.
  - now rewrite <- E, <- IH1.
  - now constructor.
Qed.

Lemma mul_row_factor (r : nat) (w : list R) (F : ndarray) :
  length w = r -> factor_matrix_of_rank r F ->
  mul_row (mk_ndarray [1%nat; r] w) F
  = Ok (of_rows r (map (fun row => zip_with Rmult w row) (rows F))).
Proof.
  intros Hw HF. destruct (factor_as_rows r F HF) as [E Hok].
  rewrite E at 1. now apply mul_row_rows.
Qed.

Lemma khatri_rao_factors (r : nat) (F1 : ndarray) (rest : list ndarray) :
  Forall (factor_matrix_of_rank r) (F1 :: rest) ->
  khatri_rao (F1 :: rest) None
  = Ok (of_rows r (krp_rows (rows F1) (map rows rest))).
Proof.
  intros H. destruct (map_as_rows r (F1 :: rest) H) as [E Hok].
  rewrite E at 1. cbn [map] in *. inversion Hok; subst.
  rewrite <- (map_cons (of_rows r)). now apply khatri_rao_rows.
Qed.

(** The matrix [(weights * F0) @ khatri_rao(F1, ...).T] is the same
    for the normalised factors with the products of the norms as
    weights and for the given factors with unit weights. *)
Lemma tensor_matrix_normalised (r : nat) (F0 F1 : ndarray)
      (rest : list ndarray) :
  Forall (factor_matrix_of_rank r) (F0 :: F1 :: rest) ->
  Forall nonzero_columns (F0 :: F1 :: rest) ->
  (scaled <- mul_row (mk_ndarray [1%nat; r]
                        (norm_products r (F0 :: F1 :: rest)))
                     (normalised r F0) ;;
   krp <- khatri_rao (map (normalised r) (F1 :: rest)) None ;;
   krpT <- transpose krp ;; matmul scaled krpT)
  = (scaled <- mul_row (mk_ndarray [1%nat; r] (repeat 1 r)) F0 ;;
     krp <- khatri_rao (F1 :: rest) None ;;
     krpT <- transpose krp ;; matmul scaled krpT).
Proof.
  intros Hall Hnz.
  pose proof (norm_products_cancel r F0 F1 rest Hall Hnz) as Hcancel.
  inversion Hall as [|? ? HF0 Hall1]; subst.
  inversion Hall1 as [|? ? HF1 Hrest]; subst.
  destruct (factor_as_rows r F0 HF0) as [E0 Hok0].
  destruct (factor_as_rows r F1 HF1) as [E1 Hok1].
  destruct (map_as_rows r rest Hrest) as [Er Hokr].
  assert (Hnp : length (norm_products r (F0 :: F1 :: rest)) = r).
  { unfold norm_products. rewrite fold_left_map_zip.
    apply fold_zip_length; [|apply repeat_length].
    apply Forall_map, Forall_forall. intros F _. apply col_norms_length. }
  set (u0 := inv_norms r F0) in *.
  set (U := fold_left (zip_with Rmult) (map (inv_norms r) rest)
                      (inv_norms r F1)) in *.
  assert (Hu0 : length u0 = r) by apply inv_norms_length.
  assert (HU : length U = r).
  { unfold U. apply fold_zip_length; [|apply inv_norms_length].
    apply Forall_map, Forall_forall. intros F _. apply inv_norms_length. }
  (* left-hand side, in rows *)
  rewrite (normalised_as_scaled r F0 HF0). fold u0.
  rewrite (mul_row_rows r) by (assumption || now apply scale_rows_ok).
  cbn [bind].
  rewrite (map_normalised_as_rows r (F1 :: rest) Hall1).
  rewrite (map_cons (fun F => scale_rows (inv_norms r F) (rows F)) F1 rest).
  rewrite khatri_rao_rows;
    [ | apply scale_rows_ok; [apply inv_norms_length | assumption] | ].
  2:{ apply Forall_map. rewrite Forall_forall in *. intros F HF.
      apply scale_rows_ok; [apply inv_norms_length|].
      now apply factor_as_rows, Hrest. }
  cbn [bind]. rewrite map_scale_combine.
  rewrite krp_rows_scale by now rewrite !length_map.
  fold U.
  assert (Hkrp : rows_ok r (krp_rows (rows F1) (map rows rest)))
    by now apply krp_rows_ok.
  rewrite matmul_transpose_rows;
    [ | apply weighted_rows_ok; [assumption | now apply scale_rows_ok]
      | now apply scale_rows_ok ].
  (* right-hand side, in rows *)
  rewrite (mul_row_factor r) by (apply repeat_length || assumption).
  cbn [bind].
  rewrite (khatri_rao_factors r) by assumption. cbn [bind].
  rewrite matmul_transpose_rows;
    [ | apply weighted_rows_ok; [apply repeat_length | assumption]
      | assumption ].
  (* the two buffers agree entry by entry *)
  unfold scale_rows. rewrite !length_map. do 2 f_equal.
  rewrite !flat_map_concat_map, !map_map. f_equal.
  apply map_ext_in. intros a Ha. rewrite map_map.
  apply map_ext_in. intros k Hk.
  unfold rows_ok in Hok0, Hkrp. rewrite Forall_forall in Hok0, Hkrp.
  unfold dot. f_equal.
  rewrite (zip_scaled r) by (auto using Hok0, Hkrp).
  replace r with (length a) at 1 by now apply Hok0.
  now rewrite zip_mul_ones_l.
Qed.

Lemma constructed_normalised (r : nat) (fms : list ndarray) :
  Forall (factor_matrix_of_rank r) fms ->
  Forall nonzero_columns fms ->
  constructed (mk_KruskalTensor r (map (normalised r) fms)
                 (mk_ndarray [r] (norm_products r fms)))
  = constructed (mk_KruskalTensor r fms (ones [r])).
Proof.
  intros Hall Hnz. unfold ones. cbn [prod fold_right]. rewrite Nat.mul_1_r.
  rewrite !constructed_eq, shape_list_normalised.
  destruct (shape_list fms) as [shp|]; [|reflexivity]. cbn [bind].
  destruct fms as [|F0 [|F1 rest]].
  - reflexivity.
  - cbn [map].
    change (getitem [normalised r F0] 0) with (Ok (normalised r F0)).
    change (getitem [F0] 0) with (Ok F0). cbn [bind tl].
    inversion Hall as [|? ? HF0 _]; subst.
    destruct (factor_as_rows r F0 HF0) as [E0 Hok0].
    rewrite (normalised_as_scaled r F0 HF0).
    rewrite (mul_row_rows r);
      [ | unfold norm_products; cbn [fold_left];
          rewrite zip_with_length, repeat_length, col_norms_length; lia
        | apply scale_rows_ok; [|assumption];
          now rewrite length_map, col_norms_length ].
    rewrite (mul_row_factor r) by (apply repeat_length || assumption).
    reflexivity.
  - cbn [map].
    change (getitem (normalised r F0 :: ?l) 0) with (Ok (normalised r F0)).
    change (getitem (F0 :: F1 :: rest) 0) with (Ok F0). cbn [bind tl].
    pose proof (tensor_matrix_normalised r F0 F1 rest Hall Hnz) as H.
    cbn [map] in H.
    destruct (mul_row _ (normalised r F0)) as [s1|e1];
      destruct (mul_row _ F0) as [s2|e2]; cbn [bind] in *;
      try (destruct (khatri_rao (normalised r F1 :: _) None) as [k1|]);
      try (destruct (khatri_rao (F1 :: rest) None) as [k2|]);
      cbn [bind] in *;
      first [now rewrite H | now rewrite <- H | congruence].
Qed.

(** C5 (as amended).  For a Kruskal tensor whose factor matrices have
    no zero column, [normalize_components()] returns; afterwards every
    column of every factor matrix has Euclidean norm one, the weight
    vector holds, column by column, the product of the removed norms,
    and [construct_tensor()] returns what the factor matrices described
    with unit weights before the call.  When the weights were all ones
    before the call, that is the tensor [construct_tensor()] returned
    before it. *)
Theorem normalize_components_spec (kt : KruskalTensor) :
  kruskal_invariant kt ->
  Forall nonzero_columns (factor_matrices kt) ->
  exists kt',
    normalize_components kt true = Ok kt' /\
    rank kt' = rank kt /\
    Forall unit_columns (factor_matrices kt') /\
    weights kt'
      = mk_ndarray [rank kt] (norm_products (rank kt) (factor_matrices kt)) /\
    constructed kt'
      = constructed (mk_KruskalTensor (rank kt) (factor_matrices kt)
                       (ones [rank kt])) /\
    (weights kt = ones [rank kt] -> constructed kt' = constructed kt).
Proof.
  intros Hinv Hnz. eexists. split; [now apply normalize_components_eq|].
  cbn [rank factor_matrices weights].
  assert (Hunit : Forall unit_columns
                    (map (normalised (rank kt)) (factor_matrices kt))).
  { apply Forall_map. unfold kruskal_invariant in Hinv.
    rewrite Forall_forall in *. intros F HF.
    apply normalised_unit_columns; auto. }
  assert (Hc := constructed_normalised (rank kt) (factor_matrices kt) Hinv Hnz).
  repeat split; try assumption.
  intros Hw. rewrite Hc, <- Hw. now destruct kt.
Qed.

Lemma normalize_components_spec_witness :
  let kt := mk_KruskalTensor 1 [mk_ndarray [2;1]%nat [3;4];
                                mk_ndarray [1;1]%nat [2]]
                             (ones [1%nat]) in
  exists kt',
    normalize_components kt true = Ok kt' /\
    rank kt' = rank kt /\
    Forall unit_columns (factor_matrices kt') /\
    weights kt'
      = mk_ndarray [rank kt] (norm_products (rank kt) (factor_matrices kt)) /\
    constructed kt'
      = constructed (mk_KruskalTensor (rank kt) (factor_matrices kt)
                       (ones [rank kt])) /\
    (weights kt = ones [rank kt] -> constructed kt' = constructed kt).
Proof.
  intros kt. apply (normalize_components_spec kt).
  - repeat constructor; cbn; eauto.
  - repeat constructor; cbn; lra.
Defined.

(** C5 as stated fails for prior weights other than ones: the loop
    starts from [np.ones(rank)], so the weights the tensor had are
    dropped and [construct_tensor()] changes. *)
Lemma normalize_components_discards_weights :
  let kt := mk_KruskalTensor 1 [mk_ndarray [1;1]%nat [1];
                                mk_ndarray [1;1]%nat [1]]
                             (mk_ndarray [1%nat] [2]) in
  kruskal_invariant kt /\
  Forall nonzero_columns (factor_matrices kt) /\
  exists kt', normalize_components kt true = Ok kt' /\
              constructed kt' <> constructed kt.
Proof.
  intros kt.
  assert (Hinv : kruskal_invariant kt) by (repeat constructor; cbn; eauto).
  assert (Hnz : Forall nonzero_columns (factor_matrices kt))
    by (repeat constructor; cbn; lra).
  split; [exact Hinv|]. split; [exact Hnz|].
  eexists. split; [now apply normalize_components_eq|].
  pose proof (constructed_normalised 1 (factor_matrices kt) Hinv Hnz) as E.
  change (rank kt) with 1%nat. rewrite E.
  cbv -[Rplus Rmult IZR]. intros H. injection H as H. lra.
Qed.

(* ================================================================== *)
(** * The fit entry points                                             *)
(* ================================================================== *)


Example format_05d_examples :
  Str.format_05d 3 = "00003"%string /\
  Str.format_05d 120 = "00120"%string /\
  Str.format_05d 123456 = "123456"%string /\
  Str.format_05d (-3) = "-0003"%string /\
  Str.format_05d 0 = "00000"%string.
Proof. repeat split. Qed.

Example lower_examples :
  Str.lower "SVD" = "svd"%string /\
  Str.lower "From_Checkpoint" = "from_checkpoint"%string.
Proof. repeat split. Qed.

(** C9.  [continue_fit(max_its)] hands the object to the iteration
    loop as it stands: the decomposition, the target and its norm, the
    iteration counter and the convergence trackers are untouched, and
    [max_its] is overwritten only when the argument is given.  [fit]
    first sets the iteration counter to zero and the target, then runs
    the component initialisation on that object, and only then sets
    [max_its] and enters the loop. *)
Theorem continue_fit_resumes
        (init_components : option (KruskalTensor + string) -> method unit)
        (_fit : method unit) (its : option Z) (s : decomposer) :
  let entry := match its with Some v => set_max_its v s | None => s end in
  BaseDecomposer.continue_fit _fit its s = _fit entry /\
  decomposition entry = decomposition s /\
  X entry = X s /\ X_norm entry = X_norm s /\
  current_iteration entry = current_iteration s /\
  rel_function_change entry = rel_function_change s /\
  prev_SSE entry = prev_SSE s /\
  non_negativity_constraints entry = non_negativity_constraints s /\
  (its = None -> entry = s) /\
  (forall v, its = Some v -> max_its entry = v) /\
  forall (x : ndarray) (initial : option (KruskalTensor + string)),
    let reset := set_X x (norm2 (data x)) (set_current_iteration 0 s) in
    current_iteration reset = Some 0%Z /\ X reset = Some x /\
    BaseDecomposer.fit init_components _fit x its initial s
    = match init_components initial reset with
      | (Ok _, initialised) =>
          _fit (match its with
                | Some v => set_max_its v initialised
                | None => initialised
                end)
      | (Raise e, failed) => (Raise e, failed)
      end.
Proof.
  cbv zeta. repeat split.
  - now destruct its.
  - now destruct its.
  - now destruct its.
  - now destruct its.
  - now destruct its.
  - now destruct its.
  - now destruct its.
  - now destruct its.
  - now intros ->.
  - now intros v ->.
  - unfold BaseDecomposer.fit, BaseDecomposer._init_fit,
      BaseDecomposer.set_target, bindm, update.
    destruct (init_components initial _) as [[[]|e] s2];
      [destruct its|]; reflexivity.
Qed.

(* ================================================================== *)
(** * Loading a checkpoint                                             *)
(* ================================================================== *)

Section LoadCheckpoint.

Variable G : Type.
Variable h5py_File : string -> result (H5.file G).
Variable load_from_hdf5_group : G -> result KruskalTensor.

Let load := BaseCP.load_checkpoint G h5py_File load_from_hdf5_group.

(** C8.  On a store without the final-iteration attribute, and on a
    store without the group of the iteration to load, [load_checkpoint]
    raises its [ValueError].  Otherwise it loads the decomposition of
    that group (of the requested iteration, or of the recorded final
    one when none is requested) and validates it: when the loaded
    decomposition passes [_check_valid_components], the call returns
    with [current_iteration] set to the loaded iteration, the
    decomposition replaced by the loaded one and everything else as
    before; when the validation raises, or the loader does, the call
    raises the same exception and the decomposition is not replaced. *)
Theorem load_checkpoint_spec (path : string) (load_it : option Z)
        (h5 : H5.file G) (s : decomposer) :
  h5py_File path = Ok h5 ->
  (H5.attrs h5 "final_iteration" = None ->
   load path load_it s = (Raise (ValueError "There is no checkpoints"), s)) /\
  (forall final it,
     H5.attrs h5 "final_iteration" = Some final ->
     loaded_iteration load_it final it ->
     (H5.groups h5 (group_name it) = None ->
      load path load_it s
      = (Raise (ValueError "There is no checkpoint"),
         set_current_iteration it s)) /\
     (forall g,
        H5.groups h5 (group_name it) = Some g ->
        (forall e,
           load_from_hdf5_group g = Raise e ->
           load path load_it s = (Raise e, set_current_iteration it s)) /\
        (forall d,
           load_from_hdf5_group g = Ok d ->
           (fst (BaseCP._check_valid_components d (set_current_iteration it s))
              = Ok tt ->
            load path load_it s
              = (Ok tt, set_decomposition d (set_current_iteration it s)) /\
            current_iteration
              (set_decomposition d (set_current_iteration it s)) = Some it /\
            decomposition
              (set_decomposition d (set_current_iteration it s)) = Some d) /\
           (forall e,
              fst (BaseCP._check_valid_components d
                     (set_current_iteration it s)) = Raise e ->
              load path load_it s = (Raise e, set_current_iteration it s) /\
              decomposition (snd (load path load_it s))
                = decomposition s)))).
Proof.
  intros Hopen. unfold load, BaseCP.load_checkpoint,
    BaseDecomposer.load_checkpoint, bindm, lift.
  rewrite Hopen. split.
  - intros ->. reflexivity.
  - intros final it -> Hit.
    assert (E : (match load_it with
                 | Some it0 => ret it0
                 | None =>
                     match final with
                     | H5.AInt z => ret z
                     | _ => raise (NotModelled
                              "final_iteration that is not an integer")
                     end
                 end) s = (Ok it, s)).
    { destruct Hit as [-> | [-> ->]]; reflexivity. }
    rewrite E. unfold update. fold (group_name it). split.
    + intros ->. reflexivity.
    + intros g ->. split.
      * intros e ->. reflexivity.
      * intros d ->. unfold BaseCP._check_valid_components. cbn [fst].
        split.
        -- intros ->. auto.
        -- intros e ->. auto.
Qed.

End LoadCheckpoint.

(* The stored checkpoint, of rank one, is loaded by a decomposer of rank
   one and rejected by one of rank two, which keeps its decomposition. *)
Lemma load_checkpoint_spec_witness :
  BaseCP.load_checkpoint KruskalTensor (fun _ => Ok example_store) Ok
                         "run.h5" None example_decomposer
  = (Ok tt, set_decomposition example_checkpoint
              (set_current_iteration 7 example_decomposer)) /\
  BaseCP.load_checkpoint KruskalTensor (fun _ => Ok example_store) Ok
                         "run.h5" None example_rank_two
  = (Raise (ValueError
       "The specified factor matrix' rank does not agree with the model's rank."),
     set_current_iteration 7 example_rank_two).
Proof.
  split.
  - destruct (load_checkpoint_spec KruskalTensor (fun _ => Ok example_store)
                Ok "run.h5" None example_store example_decomposer eq_refl)
      as [_ H].
    destruct (H (H5.AInt 7) 7%Z eq_refl (or_intror (conj eq_refl eq_refl)))
      as [_ H2].
    destruct (H2 example_checkpoint eq_refl) as [_ H3].
    exact (proj1 (proj1 (H3 example_checkpoint eq_refl) eq_refl)).
  - destruct (load_checkpoint_spec KruskalTensor (fun _ => Ok example_store)
                Ok "run.h5" None example_store example_rank_two eq_refl)
      as [_ H].
    destruct (H (H5.AInt 7) 7%Z eq_refl (or_intror (conj eq_refl eq_refl)))
      as [_ H2].
    destruct (H2 example_checkpoint eq_refl) as [_ H3].
    exact (proj1 (proj2 (H3 example_checkpoint eq_refl) _ eq_refl)).
Defined.

Example load_checkpoint_missing_group :
  BaseCP.load_checkpoint KruskalTensor (fun _ => Ok example_store) Ok
                         "run.h5" (Some 3%Z) example_decomposer
  = (Raise (ValueError "There is no checkpoint"),
     set_current_iteration 3 example_decomposer).
Proof. reflexivity. Qed.

(* ================================================================== *)
(** * Initialisation from singular vectors                             *)
(* ================================================================== *)

Section InitSvd.

Variable G : Type.
Variable h5py_File : string -> result (H5.file G).
Variable load_from_hdf5_group : G -> result KruskalTensor.
Variable svd_u : ndarray -> result ndarray.
Variable random_init : list nat -> nat -> result KruskalTensor.

Lemma svd_factors_ok (x : ndarray) (r : nat) :
  svd_full svd_u -> wf x ->
  Forall (fun d => (d <> 0 /\ r <= d)%nat) (shape x) ->
  forall n i, (i + n = length (shape x))%nat ->
  exists fms, BaseCP.svd_factors svd_u x r i n = Ok fms /\
              Forall2 (leading_singular_vectors svd_u x r) (seq i n) fms.
Proof.
  intros Hsvd Hwf Hdims. induction n as [|n IH]; intros i Hi.
  - exists []. split; [reflexivity | constructor].
  - assert (Hlt : (i < length (shape x))%nat) by lia.
    assert (Hd : (nth i (shape x) 0 <> 0 /\ r <= nth i (shape x) 0)%nat).
    { rewrite Forall_forall in Hdims. apply Hdims, nth_In, Hlt. }
    destruct Hd as [Hnz Hle].
    pose proof (unfold_eq x (Z.of_nat i) i Hwf
                  (index_of_nat _ _ Hlt) Hnz) as HU.
    match type of HU with
    | _ = Ok ?M => destruct (Hsvd M _ _ eq_refl) as (U & HsvdU & HshapeU)
    end.
    destruct (IH (S i)) as (rest & Hrest & Hall); [lia|].
    eexists. split.
    + cbn [BaseCP.svd_factors]. rewrite HU. cbn [bind]. rewrite HsvdU.
      cbn [bind]. unfold BaseCP.take_columns at 1. rewrite HshapeU.
      cbn [bind]. rewrite Hrest. cbn [bind]. reflexivity.
    + cbn [seq]. constructor; [|exact Hall].
      eexists. exists U. split; [exact HU|]. split; [exact HsvdU|].
      unfold BaseCP.take_columns. rewrite HshapeU. split; [reflexivity|].
      cbn [shape]. now rewrite Nat.min_l.
Qed.

Lemma check_columns_ok (r : nat) (fms : list ndarray) :
  Forall (fun f => exists n, shape f = [n; r]) fms ->
  check_columns r fms = Ok tt.
Proof.
  induction 1 as [|f fms [n Hf] Hall IH]; [reflexivity|].
  cbn [check_columns]. unfold shape_at. rewrite Hf.
  change (getitem [n; r] 1) with (@Ok nat r). cbn [bind].
  now rewrite Nat.eqb_refl.
Qed.

Lemma min_of_le (shp : list nat) (m : nat) :
  min_of shp = Ok m -> Forall (fun d => (m <= d)%nat) shp.
Proof.
  destruct shp as [|d shp]; [discriminate|]. cbn. intros [= <-].
  revert d. induction shp as [|e shp IH]; intros d.
  - constructor; [cbn; lia | constructor].
  - cbn [fold_right]. specialize (IH d). inversion IH as [|? ? Hd Hs]; subst.
    constructor; [lia|]. constructor; [lia|].
    eapply Forall_impl; [|exact Hs]. cbv beta. intros; lia.
Qed.

Let init_components :=
  BaseCP.init_components G h5py_File load_from_hdf5_group svd_u random_init.

(** C7 (as amended).  Called without an initial decomposition on a
    target whose modes are all non-empty, [init_components] with the
    SVD method raises the invalid-rank [ValueError] if and only if the
    rank exceeds the smallest dimension of [X]; when the rank is at most
    that dimension, it installs a Kruskal tensor with unit weights
    whose [i]-th factor matrix holds the first [rank] left singular
    vectors of [unfold(X, i)]. *)
Theorem init_components_svd (s : decomposer) (x : ndarray) (smallest : nat) :
  svd_full svd_u ->
  Str.lower (init s) = "svd"%string ->
  X s = Some x -> wf x ->
  Forall (fun d => d <> 0%nat) (shape x) ->
  min_of (shape x) = Ok smallest ->
  (fst (init_components None s) = Raise invalid_rank
   <-> (smallest < model_rank s)%nat) /\
  ((smallest < model_rank s)%nat ->
   init_components None s = (Raise invalid_rank, s)) /\
  ((model_rank s <= smallest)%nat ->
   exists fms,
     init_components None s
     = (Ok tt, set_decomposition
                 (mk_KruskalTensor (model_rank s) fms (ones [model_rank s]))
                 s) /\
     Forall2 (leading_singular_vectors svd_u x (model_rank s))
             (seq 0 (length (shape x))) fms).
Proof.
  intros Hsvd Hinit HX Hwf Hnz Hmin.
  assert (Hrun : init_components None s = BaseCP.init_svd svd_u s).
  { unfold init_components, BaseCP.init_components,
      BaseCP.init_components_of, bindm.
    rewrite Hinit. reflexivity. }
  assert (Hraise : (smallest < model_rank s)%nat ->
                   init_components None s = (Raise invalid_rank, s)).
  { intros Hlt. rewrite Hrun.
    unfold BaseCP.init_svd, bindm, attribute, lift. rewrite HX, Hmin.
    apply Nat.ltb_lt in Hlt. now rewrite Hlt. }
  assert (Hok : (model_rank s <= smallest)%nat ->
     exists fms,
       init_components None s
       = (Ok tt, set_decomposition
                   (mk_KruskalTensor (model_rank s) fms (ones [model_rank s]))
                   s) /\
       Forall2 (leading_singular_vectors svd_u x (model_rank s))
               (seq 0 (length (shape x))) fms).
  { intros Hle.
    assert (Hdims : Forall (fun d => (d <> 0 /\ model_rank s <= d)%nat)
                           (shape x)).
    { pose proof (min_of_le _ _ Hmin) as Hm. rewrite Forall_forall in *.
      intros d Hd. split; [now apply Hnz|]. specialize (Hm d Hd). lia. }
    destruct (svd_factors_ok x (model_rank s) Hsvd Hwf Hdims
                (length (shape x)) 0 eq_refl) as (fms & Hfms & Hall).
    exists fms. split; [|exact Hall].
    rewrite Hrun. unfold BaseCP.init_svd, bindm, attribute, lift.
    rewrite HX, Hmin.
    destruct (Nat.ltb_spec smallest (model_rank s)) as [|_]; [lia|].
    rewrite Hfms.
    assert (Hshapes : Forall (fun f => exists n, shape f = [n; model_rank s])
                             fms).
    { clear Hfms. induction Hall as [|k F ks fms (M & U & _ & _ & _ & HF) _ IH];
        constructor; eauto. }
    destruct fms as [|first fms].
    { inversion Hall as [E|]. destruct (shape x); [discriminate Hmin|].
      discriminate E. }
    unfold KruskalTensor_init.
    change (getitem (first :: fms) 0) with (Ok first). cbn [bind].
    inversion Hshapes as [|? ? [n Hfirst] _]; subst.
    unfold shape_at at 1. rewrite Hfirst.
    change (getitem [n; model_rank s] 1) with (@Ok nat (model_rank s)).
    cbn [bind]. rewrite (check_columns_ok _ _ Hshapes). reflexivity. }
  split; [|split; assumption].
  split.
  - intros Hr. destruct (Nat.lt_ge_cases smallest (model_rank s)) as [|Hle];
      [assumption|].
    destruct (Hok Hle) as (fms & E & _). rewrite E in Hr. discriminate Hr.
  - intros Hlt. now rewrite (Hraise Hlt).
Qed.

End InitSvd.

Lemma init_components_svd_witness :
  let x := mk_ndarray [2;2]%nat [1;0;0;1] in
  let s := svd_decomposer 2 x in
  exists fms,
    BaseCP.init_components unit no_file no_loader unit_vectors_svd no_random
                           None s
    = (Ok tt, set_decomposition (mk_KruskalTensor 2 fms (ones [2%nat])) s) /\
    Forall2 (leading_singular_vectors unit_vectors_svd x 2) [0;1]%nat fms.
Proof.
  intros x s.
  assert (Hsvd : svd_full unit_vectors_svd).
  { intros M m n HM. unfold unit_vectors_svd. rewrite HM. eauto. }
  assert (Hnz : Forall (fun d => d <> 0%nat) (shape x))
    by (repeat constructor; discriminate).
  destruct (init_components_svd unit no_file no_loader unit_vectors_svd
              no_random s x 2 Hsvd eq_refl eq_refl eq_refl Hnz eq_refl)
    as (_ & _ & H).
  apply H. cbn. lia.
Defined.

(** C7 as stated fails in two ways.  When an initial decomposition is
    passed, the guard at the head of [init_components] raises a
    [Warning] whatever the rank is; and on a target with an empty mode
    the unfolding raises a [ValueError] of its own although the rank
    does not exceed the smallest dimension. *)
Lemma init_components_svd_other_failures :
  let x := mk_ndarray [2;2]%nat [1;0;0;1] in
  let d := mk_KruskalTensor 1 [ones [2;1]%nat; ones [2;1]%nat]
                            (ones [1%nat]) in
  let empty := mk_ndarray [0;2]%nat [] in
  (forall r,
     BaseCP.init_components unit no_file no_loader unit_vectors_svd no_random
                            (Some (inl d)) (svd_decomposer r x)
     = (Raise (Warning
          "Precomputed components were passed even though another initialisation is used."),
        svd_decomposer r x)) /\
  min_of (shape empty) = Ok 0%nat /\
  BaseCP.init_components unit no_file no_loader unit_vectors_svd no_random
                         None (svd_decomposer 0 empty)
  = (Raise (ValueError "cannot reshape array"), svd_decomposer 0 empty).
Proof.
  cbv zeta. repeat split.
Qed.

(* ================================================================== *)
(** * The ADMM sub-problem leaves a non-negative factor matrix         *)
(* ================================================================== *)


(** Splits a successful chain of binds into its successful steps. *)
Ltac bind_inv H :=
  repeat match type of H with
         | bind ?m _ = Ok _ =>
             let E := fresh "E" in
             destruct m eqn:E; cbn [bind] in H; [|discriminate H]
         end.

Section Entries.

Variable P : R -> Prop.

Lemma Forall_block (Q i : nat) (l : list R) :
  Forall P l -> Forall P (block Q i l).
Proof.
  intros H. unfold block.
  rewrite <- (firstn_skipn (i * Q) l) in H. apply Forall_app in H.
  destruct H as [_ H].
  rewrite <- (firstn_skipn Q (skipn (i * Q) l)) in H. apply Forall_app in H.
  exact (proj1 H).
Qed.

Lemma Forall_concat_repeat (d : list R) (b : nat) :
  Forall P d -> Forall P (concat (repeat d b)).
Proof.
  intros H. induction b as [|b IH]; cbn; [constructor|].
  apply Forall_app. now split.
Qed.

(** Broadcasting only copies entries. *)
Lemma broadcast_data_Forall (s : list nat) :
  forall t l d,
  broadcast_data s t l = Some d -> Forall P l -> Forall P d.
Proof.
  induction s as [|a s' IH]; intros [|b t'] l d H Hl; cbn in H;
    try discriminate.
  - now injection H as <-.
  - destruct (a =? b)%nat.
    + revert d H. generalize (seq 0 a) as idx.
      induction idx as [|i idx IHidx]; intros d H; cbn in H.
      * injection H as <-. constructor.
      * destruct (broadcast_data s' t' (block (prod s') i l)) as [d1|] eqn:E1;
          cbn in H; [|discriminate].
        match type of H with
        | option_bind ?acc _ = _ => destruct acc as [rest|] eqn:E2
        end; cbn in H; [|discriminate].
        injection H as <-. apply Forall_app. split.
        -- eapply IH; [exact E1 | now apply Forall_block].
        -- now apply IHidx.
    + destruct (a =? 1)%nat; [|discriminate].
      destruct (broadcast_data s' t' l) as [d1|] eqn:E1; cbn in H;
        [|discriminate].
      injection H as <-. apply Forall_concat_repeat. eapply IH; eauto.
Qed.

Lemma assign_Forall (target value r : ndarray) :
  assign target value = Ok r -> Forall P (data value) ->
  Forall P (data r) /\ shape r = shape target.
Proof.
  unfold assign. intros H Hv.
  destruct (strip_ones _ _) as [s|]; [|discriminate].
  destruct (broadcast_data _ _ _) as [d|] eqn:E; [|discriminate].
  injection H as <-. cbn. split; [|reflexivity].
  eapply broadcast_data_Forall; eauto.
Qed.

End Entries.

Lemma maximum0_nonnegative (A : ndarray) : nonnegative (maximum0 A).
Proof.
  unfold nonnegative, maximum0. cbn. apply Forall_map, Forall_forall.
  intros x _. apply Rmax_r.
Qed.

Lemma getitem_setitem {A} (l l' : list A) (i : Z) (x : A) :
  setitem l i x = Ok l' -> getitem l' i = Ok x.
Proof.
  unfold setitem, getitem. destruct (index (length l) i) as [k|] eqn:E;
    cbn [bind]; [|discriminate].
  intros Heq.
  assert (El : l' = firstn k l ++ x :: skipn (S k) l) by congruence.
  subst l'. clear Heq. pose proof (index_bound _ _ _ E) as Hk.
  assert (Hlen : length (firstn k l ++ x :: skipn (S k) l) = length l).
  { rewrite length_app, length_firstn. cbn [length]. rewrite length_skipn. lia. }
  rewrite Hlen, E. cbn [bind].
  rewrite nth_error_app2 by (rewrite length_firstn; lia).
  rewrite length_firstn.
  replace (k - Nat.min k (length l))%nat with 0%nat by lia. reflexivity.
Qed.

Section AdmmInvariant.

Variable lstsq : ndarray -> ndarray -> result ndarray.

(** The auxiliary variable stays non-negative through the loop. *)
Lemma admm_loop_aux_nonnegative (self : ADMMSubproblem)
      (lhs rhs I : ndarray) (n : nat) :
  forall fm aux dual fm' aux' dual',
  admm_loop lstsq self lhs rhs I n fm aux dual = Ok (fm', aux', dual') ->
  nonnegative aux -> nonnegative aux'.
Proof.
  induction n as [|n IH]; intros fm aux dual fm' aux' dual' H Haux.
  - cbn in H. now injection H as <- <- <-.
  - cbn [admm_loop] in H.
    destruct (has_converged self fm aux) as [[|]|] eqn:Ec; cbn [bind] in H;
      [ now injection H as <- <- <- | | discriminate ].
    bind_inv H.
    eapply IH; [exact H|].
    unfold update_constraint in *.
    match goal with
    | E : bind (add _ _) _ = Ok ?a |- nonnegative ?a =>
        bind_inv E;
        apply (assign_Forall (fun x => 0 <= x)) in E;
        [exact (proj1 E) | apply maximum0_nonnegative]
    end.
Qed.

(** C10.  Whenever [update_decomposition] returns, the factor matrix
    of the sub-problem's mode is entrywise non-negative, whatever the
    [non_negativity] flag (and every other setting) of the sub-problem
    is: the auxiliary variable is a clipping at zero from its
    initialisation on, and it is what the last assignment copies into
    the factor matrix. *)
Theorem update_decomposition_nonnegative
        (self : ADMMSubproblem) (X : ndarray) (fms fms' : list ndarray) :
  update_decomposition lstsq self X fms = Ok fms' ->
  exists F, getitem fms' (mode self) = Ok F /\ nonnegative F.
Proof.
  intros H. unfold update_decomposition in H. bind_inv H.
  match goal with
  | E : assign (fst (fst ?st)) (snd (fst ?st)) = Ok ?F |- _ =>
      exists F; split; [now apply getitem_setitem in H|];
      destruct st as [[fm' aux'] dual']; cbn [fst snd] in E;
      apply (assign_Forall (fun x => 0 <= x)) in E; [exact (proj1 E)|]
  end.
  match goal with
  | E : admm_loop _ _ _ _ _ _ _ _ _ = Ok _ |- _ =>
      eapply admm_loop_aux_nonnegative; [exact E|]
  end.
  apply maximum0_nonnegative.
Qed.

End AdmmInvariant.

Lemma update_decomposition_nonnegative_witness :
  exists fms' F,
    update_decomposition example_lstsq example_subproblem
      (mk_ndarray [1;1]%nat [1])
      [mk_ndarray [1;1]%nat [5]; mk_ndarray [1;1]%nat [1]] = Ok fms' /\
    getitem fms' 0 = Ok F /\ nonnegative F.
Proof.
  assert (Hrun : exists fms',
            update_decomposition example_lstsq example_subproblem
              (mk_ndarray [1;1]%nat [1])
              [mk_ndarray [1;1]%nat [5]; mk_ndarray [1;1]%nat [1]] = Ok fms').
  { cbv -[Rlt_dec Rplus Rmult Rminus Rmax Rdiv sqrt IZR].
    destruct (Rlt_dec _ _); eexists; reflexivity. }
  destruct Hrun as [fms' Hrun].
  destruct (update_decomposition_nonnegative example_lstsq example_subproblem
              _ _ _ Hrun) as [F [HF HN]].
  exists fms', F. auto.
Defined.

(* ================================================================== *)
(** * Algebra of finite sums                                           *)
(* ================================================================== *)

Import Sums.

Lemma bigsum_S (n : nat) (f : nat -> R) :
  bigsum (S n) f = bigsum n f + f n.
Proof.
  unfold bigsum. rewrite seq_S, map_app. cbn [map].
  unfold sum. rewrite fold_right_app. cbn [fold_right plus].
  generalize (map f (seq 0 n)) as l. intros l.
  induction l as [|x l IH]; cbn; [lra | rewrite IH; lra].
Qed.

Lemma bigsum_0 (f : nat -> R) : bigsum 0 f = 0.
Proof. reflexivity. Qed.

Lemma bigsum_ext (n : nat) (f g : nat -> R) :
  (forall i, (i < n)%nat -> f i = g i) -> bigsum n f = bigsum n g.
Proof.
  intros H. induction n as [|n IH]; [reflexivity|].
  rewrite !bigsum_S, IH, H by auto. reflexivity.
Qed.

Lemma bigsum_plus (n : nat) (f g : nat -> R) :
  bigsum n (fun i => f i + g i) = bigsum n f + bigsum n g.
Proof.
  induction n as [|n IH]; [rewrite !bigsum_0; lra|].
  rewrite !bigsum_S, IH. lra.
Qed.

Lemma bigsum_minus (n : nat) (f g : nat -> R) :
  bigsum n (fun i => f i - g i) = bigsum n f - bigsum n g.
Proof.
  induction n as [|n IH]; [rewrite !bigsum_0; lra|].
  rewrite !bigsum_S, IH. lra.
Qed.

Lemma bigsum_scale (n : nat) (c : R) (f : nat -> R) :
  bigsum n (fun i => c * f i) = c * bigsum n f.
Proof.
  induction n as [|n IH]; [rewrite !bigsum_0; lra|].
  rewrite !bigsum_S, IH. lra.
Qed.

Lemma bigsum_scale_r (n : nat) (c : R) (f : nat -> R) :
  bigsum n (fun i => f i * c) = bigsum n f * c.
Proof.
  induction n as [|n IH]; [rewrite !bigsum_0; lra|].
  rewrite !bigsum_S, IH. lra.
Qed.

Lemma bigsum_zero (n : nat) : bigsum n (fun _ => 0) = 0.
Proof.
  induction n as [|n IH]; [reflexivity|]. rewrite bigsum_S, IH. lra.
Qed.

Lemma bigsum_swap (m n : nat) (f : nat -> nat -> R) :
  bigsum m (fun i => bigsum n (fun j => f i j))
  = bigsum n (fun j => bigsum m (fun i => f i j)).
Proof.
  induction m as [|m IH].
  - rewrite bigsum_0. symmetry. apply bigsum_zero.
  - rewrite bigsum_S, IH, <- bigsum_plus. apply bigsum_ext.
    intros j _. now rewrite bigsum_S.
Qed.

Lemma bigsum_nonneg (n : nat) (f : nat -> R) :
  (forall i, (i < n)%nat -> 0 <= f i) -> 0 <= bigsum n f.
Proof.
  intros H. induction n as [|n IH]; [rewrite bigsum_0; lra|].
  rewrite bigsum_S.
  assert (0 <= bigsum n f) by (apply IH; auto).
  specialize (H n (Nat.lt_succ_diag_r n)). lra.
Qed.

Lemma bigsum_le (n : nat) (f g : nat -> R) :
  (forall i, (i < n)%nat -> f i <= g i) -> bigsum n f <= bigsum n g.
Proof.
  intros H. induction n as [|n IH]; [rewrite !bigsum_0; lra|].
  rewrite !bigsum_S.
  assert (bigsum n f <= bigsum n g) by (apply IH; auto).
  specialize (H n (Nat.lt_succ_diag_r n)). lra.
Qed.

(** A sum of non-negative terms vanishes only if every term does. *)
Lemma bigsum_nonneg_zero (n : nat) (f : nat -> R) :
  (forall i, (i < n)%nat -> 0 <= f i) -> bigsum n f = 0 ->
  forall i, (i < n)%nat -> f i = 0.
Proof.
  induction n as [|n IH]; intros Hf Hs i Hi; [lia|].
  rewrite bigsum_S in Hs.
  assert (H1 : 0 <= bigsum n f) by (apply bigsum_nonneg; auto).
  assert (H2 : 0 <= f n) by (apply Hf; lia).
  destruct (Nat.eq_dec i n) as [->|Hne]; [lra|].
  apply IH; [auto | lra | lia].
Qed.

Lemma bigsum_add_range (p q : nat) (f : nat -> R) :
  bigsum (p + q) f = bigsum p f + bigsum q (fun j => f (p + j)%nat).
Proof.
  induction q as [|q IHq].
  - rewrite Nat.add_0_r, bigsum_0. lra.
  - replace (p + S q)%nat with (S (p + q)) by lia.
    rewrite !bigsum_S, IHq. lra.
Qed.

(** Summing over a product range, row by row. *)
Lemma bigsum_mul (m n : nat) (f : nat -> R) :
  bigsum (m * n) f = bigsum m (fun i => bigsum n (fun j => f (i * n + j)%nat)).
Proof.
  induction m as [|m IH]; [reflexivity|].
  rewrite bigsum_S, <- IH.
  replace (S m * n)%nat with (m * n + n)%nat by lia.
  apply bigsum_add_range.
Qed.

(* Inner products *)

Lemma ip_sym (n : nat) (f g : nat -> R) : ip n f g = ip n g f.
Proof. unfold ip. apply bigsum_ext. intros. lra. Qed.

Lemma ip_ext (n : nat) (f f' g g' : nat -> R) :
  (forall t, (t < n)%nat -> f t = f' t) ->
  (forall t, (t < n)%nat -> g t = g' t) ->
  ip n f g = ip n f' g'.
Proof.
  intros Hf Hg. unfold ip. apply bigsum_ext. intros t Ht.
  now rewrite Hf, Hg.
Qed.

Lemma ip_plus_r (n : nat) (f g h : nat -> R) :
  ip n f (fun t => g t + h t) = ip n f g + ip n f h.
Proof.
  unfold ip. rewrite <- bigsum_plus. apply bigsum_ext. intros. lra.
Qed.

Lemma ip_minus_r (n : nat) (f g h : nat -> R) :
  ip n f (fun t => g t - h t) = ip n f g - ip n f h.
Proof.
  unfold ip. rewrite <- bigsum_minus. apply bigsum_ext. intros. lra.
Qed.

Lemma ip_scale_r (n : nat) (c : R) (f g : nat -> R) :
  ip n f (fun t => c * g t) = c * ip n f g.
Proof.
  unfold ip. rewrite <- bigsum_scale. apply bigsum_ext. intros. lra.
Qed.

(** The inner product with a linear combination. *)
Lemma ip_comb_r (n r : nat) (f : nat -> R) (s : nat -> R)
      (K : nat -> nat -> R) :
  ip n f (fun t => bigsum r (fun b => s b * K t b))
  = bigsum r (fun b => s b * ip n f (fun t => K t b)).
Proof.
  unfold ip.
  rewrite (bigsum_ext n _ (fun t => bigsum r (fun b => f t * (s b * K t b))))
    by (intros; now rewrite bigsum_scale).
  rewrite bigsum_swap. apply bigsum_ext. intros b _.
  rewrite <- bigsum_scale. apply bigsum_ext. intros. lra.
Qed.

Lemma ip_self_nonneg (n : nat) (f : nat -> R) : 0 <= ip n f f.
Proof. unfold ip. apply bigsum_nonneg. intros. nra. Qed.

Lemma ip_self_zero (n : nat) (f : nat -> R) :
  ip n f f = 0 -> forall t, (t < n)%nat -> f t = 0.
Proof.
  intros H t Ht.
  assert (Hz : f t * f t = 0).
  { apply (bigsum_nonneg_zero n (fun t => f t * f t)); auto. intros. nra. }
  nra.
Qed.

(* ================================================================== *)
(** * Linear least squares                                             *)
(* ================================================================== *)

Lemma bigsum_coeffs_S (r : nat) (s : nat -> R) (c : R) (f : nat -> R) :
  bigsum (S r) (fun b => (if (b <? r)%nat then s b else c) * f b)
  = bigsum r (fun b => s b * f b) + c * f r.
Proof.
  rewrite bigsum_S. rewrite Nat.ltb_irrefl. f_equal.
  apply bigsum_ext. intros b Hb.
  apply Nat.ltb_lt in Hb. now rewrite Hb.
Qed.

(** The normal equations always have a solution: the columns of the design
    matrix are orthogonalised one at a time. *)
Lemma normal_exists (T r : nat) (K : nat -> nat -> R) :
  forall x, exists s, normal T r K x s.
Proof.
  induction r as [|r IH]; intros x.
  - exists (fun _ => 0). intros a Ha. lia.
  - destruct (IH (fun t => K t r)) as [al Hal].
    destruct (IH x) as [sg Hsg].
    set (u := residual_at r K (fun t => K t r) al).
    set (rho := residual_at r K x sg).
    assert (Hk : forall g, ip T (fun t => K t r) g
                   = ip T u g
                     + bigsum r (fun b => al b * ip T (fun t => K t b) g)).
    { intros g. rewrite <- (ip_sym T g (fun t => bigsum r (fun b => al b * K t b)))
        || idtac.
      rewrite <- (bigsum_ext r (fun b => al b * ip T g (fun t => K t b)))
        by (intros; now rewrite ip_sym).
      rewrite <- ip_comb_r, (ip_sym T u g), <- ip_plus_r, ip_sym.
      apply ip_ext; [reflexivity|]. intros t _. unfold u, residual_at. lra. }
    destruct (Req_dec (ip T u u) 0) as [Hz|Hnz].
    + exists (fun b => if (b <? r)%nat then sg b else 0).
      assert (Hres : forall t,
                residual_at (S r) K x
                  (fun b => if (b <? r)%nat then sg b else 0) t = rho t).
      { intros t. unfold residual_at, rho.
        rewrite (bigsum_coeffs_S r sg 0 (fun b => K t b)).
        unfold residual_at. lra. }
      intros a Ha.
      rewrite (ip_ext T _ (fun t => K t a) _ rho) by (auto; reflexivity).
      destruct (Nat.eq_dec a r) as [->|Hne].
      * rewrite Hk.
        rewrite (ip_ext T u (fun _ => 0) rho rho); auto.
        2:{ intros t Ht. now apply (ip_self_zero T u Hz). }
        rewrite (bigsum_ext r _ (fun _ => 0)).
        2:{ intros b Hb. unfold rho. rewrite (Hsg b Hb). lra. }
        rewrite bigsum_zero. unfold ip.
        rewrite (bigsum_ext T _ (fun _ => 0)) by (intros; lra).
        rewrite bigsum_zero. lra.
      * apply Hsg. lia.
    + set (c := ip T u rho / ip T u u).
      exists (fun b => if (b <? r)%nat then sg b - c * al b else c).
      assert (Hres : forall t,
                residual_at (S r) K x
                  (fun b => if (b <? r)%nat then sg b - c * al b else c) t
                = rho t - c * u t).
      { intros t. unfold residual_at at 1.
        rewrite (bigsum_coeffs_S r (fun b => sg b - c * al b) c
                   (fun b => K t b)).
        rewrite (bigsum_ext r _ (fun b => sg b * K t b - c * (al b * K t b)))
          by (intros; lra).
        rewrite bigsum_minus, bigsum_scale.
        unfold rho, u, residual_at. lra. }
      assert (Hcol : forall g, ip T g (fun t => rho t - c * u t)
                               = ip T g rho - c * ip T g u).
      { intros g. now rewrite ip_minus_r, ip_scale_r. }
      assert (Hlow : forall b, (b < r)%nat ->
                ip T (fun t => K t b) (fun t => rho t - c * u t) = 0).
      { intros b Hb. rewrite Hcol. unfold rho, u.
        rewrite (Hsg b Hb), (Hal b Hb). lra. }
      intros a Ha.
      rewrite (ip_ext T _ (fun t => K t a) _ (fun t => rho t - c * u t))
        by (auto; reflexivity).
      destruct (Nat.eq_dec a r) as [->|Hne].
      * rewrite Hk, Hcol.
        rewrite (bigsum_ext r _ (fun _ => 0)).
        2:{ intros b Hb. rewrite (Hlow b Hb). lra. }
        rewrite bigsum_zero. unfold c. field. exact Hnz.
      * apply Hlow. lia.
Qed.

(** A solution of the normal equations minimises the residual. *)
Lemma normal_minimises (T r : nat) (K : nat -> nat -> R) (x s s' : nat -> R) :
  normal T r K x s ->
  residual_norm T r K x s <= residual_norm T r K x s'.
Proof.
  intros Hn. unfold residual_norm.
  set (rho := residual_at r K x s).
  set (dl := fun t => bigsum r (fun b => (s b - s' b) * K t b)).
  assert (E : forall t, residual_at r K x s' t = rho t + dl t).
  { intros t. unfold rho, dl, residual_at.
    rewrite (bigsum_ext r (fun b => (s b - s' b) * K t b)
               (fun b => s b * K t b - s' b * K t b)) by (intros; lra).
    rewrite bigsum_minus. lra. }
  rewrite (ip_ext T (residual_at r K x s') (fun t => rho t + dl t)
             (residual_at r K x s') (fun t => rho t + dl t)) by auto.
  rewrite ip_plus_r.
  rewrite (ip_sym T (fun t => rho t + dl t) rho),
    (ip_sym T (fun t => rho t + dl t) dl), !ip_plus_r.
  assert (Hz : ip T rho dl = 0).
  { unfold dl. rewrite ip_comb_r.
    rewrite (bigsum_ext r _ (fun _ => 0)); [apply bigsum_zero|].
    intros b Hb. rewrite ip_sym. unfold rho. rewrite (Hn b Hb). lra. }
  rewrite (ip_sym T dl rho), Hz.
  pose proof (ip_self_nonneg T dl). lra.
Qed.

(** The normal equations in matrix form. *)
Lemma normal_gram (T r : nat) (K : nat -> nat -> R) (x s : nat -> R) (a : nat) :
  ip T (fun t => K t a) (residual_at r K x s)
  = moment T K x a - bigsum r (fun b => s b * gram T K a b).
Proof.
  unfold residual_at. rewrite ip_minus_r, ip_comb_r.
  unfold moment, gram. now rewrite (ip_sym T x).
Qed.

(* ================================================================== *)
(** * What the steps of the iteration loop leave alone                 *)
(* ================================================================== *)


Lemma fitting_frame_bind {A B} (m : method A) (k : A -> method B) :
  fitting_frame m -> (forall a, fitting_frame (k a)) ->
  fitting_frame (bindm m k).
Proof.
  intros Hm Hk s. unfold bindm. destruct (Hm s) as (d & c & p & E).
  destruct (m s) as [[a|e] s1]; cbn [snd] in E.
  - destruct (Hk a s1) as (d' & c' & p' & E'). exists d', c', p'.
    rewrite E', E. reflexivity.
  - exists d, c, p. exact E.
Qed.

Lemma fitting_frame_still {A} (m : method A) :
  (forall s, snd (m s) = s) -> fitting_frame m.
Proof.
  intros H s. exists (decomposition s), (rel_function_change s), (prev_SSE s).
  rewrite H. now destruct s.
Qed.

Lemma fitting_frame_lift {A} (v : result A) : fitting_frame (lift v).
Proof. now apply fitting_frame_still. Qed.

Lemma fitting_frame_ret {A} (a : A) : fitting_frame (ret a).
Proof. now apply fitting_frame_still. Qed.

Lemma fitting_frame_raise {A} (e : exn) : fitting_frame (@raise A e).
Proof. now apply fitting_frame_still. Qed.

Lemma fitting_frame_read {A} (f : decomposer -> A) :
  fitting_frame (Fit.read f).
Proof. now apply fitting_frame_still. Qed.

Lemma fitting_frame_get {A} (f : decomposer -> A) :
  fitting_frame (fun s => (Ok (f s), s)).
Proof. now apply fitting_frame_still. Qed.

Lemma fitting_frame_attribute {A} (name : string)
      (get : decomposer -> option A) :
  fitting_frame (attribute name get).
Proof.
  apply fitting_frame_still. intros s. unfold attribute. now destruct (get s).
Qed.

Lemma fitting_frame_divides (b a : Z) : fitting_frame (Fit.divides b a).
Proof.
  apply fitting_frame_still. intros s. unfold Fit.divides.
  now destruct (b =? 0)%Z.
Qed.

Lemma fitting_frame_set_decomposition (kt : KruskalTensor) :
  fitting_frame (update (set_decomposition kt)).
Proof.
  intros s. exists (Some kt), (rel_function_change s), (prev_SSE s).
  reflexivity.
Qed.

Lemma fitting_frame_set_change (c : ext_real) :
  fitting_frame (update (Fit.set_rel_function_change c)).
Proof.
  intros s. exists (decomposition s), (Some c), (prev_SSE s). reflexivity.
Qed.

Lemma fitting_frame_set_prev (v : R) :
  fitting_frame (update (Fit.set_prev_SSE v)).
Proof.
  intros s. exists (decomposition s), (rel_function_change s), (Some v).
  reflexivity.
Qed.

Create HintDb frames.

#[local] Hint Resolve fitting_frame_lift fitting_frame_ret
  fitting_frame_raise fitting_frame_read fitting_frame_get
  fitting_frame_attribute fitting_frame_divides
  fitting_frame_set_decomposition fitting_frame_set_change
  fitting_frame_set_prev : frames.

Ltac frames :=
  repeat first
    [ solve [auto with frames]
    | apply fitting_frame_bind; [|intros ?]
    | progress cbv zeta
    | match goal with
      | |- fitting_frame (match ?c with _ => _ end) => destruct c
      | |- fitting_frame (if ?c then _ else _) => destruct c
      end ].

Lemma fitting_frame_SSE : fitting_frame CP_ALS.SSE.
Proof. unfold CP_ALS.SSE, CP_ALS.reconstructed_X. frames. Qed.

#[local] Hint Resolve fitting_frame_SSE : frames.

Lemma fitting_frame_MSE : fitting_frame Fit.MSE.
Proof. unfold Fit.MSE. frames. Qed.

#[local] Hint Resolve fitting_frame_MSE : frames.

Lemma fitting_frame_update_mode
      (rightsolve non_negative_rightsolve
         : ndarray -> ndarray -> result ndarray) (n : nat) :
  fitting_frame (CP_ALS.update_mode rightsolve non_negative_rightsolve n).
Proof.
  unfold CP_ALS.update_mode, CP_ALS._update_als_factor,
    CP_ALS._update_als_factor_non_negative, CP_ALS.normalize,
    CP_ALS._get_als_lhs, CP_ALS._get_als_rhs, CP_ALS.factor_matrices_of.
  frames.
Qed.

Lemma fitting_frame_sweep
      (rightsolve non_negative_rightsolve
         : ndarray -> ndarray -> result ndarray) (modes : list nat) :
  forall m0 : method unit, fitting_frame m0 ->
  fitting_frame
    (fold_left (fun acc mode =>
                  acc ;;; CP_ALS.update_mode rightsolve
                            non_negative_rightsolve mode)
               modes m0).
Proof.
  induction modes as [|n modes IH]; intros m0 H0; [exact H0|].
  cbn [fold_left]. apply IH. apply fitting_frame_bind; [exact H0|].
  intros _. apply fitting_frame_update_mode.
Qed.

Lemma fitting_frame_update_als_factors
      (rightsolve non_negative_rightsolve
         : ndarray -> ndarray -> result ndarray) :
  fitting_frame
    (CP_ALS._update_als_factors rightsolve non_negative_rightsolve).
Proof.
  unfold CP_ALS._update_als_factors. apply fitting_frame_bind.
  - apply fitting_frame_attribute.
  - intros x. apply fitting_frame_sweep, fitting_frame_ret.
Qed.

Lemma fitting_frame_update_convergence :
  fitting_frame Fit._update_convergence.
Proof. unfold Fit._update_convergence. frames. Qed.

Lemma fitting_frame_print_progress : fitting_frame Fit.print_progress.
Proof.
  unfold Fit.print_progress, Fit.loss. frames.
Qed.

Lemma frame_preserves {A} (m : method A) :
  fitting_frame m ->
  preserves checkpoint_frequency m /\ preserves current_iteration m /\
  preserves convergence_tol m /\ preserves max_its m /\
  preserves X m /\ preserves non_negativity_constraints m.
Proof.
  intros H. repeat split; intros s; destruct (H s) as (d & c & p & E);
    now rewrite E.
Qed.


(* ================================================================== *)
(** * The alternating least squares sweep                              *)
(* ================================================================== *)

(* Sums of lists as indexed sums *)

Lemma bigsum_S_first (n : nat) (f : nat -> R) :
  bigsum (S n) f = f 0%nat + bigsum n (fun i => f (S i)).
Proof.
  unfold bigsum. cbn [seq map sum fold_right]. f_equal.
  rewrite <- seq_shift, map_map. reflexivity.
Qed.

Lemma sum_bigsum (l : list R) :
  sum l = bigsum (length l) (fun i => nth i l 0).
Proof.
  induction l as [|x l IH]; [reflexivity|].
  cbn [length]. rewrite bigsum_S_first. cbn [nth sum fold_right].
  now rewrite <- IH.
Qed.

Lemma dot_bigsum (n : nat) (u v : list R) :
  length u = n -> length v = n ->
  dot u v = bigsum n (fun i => nth i u 0 * nth i v 0).
Proof.
  intros Hu Hv. unfold dot. rewrite sum_bigsum, zip_with_length, Hu, Hv.
  rewrite Nat.min_id. apply bigsum_ext. intros i Hi.
  apply nth_zip_with; lia.
Qed.

(* Rows of Khatri-Rao products *)

Lemma zip_with_nil_r (f : R -> R -> R) (u : list R) : zip_with f u [] = [].
Proof. unfold zip_with. now rewrite combine_nil_r. Qed.

Lemma krb_rows_cons (a : list R) (ra rb : list (list R)) :
  krb_rows (a :: ra) rb = map (zip_with Rmult a) rb ++ krb_rows ra rb.
Proof. reflexivity. Qed.

Lemma krb_rows_app (ra ra' rb : list (list R)) :
  krb_rows (ra ++ ra') rb = krb_rows ra rb ++ krb_rows ra' rb.
Proof. unfold krb_rows. apply flat_map_app. Qed.

Lemma nth_krb_rows (ra rb : list (list R)) (i j : nat) :
  (i < length ra)%nat -> (j < length rb)%nat ->
  nth (i * length rb + j) (krb_rows ra rb) []
  = zip_with Rmult (nth i ra []) (nth j rb []).
Proof.
  revert i. induction ra as [|a ra IH]; intros i Hi Hj; [cbn in Hi; lia|].
  rewrite krb_rows_cons. destruct i as [|i].
  - cbn [Nat.mul Nat.add nth]. rewrite app_nth1 by (rewrite length_map; lia).
    rewrite <- (zip_with_nil_r Rmult a) at 1. apply map_nth.
  - rewrite app_nth2 by (rewrite length_map; lia).
    rewrite length_map.
    replace (S i * length rb + j - length rb)%nat
      with (i * length rb + j)%nat by lia.
    cbn [nth]. apply IH; [cbn in Hi; lia | assumption].
Qed.

Lemma nth_rows_ok (c : nat) (rws : list (list R)) (i : nat) :
  rows_ok c rws -> (i < length rws)%nat -> length (nth i rws []) = c.
Proof.
  intros H Hi. unfold rows_ok in H. rewrite Forall_forall in H.
  apply H. now apply nth_In.
Qed.

Lemma entry_krb_rows (c : nat) (ra rb : list (list R)) (i j a : nat) :
  rows_ok c ra -> rows_ok c rb ->
  (i < length ra)%nat -> (j < length rb)%nat -> (a < c)%nat ->
  entry_of (krb_rows ra rb) (i * length rb + j) a
  = entry_of ra i a * entry_of rb j a.
Proof.
  intros Ha Hb Hi Hj Hc. unfold entry_of. rewrite nth_krb_rows by assumption.
  apply nth_zip_with.
  - now rewrite (nth_rows_ok c ra i).
  - now rewrite (nth_rows_ok c rb j).
Qed.

Lemma krb_rows_assoc (ra rb rc : list (list R)) :
  krb_rows (krb_rows ra rb) rc = krb_rows ra (krb_rows rb rc).
Proof.
  induction ra as [|a ra IH]; [reflexivity|].
  rewrite !krb_rows_cons, krb_rows_app, IH. f_equal. clear IH.
  induction rb as [|b rb IHb]; [reflexivity|].
  cbn [map]. rewrite !krb_rows_cons, map_app, IHb. f_equal.
  rewrite map_map. apply map_ext. intros c. symmetry. apply zip_mul_assoc.
Qed.

Lemma krb_rows_unit_l (c : nat) (rws : list (list R)) :
  rows_ok c rws -> krb_rows [repeat 1 c] rws = rws.
Proof.
  intros H. unfold krb_rows. cbn [flat_map]. rewrite app_nil_r.
  induction H as [|row rws Hrow _ IH]; [reflexivity|].
  cbn [map]. rewrite IH. f_equal. rewrite <- Hrow. apply zip_mul_ones_l.
Qed.

Lemma krb_rows_unit_r (c : nat) (rws : list (list R)) :
  rows_ok c rws -> krb_rows rws [repeat 1 c] = rws.
Proof.
  intros H. induction H as [|row rws Hrow _ IH]; [reflexivity|].
  rewrite krb_rows_cons, IH. cbn [map app]. f_equal.
  rewrite <- Hrow. apply zip_mul_ones_r.
Qed.

Lemma unit_rows_ok (c : nat) : rows_ok c [repeat 1 c].
Proof. constructor; [apply repeat_length | constructor]. Qed.

Lemma krp_all_ok (c : nat) (Rs : list (list (list R))) :
  Forall (rows_ok c) Rs -> rows_ok c (krp_all c Rs).
Proof.
  induction 1 as [|rws Rs H _ IH]; [apply unit_rows_ok|].
  cbn [krp_all fold_right]. now apply krb_rows_ok.
Qed.

Lemma krp_all_app (c : nat) (Rs Rs' : list (list (list R))) :
  Forall (rows_ok c) Rs' ->
  krp_all c (Rs ++ Rs') = krb_rows (krp_all c Rs) (krp_all c Rs').
Proof.
  intros H. induction Rs as [|rws Rs IH].
  - cbn [app krp_all fold_right]. symmetry. apply krb_rows_unit_l.
    now apply krp_all_ok.
  - cbn [app krp_all fold_right]. fold (krp_all c (Rs ++ Rs')).
    fold (krp_all c Rs). now rewrite IH, krb_rows_assoc.
Qed.

Lemma krp_rows_all (c : nat) (rest : list (list (list R))) :
  Forall (rows_ok c) rest ->
  forall first, rows_ok c first ->
  krp_rows first rest = krp_all c (first :: rest).
Proof.
  induction 1 as [|rb rest Hb Hall IH]; intros first Hf.
  - cbn. symmetry. now apply krb_rows_unit_r.
  - unfold krp_rows. cbn [fold_left]. fold (krp_rows (krb_rows first rb) rest).
    rewrite IH by now apply krb_rows_ok.
    cbn [krp_all fold_right]. apply krb_rows_assoc.
Qed.

Lemma krp_all_length (c : nat) (Rs : list (list (list R))) :
  length (krp_all c Rs) = prod (map (@length _) Rs).
Proof.
  induction Rs as [|rws Rs IH]; [reflexivity|].
  cbn [krp_all fold_right map prod]. rewrite krb_rows_length.
  now fold (krp_all c Rs); rewrite IH.
Qed.

(* Scaling the rows *)

Lemma zip_mul_comm (a b : list R) :
  zip_with Rmult a b = zip_with Rmult b a.
Proof.
  revert b. induction a as [|x a IH]; intros [|y b]; try reflexivity.
  unfold zip_with in *. cbn. rewrite IH. f_equal. lra.
Qed.

Lemma scale_krb_rows_l (u : list R) (ra rb : list (list R)) :
  krb_rows (scale_rows u ra) rb = scale_rows u (krb_rows ra rb).
Proof.
  induction ra as [|a ra IH]; [reflexivity|].
  unfold scale_rows in *. cbn [map]. rewrite !krb_rows_cons, map_app, IH.
  f_equal. rewrite map_map. apply map_ext. intros b.
  rewrite <- !zip_mul_assoc. f_equal. apply zip_mul_comm.
Qed.

Lemma scale_krb_rows_r (u : list R) (ra rb : list (list R)) :
  krb_rows ra (scale_rows u rb) = scale_rows u (krb_rows ra rb).
Proof.
  induction ra as [|a ra IH]; [reflexivity|].
  unfold scale_rows in *. rewrite !krb_rows_cons, map_app, IH.
  f_equal. rewrite !map_map. apply map_ext. intros b.
  apply zip_mul_assoc.
Qed.

Lemma krp_all_scale (c : nat) (u : list R) (rws : list (list R))
      (Rs Rs' : list (list (list R))) :
  krp_all c (Rs ++ scale_rows u rws :: Rs')
  = scale_rows u (krp_all c (Rs ++ rws :: Rs')).
Proof.
  induction Rs as [|a Rs IH].
  - cbn [app krp_all fold_right]. apply scale_krb_rows_l.
  - cbn [app krp_all fold_right].
    fold (krp_all c (Rs ++ scale_rows u rws :: Rs')).
    fold (krp_all c (Rs ++ rws :: Rs')).
    rewrite IH. apply scale_krb_rows_r.
Qed.

(* The tensor of a Kruskal tensor, entry by entry *)

Lemma shape_list_factors (r : nat) (fms : list ndarray) :
  Forall (factor_matrix_of_rank r) fms ->
  shape_list fms = Ok (map (fun F => length (rows F)) fms).
Proof.
  induction 1 as [|F fms HF _ IH]; [reflexivity|].
  unfold shape_list in *. cbn [fold_right map]. rewrite IH.
  destruct (factor_rows r F HF) as (n & Hs & Hn & _).
  unfold shape_at. rewrite Hs, Hn. reflexivity.
Qed.

Lemma map_sum_krb_rows (ra rb : list (list R)) :
  flat_map (fun a => map (fun k => dot a k) rb) ra
  = map sum (krb_rows ra rb).
Proof.
  unfold krb_rows. induction ra as [|a ra IH]; [reflexivity|].
  cbn [flat_map]. rewrite map_app, IH, map_map. reflexivity.
Qed.

Lemma fold_first (M : ndarray) (d : nat) (ds : list nat) :
  wf M -> prod (shape M) = prod (d :: ds) ->
  fold M 0 (d :: ds) = Ok (mk_ndarray (d :: ds) (data M)).
Proof.
  intros Hwf Hp. unfold fold.
  rewrite (pop_index _ 0 0 0%nat) by (apply index_0; cbn; lia).
  cbn [bind nth firstn skipn app]. rewrite insert_0.
  rewrite reshape_full by (symmetry; exact Hp). cbn [bind].
  apply moveaxis_0_0.
  - unfold wf in *. cbn [shape data]. now rewrite Hwf.
  - unfold ndim. cbn. lia.
Qed.

Lemma constructed_row_weights (r r' : nat) (fms : list ndarray) (W : ndarray) :
  shape W = [r] \/ shape W = [1%nat; r] ->
  constructed (mk_KruskalTensor r' fms W)
  = (shp <- shape_list fms ;;
     first <- getitem fms 0 ;;
     scaled <- mul_row (mk_ndarray [1%nat; r] (data W)) first ;;
     krp <- khatri_rao (tl fms) None ;;
     M <- (krpT <- transpose krp ;; matmul scaled krpT) ;;
     fold M 0 shp).
Proof.
  intros HW. destruct W as [sw wv]. cbn [shape data] in *.
  unfold constructed, construct_tensor.
  cbn [weights shape length factor_matrices data].
  destruct HW as [-> | ->]; cbn [length Nat.eqb weights factor_matrices];
    fold (shape_list fms);
    (destruct (shape_list fms); [|reflexivity]; cbn [bind];
     destruct (getitem fms 0); [|reflexivity]; cbn [bind];
     destruct (mul_row _ _); [|reflexivity]; cbn [bind];
     destruct (khatri_rao _ _); [|reflexivity]; cbn [bind];
     destruct (transpose _); [|reflexivity]; cbn [bind];
     destruct (matmul _ _); [|reflexivity]; cbn [bind];
     destruct (fold _ _ _); reflexivity).
Qed.

(** The entries of the tensor of a Kruskal tensor: the sums of the rows
    of the Khatri-Rao product of all factor matrices, scaled by the
    weights. *)
Lemma constructed_rows (r r' : nat) (F0 F1 : ndarray) (rest : list ndarray)
      (W : ndarray) :
  let fms := F0 :: F1 :: rest in
  Forall (factor_matrix_of_rank r) fms ->
  shape W = [r] \/ shape W = [1%nat; r] ->
  length (data W) = r ->
  constructed (mk_KruskalTensor r' fms W)
  = Ok (mk_ndarray (map (fun F => length (rows F)) fms)
          (map sum (scale_rows (data W) (krp_all r (map rows fms))))).
Proof.
  intros fms Hall HW Hlen. unfold fms in *. clear fms.
  rewrite (constructed_row_weights r) by assumption.
  rewrite (shape_list_factors r) by assumption. cbn [bind].
  change (getitem (F0 :: F1 :: rest) 0) with (Ok F0). cbn [bind tl].
  pose proof (Forall_inv Hall) as HF0.
  pose proof (Forall_inv_tail Hall) as Hall1.
  pose proof (Forall_inv Hall1) as HF1.
  pose proof (Forall_inv_tail Hall1) as Hrest.
  destruct (factor_as_rows r F0 HF0) as [E0 Hok0].
  destruct (factor_as_rows r F1 HF1) as [E1 Hok1].
  destruct (map_as_rows r rest Hrest) as [Er Hokr].
  rewrite (mul_row_factor r) by assumption. cbn [bind].
  rewrite (khatri_rao_factors r) by assumption. cbn [bind].
  assert (Hkrp : rows_ok r (krp_rows (rows F1) (map rows rest)))
    by now apply krp_rows_ok.
  rewrite matmul_transpose_rows;
    [ | now apply weighted_rows_ok | assumption ].
  cbn [bind].
  assert (HK : krp_rows (rows F1) (map rows rest)
               = krp_all r (rows F1 :: map rows rest))
    by now apply krp_rows_all.
  assert (Hdata :
    flat_map (fun a => map (fun k => dot a k)
                           (krp_rows (rows F1) (map rows rest)))
             (map (fun row => zip_with Rmult (data W) row) (rows F0))
    = map sum (scale_rows (data W)
                 (krp_all r (map rows (F0 :: F1 :: rest))))).
  { rewrite map_sum_krb_rows. f_equal.
    change (krp_all r (map rows (F0 :: F1 :: rest)))
      with (krb_rows (rows F0) (krp_all r (rows F1 :: map rows rest))).
    rewrite <- HK.
    rewrite <- scale_krb_rows_l. f_equal. unfold scale_rows.
    apply map_ext. intros row. apply zip_mul_comm. }
  rewrite (map_cons (fun F => length (rows F)) F0 (F1 :: rest)).
  rewrite fold_first.
  - cbn [data]. now rewrite Hdata.
  - unfold wf. cbn [shape data prod fold_right].
    rewrite map_sum_krb_rows, length_map, krb_rows_length, !length_map. lia.
  - cbn [shape map prod fold_right]. rewrite !length_map, HK.
    rewrite krp_all_length. cbn [map prod fold_right].
    rewrite map_map. lia.
Qed.

(* The squared error, entry by entry *)

Lemma nth_block (Q i q : nat) (l : list R) :
  (q < Q)%nat -> nth q (block Q i l) 0 = nth (i * Q + q) l 0.
Proof.
  intros Hq. unfold block. rewrite nth_firstn.
  apply Nat.ltb_lt in Hq. rewrite Hq. apply nth_skipn.
Qed.

Lemma norm_sub_squared (x t : ndarray) :
  shape x = shape t -> length (data x) = length (data t) ->
  exists D, sub x t = Ok D /\
            (norm D ^ 2) = squared_error (data x) (data t).
Proof.
  intros Hs Hl. unfold sub.
  destruct (list_eq_dec Nat.eq_dec (shape x) (shape t)) as [_|Hne];
    [|contradiction].
  eexists. split; [reflexivity|].
  unfold norm, norm2. cbn [data].
  rewrite pow2_sqrt by apply sum_squares_nonneg.
  unfold squared_error. rewrite sum_bigsum, length_map, zip_with_length.
  rewrite <- Hl, Nat.min_id. apply bigsum_ext. intros i Hi.
  rewrite (nth_indep _ 0 ((fun y => y * y) 0))
    by (rewrite length_map, zip_with_length; lia).
  rewrite (map_nth (fun y => y * y)).
  rewrite nth_zip_with by lia. reflexivity.
Qed.

Section ModeObjective.

Variable r : nat.
Variables As Bs : list (list (list R)).
Hypothesis As_ok : Forall (rows_ok r) As.
Hypothesis Bs_ok : Forall (rows_ok r) Bs.

Let PA := krp_all r As.
Let QB := krp_all r Bs.
Let P := length PA.
Let Q := length QB.

Lemma design_entry (p q a : nat) :
  (p < P)%nat -> (q < Q)%nat -> (a < r)%nat ->
  (design r As Bs) (p * Q + q) a = entry_of PA p a * entry_of QB q a.
Proof.
  intros Hp Hq Ha. unfold design. rewrite krp_all_app by assumption.
  apply (entry_krb_rows r); auto; now apply krp_all_ok.
Qed.

Lemma model_entry (S : list (list R)) (p j q : nat) :
  rows_ok r S ->
  (p < P)%nat -> (j < length S)%nat -> (q < Q)%nat ->
  nth ((p * length S + j) * Q + q)
      (map sum (krp_all r (As ++ S :: Bs))) 0
  = bigsum r (fun a => entry_of S j a * (design r As Bs) (p * Q + q) a).
Proof.
  intros HS Hp Hj Hq.
  assert (HPA : rows_ok r PA) by now apply krp_all_ok.
  assert (HQB : rows_ok r QB) by now apply krp_all_ok.
  rewrite krp_all_app by (constructor; assumption).
  change (krp_all r (S :: Bs)) with (krb_rows S QB).
  rewrite <- krb_rows_assoc. fold PA.
  change 0 with (sum []) at 1. rewrite map_nth.
  assert (Hpj : (p * length S + j < length (krb_rows PA S))%nat).
  { rewrite krb_rows_length. fold P. nia. }
  unfold Q at 1. rewrite nth_krb_rows by assumption.
  rewrite nth_krb_rows by assumption.
  assert (L1 : length (nth p PA []) = r) by now apply nth_rows_ok.
  assert (L2 : length (nth j S []) = r) by now apply nth_rows_ok.
  assert (L3 : length (nth q QB []) = r) by now apply nth_rows_ok.
  rewrite sum_bigsum, !zip_with_length, L1, L2, L3, !Nat.min_id.
  apply bigsum_ext. intros a Ha.
  rewrite nth_zip_with by (rewrite ?zip_with_length; lia).
  rewrite nth_zip_with by lia.
  rewrite design_entry by assumption. unfold entry_of. lra.
Qed.

Lemma unfolded_entry (d : nat) (x : list R) (p j q : nat) :
  length x = (P * d * Q)%nat ->
  (p < P)%nat -> (j < d)%nat -> (q < Q)%nat ->
  unfolded P d Q x j (p * Q + q) = nth ((p * d + j) * Q + q) x 0.
Proof.
  intros Hx Hp Hj Hq. unfold unfolded.
  rewrite <- (nth_block Q p q) by assumption.
  rewrite block_block by assumption.
  rewrite block_axis_to_front by assumption.
  now apply nth_block.
Qed.

(** The squared error of the model as the least-squares objective of
    the mode: the sum over the rows of the unfolding of the squared
    residuals of the rows of the factor matrix. *)
Lemma squared_error_mode (S : list (list R)) (x : list R) :
  rows_ok r S ->
  length x = (P * length S * Q)%nat ->
  squared_error x (map sum (krp_all r (As ++ S :: Bs)))
  = bigsum (length S)
      (fun j => residual_norm (P * Q) r (design r As Bs)
                  (unfolded P (length S) Q x j) (entry_of S j)).
Proof.
  intros HS Hx. unfold squared_error. rewrite Hx.
  rewrite bigsum_mul.
  rewrite (bigsum_mul P (length S)).
  rewrite bigsum_swap. apply bigsum_ext. intros j Hj.
  unfold residual_norm, ip. rewrite bigsum_mul.
  apply bigsum_ext. intros p Hp. apply bigsum_ext. intros q Hq.
  unfold residual_at.
  rewrite model_entry, unfolded_entry by assumption.
  reflexivity.
Qed.

End ModeObjective.

(* The left-hand side of the normal equations *)

Lemma nth_map_seq_any {A} (g : nat -> A) (m i : nat) (d : A) :
  (i < m)%nat -> nth i (map g (seq 0 m)) d = g i.
Proof.
  intros Hi. rewrite (nth_indep _ d (g 0%nat)) by now rewrite length_map, length_seq.
  rewrite map_nth, seq_nth by assumption. reflexivity.
Qed.

Lemma tabulate_block (m n : nat) (f : nat -> nat -> R) (i : nat) :
  (i < m)%nat -> block n i (tabulate m n f) = map (f i) (seq 0 n).
Proof.
  intros Hi. unfold tabulate. apply (block_flat_map n m); [|assumption].
  intros k _. now rewrite length_map, length_seq.
Qed.

Lemma tabulate_length (m n : nat) (f : nat -> nat -> R) :
  length (tabulate m n f) = (m * n)%nat.
Proof.
  unfold tabulate. rewrite (flat_map_seq_length _ _ n).
  - lia.
  - intros k _. now rewrite length_map, length_seq.
Qed.

Lemma tabulate_entry (m n : nat) (f : nat -> nat -> R) (i j : nat) :
  (i < m)%nat -> (j < n)%nat ->
  entry_of (rows (mk_ndarray [m; n] (tabulate m n f))) i j = f i j.
Proof.
  intros Hi Hj. unfold entry_of, rows. cbn [shape data]. unfold rows_of.
  rewrite nth_map_seq_any by assumption.
  rewrite tabulate_block by assumption. now apply nth_map_seq.
Qed.

Lemma gram_matmul (r : nat) (F : ndarray) :
  factor_matrix_of_rank r F ->
  (FT <- transpose F ;; matmul FT F)
  = Ok (mk_ndarray [r; r] (tabulate r r (gram_rows (rows F)))).
Proof.
  intros HF. destruct (factor_as_rows r F HF) as [E Hok].
  set (rws := rows F) in *. rewrite E.
  unfold transpose, of_rows. cbn [shape data bind].
  unfold matmul. cbn [shape data]. rewrite Nat.eqb_refl.
  unfold cols_of. rewrite (rows_of_concat r rws Hok).
  set (cs := map (fun j => column j rws) (seq 0 r)).
  assert (Hcs : rows_of r (length rws) (concat cs) = cs).
  { replace r with (length cs) at 1
      by (unfold cs; now rewrite length_map, length_seq).
    apply rows_of_concat. unfold cs. apply Forall_forall.
    intros c Hc. apply in_map_iff in Hc. destruct Hc as (j & <- & _).
    apply column_length. }
  rewrite Hcs. f_equal. f_equal. unfold cs, tabulate.
  rewrite flat_map_concat_map, map_map, <- flat_map_concat_map.
  apply flat_map_seq_ext. intros a Ha. rewrite map_map.
  apply map_ext_in. intros b Hb.
  rewrite (dot_bigsum (length rws)) by apply column_length.
  unfold gram_rows, ip. apply bigsum_ext. intros t _.
  now rewrite !nth_column.
Qed.

Lemma als_lhs_others (r n : nat) (l : list ndarray) :
  Forall (factor_matrix_of_rank r) l ->
  forall (k : nat) (f : nat -> nat -> R),
  (forall i, (i < length l)%nat -> (k + i)%nat <> n) ->
  fold_left (CP_ALS.als_lhs_step n) (combine (seq k (length l)) l)
            (Ok (mk_ndarray [r; r] (tabulate r r f)))
  = Ok (mk_ndarray [r; r]
          (tabulate r r (fun a b => f a b * gram_product (map rows l) a b))).
Proof.
  induction 1 as [|F l HF _ IH]; intros k f Hk.
  - cbn. do 2 f_equal. apply tabulate_ext. intros. lra.
  - cbn [length seq combine fold_left].
    unfold CP_ALS.als_lhs_step at 2. cbn [bind fst snd].
    assert (Hne : (k =? n) = false).
    { apply Nat.eqb_neq. specialize (Hk 0%nat). cbn in Hk. lia. }
    rewrite Hne.
    pose proof (gram_matmul r F HF) as HG.
    destruct (transpose F) as [FT|]; [|discriminate HG].
    cbn [bind] in HG |- *. rewrite HG. cbn [bind].
    unfold imul. cbn [shape data].
    destruct (list_eq_dec Nat.eq_dec [r; r] [r; r]) as [_|C];
      [|now contradiction C].
    rewrite zip_with_tabulate, IH.
    + do 2 f_equal. apply tabulate_ext. intros a b _ _.
      cbn [map gram_product fold_right]. fold (gram_product (map rows l) a b).
      lra.
    + intros i Hi. specialize (Hk (S i)). cbn in Hk. lia.
Qed.

Lemma combine_app_eq {A B} (l1 l2 : list A) (m1 m2 : list B) :
  length l1 = length m1 ->
  combine (l1 ++ l2) (m1 ++ m2) = combine l1 m1 ++ combine l2 m2.
Proof.
  revert m1. induction l1 as [|a l1 IH]; intros [|b m1] H;
    try discriminate; [reflexivity|].
  cbn. f_equal. apply IH. now injection H.
Qed.

Lemma gram_product_app (Rs Rs' : list (list (list R))) (a b : nat) :
  gram_product (Rs ++ Rs') a b = gram_product Rs a b * gram_product Rs' a b.
Proof.
  induction Rs as [|rws Rs IH]; cbn [app gram_product fold_right].
  - fold (gram_product Rs' a b). lra.
  - fold (gram_product (Rs ++ Rs') a b). fold (gram_product Rs a b).
    rewrite IH. lra.
Qed.

(** [_get_als_lhs]: the entrywise product of the Gram matrices of the
    factor matrices of the other modes. *)
Lemma als_lhs_eq (r : nat) (A B : list ndarray) (Fn : ndarray) :
  Forall (factor_matrix_of_rank r) (A ++ Fn :: B) ->
  fold_left (CP_ALS.als_lhs_step (length A))
            (combine (seq 0 (length (A ++ Fn :: B))) (A ++ Fn :: B))
            (Ok (ones [r; r]))
  = Ok (mk_ndarray [r; r]
          (tabulate r r (gram_product (map rows (A ++ B))))).
Proof.
  intros Hall. apply Forall_app in Hall. destruct Hall as [HA HB].
  pose proof (Forall_inv_tail HB) as HB'.
  rewrite length_app. cbn [length]. rewrite seq_app.
  rewrite combine_app_eq by now rewrite length_seq.
  rewrite fold_left_app. unfold ones. cbn [prod fold_right].
  rewrite Nat.mul_1_r, repeat_tabulate.
  rewrite (als_lhs_others r) by (assumption || (intros; lia)).
  cbn [seq combine fold_left Nat.add].
  unfold CP_ALS.als_lhs_step at 2. cbn [bind fst]. rewrite Nat.eqb_refl.
  rewrite (als_lhs_others r) by (assumption || (intros; lia)).
  do 2 f_equal. apply tabulate_ext. intros a b _ _.
  rewrite map_app, gram_product_app. lra.
Qed.

Lemma nth_repeat_one (c a : nat) : (a < c)%nat -> nth a (repeat 1 c) 0 = 1.
Proof.
  revert a. induction c as [|c IH]; intros a Ha; [lia|].
  destruct a; cbn; [reflexivity | apply IH; lia].
Qed.

Lemma gram_krb_rows (c : nat) (ra rb : list (list R)) (a b : nat) :
  rows_ok c ra -> rows_ok c rb -> (a < c)%nat -> (b < c)%nat ->
  gram_rows (krb_rows ra rb) a b = gram_rows ra a b * gram_rows rb a b.
Proof.
  intros Ha Hb Hac Hbc. unfold gram_rows, ip.
  rewrite krb_rows_length, bigsum_mul.
  rewrite <- bigsum_scale_r. apply bigsum_ext. intros i Hi.
  rewrite <- bigsum_scale. apply bigsum_ext. intros j Hj.
  rewrite !(entry_krb_rows c) by assumption. lra.
Qed.

Lemma gram_krp_all (c : nat) (Rs : list (list (list R))) (a b : nat) :
  Forall (rows_ok c) Rs -> (a < c)%nat -> (b < c)%nat ->
  gram_rows (krp_all c Rs) a b = gram_product Rs a b.
Proof.
  intros H Ha Hb. induction H as [|rws Rs Hr Hall IH].
  - unfold gram_rows, ip, krp_all. cbn [fold_right length gram_product].
    rewrite bigsum_S, bigsum_0. unfold entry_of. cbn [nth].
    rewrite !nth_repeat_one by assumption. lra.
  - cbn [krp_all fold_right gram_product]. fold (krp_all c Rs).
    fold (gram_product Rs a b).
    rewrite (gram_krb_rows c); auto. 2: now apply krp_all_ok.
    now rewrite IH.
Qed.

(* The right-hand side of the normal equations *)

Lemma split_middle {A} (pre post : list A) (d dflt : A) :
  nth (length pre) (pre ++ d :: post) dflt = d /\
  firstn (length pre) (pre ++ d :: post) = pre /\
  skipn (S (length pre)) (pre ++ d :: post) = post.
Proof.
  induction pre as [|a pre IH]; [now cbn|].
  destruct IH as (H1 & H2 & H3). cbn [length app nth firstn skipn] in *.
  repeat split; congruence.
Qed.

Lemma unfold_split (x : ndarray) (pre post : list nat) (d : nat) :
  wf x -> shape x = pre ++ d :: post -> d <> 0%nat ->
  unfold x (Z.of_nat (length pre))
  = Ok (mk_ndarray [d; prod (pre ++ post)]
          (axis_to_front (prod pre) d (prod post) (data x))).
Proof.
  intros Hwf Hs Hd.
  destruct (split_middle pre post d 0%nat) as (H1 & H2 & H3).
  rewrite (unfold_eq x _ (length pre)); rewrite ?Hs, ?H1, ?H2, ?H3; auto.
  apply index_of_nat. unfold ndim. rewrite Hs, length_app. cbn. lia.
Qed.

Lemma khatri_rao_pop (l : list ndarray) (i : Z) :
  khatri_rao l (Some i) = (popped <- pop l i ;; khatri_rao (snd popped) None).
Proof. unfold khatri_rao. destruct (pop l i); reflexivity. Qed.

Lemma khatri_rao_skip (r : nat) (A B : list ndarray) (Fn : ndarray) :
  Forall (factor_matrix_of_rank r) (A ++ Fn :: B) -> A ++ B <> [] ->
  khatri_rao (A ++ Fn :: B) (Some (Z.of_nat (length A)))
  = Ok (of_rows r (krp_all r (map rows (A ++ B)))).
Proof.
  intros Hall Hne. rewrite khatri_rao_pop.
  destruct (split_middle A B Fn Fn) as (H1 & H2 & H3).
  rewrite (pop_index _ _ (length A) Fn)
    by (apply index_of_nat; rewrite length_app; cbn; lia).
  rewrite H2, H3. cbn [bind snd].
  apply Forall_app in Hall. destruct Hall as [HA HB].
  pose proof (Forall_inv_tail HB) as HB'.
  assert (HAB : Forall (factor_matrix_of_rank r) (A ++ B))
    by (apply Forall_app; now split).
  destruct (A ++ B) as [|F1 rest]; [contradiction|].
  rewrite (khatri_rao_factors r) by assumption.
  pose proof (Forall_inv HAB) as HF1.
  pose proof (Forall_inv_tail HAB) as Hrest.
  do 2 f_equal. cbn [map]. apply krp_rows_all.
  - now apply map_as_rows.
  - now apply factor_as_rows.
Qed.

Section RightHandSide.

Variable r : nat.
Variables A B : list ndarray.
Variable Fn : ndarray.
Variable x : ndarray.

Let fms := A ++ Fn :: B.
Let As := map rows A.
Let Bs := map rows B.
Let P := length (krp_all r As).
Let Q := length (krp_all r Bs).
Let d := length (rows Fn).

Hypothesis x_wf : wf x.
Hypothesis x_shape : shape x = map (fun F => length (rows F)) fms.
Hypothesis factors : Forall (factor_matrix_of_rank r) fms.
Hypothesis others : A ++ B <> [].
Hypothesis nonempty : d <> 0%nat.

Lemma prod_rows (l : list ndarray) :
  prod (map (fun F => length (rows F)) l) = length (krp_all r (map rows l)).
Proof. now rewrite krp_all_length, map_map. Qed.

Lemma data_length : length (data x) = (P * d * Q)%nat.
Proof.
  clear nonempty others factors.
  unfold wf in x_wf. rewrite x_wf, x_shape. unfold fms.
  rewrite map_app. cbn [map]. rewrite prod_app, prod_cons, !prod_rows.
  fold As Bs P Q d. lia.
Qed.

Lemma factors_ok : Forall (rows_ok r) As /\ Forall (rows_ok r) Bs.
Proof.
  apply Forall_app in factors. destruct factors as [HA HB].
  pose proof (Forall_inv_tail HB) as HB'.
  split; now apply map_as_rows.
Qed.

Lemma mttkrp_spec_eq :
  mttkrp_spec x fms (Z.of_nat (length A))
  = Ok (mk_ndarray [d; r]
          (tabulate d r
             (fun j a => moment (P * Q) (design r As Bs)
                                (unfolded P d Q (data x) j) a))).
Proof.
  destruct factors_ok as [HAs HBs].
  unfold mttkrp_spec.
  assert (Hs : shape x = map (fun F => length (rows F)) A
                         ++ d :: map (fun F => length (rows F)) B).
  { rewrite x_shape. unfold fms. now rewrite map_app. }
  pose proof (unfold_split x _ _ d x_wf Hs nonempty) as HU.
  rewrite length_map in HU. rewrite HU. cbn [bind].
  unfold fms. rewrite (khatri_rao_skip r) by assumption. cbn [bind].
  rewrite prod_app, !prod_rows. fold As Bs P Q.
  set (K := krp_all r (map rows (A ++ B))).
  assert (HK : rows_ok r K).
  { unfold K. rewrite map_app. apply krp_all_ok, Forall_app. now split. }
  assert (HKl : length K = (P * Q)%nat).
  { unfold K. rewrite map_app, krp_all_app by assumption.
    apply krb_rows_length. }
  unfold matmul, of_rows. cbn [shape data]. rewrite HKl, Nat.eqb_refl.
  rewrite matmul_tabulate. do 2 f_equal.
  apply tabulate_ext. intros j a Hj Ha.
  rewrite <- HKl at 2. rewrite (rows_of_concat r K HK).
  rewrite (dot_bigsum (P * Q)).
  - unfold moment, ip. apply bigsum_ext. intros t Ht.
    rewrite nth_column. unfold unfolded, design, entry_of.
    unfold K. now rewrite map_app.
  - apply block_length. rewrite axis_to_front_length by apply data_length.
    nia.
  - now rewrite column_length.
Qed.

(** [_get_als_rhs]: the unfolding of the target times the Khatri-Rao
    product of the other factor matrices. *)
Lemma matrix_khatri_rao_product_eq :
  matrix_khatri_rao_product x fms (Z.of_nat (length A))
  = (M <- mttkrp_spec x fms (Z.of_nat (length A)) ;; Ok (Some M)).
Proof.
  unfold matrix_khatri_rao_product.
  rewrite x_shape, length_map, Nat.eqb_refl. cbn [negb].
  destruct (length fms =? 3) eqn:H3.
  - apply Nat.eqb_eq in H3.
    assert (Hnd : (0 < ndim x)%nat).
    { unfold ndim. rewrite x_shape, length_map. lia. }
    unfold fms in *. rewrite length_app in H3. cbn [length] in H3.
    destruct A as [|A0 [|A1 [|A2 A']]]; cbn [length] in H3.
    + now apply mttkrp3_first.
    + destruct B as [|B0 [|B1 B']]; cbn [length] in H3; try lia.
      cbn [app length] in *. change (Z.of_nat 1) with 1%Z.
      unfold _mttkrp3. cbn [Z.eqb Pos.eqb].
      destruct x as [sh xd]. cbn [shape map] in x_shape. subst sh.
      pose proof (Forall_inv factors) as H0.
      pose proof (Forall_inv (Forall_inv_tail (Forall_inv_tail factors))) as H2.
      destruct (factor_rows r A0 H0) as (n0 & Hs0 & Hn0 & _).
      destruct (factor_rows r B0 H2) as (n2 & Hs2 & Hn2 & _).
      rewrite (mttkrp3_mid xd A0 Fn B0 _ _ _ r); auto; congruence.
    + destruct B as [|B0 B']; cbn [length] in H3; try lia.
      cbn [app length] in *. change (Z.of_nat 2) with 2%Z.
      apply (mttkrp3_last x _ (length (rows A0)) (length (rows A1))
                          (length (rows Fn))); auto.
    + lia.
  - apply bind_assoc_some.
Qed.

End RightHandSide.

(* The solution of the least-squares problem *)

Lemma tabulate_is_matrix (m n : nat) (f : nat -> nat -> R) :
  is_matrix m n (mk_ndarray [m; n] (tabulate m n f)).
Proof.
  split; [|reflexivity]. unfold wf. cbn [shape data prod fold_right].
  rewrite tabulate_length. lia.
Qed.

Lemma square_nonneg (y : R) : 0 <= y * y.
Proof. nra. Qed.

Lemma square_zero (y : R) : y * y = 0 -> y = 0.
Proof. nra. Qed.

Section Solution.

Variables T r d : nat.
Variable K : nat -> nat -> R.
Variable Xn : nat -> nat -> R.

Let lhs := mk_ndarray [r; r] (tabulate r r (gram T K)).
Let rhs := mk_ndarray [d; r] (tabulate d r (fun j a => moment T K (Xn j) a)).

Lemma normal_family (m : nat) :
  exists s0 : nat -> nat -> R,
    forall j, (j < m)%nat -> normal T r K (Xn j) (s0 j).
Proof.
  induction m as [|m [s0 IH]].
  - exists (fun _ _ => 0). intros j Hj. lia.
  - destruct (normal_exists T r K (Xn m)) as [s Hs].
    exists (fun j => if (j =? m)%nat then s else s0 j).
    intros j Hj. destruct (Nat.eqb_spec j m) as [->|Hne]; [exact Hs|].
    apply IH. lia.
Qed.

Lemma residual_term (S : ndarray) (j a : nat) :
  (j < d)%nat -> (a < r)%nat ->
  bigsum r (fun b => entry_of (rows S) j b * entry_of (rows lhs) a b)
  - entry_of (rows rhs) j a
  = - ip T (fun t => K t a) (residual_at r K (Xn j) (entry_of (rows S) j)).
Proof.
  intros Hj Ha. rewrite normal_gram. unfold lhs, rhs.
  rewrite tabulate_entry by assumption.
  rewrite (bigsum_ext r _ (fun b => entry_of (rows S) j b * gram T K a b)).
  - lra.
  - intros b Hb. now rewrite tabulate_entry.
Qed.

(** What a least-squares solver returns for the normal equations solves
    them exactly. *)
Lemma rightsolve_normal
      (rightsolve : ndarray -> ndarray -> result ndarray) (S : ndarray) :
  least_squares_solver rightsolve ->
  rightsolve lhs rhs = Ok S ->
  is_matrix d r S /\
  forall j, (j < d)%nat -> normal T r K (Xn j) (entry_of (rows S) j).
Proof.
  intros Hls HS.
  destruct (Hls d r lhs rhs S (tabulate_is_matrix _ _ _)
                (tabulate_is_matrix _ _ _) HS) as [HM Hmin].
  split; [exact HM|].
  destruct (normal_family d) as [s0 Hs0].
  set (S0 := mk_ndarray [d; r] (tabulate d r s0)).
  specialize (Hmin S0 (tabulate_is_matrix _ _ _)).
  assert (H0 : rightsolve_residual d r lhs rhs S0 = 0).
  { unfold rightsolve_residual.
    rewrite (bigsum_ext d _ (fun _ => 0)); [apply bigsum_zero|].
    intros j Hj. rewrite (bigsum_ext r _ (fun _ => 0)); [apply bigsum_zero|].
    intros a Ha. cbv zeta. rewrite residual_term by assumption.
    rewrite (ip_ext T _ (fun t => K t a) _ (residual_at r K (Xn j) (s0 j))).
    - rewrite (Hs0 j Hj a Ha). lra.
    - reflexivity.
    - intros t _. unfold residual_at. f_equal.
      apply bigsum_ext. intros b Hb. unfold S0.
      now rewrite tabulate_entry. }
  rewrite H0 in Hmin.
  intros j Hj a Ha.
  assert (Hrow : bigsum r (fun a =>
            let e := bigsum r (fun b => entry_of (rows S) j b
                                        * entry_of (rows lhs) a b)
                     - entry_of (rows rhs) j a in e * e) = 0).
  { apply (bigsum_nonneg_zero d
             (fun j => bigsum r (fun a =>
                let e := bigsum r (fun b => entry_of (rows S) j b
                                            * entry_of (rows lhs) a b)
                         - entry_of (rows rhs) j a in e * e))); auto.
    - intros i _. apply bigsum_nonneg. intros. apply square_nonneg.
    - apply Rle_antisym; [exact Hmin|].
      apply bigsum_nonneg. intros i _. apply bigsum_nonneg.
      intros. apply square_nonneg. }
  pose proof (bigsum_nonneg_zero r _
                ltac:(intros; apply square_nonneg) Hrow a Ha) as Hterm.
  cbv beta zeta in Hterm. apply square_zero in Hterm.
  rewrite residual_term in Hterm by assumption. lra.
Qed.

End Solution.

(* One mode: the update does not increase the squared error *)


Lemma matrix_rows (m c : nat) (M : ndarray) :
  is_matrix m c M ->
  M = of_rows c (rows M) /\ rows_ok c (rows M) /\ length (rows M) = m.
Proof.
  intros [Hwf Hs].
  assert (HF : factor_matrix_of_rank c M) by (split; eauto).
  destruct (factor_as_rows c M HF) as [E Hok].
  destruct (factor_rows c M HF) as (n & Hs' & Hn & _).
  repeat split; auto. congruence.
Qed.

Lemma scale_rows_length (u : list R) (rws : list (list R)) :
  length (scale_rows u rws) = length rws.
Proof. unfold scale_rows. apply length_map. Qed.

Section ModeUpdate.

Variable r : nat.
Variables A B : list ndarray.
Variable Fn : ndarray.
Variable x : ndarray.
Variable w : list R.

Let fms := A ++ Fn :: B.
Let As := map rows A.
Let Bs := map rows B.
Let P := length (krp_all r As).
Let Q := length (krp_all r Bs).
Let d := length (rows Fn).

Hypothesis x_wf : wf x.
Hypothesis x_shape : shape x = map (fun F => length (rows F)) fms.
Hypothesis factors : Forall (factor_matrix_of_rank r) fms.
Hypothesis others : A ++ B <> [].
Hypothesis nonempty : d <> 0%nat.
Hypothesis w_length : length w = r.

Variable rightsolve : ndarray -> ndarray -> result ndarray.
Hypothesis solver : least_squares_solver rightsolve.

Lemma mode_lhs_gram :
  (mode_lhs r A B) = mk_ndarray [r; r] (tabulate r r (gram (P * Q) (design r As Bs))).
Proof.
  destruct (factors_ok r A B Fn factors) as [HAs HBs].
  unfold mode_lhs. f_equal. apply tabulate_ext. intros a b Ha Hb.
  rewrite <- (gram_krp_all r) by
    (assumption || (rewrite map_app; apply Forall_app; now split)).
  unfold gram_rows, gram, design. rewrite map_app. fold As Bs.
  rewrite (krp_all_app r As Bs) at 1 by assumption.
  now rewrite krb_rows_length.
Qed.

Lemma mode_update_decreases (S : ndarray) :
  rightsolve (mode_lhs r A B) (mode_rhs r A B Fn x) = Ok S ->
  is_matrix d r S /\
  squared_error (data x) (map sum (krp_all r (As ++ rows S :: Bs)))
  <= squared_error (data x)
       (map sum (scale_rows w (krp_all r (As ++ rows Fn :: Bs)))).
Proof.
  intros HS. rewrite mode_lhs_gram in HS.
  destruct (rightsolve_normal (P * Q) r d (design r As Bs)
              (unfolded P d Q (data x)) rightsolve S solver HS)
    as [HM Hnormal].
  split; [exact HM|].
  destruct (factors_ok r A B Fn factors) as [HAs HBs].
  destruct (matrix_rows d r S HM) as (_ & HSok & HSlen).
  assert (HFn : rows_ok r (rows Fn)).
  { apply Forall_app in factors. destruct factors as [_ HB].
    now apply factor_as_rows, (Forall_inv HB). }
  pose proof (data_length r A B Fn x x_wf x_shape) as Hx.
  fold As Bs P Q d in Hx.
  rewrite <- krp_all_scale.
  rewrite (squared_error_mode r As Bs HAs HBs (rows S))
    by (assumption || (rewrite HSlen; exact Hx)).
  rewrite (squared_error_mode r As Bs HAs HBs (scale_rows w (rows Fn)))
    by (now apply scale_rows_ok || (rewrite scale_rows_length; exact Hx)).
  rewrite scale_rows_length, HSlen. fold P Q d.
  apply bigsum_le. intros j Hj.
  apply normal_minimises. now apply Hnormal.
Qed.

End ModeUpdate.

(* Writing the solution into the factor matrix *)

Lemma broadcast_blocks (s : list nat) (l : list R) (idx : list nat) :
  (forall i, In i idx ->
     broadcast_data s s (block (prod s) i l) = Some (block (prod s) i l)) ->
  fold_right
    (fun i acc =>
       option_bind (broadcast_data s s (block (prod s) i l))
         (fun d => option_bind acc (fun rest => Some (d ++ rest))))
    (Some []) idx
  = Some (flat_map (fun i => block (prod s) i l) idx).
Proof.
  intros H. induction idx as [|i idx IH]; [reflexivity|].
  cbn [fold_right flat_map]. rewrite H by now left.
  cbn [option_bind]. rewrite IH by (intros; apply H; now right).
  reflexivity.
Qed.

Lemma broadcast_data_same (s : list nat) :
  forall l, length l = prod s -> broadcast_data s s l = Some l.
Proof.
  induction s as [|a s IH]; intros l Hl; [reflexivity|].
  cbn [broadcast_data]. rewrite Nat.eqb_refl.
  rewrite prod_cons in Hl.
  rewrite broadcast_blocks.
  - now rewrite flat_map_block.
  - intros i Hi. apply in_seq in Hi. apply IH, block_length. nia.
Qed.

Lemma strip_ones_0 (s : list nat) : strip_ones 0 s = Some s.
Proof. now destruct s. Qed.

Lemma assign_same (target value : ndarray) :
  wf value -> shape value = shape target ->
  assign target value = Ok (mk_ndarray (shape target) (data value)).
Proof.
  intros Hwf Hs. unfold assign. cbv zeta.
  rewrite Hs, Nat.sub_diag, strip_ones_0, Nat.sub_diag.
  cbn [repeat app]. rewrite broadcast_data_same; [reflexivity|].
  unfold wf in Hwf. now rewrite Hwf, Hs.
Qed.

Lemma getitem_middle {A} (pre post : list A) (y : A) :
  getitem (pre ++ y :: post) (Z.of_nat (length pre)) = Ok y.
Proof.
  rewrite (getitem_index _ _ (length pre) y)
    by (apply index_of_nat; rewrite length_app; cbn; lia).
  now destruct (split_middle pre post y y) as (-> & _).
Qed.

Lemma setitem_middle {A} (pre post : list A) (y z : A) :
  setitem (pre ++ y :: post) (Z.of_nat (length pre)) z
  = Ok (pre ++ z :: post).
Proof.
  unfold setitem.
  rewrite index_of_nat by (rewrite length_app; cbn; lia).
  cbn [bind]. destruct (split_middle pre post y y) as (_ & -> & ->).
  reflexivity.
Qed.

(* Normalisation *)

Lemma norm2_zero (u : list R) :
  Exists (fun y => y <> 0) u \/ norm2 u = 0.
Proof.
  induction u as [|y u [IH|IH]].
  - right. unfold norm2. cbn. apply sqrt_0.
  - left. now right.
  - destruct (Req_dec y 0) as [->|Hy].
    + right. unfold norm2 in *. cbn [map sum fold_right].
      fold (sum (map (fun z => z * z) u)).
      replace (0 * 0 + sum (map (fun z => z * z) u))
        with (sum (map (fun z => z * z) u)) by lra.
      exact IH.
    + left. now left.
Qed.

Lemma fold_normalize_raise (l : list ndarray) (e : exn) :
  fold_left normalize_step l (Raise e) = Raise e.
Proof. induction l as [|F l IH]; [reflexivity | exact IH]. Qed.

Lemma normalize_step_nonzero (r : nat) (F : ndarray)
      (acc st : list ndarray * ndarray) :
  factor_matrix_of_rank r F ->
  normalize_step (Ok acc) F = Ok st -> nonzero_columns F.
Proof.
  intros [_ [n Hs]] H. unfold normalize_step in H. cbn [bind] in H.
  unfold norm_axis0 in H. rewrite Hs in H. cbn [bind] in H.
  unfold div_row in H. rewrite Hs in H. cbn [shape data] in H.
  destruct (existsb is_zero (map norm2 (cols_of n r (data F)))) eqn:E;
    [discriminate|].
  unfold nonzero_columns, cols. rewrite Hs.
  apply Forall_forall. intros c Hc.
  destruct (norm2_zero c) as [Hex|H0]; [exact Hex|]. exfalso.
  assert (Ht : existsb is_zero (map norm2 (cols_of n r (data F))) = true).
  { apply existsb_exists. exists (norm2 c). split.
    - now apply in_map.
    - unfold is_zero. now destruct (Req_dec_T (norm2 c) 0). }
  congruence.
Qed.

Lemma normalize_loop_nonzero (r : nat) (l : list ndarray) :
  Forall (factor_matrix_of_rank r) l ->
  forall acc st,
  fold_left normalize_step l (Ok acc) = Ok st -> Forall nonzero_columns l.
Proof.
  induction 1 as [|F l HF _ IH]; intros acc st H; [constructor|].
  cbn [fold_left] in H.
  destruct (normalize_step (Ok acc) F) as [st1|e] eqn:E.
  - constructor; [now apply (normalize_step_nonzero r F acc st1) | eauto].
  - now rewrite fold_normalize_raise in H.
Qed.

Lemma normalize_components_inv (kt kt' : KruskalTensor) :
  kruskal_invariant kt ->
  normalize_components kt true = Ok kt' ->
  Forall nonzero_columns (factor_matrices kt) /\
  kt' = mk_KruskalTensor (rank kt)
          (map (normalised (rank kt)) (factor_matrices kt))
          (mk_ndarray [rank kt]
             (norm_products (rank kt) (factor_matrices kt))).
Proof.
  intros Hinv H.
  assert (Hnz : Forall nonzero_columns (factor_matrices kt)).
  { unfold normalize_components in H.
    destruct (fold_left normalize_step _ _) as [st|] eqn:E; [|discriminate].
    exact (normalize_loop_nonzero (rank kt) _ Hinv _ st E). }
  split; [exact Hnz|].
  rewrite normalize_components_eq in H by assumption. congruence.
Qed.

Lemma normalize_step_raise (r : nat) (F : ndarray) (acc : list ndarray)
      (wv : list R) (e : exn) :
  factor_matrix_of_rank r F -> length wv = r ->
  normalize_step (Ok (acc, mk_ndarray [r] wv)) F = Raise e ->
  e = NotModelled "division by zero".
Proof.
  intros HF Hw.
  destruct (factor_rows r F HF) as (n & Hs & Hn & Hlen & Hd).
  unfold normalize_step. cbn [bind fst snd].
  unfold norm_axis0. rewrite Hs. cbn [bind].
  unfold div_row. rewrite Hs. cbn [shape data].
  destruct (existsb is_zero _); [now intros [= <-]|].
  unfold broadcast_row, cols_of.
  rewrite !length_map, length_seq, Nat.eqb_refl. cbn [bind].
  unfold imul_vec. cbn [shape data]. rewrite Nat.eqb_refl. discriminate.
Qed.

Lemma normalize_loop_raise (r : nat) (l : list ndarray) (e : exn) :
  Forall (factor_matrix_of_rank r) l ->
  forall acc wv, length wv = r ->
  fold_left normalize_step l (Ok (acc, mk_ndarray [r] wv)) = Raise e ->
  e = NotModelled "division by zero".
Proof.
  induction 1 as [|F l HF _ IH]; intros acc wv Hw H; [discriminate|].
  cbn [fold_left] in H.
  destruct (normalize_step (Ok (acc, mk_ndarray [r] wv)) F) as [st|e1] eqn:E.
  - pose proof (normalize_step_nonzero r F _ st HF E) as Hnz.
    rewrite normalize_step_eq in E by assumption. injection E as <-.
    eapply IH; [|exact H].
    rewrite zip_with_length, col_norms_length. lia.
  - rewrite fold_normalize_raise in H. injection H as <-.
    now apply (normalize_step_raise r F acc wv).
Qed.

(** [normalize_components] raises only where a factor matrix has a
    column that is the zero vector. *)
Lemma normalize_components_raise (kt : KruskalTensor) (e : exn) :
  kruskal_invariant kt ->
  normalize_components kt true = Raise e ->
  e = NotModelled "division by zero" /\
  ~ Forall nonzero_columns (factor_matrices kt).
Proof.
  intros Hinv H. split.
  - unfold normalize_components, ones in H. cbn [prod fold_right] in H.
    rewrite Nat.mul_1_r in H.
    destruct (fold_left normalize_step _ _) as [st|e1] eqn:E;
      [discriminate|].
    cbn [bind] in H. injection H as <-.
    apply (normalize_loop_raise (rank kt) _ e1 Hinv [] _ (repeat_length _ _) E).
  - intros Hnz. rewrite normalize_components_eq in H by assumption.
    discriminate.
Qed.

Lemma normalised_factor (r : nat) (F : ndarray) :
  factor_matrix_of_rank r F ->
  factor_matrix_of_rank r (normalised r F) /\
  length (rows (normalised r F)) = length (rows F).
Proof.
  intros HF. destruct (factor_as_rows r F HF) as [_ Hok].
  rewrite (normalised_as_scaled r F HF).
  assert (Hs : rows_ok r (scale_rows (map Rinv (col_norms r (rows F)))
                                     (rows F))).
  { apply scale_rows_ok; [|assumption].
    now rewrite length_map, col_norms_length. }
  split.
  - split.
    + unfold wf, of_rows. cbn [shape data prod fold_right].
      rewrite (concat_row_length r) by assumption. lia.
    + eexists. reflexivity.
  - rewrite rows_of_rows by assumption. apply scale_rows_length.
Qed.

Lemma norm_products_length (r : nat) (fms : list ndarray) :
  length (norm_products r fms) = r.
Proof.
  unfold norm_products. rewrite fold_left_map_zip.
  apply fold_zip_length; [|apply repeat_length].
  apply Forall_map, Forall_forall. intros F _. apply col_norms_length.
Qed.

(* The sum-squared error of a decomposer *)

Lemma scale_rows_ones (c : nat) (rws : list (list R)) :
  rows_ok c rws -> scale_rows (repeat 1 c) rws = rws.
Proof.
  intros H. unfold scale_rows. induction H as [|row rws Hr _ IH];
    [reflexivity|].
  cbn [map]. rewrite IH. f_equal. rewrite <- Hr. apply zip_mul_ones_r.
Qed.

Lemma constructed_model (r : nat) (x : ndarray) (kt : KruskalTensor) :
  fitting r x kt -> (2 <= length (factor_matrices kt))%nat ->
  constructed kt = Ok (mk_ndarray (shape x) (model_data r kt)).
Proof.
  intros (Hr & Hall & Hsh & HW & Hlen) H2.
  destruct kt as [rk fms W]. cbn [rank factor_matrices weights] in *.
  destruct fms as [|F0 [|F1 rest]]; cbn [length] in H2; try lia.
  rewrite (constructed_rows r rk F0 F1 rest W) by assumption.
  unfold model_data. cbn [factor_matrices weights]. now rewrite Hsh.
Qed.

Lemma model_data_length (r : nat) (x : ndarray) (kt : KruskalTensor) :
  fitting r x kt -> wf x -> length (model_data r kt) = length (data x).
Proof.
  intros (Hr & Hall & Hsh & HW & Hlen) Hwf. unfold model_data.
  rewrite length_map, scale_rows_length, krp_all_length, map_map, Hsh.
  now rewrite Hwf.
Qed.

(** Under the invariant [SSE] returns the squared error of the model. *)
Lemma SSE_eq (r : nat) (s : decomposer) (x : ndarray) (kt : KruskalTensor) :
  X s = Some x -> decomposition s = Some kt -> fitting r x kt -> wf x ->
  (2 <= length (factor_matrices kt))%nat ->
  fst (CP_ALS.SSE s) = Ok (model_error r x kt).
Proof.
  intros HX Hd Hfit Hwf H2.
  pose proof (constructed_model r x kt Hfit H2) as HT.
  unfold constructed in HT.
  destruct (construct_tensor kt) as [[T kt1]|] eqn:E; [|discriminate].
  cbn [bind fst] in HT. injection HT as ->.
  destruct (norm_sub_squared x (mk_ndarray (shape x) (model_data r kt)))
    as (D & HD & Hnorm).
  { reflexivity. }
  { cbn [data]. symmetry. now apply (model_data_length r x kt). }
  unfold CP_ALS.SSE, CP_ALS.reconstructed_X, bindm, attribute, lift, update,
    ret.
  rewrite HX, Hd, E. cbn [fst snd]. rewrite HD. cbn [fst].
  now rewrite Hnorm.
Qed.

Lemma SSE_needs_two (s : decomposer) (x : ndarray) (kt : KruskalTensor)
      (e : R) :
  X s = Some x -> decomposition s = Some kt ->
  fst (CP_ALS.SSE s) = Ok e ->
  (2 <= length (factor_matrices kt))%nat.
Proof.
  intros HX Hd H.
  unfold CP_ALS.SSE, CP_ALS.reconstructed_X, bindm, attribute, lift, update,
    ret in H.
  rewrite HX, Hd in H.
  destruct (construct_tensor kt) as [[T kt1]|] eqn:E; [|discriminate].
  clear H. unfold construct_tensor in E.
  destruct kt as [rk fms W]. cbn [rank factor_matrices weights] in *.
  destruct fms as [|F0 [|F1 rest]]; [exfalso | exfalso | cbn; lia].
  - destruct (length (shape W) =? 1); cbn in E; discriminate.
  - destruct (length (shape W) =? 1); cbn [factor_matrices weights] in E.
    + destruct (fold_right _ _ _); [|discriminate]. cbn [bind] in E.
      change (getitem [F0] 0) with (Ok F0) in E. cbn [bind tl] in E.
      destruct (mul_row _ _); [|discriminate]. discriminate.
    + destruct (fold_right _ _ _); [|discriminate]. cbn [bind] in E.
      change (getitem [F0] 0) with (Ok F0) in E. cbn [bind tl] in E.
      destruct (mul_row _ _); [|discriminate]. discriminate.
Qed.

(* One pass of the loop body *)

Lemma getitem_In {A} (l : list A) (i : Z) (y : A) :
  getitem l i = Ok y -> In y l.
Proof.
  unfold getitem. destruct (index (length l) i) as [k|]; [|discriminate].
  cbn [bind]. destruct (nth_error l k) eqn:E; [|discriminate].
  intros [= <-]. eapply nth_error_In; eauto.
Qed.

Section Step.

Variable rightsolve : ndarray -> ndarray -> result ndarray.
Variable non_negative_rightsolve : ndarray -> ndarray -> result ndarray.
Hypothesis solver : least_squares_solver rightsolve.

Variable r : nat.
Variable x : ndarray.
Hypothesis x_wf : wf x.

Lemma update_als_factor_eq (s : decomposer) (rk : nat)
      (A B : list ndarray) (Fn W : ndarray) :
  X s = Some x ->
  decomposition s = Some (mk_KruskalTensor rk (A ++ Fn :: B) W) ->
  model_rank s = r ->
  shape x = map (fun F => length (rows F)) (A ++ Fn :: B) ->
  Forall (factor_matrix_of_rank r) (A ++ Fn :: B) ->
  A ++ B <> [] -> length (rows Fn) <> 0%nat ->
  CP_ALS._update_als_factor rightsolve (length A) s
  = match rightsolve (mode_lhs r A B) (mode_rhs r A B Fn x) with
    | Ok solution =>
        match assign Fn solution with
        | Ok written => (Ok tt, set_decomposition
                                  (mk_KruskalTensor rk (A ++ written :: B) W)
                                  s)
        | Raise e => (Raise e, s)
        end
    | Raise e => (Raise e, s)
    end.
Proof.
  intros HX Hd Hr Hsh Hall Hne Hdn.
  unfold CP_ALS._update_als_factor, CP_ALS._get_als_lhs, CP_ALS._get_als_rhs,
    CP_ALS.factor_matrices_of, bindm, attribute, lift, update, ret.
  cbv beta.
  repeat (progress (rewrite ?Hd, ?HX, ?Hr; cbn [factor_matrices rank weights])).
  rewrite (als_lhs_eq r A B Fn Hall).
  rewrite (matrix_khatri_rao_product_eq r A B Fn x) by assumption.
  rewrite (mttkrp_spec_eq r A B Fn x) by assumption.
  cbn [bind]. fold (mode_lhs r A B). fold (mode_rhs r A B Fn x).
  destruct (rightsolve _ _) as [S|e]; [|reflexivity].
  repeat (progress (rewrite ?Hd, ?HX, ?Hr; cbn [factor_matrices rank weights])).
  rewrite getitem_middle.
  destruct (assign Fn S) as [S'|e]; [|reflexivity].
  now rewrite setitem_middle.
Qed.

Lemma fitting_weights (kt : KruskalTensor) :
  fitting r x kt ->
  (shape (weights kt) = [r] \/ shape (weights kt) = [1%nat; r]) /\
  length (data (weights kt)) = r.
Proof. intros (_ & _ & _ & HW & Hlen). now split. Qed.

Lemma update_mode_spec (s s' : decomposer) (kt : KruskalTensor) (n : nat) :
  X s = Some x -> decomposition s = Some kt -> model_rank s = r ->
  fitting r x kt -> unconstrained s ->
  Forall (fun d => d <> 0%nat) (shape x) ->
  (2 <= length (shape x))%nat -> (n < length (shape x))%nat ->
  CP_ALS.update_mode rightsolve non_negative_rightsolve n s = (Ok tt, s') ->
  exists kt',
    X s' = Some x /\ decomposition s' = Some kt' /\ model_rank s' = r /\
    fitting r x kt' /\ unconstrained s' /\
    model_error r x kt' <= model_error r x kt.
Proof.
  intros HX Hd Hr Hfit Hun Hnz H2 Hn Hstep.
  destruct Hun as (l & Hl & Hfalse).
  destruct kt as [rk fms W].
  destruct Hfit as (Hrk & Hall & Hsh & HW & Hlen).
  cbn [rank factor_matrices weights] in *. subst rk.
  assert (Hlenf : length fms = length (shape x))
    by now rewrite <- Hsh, length_map.
  destruct (nth_split fms (mk_ndarray [] []) (n := n)) as (A & B & Hfms & HA);
    [lia|].
  set (Fn := nth n fms (mk_ndarray [] [])) in *. clearbody Fn. subst fms n.
  assert (Hne : A ++ B <> []).
  { intros E. apply (f_equal (@length _)) in E.
    rewrite length_app in *. cbn [length] in *. lia. }
  assert (Hdn : length (rows Fn) <> 0%nat).
  { rewrite <- Hsh in Hnz. rewrite Forall_map, Forall_app in Hnz.
    exact (Forall_inv (proj2 Hnz)). }
  unfold CP_ALS.update_mode, bindm, lift, raise in Hstep.
  rewrite Hl in Hstep.
  destruct (getitem l (Z.of_nat (length A))) as [c|] eqn:Ec; [|discriminate].
  assert (c = false) as ->.
  { rewrite Forall_forall in Hfalse. apply Hfalse. eapply getitem_In; eauto. }
  rewrite (update_als_factor_eq s r A B Fn W) in Hstep by auto.
  destruct (rightsolve _ _) as [S|] eqn:ES; [|discriminate].
  destruct (mode_update_decreases r A B Fn x (data W) x_wf (eq_sym Hsh) Hall
              Hlen rightsolve solver S ES) as [[HSwf HSsh] Hle].
  destruct (factor_rows r Fn (Forall_inv (proj2 (proj1 (Forall_app _ _ _) Hall))))
    as (n0 & HsFn & HnFn & _).
  rewrite assign_same in Hstep by (assumption || congruence).
  assert (ES' : mk_ndarray (shape Fn) (data S) = S).
  { destruct S as [sS dS]. cbn [shape data] in *. congruence. }
  rewrite ES' in Hstep.
  set (kt1 := mk_KruskalTensor r (A ++ S :: B) W) in *.
  assert (Hall1 : Forall (factor_matrix_of_rank r) (A ++ S :: B)).
  { apply Forall_app in Hall. destruct Hall as [HA HB].
    apply Forall_app. split; [assumption|]. constructor.
    - split; eauto.
    - exact (Forall_inv_tail HB). }
  destruct (matrix_rows _ _ S (conj HSwf HSsh)) as (_ & HSok & HSlen).
  unfold CP_ALS.normalize, bindm, attribute, lift, update in Hstep.
  cbn [decomposition set_decomposition] in Hstep.
  destruct (normalize_components kt1 true) as [kt2|] eqn:En; [|discriminate].
  destruct (normalize_components_inv kt1 kt2 Hall1 En) as [Hnzc Hkt2].
  cbn [rank factor_matrices kt1] in Hkt2.
  injection Hstep as <-.
  exists kt2. cbn [X decomposition model_rank set_decomposition
                   non_negativity_constraints].
  assert (Hfit2 : fitting r x kt2).
  { subst kt2. unfold fitting. cbn [rank factor_matrices weights shape data].
    repeat split.
    - apply Forall_map. rewrite Forall_forall in Hall1 |- *.
      intros F HF. now apply normalised_factor, Hall1.
    - rewrite map_map, <- Hsh.
      rewrite (map_ext_in _ (fun F => length (rows F))).
      + rewrite !map_app. cbn [map]. now rewrite HSlen.
      + rewrite Forall_forall in Hall1.
        intros F HF. now apply normalised_factor, Hall1.
    - now left.
    - apply norm_products_length. }
  split; [assumption|]. split; [reflexivity|]. split; [assumption|].
  split; [assumption|]. split; [exists l; now split|].
  - (* the error after normalisation is the error with unit weights *)
    assert (Hfit1 : fitting r x (mk_KruskalTensor r (A ++ S :: B) (ones [r]))).
    { unfold fitting. cbn [rank factor_matrices weights shape data ones].
      repeat split; auto.
      - rewrite <- Hsh, !map_app. cbn [map]. now rewrite HSlen.
      - cbn [prod fold_right]. rewrite repeat_length. lia. }
    assert (Hlen1 : (2 <= length (A ++ S :: B))%nat).
    { rewrite length_app in *. cbn [length] in *. lia. }
    subst kt2.
    pose proof (constructed_model r x _ Hfit2) as C2.
    pose proof (constructed_model r x _ Hfit1 Hlen1) as C1.
    cbn [factor_matrices] in C2.
    rewrite length_map in C2. specialize (C2 Hlen1).
    rewrite constructed_normalised in C2 by assumption.
    rewrite C1 in C2.
    unfold model_error.
    replace (model_data r _)
      with (model_data r (mk_KruskalTensor r (A ++ S :: B) (ones [r])))
      by congruence.
    unfold model_data at 1. cbn [factor_matrices weights ones data].
    cbn [prod fold_right]. rewrite Nat.mul_1_r.
    rewrite scale_rows_ones
      by (apply krp_all_ok; now apply map_as_rows).
    rewrite map_app. cbn [map].
    unfold model_data. cbn [factor_matrices weights].
    rewrite (map_app rows A (Fn :: B)). cbn [map]. exact Hle.
Qed.

(** One pass of the loop raises only what [rightsolve] raises, or
    stops in [normalize_components] with a factor matrix that has a
    zero column. *)
Lemma update_mode_raise (s s' : decomposer) (kt : KruskalTensor) (n : nat)
      (e : exn) :
  X s = Some x -> decomposition s = Some kt -> model_rank s = r ->
  fitting r x kt -> unconstrained s ->
  (forall l, non_negativity_constraints s = Some l ->
             (length (shape x) <= length l)%nat) ->
  Forall (fun d => d <> 0%nat) (shape x) ->
  (2 <= length (shape x))%nat -> (n < length (shape x))%nat ->
  CP_ALS.update_mode rightsolve non_negative_rightsolve n s = (Raise e, s') ->
  (e = NotModelled "division by zero" /\
   exists kt', decomposition s' = Some kt' /\
               ~ Forall nonzero_columns (factor_matrices kt')) \/
  (exists lhs rhs, rightsolve lhs rhs = Raise e).
Proof.
  intros HX Hd Hr Hfit Hun Hcover Hnz H2 Hn Hstep.
  destruct Hun as (l & Hl & Hfalse).
  specialize (Hcover l Hl).
  destruct kt as [rk fms W].
  destruct Hfit as (Hrk & Hall & Hsh & HW & Hlen).
  cbn [rank factor_matrices weights] in *. subst rk.
  assert (Hlenf : length fms = length (shape x))
    by now rewrite <- Hsh, length_map.
  destruct (nth_split fms (mk_ndarray [] []) (n := n)) as (A & B & Hfms & HA);
    [lia|].
  set (Fn := nth n fms (mk_ndarray [] [])) in *. clearbody Fn. subst fms n.
  assert (Hne : A ++ B <> []).
  { intros E. apply (f_equal (@length _)) in E.
    rewrite length_app in *. cbn [length] in *. lia. }
  assert (Hdn : length (rows Fn) <> 0%nat).
  { rewrite <- Hsh in Hnz. rewrite Forall_map, Forall_app in Hnz.
    exact (Forall_inv (proj2 Hnz)). }
  unfold CP_ALS.update_mode, bindm, lift, raise in Hstep.
  rewrite Hl in Hstep.
  rewrite (getitem_index l _ (length A) false) in Hstep
    by (apply index_of_nat; lia).
  assert (nth (length A) l false = false) as Hc.
  { destruct (nth_in_or_default (length A) l false) as [Hin|E]; [|exact E].
    rewrite Forall_forall in Hfalse. now apply Hfalse. }
  rewrite Hc in Hstep.
  rewrite (update_als_factor_eq s r A B Fn W) in Hstep by auto.
  destruct (rightsolve _ _) as [S|e1] eqn:ES.
  2:{ injection Hstep as <- _. right. eauto. }
  left.
  destruct (mode_update_decreases r A B Fn x (data W) x_wf (eq_sym Hsh) Hall
              Hlen rightsolve solver S ES) as [[HSwf HSsh] Hle].
  destruct (factor_rows r Fn (Forall_inv (proj2 (proj1 (Forall_app _ _ _) Hall))))
    as (n0 & HsFn & HnFn & _).
  rewrite assign_same in Hstep by (assumption || congruence).
  assert (ES' : mk_ndarray (shape Fn) (data S) = S).
  { destruct S as [sS dS]. cbn [shape data] in *. congruence. }
  rewrite ES' in Hstep.
  set (kt1 := mk_KruskalTensor r (A ++ S :: B) W) in *.
  assert (Hall1 : kruskal_invariant kt1).
  { unfold kruskal_invariant. cbn [rank factor_matrices kt1].
    apply Forall_app in Hall. destruct Hall as [HA HB].
    apply Forall_app. split; [assumption|]. constructor.
    - split; eauto.
    - exact (Forall_inv_tail HB). }
  unfold CP_ALS.normalize, bindm, attribute, lift, update in Hstep.
  cbn [decomposition set_decomposition] in Hstep.
  destruct (normalize_components kt1 true) as [kt2|e2] eqn:En;
    [discriminate|].
  injection Hstep as <- <-.
  destruct (normalize_components_raise kt1 e2 Hall1 En) as [-> Hzero].
  split; [reflexivity|]. exists kt1. now split.
Qed.

End Step.

(* The sweep over all modes *)

Section Sweep.

Variable rightsolve : ndarray -> ndarray -> result ndarray.
Variable non_negative_rightsolve : ndarray -> ndarray -> result ndarray.
Hypothesis solver : least_squares_solver rightsolve.

Variable r : nat.
Variable x : ndarray.
Hypothesis x_wf : wf x.
Hypothesis x_nonempty : Forall (fun d => d <> 0%nat) (shape x).
Hypothesis x_modes : (2 <= length (shape x))%nat.

Lemma sweep_prefix (bound : R) (s : decomposer) (k : nat) :
  sweep_invariant r x bound s -> (k <= length (shape x))%nat ->
  forall s',
  fold_left (fun acc mode =>
               acc ;;; CP_ALS.update_mode rightsolve non_negative_rightsolve
                         mode)
            (seq 0 k) (ret tt) s = (Ok tt, s') ->
  sweep_invariant r x bound s'.
Proof.
  intros Hinv. induction k as [|k IH]; intros Hk s' H.
  - cbn in H. unfold ret in H. now injection H as <-.
  - rewrite seq_S, fold_left_app in H. cbn [fold_left Nat.add] in H.
    unfold bindm at 1 in H.
    destruct (fold_left _ (seq 0 k) (ret tt) s) as [[[]|e] s1] eqn:E;
      [|discriminate].
    destruct (IH ltac:(lia) s1 eq_refl)
      as (kt1 & HX & Hd & Hr & Hfit & Hun & Hle).
    destruct (update_mode_spec rightsolve non_negative_rightsolve solver
                r x x_wf s1 s' kt1 k HX Hd Hr Hfit Hun x_nonempty x_modes
                ltac:(lia) H)
      as (kt2 & HX2 & Hd2 & Hr2 & Hfit2 & Hun2 & Hle2).
    exists kt2. repeat (split; [assumption|]). lra.
Qed.

Lemma sweep_raise (bound : R) (s : decomposer) (k : nat) (e : exn) :
  sweep_invariant r x bound s -> (k <= length (shape x))%nat ->
  (forall l, non_negativity_constraints s = Some l ->
             (length (shape x) <= length l)%nat) ->
  forall s',
  fold_left (fun acc mode =>
               acc ;;; CP_ALS.update_mode rightsolve non_negative_rightsolve
                         mode)
            (seq 0 k) (ret tt) s = (Raise e, s') ->
  (e = NotModelled "division by zero" /\
   exists kt', decomposition s' = Some kt' /\
               ~ Forall nonzero_columns (factor_matrices kt')) \/
  (exists lhs rhs, rightsolve lhs rhs = Raise e).
Proof.
  intros Hinv Hk Hcover. induction k as [|k IH]; intros s' H.
  - discriminate.
  - rewrite seq_S, fold_left_app in H. cbn [fold_left Nat.add] in H.
    unfold bindm at 1 in H.
    pose proof (frame_preserves _
                  (fitting_frame_sweep rightsolve non_negative_rightsolve
                     (seq 0 k) (ret tt) (fitting_frame_ret tt)))
      as (_ & _ & _ & _ & _ & Hkeep).
    specialize (Hkeep s).
    destruct (fold_left _ (seq 0 k) (ret tt) s) as [[[]|e1] s1] eqn:E.
    + destruct (sweep_prefix bound s k Hinv ltac:(lia) s1 E)
        as (kt1 & HX & Hd & Hr & Hfit & Hun & _).
      cbn [snd] in Hkeep.
      apply (update_mode_raise rightsolve non_negative_rightsolve solver r x
               x_wf s1 s' kt1 k e); auto; try lia.
      intros l Hl. apply Hcover. congruence.
    + injection H as <- <-. apply (IH ltac:(lia) s1 eq_refl).
Qed.

End Sweep.

(* The target stays in place *)

Lemma keeps_bind {A B} (m : method A) (k : A -> method B) :
  keeps_target m -> (forall a, keeps_target (k a)) ->
  keeps_target (bindm m k).
Proof.
  intros Hm Hk s. unfold bindm. specialize (Hm s).
  destruct (m s) as [[a|e] s1]; cbn [snd] in *; [|exact Hm].
  now rewrite Hk.
Qed.

Lemma keeps_lift {A} (v : result A) : keeps_target (lift v).
Proof. now intros s. Qed.

Lemma keeps_ret {A} (a : A) : keeps_target (ret a).
Proof. now intros s. Qed.

Lemma keeps_raise {A} (e : exn) : keeps_target (@raise A e).
Proof. now intros s. Qed.

Lemma keeps_read {A} (f : decomposer -> A) :
  keeps_target (fun s => (Ok (f s), s)).
Proof. now intros s. Qed.

Lemma keeps_attribute {A} (name : string) (get : decomposer -> option A) :
  keeps_target (attribute name get).
Proof. intros s. unfold attribute. now destruct (get s). Qed.

Lemma keeps_set_decomposition (kt : KruskalTensor) :
  keeps_target (update (set_decomposition kt)).
Proof. now intros s. Qed.

Create HintDb keeps.

#[local] Hint Resolve keeps_lift keeps_ret keeps_raise keeps_read
  keeps_attribute keeps_set_decomposition : keeps.

Ltac keeps :=
  repeat first
    [ apply keeps_bind; [|intros ?]
    | solve [auto with keeps]
    | match goal with
      | |- keeps_target (match ?c with _ => _ end) => destruct c
      | |- keeps_target (if ?c then _ else _) => destruct c
      end ].

Lemma keeps_update_mode
      (rightsolve non_negative_rightsolve
         : ndarray -> ndarray -> result ndarray) (n : nat) :
  keeps_target (CP_ALS.update_mode rightsolve non_negative_rightsolve n).
Proof.
  unfold CP_ALS.update_mode, CP_ALS._update_als_factor,
    CP_ALS._update_als_factor_non_negative, CP_ALS.normalize,
    CP_ALS._get_als_lhs, CP_ALS._get_als_rhs, CP_ALS.factor_matrices_of.
  keeps.
Qed.

Lemma keeps_sweep
      (rightsolve non_negative_rightsolve
         : ndarray -> ndarray -> result ndarray) (modes : list nat) :
  forall m0 : method unit, keeps_target m0 ->
  keeps_target
    (fold_left (fun acc mode =>
                  acc ;;; CP_ALS.update_mode rightsolve
                            non_negative_rightsolve mode)
               modes m0).
Proof.
  induction modes as [|n modes IH]; intros m0 H0; [exact H0|].
  cbn [fold_left]. apply IH. apply keeps_bind; [exact H0|].
  intros _. apply keeps_update_mode.
Qed.

Lemma keeps_update_als_factors
      (rightsolve non_negative_rightsolve
         : ndarray -> ndarray -> result ndarray) :
  keeps_target
    (CP_ALS._update_als_factors rightsolve non_negative_rightsolve).
Proof.
  unfold CP_ALS._update_als_factors. apply keeps_bind.
  - apply keeps_attribute.
  - intros x. apply keeps_sweep, keeps_ret.
Qed.

(* A target without entries *)

Lemma prod_zero_or (shp : list nat) :
  Forall (fun d => d <> 0%nat) shp \/ prod shp = 0%nat.
Proof.
  induction shp as [|d shp [IH|IH]].
  - left. constructor.
  - destruct d as [|d]; [now right|]. left. now constructor.
  - right. rewrite prod_cons, IH. lia.
Qed.

Lemma SSE_empty (s : decomposer) (x : ndarray) (e : R) :
  X s = Some x -> wf x -> prod (shape x) = 0%nat ->
  fst (CP_ALS.SSE s) = Ok e -> e = 0.
Proof.
  intros HX Hwf Hp H.
  assert (Hx : data x = []).
  { apply length_zero_iff_nil. unfold wf in Hwf. now rewrite Hwf. }
  unfold CP_ALS.SSE, CP_ALS.reconstructed_X, bindm, attribute, lift, update,
    ret in H.
  rewrite HX in H. destruct (decomposition s); [|discriminate].
  destruct (construct_tensor _) as [[T kt1]|]; [|discriminate].
  cbn [fst snd] in H. unfold sub in H.
  destruct (list_eq_dec _ _ _); [|discriminate].
  cbn [fst] in H. injection H as <-. unfold norm, norm2. cbn [data].
  rewrite Hx. cbn. rewrite sqrt_0. lra.
Qed.


(* A rank-one model of a 1 x 1 target *)

Lemma example_factor_ok : factor_matrix_of_rank 1 example_factor.
Proof. split; [reflexivity | now exists 1%nat]. Qed.

Lemma example_fitting :
  fitting 1 (mk_ndarray [1%nat; 1%nat] [1]) example_model.
Proof.
  unfold fitting, example_model. cbn [rank factor_matrices weights].
  repeat split.
  - constructor; [apply example_factor_ok|].
    constructor; [apply example_factor_ok | constructor].
  - now left.
Qed.

(* A sweep that fits a 2 x 1 target, and one that meets a zero column *)

Lemma entry_single_column (m : nat) (l : list R) (j : nat) :
  (j < m)%nat -> entry_of (rows_of m 1 l) j 0 = nth j l 0.
Proof.
  intros Hj. unfold entry_of, rows_of.
  rewrite (nth_indep _ [] (block 1 0 l))
    by now rewrite length_map, length_seq.
  rewrite (map_nth (fun i => block 1 i l)), seq_nth by assumption.
  unfold block. cbn [Nat.add]. rewrite Nat.mul_1_r.
  destruct (skipn j l) as [|y t] eqn:E.
  - cbn. pose proof (nth_skipn j l 0 0) as H. rewrite E in H. cbn in H.
    now rewrite Nat.add_0_r in H.
  - cbn. pose proof (nth_skipn j l 0 0) as H. rewrite E in H. cbn in H.
    now rewrite Nat.add_0_r in H.
Qed.

Lemma rank_one_rightsolve_least_squares :
  least_squares_solver rank_one_rightsolve.
Proof.
  intros m r lhs rhs S [Hwl Hsl] [Hwr Hsr] H.
  unfold rank_one_rightsolve in H. rewrite Hsl, Hsr in H.
  destruct r as [|[|r]]; try discriminate.
  destruct (data lhs) as [|l [|? ?]] eqn:El; try discriminate.
  injection H as <-. split.
  { split; [|reflexivity]. unfold wf in *. cbn [shape data].
    rewrite length_map. now rewrite Hwr, Hsr. }
  intros S' [HwS' HsS']. unfold rightsolve_residual.
  apply bigsum_le. intros j Hj. apply bigsum_le. intros a Ha.
  assert (a = 0%nat) as -> by lia. cbv zeta.
  unfold bigsum. cbn [seq map sum fold_right]. unfold rows.
  rewrite Hsl, Hsr, HsS', El. cbn [shape data].
  rewrite !entry_single_column by lia.
  change (entry_of (rows_of 1 1 [l]) 0 0) with l.
  set (f := fun b => if is_zero l then 0 else b / l).
  assert (Hf : nth j (map f (data rhs)) 0 = f (nth j (data rhs) 0)).
  { rewrite <- (map_nth f). f_equal. unfold f, is_zero.
    destruct (Req_dec_T l 0); [reflexivity | lra]. }
  rewrite Hf. unfold f, is_zero.
  destruct (Req_dec_T l 0) as [->|Hl].
  - cbn [nth]. right. ring.
  - cbn [nth].
    match goal with
    | |- ?u * ?u <= _ => replace u with 0 by (field; exact Hl)
    end.
    rewrite Rmult_0_l. apply square_nonneg.
Qed.



Ltac decide_reals :=
  repeat match goal with
         | |- context [Req_dec_T ?a ?b] =>
             destruct (Req_dec_T a b) as [?H|?H]; [exfalso; lra|]
         end.

Ltac same_entries :=
  repeat match goal with
         | |- @eq (result _) (Ok _) (Ok _) => f_equal
         | |- @eq KruskalTensor _ _ => f_equal
         | |- @eq ndarray _ _ => f_equal
         | |- @eq (list _) (_ :: _) (_ :: _) => f_equal
         end;
  try reflexivity; field.

Lemma example_first_solution :
  rank_one_rightsolve
    (mode_lhs 1 [] [example_factor])
    (mode_rhs 1 [] [example_factor] example_direction example_target)
  = Ok (mk_ndarray [2%nat; 1%nat] [3; 4]).
Proof.
  unfold rank_one_rightsolve, mode_lhs, mode_rhs.
  cbv -[Rplus Rmult Rminus Rdiv Rinv IZR Req_dec_T].
  decide_reals. same_entries.
Qed.

Lemma example_second_solution :
  rank_one_rightsolve
    (mode_lhs 1 [example_fitted] [])
    (mode_rhs 1 [example_fitted] [] example_factor example_target)
  = Ok (mk_ndarray [1%nat; 1%nat] [5]).
Proof.
  unfold rank_one_rightsolve, mode_lhs, mode_rhs.
  cbv -[Rplus Rmult Rminus Rdiv Rinv IZR Req_dec_T].
  decide_reals. same_entries.
Qed.

Lemma single_column_factor (n : nat) (l : list R) :
  length l = n -> factor_matrix_of_rank 1 (mk_ndarray [n; 1%nat] l).
Proof.
  intros H. split; [|now exists n]. unfold wf. cbn. lia.
Qed.

Lemma sqrt_25 : sqrt 25 = 5.
Proof. replace 25 with (5 * 5) by lra. apply sqrt_square. lra. Qed.


Lemma nonzero_single_column (n : nat) (l : list R) :
  length l = n -> Exists (fun y => y <> 0) l ->
  nonzero_columns (mk_ndarray [n; 1%nat] l).
Proof.
  intros Hl Hex. unfold nonzero_columns, cols. cbn [shape data].
  unfold cols_of. cbn [seq map]. constructor; [|constructor].
  apply Exists_exists in Hex. destruct Hex as (y & Hy & Hy0).
  apply Exists_exists. exists y. split; [|exact Hy0].
  destruct (In_nth l y 0 Hy) as (j & Hj & <-).
  unfold column. 
  rewrite <- (entry_single_column n l j) by lia. unfold entry_of.
  apply in_map_iff. exists (nth j (rows_of n 1 l) []). split; [reflexivity|].
  apply nth_In. rewrite rows_of_length. lia.
Qed.

Lemma example_first_normalize (W : ndarray) :
  normalize_components
    (mk_KruskalTensor 1 [mk_ndarray [2%nat; 1%nat] [3; 4]; example_factor]
                      W) true
  = Ok (mk_KruskalTensor 1 [example_fitted; example_factor]
                         (mk_ndarray [1%nat] [5])).
Proof.
  rewrite normalize_components_eq.
  - cbn [rank factor_matrices map].
    unfold normalised, normalised_rows, norm_products, col_norms, norm2.
    cbv -[Rplus Rmult Rminus Rdiv Rinv IZR sqrt].
    replace (3 * 3 + (4 * 4 + 0)) with 25 by lra.
    replace (1 * 1 + 0) with 1 by lra. rewrite sqrt_25, sqrt_1.
    unfold example_fitted, example_factor. same_entries.
  - constructor; [|constructor; [|constructor]];
      now apply single_column_factor.
  - constructor; [|constructor; [|constructor]];
      (apply nonzero_single_column; [reflexivity | left; lra]).
Qed.

Lemma example_second_normalize (W : ndarray) :
  normalize_components
    (mk_KruskalTensor 1 [example_fitted; mk_ndarray [1%nat; 1%nat] [5]]
                      W) true
  = Ok example_swept.
Proof.
  rewrite normalize_components_eq.
  - cbn [rank factor_matrices map].
    unfold normalised, normalised_rows, norm_products, col_norms, norm2.
    cbv -[Rplus Rmult Rminus Rdiv Rinv IZR sqrt].
    replace (3 / 5 * (3 / 5) + (4 / 5 * (4 / 5) + 0)) with 1 by field.
    replace (5 * 5 + 0) with 25 by lra. rewrite sqrt_25, sqrt_1.
    unfold example_swept, example_fitted, example_factor. same_entries.
  - constructor; [|constructor; [|constructor]];
      now apply single_column_factor.
  - constructor; [|constructor; [|constructor]];
      (apply nonzero_single_column; [reflexivity | left; lra]).
Qed.

Lemma update_mode_run
      (rightsolve non_negative_rightsolve
         : ndarray -> ndarray -> result ndarray)
      (r : nat) (x : ndarray) (s : decomposer) (rk : nat)
      (A B : list ndarray) (Fn W S : ndarray) (l : list bool) :
  wf x -> X s = Some x ->
  decomposition s = Some (mk_KruskalTensor rk (A ++ Fn :: B) W) ->
  model_rank s = r ->
  non_negativity_constraints s = Some l ->
  getitem l (Z.of_nat (length A)) = Ok false ->
  shape x = map (fun F => length (rows F)) (A ++ Fn :: B) ->
  Forall (factor_matrix_of_rank r) (A ++ Fn :: B) ->
  A ++ B <> [] -> length (rows Fn) <> 0%nat ->
  rightsolve (mode_lhs r A B) (mode_rhs r A B Fn x) = Ok S ->
  wf S -> shape S = shape Fn ->
  CP_ALS.update_mode rightsolve non_negative_rightsolve (length A) s
  = match normalize_components (mk_KruskalTensor rk (A ++ S :: B) W) true
    with
    | Ok kt => (Ok tt, set_decomposition kt s)
    | Raise e =>
        (Raise e, set_decomposition (mk_KruskalTensor rk (A ++ S :: B) W) s)
    end.
Proof.
  intros Hwf HX Hd Hr Hl Hget Hsh Hall Hne Hdn HS HSwf HSsh.
  unfold CP_ALS.update_mode, bindm, lift. rewrite Hl, Hget.
  rewrite (update_als_factor_eq rightsolve r x Hwf s rk A B Fn W)
    by assumption.
  rewrite HS, assign_same by assumption.
  replace (mk_ndarray (shape Fn) (data S)) with S
    by (destruct S; cbn [shape data] in *; congruence).
  unfold CP_ALS.normalize, bindm, attribute, lift, update.
  cbn [decomposition set_decomposition].
  now destruct (normalize_components _ true).
Qed.


Lemma example_sweep_run
      (non_negative_rightsolve : ndarray -> ndarray -> result ndarray)
      (s : decomposer) (W : ndarray) :
  X s = Some example_target ->
  decomposition s
  = Some (mk_KruskalTensor 1 [example_direction; example_factor] W) ->
  model_rank s = 1%nat ->
  non_negativity_constraints s = Some [false; false] ->
  CP_ALS._update_als_factors rank_one_rightsolve non_negative_rightsolve s
  = (Ok tt, set_decomposition example_swept s).
Proof.
  intros HX Hd Hr Hl.
  assert (E0 : CP_ALS.update_mode rank_one_rightsolve non_negative_rightsolve
                 0 s
               = (Ok tt,
                  set_decomposition
                    (mk_KruskalTensor 1 [example_fitted; example_factor]
                                      (mk_ndarray [1%nat] [5])) s)).
  { etransitivity.
    - apply (update_mode_run rank_one_rightsolve non_negative_rightsolve 1
               example_target s 1 [] [example_factor] example_direction W
               (mk_ndarray [2%nat; 1%nat] [3; 4]) [false; false]);
        try reflexivity; try assumption.
      + constructor; [|constructor; [|constructor]];
          now apply single_column_factor.
      + discriminate.
      + cbn. lia.
      + exact example_first_solution.
    - cbn [app]. now rewrite (example_first_normalize W). }
  assert (E1 : CP_ALS.update_mode rank_one_rightsolve non_negative_rightsolve
                 1
                 (set_decomposition
                    (mk_KruskalTensor 1 [example_fitted; example_factor]
                                      (mk_ndarray [1%nat] [5])) s)
               = (Ok tt, set_decomposition example_swept s)).
  { etransitivity.
    - apply (update_mode_run rank_one_rightsolve non_negative_rightsolve 1
               example_target _ 1 [example_fitted] [] example_factor
               (mk_ndarray [1%nat] [5])
               (mk_ndarray [1%nat; 1%nat] [5]) [false; false]);
        try reflexivity; try assumption.
      + constructor; [|constructor; [|constructor]];
          now apply single_column_factor.
      + discriminate.
      + cbn. lia.
      + exact example_second_solution.
    - cbn [app].
      now rewrite (example_second_normalize (mk_ndarray [1%nat] [5])). }
  unfold CP_ALS._update_als_factors, bindm at 1, attribute. rewrite HX.
  cbn [shape example_target length seq fold_left].
  unfold bindm, ret. cbv beta iota. rewrite E0. cbv beta iota.
  now rewrite E1.
Qed.

Lemma example_start_fitting : fitting 1 example_target example_start.
Proof.
  unfold fitting, example_start. cbn [rank factor_matrices weights].
  repeat split.
  - constructor; [|constructor; [|constructor]];
      now apply single_column_factor.
  - now left.
Qed.

Lemma example_swept_fitting : fitting 1 example_target example_swept.
Proof.
  unfold fitting, example_swept. cbn [rank factor_matrices weights].
  repeat split.
  - constructor; [|constructor; [|constructor]];
      now apply single_column_factor.
  - now left.
Qed.

Lemma example_start_error : model_error 1 example_target example_start = 20.
Proof.
  unfold model_error, model_data, squared_error.
  cbv -[Rplus Rmult Rminus Rdiv Rinv IZR]. lra.
Qed.

Lemma example_swept_error : model_error 1 example_target example_swept = 0.
Proof.
  unfold model_error, model_data, squared_error.
  cbv -[Rplus Rmult Rminus Rdiv Rinv IZR]. field.
Qed.

Lemma example_zero_solution :
  rank_one_rightsolve
    (mode_lhs 1 [] [example_factor])
    (mode_rhs 1 [] [example_factor] example_direction example_zeros)
  = Ok example_zeros.
Proof.
  unfold rank_one_rightsolve, mode_lhs, mode_rhs.
  cbv -[Rplus Rmult Rminus Rdiv Rinv IZR Req_dec_T].
  decide_reals. same_entries.
Qed.

Lemma example_zero_normalize (W : ndarray) :
  normalize_components
    (mk_KruskalTensor 1 [example_zeros; example_factor] W) true
  = Raise (NotModelled "division by zero").
Proof.
  unfold normalize_components. cbn [rank factor_matrices fold_left].
  unfold normalize_step at 2. cbn [bind].
  unfold norm_axis0, div_row. cbn [shape data example_zeros bind].
  unfold cols_of, norm2.
  cbv -[Rplus Rmult Rminus Rdiv Rinv IZR Req_dec_T sqrt normalize_step].
  replace (0 * 0 + (0 * 0 + 0)) with 0 by lra. rewrite sqrt_0.
  destruct (Req_dec_T 0 0) as [_|H]; [reflexivity | now contradiction H].
Qed.

Lemma example_zero_error :
  model_error 1 example_zeros example_start = 1.
Proof.
  unfold model_error, model_data, squared_error.
  cbv -[Rplus Rmult Rminus Rdiv Rinv IZR]. lra.
Qed.



(* ================================================================== *)
(** * Flattening a list of factor matrices and reading it back         *)
(* ================================================================== *)

Import BaseRest.

Lemma list_sum_cons (x : nat) (l : list nat) :
  list_sum (x :: l) = (x + list_sum l)%nat.
Proof. reflexivity. Qed.

Lemma cumsum_fold (l : list nat) :
  forall acc out,
  fold_left (fun st x => ((fst st + x)%nat, snd st ++ [(fst st + x)%nat]))
            l (acc, out)
  = ((acc + list_sum l)%nat, out ++ sums_from acc l).
Proof.
  induction l as [|x l IH]; intros acc out.
  - cbn. now rewrite Nat.add_0_r, app_nil_r.
  - change (list_sum (x :: l)) with (x + list_sum l)%nat.
    cbn [fold_left sums_from fst snd]. rewrite IH, <- app_assoc. cbn [app].
    f_equal. lia.
Qed.

Lemma cumsum_sums (l : list nat) : cumsum l = sums_from 0 l.
Proof. unfold cumsum. now rewrite cumsum_fold. Qed.

Lemma removelast_sums (o : nat) (sizes : list nat) :
  removelast (o :: sums_from o sizes) = offsets_from o sizes.
Proof.
  revert o. induction sizes as [|s sizes IH]; intros o; [reflexivity|].
  cbn [sums_from offsets_from].
  change (removelast (o :: (o + s)%nat :: sums_from (o + s) sizes))
    with (o :: removelast ((o + s)%nat :: sums_from (o + s) sizes)).
  now rewrite IH.
Qed.

Lemma flatten_offsets (sizes : list nat) :
  removelast (cumsum (0%nat :: sizes)) = offsets_from 0 sizes.
Proof.
  rewrite cumsum_sums. cbn [sums_from Nat.add]. apply removelast_sums.
Qed.

Lemma set_slice_inside (n o : nat) (b : list R) (F : ndarray) :
  length b = n -> wf F -> (o + prod (shape F) <= n)%nat ->
  set_slice (mk_ndarray [n] b) o (o + prod (shape F)) (ravel F)
  = Ok (mk_ndarray [n] (firstn o b ++ data F
                        ++ skipn (o + prod (shape F)) b)).
Proof.
  intros Hb Hwf Hle. unfold set_slice, ravel. cbn [shape data].
  rewrite !Nat.min_l by lia.
  replace (o + prod (shape F) - o)%nat with (prod (shape F)) by lia.
  now rewrite Nat.eqb_refl.
Qed.

Section FlattenLoop.

Variable garbage : nat -> R.

Lemma flatten_loop (n : nat) (l : list ndarray) :
  Forall wf l ->
  forall (o : nat) (b : list R),
  length b = n ->
  (o + list_sum (map (fun F => prod (shape F)) l) <= n)%nat ->
  fold_left flatten_step
            (combine (offsets_from o (map (fun F => prod (shape F)) l))
                     (combine (map (fun F => prod (shape F)) l) l))
            (Ok (mk_ndarray [n] b))
  = Ok (mk_ndarray [n]
          (firstn o b ++ concat (map data l)
           ++ skipn (o + list_sum (map (fun F => prod (shape F)) l)) b)).
Proof.
  induction 1 as [|F l HF _ IH]; intros o b Hb Hle.
  - cbn. rewrite Nat.add_0_r. now rewrite firstn_skipn.
  - cbn [map] in *. rewrite list_sum_cons in *.
    cbn [offsets_from combine fold_left].
    unfold flatten_step at 2. cbn [bind fst snd].
    rewrite set_slice_inside by (assumption || lia).
    set (s := prod (shape F)) in *.
    set (b' := firstn o b ++ data F ++ skipn (o + s) b).
    assert (Hd : length (data F) = s) by exact HF.
    assert (Hf : length (firstn o b) = o) by (rewrite length_firstn; lia).
    assert (Hb' : length b' = n).
    { unfold b'. rewrite !length_app, Hf, Hd, length_skipn. lia. }
    rewrite (IH (o + s)%nat b' Hb') by lia.
    do 2 f_equal. cbn [concat].
    assert (E1 : firstn (o + s) b' = firstn o b ++ data F).
    { unfold b'. rewrite app_assoc.
      rewrite firstn_app, firstn_all2 by (rewrite length_app; lia).
      rewrite length_app, Hf, Hd, Nat.sub_diag. cbn [firstn].
      now rewrite app_nil_r. }
    assert (E2 : forall k, skipn (o + s + k) b' = skipn (o + s + k) b).
    { intros k. unfold b'. rewrite app_assoc.
      rewrite skipn_app, skipn_all2 by (rewrite length_app; lia).
      rewrite length_app, Hf, Hd. cbn [app].
      replace (o + s + k - (o + s))%nat with k by lia.
      rewrite skipn_skipn. f_equal. lia. }
    rewrite E1, E2, <- !app_assoc, Nat.add_assoc. reflexivity.
Qed.

Lemma flatten_factors_eq (factors : list ndarray) :
  factors <> [] -> Forall wf factors ->
  Forall (fun F => shape F <> []) factors ->
  flatten_factors garbage factors
  = Ok (mk_ndarray [list_sum (map (fun F => prod (shape F)) factors)]
          (concat (map data factors))).
Proof.
  intros Hne Hwf Hsh. unfold flatten_factors.
  assert (H0 : (length factors =? 0) = false)
    by (destruct factors; [contradiction | reflexivity]).
  assert (H1 : existsb (fun factor => length (shape factor) =? 0) factors
               = false).
  { clear -Hsh. induction Hsh as [|F l HF _ IH]; [reflexivity|].
    cbn [existsb]. rewrite IH. destruct (shape F); [contradiction|reflexivity]. }
  rewrite H0, H1. cbn [orb]. rewrite flatten_offsets.
  unfold empty.
  rewrite (flatten_loop _ factors Hwf 0)
    by (rewrite ?length_map, ?length_seq; cbn; lia).
  cbn [firstn app Nat.add]. rewrite skipn_all2, app_nil_r;
    [reflexivity | rewrite length_map, length_seq; lia].
Qed.

End FlattenLoop.

Lemma slice_piece (n : nat) (pre piece post : list R) :
  length (pre ++ piece ++ post) = n ->
  slice (mk_ndarray [n] (pre ++ piece ++ post)) (length pre)
        (length pre + length piece)
  = Ok (mk_ndarray [length piece] piece).
Proof.
  intros Hn. unfold slice. cbn [shape data prod fold_right].
  rewrite !length_app in Hn.
  rewrite !Nat.min_l by lia.
  replace (length pre + length piece - length pre)%nat
    with (length piece) by lia.
  rewrite !Nat.mul_1_r.
  rewrite skipn_app, skipn_all2, Nat.sub_diag by lia. cbn [skipn app].
  rewrite firstn_app, firstn_all2, Nat.sub_diag by lia. cbn [firstn].
  now rewrite app_nil_r.
Qed.

Lemma unflatten_loop (rank n : nat) (l : list ndarray) (sizes : list nat) :
  Forall2 (fun F s => wf F /\ shape F = [s; rank]) l sizes ->
  forall (pre post : list R) (acc : list ndarray),
  length (pre ++ concat (map data l) ++ post) = n ->
  fold_left
    (unflatten_step (mk_ndarray [n] (pre ++ concat (map data l) ++ post))
                    rank)
    sizes (Ok (length pre, acc))
  = Ok ((length pre + list_sum (map (fun s => s * rank) sizes))%nat,
        acc ++ l).
Proof.
  induction 1 as [|F s l sizes [Hwf Hs] _ IH]; intros pre post acc Hn.
  - cbn. now rewrite Nat.add_0_r, app_nil_r.
  - cbn [map concat fold_left] in *. rewrite list_sum_cons.
    unfold unflatten_step at 2. cbn [bind fst snd].
    assert (Hd : length (data F) = (s * rank)%nat).
    { unfold wf in Hwf. rewrite Hwf, Hs. cbn. lia. }
    rewrite <- Hd. rewrite <- app_assoc in *.
    rewrite (slice_piece n pre (data F)) by assumption. cbn [bind].
    rewrite (reshape_full _ [s; rank])
      by (cbn [shape prod fold_right]; lia).
    cbn [bind data].
    assert (EF : mk_ndarray [s; rank] (data F) = F)
      by (destruct F; cbn [shape data] in *; congruence).
    rewrite EF.
    replace (pre ++ data F ++ concat (map data l) ++ post)
      with ((pre ++ data F) ++ concat (map data l) ++ post) in *
      by now rewrite <- app_assoc.
    replace (length pre + length (data F))%nat with (length (pre ++ data F))
      by now rewrite length_app.
    rewrite (IH (pre ++ data F) post (acc ++ [F]) Hn).
    rewrite length_app, <- app_assoc. cbn [app]. f_equal. f_equal. lia.
Qed.

(** Reading the flattened factor matrices back restores them: the
    buffer that [flatten_factors] returns holds the entries of the
    factor matrices one after another, whatever the fresh memory held,
    and [unflatten_factors] cuts it at the same places. *)
Theorem unflatten_flatten_factors
        (garbage : nat -> R) (factors : list ndarray) (rank : nat)
        (sizes : list nat) :
  factors <> [] ->
  Forall2 (fun F s => wf F /\ shape F = [s; rank]) factors sizes ->
  flatten_factors garbage factors
  = Ok (mk_ndarray [list_sum (map (fun s => (s * rank)%nat) sizes)]
          (concat (map data factors))) /\
  (flat <- flatten_factors garbage factors ;;
   unflatten_factors flat rank sizes) = Ok factors.
Proof.
  intros Hne H.
  assert (Hwf : Forall wf factors).
  { clear Hne. induction H as [|F s l ss [Hw _] _ IH]; constructor; auto. }
  assert (Hsh : Forall (fun F => shape F <> []) factors).
  { clear Hne Hwf. induction H as [|F s l ss [_ Hs] _ IH]; constructor; auto.
    now rewrite Hs. }
  assert (Hsum : map (fun F => prod (shape F)) factors
                 = map (fun s => (s * rank)%nat) sizes).
  { clear Hne Hwf Hsh. induction H as [|F s l ss [_ Hs] _ IH]; [reflexivity|].
    cbn [map]. rewrite IH, Hs. cbn [prod fold_right]. f_equal. lia. }
  assert (Hlen : length (concat (map data factors))
                 = list_sum (map (fun s => (s * rank)%nat) sizes)).
  { rewrite <- Hsum. clear -Hwf. induction Hwf as [|F l HF _ IH];
      [reflexivity|].
    cbn [map concat]. rewrite length_app, IH, list_sum_cons. now rewrite HF. }
  rewrite (flatten_factors_eq garbage factors Hne Hwf Hsh), Hsum.
  split; [reflexivity|]. cbn [bind]. unfold unflatten_factors.
  pose proof (unflatten_loop rank
                (list_sum (map (fun s => (s * rank)%nat) sizes))
                factors sizes H [] [] []) as E.
  cbn [app length] in E. rewrite app_nil_r in E.
  rewrite (E Hlen). reflexivity.
Qed.

Lemma unflatten_flatten_factors_witness :
  let F := mk_ndarray [2; 1]%nat [1; 2] in
  let G := mk_ndarray [1; 1]%nat [3] in
  flatten_factors (fun _ => 0) [F; G]
  = Ok (mk_ndarray [list_sum (map (fun s => (s * 1)%nat) [2; 1]%nat)]
          (concat (map data [F; G]))) /\
  (flat <- flatten_factors (fun _ => 0) [F; G] ;;
   unflatten_factors flat 1 [2; 1]%nat) = Ok [F; G].
Proof.
  cbv zeta.
  apply (unflatten_flatten_factors (fun _ => 0)
           [mk_ndarray [2; 1]%nat [1; 2]; mk_ndarray [1; 1]%nat [3]] 1
           [2; 1]%nat).
  - discriminate.
  - repeat constructor.
Defined.

(* ================================================================== *)
(** * Folding and unfolding                                            *)
(* ================================================================== *)

Lemma axis_from_front_swap (P d Q : nat) (l : list R) :
  axis_from_front P d Q l = axis_to_front d P Q l.
Proof. reflexivity. Qed.

Lemma axis_from_front_length (P d Q : nat) (l : list R) :
  length l = (P * d * Q)%nat ->
  length (axis_from_front P d Q l) = (P * d * Q)%nat.
Proof.
  intros H. rewrite axis_from_front_swap, axis_to_front_length; lia.
Qed.

(** Moving the first axis away and to the front again restores the
    buffer. *)
Lemma axis_roundtrip_back (P d Q : nat) (l : list R) :
  length l = (P * d * Q)%nat ->
  axis_to_front P d Q (axis_from_front P d Q l) = l.
Proof.
  intros H. rewrite axis_from_front_swap.
  rewrite <- (axis_from_front_swap d P Q).
  apply axis_roundtrip. lia.
Qed.

Lemma firstn_skipn_middle (shp : list nat) (k : nat) :
  (k < length shp)%nat ->
  firstn k (firstn k shp ++ skipn (S k) shp) = firstn k shp /\
  skipn k (firstn k shp ++ skipn (S k) shp) = skipn (S k) shp.
Proof.
  intros Hk.
  assert (Hpre : length (firstn k shp) = k) by (rewrite length_firstn; lia).
  split.
  - rewrite firstn_app, Hpre, Nat.sub_diag, firstn_O, app_nil_r.
    rewrite <- Hpre at 1. apply firstn_all.
  - rewrite skipn_app, Hpre, Nat.sub_diag, skipn_O.
    rewrite <- Hpre at 1. now rewrite skipn_all.
Qed.

(** [fold] in closed form. *)
Lemma fold_eq (M : ndarray) (n : Z) (shp : list nat) (k : nat) :
  index (length shp) n = Ok k ->
  prod (shape M) = prod shp -> length (data M) = prod shp ->
  fold M n shp
  = Ok (mk_ndarray shp
          (axis_from_front (prod (firstn k shp)) (nth k shp 0%nat)
                           (prod (skipn (S k) shp)) (data M))).
Proof.
  intros Hk Hp Hlen. pose proof (index_bound _ _ _ Hk) as Hlt.
  pose proof (split_at_nth shp k Hlt) as Hsplit.
  destruct (firstn_skipn_middle shp k Hlt) as [Hf Hs].
  unfold fold. rewrite (pop_index _ _ _ 0%nat Hk). cbn [bind].
  rewrite insert_0.
  set (d := nth k shp 0%nat) in *.
  set (pre := firstn k shp) in *. set (post := skipn (S k) shp) in *.
  assert (Hprod : prod shp = (prod pre * d * prod post)%nat).
  { rewrite Hsplit, prod_app, prod_cons. lia. }
  rewrite reshape_full
    by (rewrite Hp, prod_cons, prod_app; lia).
  cbn [bind].
  rewrite (moveaxis_eq _ 0 n 0 k).
  - cbv zeta. cbn [shape data nth firstn skipn app].
    rewrite Hf, Hs. change (prod []) with 1%nat.
    rewrite axis_to_front_1 by (rewrite prod_app; lia).
    now rewrite <- Hsplit.
  - apply index_0. unfold ndim. simpl. lia.
  - unfold ndim. cbn [shape].
    replace (length (d :: pre ++ post)) with (length shp); [exact Hk|].
    rewrite Hsplit at 1. cbn [length]. rewrite !length_app. cbn [length]. lia.
Qed.

(** Unfolding what [fold] built from a mode-[n] unfolding returns that
    unfolding: for every valid mode index, negative ones included, of a
    mode of non-zero length. *)
Theorem unfold_fold_inverse (M : ndarray) (n : Z) (shp : list nat) (k : nat) :
  wf M ->
  index (length shp) n = Ok k ->
  shape M = [nth k shp 0%nat; prod (firstn k shp ++ skipn (S k) shp)] ->
  nth k shp 0%nat <> 0%nat ->
  (T <- fold M n shp ;; unfold T n) = Ok M.
Proof.
  intros Hwf Hk Hs Hd. pose proof (index_bound _ _ _ Hk) as Hlt.
  pose proof (split_at_nth shp k Hlt) as Hsplit.
  assert (Hp : prod (shape M) = prod shp).
  { rewrite Hs, !prod_cons, prod_app. change (prod []) with 1%nat.
    set (d := nth k shp 0%nat) in *.
    set (pre := firstn k shp) in *. set (post := skipn (S k) shp) in *.
    rewrite Hsplit, prod_app, prod_cons. lia. }
  assert (Hlen : length (data M) = prod shp) by (rewrite <- Hp; exact Hwf).
  rewrite (fold_eq M n shp k Hk Hp Hlen). cbn [bind].
  assert (Hprod : prod shp = (prod (firstn k shp) * nth k shp 0%nat
                              * prod (skipn (S k) shp))%nat).
  { rewrite Hsplit at 1. rewrite prod_app, prod_cons. lia. }
  rewrite (unfold_eq _ n k).
  - cbn [shape data]. rewrite axis_roundtrip_back by lia.
    destruct M as [sM dM]. cbn [shape data] in *. now rewrite Hs.
  - unfold wf. cbn [shape data]. rewrite axis_from_front_length; lia.
  - exact Hk.
  - exact Hd.
Qed.

Lemma unfold_fold_inverse_witness :
  let M := mk_ndarray [2; 3]%nat [1; 2; 3; 4; 5; 6] in
  (T <- fold M (-2) [3; 2; 1]%nat ;; unfold T (-2)) = Ok M.
Proof.
  cbv zeta.
  apply (unfold_fold_inverse (mk_ndarray [2; 3]%nat [1; 2; 3; 4; 5; 6])
           (-2) [3; 2; 1]%nat 1).
  - reflexivity.
  - reflexivity.
  - reflexivity.
  - cbn. lia.
Defined.

Lemma unfold_entry_at (P d Q : nat) (l : list R) (p j q : nat) :
  length l = (P * d * Q)%nat ->
  (p < P)%nat -> (j < d)%nat -> (q < Q)%nat ->
  nth (p * Q + q) (block (P * Q) j (axis_to_front P d Q l)) 0
  = nth ((p * d + j) * Q + q) l 0.
Proof.
  intros Hl Hp Hj Hq.
  rewrite <- (nth_block Q p q) by assumption.
  rewrite block_block by assumption.
  rewrite block_axis_to_front by assumption.
  now apply nth_block.
Qed.

(** The layout of an unfolding.  For a valid mode index [n], negative
    ones included, [unfold(T, n)] has one row per position along the
    mode and one column per position along the remaining axes, which
    keep their order: with [P] positions along the axes before the
    mode, [d] along the mode and [Q] along those after it, the entry of
    row [j] and column [p * Q + q] is the entry [(p * d + j) * Q + q]
    of the buffer of [T]. *)
Theorem unfold_layout (T : ndarray) (n : Z) (k p j q : nat) :
  wf T -> index (ndim T) n = Ok k ->
  let P := prod (firstn k (shape T)) in
  let d := nth k (shape T) 0%nat in
  let Q := prod (skipn (S k) (shape T)) in
  (p < P)%nat -> (j < d)%nat -> (q < Q)%nat ->
  exists U,
    unfold T n = Ok U /\ shape U = [d; (P * Q)%nat] /\ wf U /\
    entry_of (rows U) j (p * Q + q) = nth ((p * d + j) * Q + q) (data T) 0.
Proof.
  intros Hwf Hk P d Q Hp Hj Hq.
  pose proof (index_bound _ _ _ Hk) as Hlt. unfold ndim in Hlt.
  pose proof (split_at_nth (shape T) k Hlt) as Hsplit.
  assert (Hlen : length (data T) = (P * d * Q)%nat).
  { unfold wf in Hwf. rewrite Hwf, Hsplit, prod_app, prod_cons.
    fold P d Q. lia. }
  rewrite (unfold_eq T n k Hwf Hk) by (fold d; lia).
  fold P d Q. rewrite prod_app. fold P Q.
  eexists. split; [reflexivity|]. cbn [shape data].
  split; [reflexivity|]. split.
  - unfold wf. cbn [shape data prod fold_right].
    rewrite axis_to_front_length by assumption. lia.
  - unfold entry_of, rows. cbn [shape data]. unfold rows_of.
    rewrite nth_map_seq_any by assumption.
    now apply unfold_entry_at.
Qed.

Lemma unfold_layout_witness :
  let T := mk_ndarray [2; 2; 2]%nat [1; 2; 3; 4; 5; 6; 7; 8] in
  exists U,
    unfold T (-2) = Ok U /\ shape U = [2; (2 * 2)%nat]%nat /\ wf U /\
    entry_of (rows U) 1 (1 * 2 + 0) = nth ((1 * 2 + 1) * 2 + 0) (data T) 0.
Proof.
  cbv zeta.
  apply (unfold_layout (mk_ndarray [2; 2; 2]%nat [1; 2; 3; 4; 5; 6; 7; 8])
           (-2) 1 1 1 0).
  - reflexivity.
  - reflexivity.
  - cbn. lia.
  - cbn. lia.
  - cbn. lia.
Defined.

(* ================================================================== *)
(** * Khatri-Rao products                                              *)
(* ================================================================== *)

Lemma of_rows_is_matrix (c : nat) (rws : list (list R)) :
  rows_ok c rws -> is_matrix (length rws) c (of_rows c rws).
Proof.
  intros H. split; [|reflexivity]. unfold wf, of_rows.
  cbn [shape data prod fold_right].
  rewrite (concat_row_length c) by assumption. lia.
Qed.

Lemma Forall_firstn_skipn {A} (P : A -> Prop) (l : list A) (k : nat) :
  Forall P l -> Forall P (firstn k l) /\ Forall P (skipn k l).
Proof.
  intros H. rewrite <- (firstn_skipn k l) in H. now apply Forall_app in H.
Qed.

Lemma khatri_rao_all (r : nat) (F : ndarray) (rest : list ndarray) :
  Forall (factor_matrix_of_rank r) (F :: rest) ->
  khatri_rao (F :: rest) None
  = Ok (of_rows r (krp_all r (map rows (F :: rest)))).
Proof.
  intros Hall. rewrite (khatri_rao_factors r) by assumption.
  do 2 f_equal. cbn [map]. apply krp_rows_all.
  - apply map_as_rows. exact (Forall_inv_tail Hall).
  - apply factor_as_rows. exact (Forall_inv Hall).
Qed.

(** What [khatri_rao] returns for factor matrices of [r] columns each:
    an [IndexError] when the index to skip is out of range or no
    factor matrix is left, and otherwise a matrix of [r] columns with
    as many rows as the product of the row counts of the factor
    matrices that are left. *)
Theorem khatri_rao_shape (r : nat) (factors : list ndarray)
        (skip : option Z) :
  Forall (factor_matrix_of_rank r) factors ->
  match
    match skip with
    | None => Some factors
    | Some s =>
        match index (length factors) s with
        | Ok k => Some (firstn k factors ++ skipn (S k) factors)
        | Raise _ => None
        end
    end
  with
  | None | Some [] => khatri_rao factors skip = Raise IndexError
  | Some (F :: rest) =>
      exists K,
        khatri_rao factors skip = Ok K /\
        is_matrix (prod (map (fun G => length (rows G)) (F :: rest))) r K
  end.
Proof.
  intros Hall.
  assert (Hleft : forall l, Forall (factor_matrix_of_rank r) l ->
            match l with
            | [] => khatri_rao l None = Raise IndexError
            | F :: rest =>
                exists K,
                  khatri_rao l None = Ok K /\
                  is_matrix (prod (map (fun G => length (rows G)) l)) r K
            end).
  { intros [|F rest] Hl; [reflexivity|].
    rewrite (khatri_rao_all r) by assumption.
    eexists. split; [reflexivity|].
    rewrite <- (map_map rows (@length _)), <- (krp_all_length r).
    apply of_rows_is_matrix, krp_all_ok. now apply map_as_rows. }
  destruct skip as [s|];
    [|specialize (Hleft factors Hall); destruct factors; exact Hleft].
  rewrite khatri_rao_pop.
  destruct (index (length factors) s) as [k|e] eqn:Ek.
  - pose proof (index_bound _ _ _ Ek) as Hk.
    rewrite (pop_index _ _ _ (mk_ndarray [] []) Ek). cbn [bind snd].
    assert (Hrem : Forall (factor_matrix_of_rank r)
                     (firstn k factors ++ skipn (S k) factors)).
    { apply Forall_app. split.
      - now apply Forall_firstn_skipn.
      - now apply (Forall_firstn_skipn _ factors (S k)). }
    specialize (Hleft _ Hrem).
    destruct (firstn k factors ++ skipn (S k) factors); exact Hleft.
  - unfold pop. rewrite Ek. cbn [bind].
    unfold index in Ek.
    destruct ((0 <=? s) && (s <? Z.of_nat (length factors)))%Z;
      [discriminate|].
    destruct ((- Z.of_nat (length factors) <=? s) && (s <? 0))%Z;
      [discriminate|].
    now injection Ek as <-.
Qed.

Lemma khatri_rao_shape_witness :
  exists K,
    khatri_rao [mk_ndarray [2; 1]%nat [1; 2]; mk_ndarray [1; 1]%nat [5];
                mk_ndarray [3; 1]%nat [1; 0; 1]] (Some (-2)%Z) = Ok K /\
    is_matrix (prod (map (fun G => length (rows G))
                         [mk_ndarray [2; 1]%nat [1; 2];
                          mk_ndarray [3; 1]%nat [1; 0; 1]])) 1 K.
Proof.
  apply (khatri_rao_shape 1
           [mk_ndarray [2; 1]%nat [1; 2]; mk_ndarray [1; 1]%nat [5];
            mk_ndarray [3; 1]%nat [1; 0; 1]] (Some (-2)%Z)).
  repeat constructor; eexists; reflexivity.
Defined.

(** The Khatri-Rao product of several factor matrices is built from
    the left, and is the product of the first factor matrix with the
    Khatri-Rao product of the others all the same. *)
Theorem khatri_rao_nested (r : nat) (F G : ndarray) (rest : list ndarray) :
  Forall (factor_matrix_of_rank r) (F :: G :: rest) ->
  khatri_rao (F :: G :: rest) None
  = (K <- khatri_rao (G :: rest) None ;; khatri_rao_binary F K).
Proof.
  intros Hall.
  pose proof (Forall_inv Hall) as HF.
  pose proof (Forall_inv_tail Hall) as Hrest.
  rewrite (khatri_rao_all r F) by assumption.
  rewrite (khatri_rao_all r G) by assumption. cbn [bind].
  destruct (factor_as_rows r F HF) as [EF HokF].
  rewrite EF at 2.
  rewrite khatri_rao_binary_rows;
    [reflexivity | assumption | apply krp_all_ok; now apply map_as_rows].
Qed.

Lemma khatri_rao_nested_witness :
  let F := mk_ndarray [2; 1]%nat [1; 2] in
  let G := mk_ndarray [1; 1]%nat [5] in
  let H := mk_ndarray [2; 1]%nat [3; 4] in
  khatri_rao [F; G; H] None
  = (K <- khatri_rao [G; H] None ;; khatri_rao_binary F K).
Proof.
  cbv zeta.
  apply (khatri_rao_nested 1 (mk_ndarray [2; 1]%nat [1; 2])
           (mk_ndarray [1; 1]%nat [5]) [mk_ndarray [2; 1]%nat [3; 4]]).
  repeat constructor; eexists; reflexivity.
Defined.

Lemma column_krb_rows (c k : nat) (ra rb : list (list R)) :
  rows_ok c ra -> rows_ok c rb -> (k < c)%nat ->
  column k (krb_rows ra rb)
  = flat_map (fun x => map (fun y => x * y) (column k rb)) (column k ra).
Proof.
  intros Ha Hb Hk. induction Ha as [|a ra Hla _ IH]; [reflexivity|].
  rewrite krb_rows_cons. unfold column in *. rewrite map_app, IH.
  cbn [map flat_map]. f_equal. rewrite !map_map.
  apply map_ext_in. intros b Hin.
  apply nth_zip_with; [lia|].
  unfold rows_ok in Hb. rewrite Forall_forall in Hb.
  rewrite (Hb b Hin). lia.
Qed.

Lemma column_of_rows (c : nat) (rws : list (list R)) (k : nat) :
  rows_ok c rws -> (k < c)%nat ->
  column_of (of_rows c rws) (Z.of_nat k)
  = Ok (mk_ndarray [length rws] (column k rws)).
Proof.
  intros H Hk. unfold column_of, of_rows. cbn [shape data].
  rewrite index_of_nat by assumption. cbn [bind].
  now rewrite (rows_of_concat c rws H).
Qed.

(** The Khatri-Rao product is the column-wise Kronecker product: a
    column of [khatri_rao_binary(A, B)] is [kron_binary_vectors] of
    the columns of [A] and [B] at that place. *)
Theorem khatri_rao_binary_column (r : nat) (A B : ndarray) (k : nat) :
  factor_matrix_of_rank r A -> factor_matrix_of_rank r B -> (k < r)%nat ->
  exists col,
    (K <- khatri_rao_binary A B ;; column_of K (Z.of_nat k)) = Ok col /\
    (u <- column_of A (Z.of_nat k) ;; v <- column_of B (Z.of_nat k) ;;
     kron_binary_vectors u v) = Ok col.
Proof.
  intros HA HB Hk.
  destruct (factor_as_rows r A HA) as [EA HokA].
  destruct (factor_as_rows r B HB) as [EB HokB].
  rewrite EA, EB.
  rewrite khatri_rao_binary_rows by assumption. cbn [bind].
  rewrite !column_of_rows by (assumption || now apply krb_rows_ok).
  cbn [bind]. unfold kron_binary_vectors. cbn [shape data].
  eexists. split; [reflexivity|].
  now rewrite krb_rows_length, (column_krb_rows r).
Qed.

Lemma khatri_rao_binary_column_witness :
  exists col,
    (K <- khatri_rao_binary (mk_ndarray [2; 2]%nat [1; 2; 3; 4])
                            (mk_ndarray [1; 2]%nat [5; 6]) ;;
     column_of K (Z.of_nat 1)) = Ok col /\
    (u <- column_of (mk_ndarray [2; 2]%nat [1; 2; 3; 4]) (Z.of_nat 1) ;;
     v <- column_of (mk_ndarray [1; 2]%nat [5; 6]) (Z.of_nat 1) ;;
     kron_binary_vectors u v) = Ok col.
Proof.
  apply (khatri_rao_binary_column 2); [| | lia];
    (split; [reflexivity | eexists; reflexivity]).
Defined.

(* ================================================================== *)
(** * Kronecker products                                               *)
(* ================================================================== *)

Lemma nth_product {X Y Z} (f : X -> Y -> Z) (la : list X) (lb : list Y)
      (i j : nat) (dx : X) (dy : Y) (dz : Z) :
  (i < length la)%nat -> (j < length lb)%nat ->
  nth (i * length lb + j) (flat_map (fun a => map (f a) lb) la) dz
  = f (nth i la dx) (nth j lb dy).
Proof.
  revert i. induction la as [|a la IH]; intros i Hi Hj; [cbn in Hi; lia|].
  cbn [flat_map]. destruct i as [|i].
  - cbn [Nat.mul Nat.add nth]. rewrite app_nth1 by (rewrite length_map; lia).
    rewrite (nth_indep _ dz (f a dy)) by (rewrite length_map; lia).
    apply map_nth.
  - rewrite app_nth2 by (rewrite length_map; lia).
    rewrite length_map.
    replace (S i * length lb + j - length lb)%nat
      with (i * length lb + j)%nat by lia.
    cbn [nth]. apply IH; [cbn in Hi; lia | assumption].
Qed.

Lemma product_length {X Y Z} (f : X -> Y -> Z) (la : list X) (lb : list Y) :
  length (flat_map (fun a => map (f a) lb) la)
  = (length la * length lb)%nat.
Proof.
  induction la as [|a la IH]; [reflexivity|].
  cbn [flat_map length]. rewrite length_app, length_map, IH. lia.
Qed.

(** The entries of a Kronecker product: [kron_binary(A, B)] of an
    [n] x [m] and a [p] x [q] matrix is an [n * p] x [m * q] matrix
    whose entry in row [i * p + j] and column [k * q + l] is
    [A[i, k] * B[j, l]]. *)
Theorem kron_binary_entry (A B : ndarray) (n m p q i j k l : nat) :
  is_matrix n m A -> is_matrix p q B ->
  (i < n)%nat -> (j < p)%nat -> (k < m)%nat -> (l < q)%nat ->
  exists K,
    kron_binary A B = Ok K /\ is_matrix (n * p) (m * q) K /\
    entry_of (rows K) (i * p + j) (k * q + l)
    = entry_of (rows A) i k * entry_of (rows B) j l.
Proof.
  intros HA HB Hi Hj Hk Hl.
  destruct (matrix_rows n m A HA) as (_ & HokA & HlenA).
  destruct (matrix_rows p q B HB) as (_ & HokB & HlenB).
  destruct HA as [_ HsA]. destruct HB as [_ HsB].
  unfold kron_binary. rewrite HsA, HsB.
  eexists. split; [reflexivity|].
  assert (ERA : rows_of n m (data A) = rows A) by (unfold rows; now rewrite HsA).
  assert (ERB : rows_of p q (data B) = rows B) by (unfold rows; now rewrite HsB).
  rewrite ERA, ERB.
  set (kr := fun (ra rb : list R) =>
               flat_map (fun a => map (fun b => a * b) rb) ra).
  set (krows := flat_map (fun ra => map (kr ra) (rows B)) (rows A)).
  assert (Edata :
    flat_map
      (fun ra =>
         flat_map (fun rb => flat_map (fun a => map (fun b => a * b) rb) ra)
                  (rows B))
      (rows A)
    = concat krows).
  { unfold krows. now rewrite concat_flat_map_map. }
  rewrite Edata.
  assert (Hkl : length krows = (n * p)%nat).
  { unfold krows. now rewrite product_length, HlenA, HlenB. }
  assert (Hkok : rows_ok (m * q) krows).
  { unfold krows, rows_ok. apply Forall_forall. intros row Hin.
    apply in_flat_map in Hin. destruct Hin as (ra & Hra & Hin).
    apply in_map_iff in Hin. destruct Hin as (rb & <- & Hrb).
    unfold kr. rewrite product_length.
    unfold rows_ok in HokA, HokB. rewrite Forall_forall in HokA, HokB.
    now rewrite (HokA ra Hra), (HokB rb Hrb). }
  split.
  - rewrite <- Hkl. now apply of_rows_is_matrix.
  - unfold rows at 1. cbn [shape data]. rewrite <- Hkl.
    rewrite (rows_of_concat (m * q) krows Hkok).
    unfold entry_of. unfold krows.
    rewrite <- HlenB at 1.
    rewrite (nth_product kr (rows A) (rows B) i j [] [] [])
      by (rewrite ?HlenA, ?HlenB; assumption).
    assert (Lb : length (nth j (rows B) []) = q)
      by (apply nth_rows_ok; [assumption | now rewrite HlenB]).
    assert (La : length (nth i (rows A) []) = m)
      by (apply nth_rows_ok; [assumption | now rewrite HlenA]).
    unfold kr. rewrite <- Lb at 1.
    apply (nth_product (fun a b => a * b)); lia.
Qed.

Lemma kron_binary_entry_witness :
  exists K,
    kron_binary (mk_ndarray [1; 2]%nat [1; 2])
                (mk_ndarray [2; 1]%nat [3; 4]) = Ok K /\
    is_matrix (1 * 2) (2 * 1) K /\
    entry_of (rows K) (0 * 2 + 1) (1 * 1 + 0)
    = entry_of (rows (mk_ndarray [1; 2]%nat [1; 2])) 0 1
      * entry_of (rows (mk_ndarray [2; 1]%nat [3; 4])) 1 0.
Proof.
  apply (kron_binary_entry (mk_ndarray [1; 2]%nat [1; 2])
           (mk_ndarray [2; 1]%nat [3; 4]) 1 2 2 1 0 1 1 0);
    try lia; (split; reflexivity).
Defined.

(* ================================================================== *)
(** * ktensor and KruskalTensor.construct_tensor                       *)
(* ================================================================== *)

Lemma zip_ones (l : list R) :
  forall n, (length l <= n)%nat -> zip_with Rmult (repeat 1 n) l = l.
Proof.
  unfold zip_with. induction l as [|x l IH]; intros n Hn.
  - now rewrite combine_nil.
  - destruct n as [|n]; [cbn in Hn; lia|].
    cbn [repeat combine map fst snd]. rewrite IH by (cbn in Hn; lia).
    f_equal. lra.
Qed.

Lemma times_ones (r : nat) (F : ndarray) :
  factor_matrix_of_rank r F ->
  times (ones_like F) F = Ok F /\
  mul_row (mk_ndarray [1%nat; r] (repeat 1 r)) F = Ok F.
Proof.
  intros HF. split.
  - unfold times, ones_like, ones. cbn [shape data].
    destruct (list_eq_dec Nat.eq_dec (shape F) (shape F)) as [_|Hne];
      [|now contradiction Hne].
    destruct HF as [Hwf _]. unfold wf in Hwf.
    rewrite zip_ones by lia. now destruct F.
  - rewrite (mul_row_factor r) by (rewrite ?repeat_length; auto).
    destruct (factor_as_rows r F HF) as [E Hok].
    rewrite E at 2. do 2 f_equal.
    rewrite <- (map_id (rows F)) at 2. apply map_ext_in.
    intros row Hin. apply zip_ones.
    unfold rows_ok in Hok. rewrite Forall_forall in Hok.
    now rewrite (Hok row Hin).
Qed.

Lemma times_row (r : nat) (wv : list R) (F : ndarray) :
  length wv = r -> factor_matrix_of_rank r F ->
  times (mk_ndarray [1%nat; r] wv) F = mul_row (mk_ndarray [1%nat; r] wv) F.
Proof.
  intros Hw HF. unfold times. cbn [shape data].
  destruct (list_eq_dec Nat.eq_dec [1%nat; r] (shape F)) as [Hs|]; [|reflexivity].
  rewrite (mul_row_factor r) by assumption.
  destruct (factor_rows r F HF) as (n & Hs' & Hn & _ & Hd).
  assert (n = 1%nat) by congruence. subst n.
  destruct (rows F) as [|row [|? ?]]; try discriminate.
  unfold of_rows. cbn [map length concat] in *. rewrite Hd, <- Hs.
  now rewrite !app_nil_r.
Qed.

(** [ktensor(factors..., weights=w)] and
    [KruskalTensor(factors, w).construct_tensor()] give the same
    result, for factor matrices of [r] columns and for [w] absent or a
    vector of [r] weights. *)
Theorem ktensor_construct_tensor (r : nat) (factors : list ndarray)
        (w : option ndarray) :
  Forall (factor_matrix_of_rank r) factors ->
  (forall v, w = Some v -> shape v = [r] /\ length (data v) = r) ->
  factors <> [] ->
  ktensor factors w
  = (kt <- KruskalTensor_init factors w ;; constructed kt).
Proof.
  intros Hall Hw Hne. destruct factors as [|F0 rest]; [now contradiction Hne|].
  pose proof (Forall_inv Hall) as HF0.
  destruct (factor_rows r F0 HF0) as (n & Hs & _).
  assert (Hcols : check_columns r (F0 :: rest) = Ok tt).
  { apply check_columns_ok. eapply Forall_impl; [|exact Hall].
    intros F [_ HF]. exact HF. }
  unfold KruskalTensor_init.
  change (getitem (F0 :: rest) 0) with (Ok F0). cbn [bind].
  unfold shape_at at 1. rewrite Hs.
  change (getitem [n; r] 1) with (@Ok nat r). cbn [bind]. rewrite Hcols.
  cbn [bind].
  assert (Hgen : forall wv scaled,
    mul_row (mk_ndarray [1%nat; r] wv) F0 = scaled ->
    (shp <- shape_list (F0 :: rest) ;;
     first <- Ok F0 ;;
     scaled <- scaled ;;
     krp <- khatri_rao (tl (F0 :: rest)) None ;;
     krpT <- transpose krp ;;
     tensor <- matmul scaled krpT ;;
     fold tensor 0 shp)
    = constructed (mk_KruskalTensor r (F0 :: rest) (mk_ndarray [r] wv))).
  { intros wv scaled <-. rewrite constructed_eq.
    change (getitem (F0 :: rest) 0) with (Ok F0).
    destruct (shape_list _); [|reflexivity]. cbn [bind].
    destruct (mul_row _ _); [|reflexivity]. cbn [bind].
    destruct (khatri_rao _ _); [|reflexivity]. cbn [bind].
    destruct (transpose _); [|reflexivity]. cbn [bind].
    destruct (matmul _ _); reflexivity. }
  unfold ktensor. fold (shape_list (F0 :: rest)).
  change (getitem (F0 :: rest) 0) with (Ok F0).
  destruct w as [v|].
  - destruct (Hw v eq_refl) as [Hv Hlen]. destruct v as [sv wv].
    cbn [shape data] in Hv, Hlen. subst sv.
    unfold len. cbn [shape bind length Nat.eqb data].
    rewrite Nat.eqb_refl. cbn [negb bind].
    rewrite (times_row r wv F0 Hlen HF0). now apply Hgen.
  - cbn [bind]. unfold ones_like at 1. unfold ones at 1. cbn [shape].
    rewrite Hs. cbn [length Nat.eqb].
    destruct (times_ones r F0 HF0) as [-> Hm].
    unfold ones. cbn [prod fold_right]. rewrite Nat.mul_1_r.
    now apply Hgen.
Qed.

Lemma ktensor_construct_tensor_witness :
  ktensor [mk_ndarray [2; 1]%nat [1; 2]; mk_ndarray [3; 1]%nat [1; 0; 1]]
          (Some (mk_ndarray [1]%nat [5]))
  = (kt <- KruskalTensor_init
             [mk_ndarray [2; 1]%nat [1; 2]; mk_ndarray [3; 1]%nat [1; 0; 1]]
             (Some (mk_ndarray [1]%nat [5])) ;;
     constructed kt).
Proof.
  apply (ktensor_construct_tensor 1).
  - repeat constructor; cbn; eauto.
  - intros v [= <-]. split; reflexivity.
  - discriminate.
Defined.

(* ================================================================== *)
(** * matrix_khatri_rao_product for any number of modes                *)
(* ================================================================== *)

(** For a target of any number of modes and factor matrices of [r]
    columns whose row counts are the target's shape,
    [matrix_khatri_rao_product] returns for the mode of a non-empty
    axis a matrix with one row per index of that axis and [r]
    columns; its entries are those of the matrix product of
    [unfold(X, mode)] and [khatri_rao(factors, skip=mode)], which both
    succeed. *)
Theorem matrix_khatri_rao_product_entries (r : nat) (A B : list ndarray)
        (Fn x : ndarray) :
  wf x ->
  shape x = map (fun F => length (rows F)) (A ++ Fn :: B) ->
  Forall (factor_matrix_of_rank r) (A ++ Fn :: B) ->
  A ++ B <> [] ->
  length (rows Fn) <> 0%nat ->
  exists U K M,
    unfold x (Z.of_nat (length A)) = Ok U /\
    khatri_rao (A ++ Fn :: B) (Some (Z.of_nat (length A))) = Ok K /\
    matrix_khatri_rao_product x (A ++ Fn :: B) (Z.of_nat (length A))
    = Ok (Some M) /\
    is_matrix (length (rows Fn)) r M /\
    forall j a, (j < length (rows Fn))%nat -> (a < r)%nat ->
      entry_of (rows M) j a
      = bigsum (length (rows K))
          (fun t => entry_of (rows U) j t * entry_of (rows K) t a).
Proof.
  intros Hwf Hs Hall Hne Hd.
  set (d := length (rows Fn)) in *.
  set (pre := map (fun F => length (rows F)) A).
  set (post := map (fun F => length (rows F)) B).
  assert (Hs' : shape x = pre ++ d :: post).
  { rewrite Hs. unfold pre, post, d. now rewrite map_app. }
  pose proof (unfold_split x pre post d Hwf Hs' Hd) as HU.
  unfold pre at 1 in HU. rewrite length_map in HU.
  pose proof (khatri_rao_skip r A B Fn Hall Hne) as HK.
  pose proof (matrix_khatri_rao_product_eq r A B Fn x Hwf Hs Hall Hne Hd) as HM.
  rewrite (mttkrp_spec_eq r A B Fn x Hwf Hs Hall Hne Hd) in HM.
  cbn [bind] in HM. fold d in HM.
  do 3 eexists. split; [exact HU|]. split; [exact HK|]. split; [exact HM|].
  split; [apply tabulate_is_matrix|].
  intros j a Hj Ha. rewrite tabulate_entry by assumption.
  assert (Hok : Forall (rows_ok r) (map rows (A ++ B))).
  { apply map_as_rows. apply Forall_app in Hall. destruct Hall as [HA HB].
    apply Forall_app. split; [assumption | exact (Forall_inv_tail HB)]. }
  rewrite (rows_of_rows r) by now apply krp_all_ok.
  assert (HP : prod pre = length (krp_all r (map rows A)))
    by apply prod_rows.
  assert (HQ : prod post = length (krp_all r (map rows B)))
    by apply prod_rows.
  assert (HPQ : length (krp_all r (map rows (A ++ B)))
                = (prod pre * prod post)%nat).
  { rewrite <- prod_rows, map_app. apply prod_app. }
  rewrite HPQ, <- HP, <- HQ. unfold moment, ip. apply bigsum_ext.
  intros t Ht. unfold unfolded, design. rewrite <- map_app. f_equal.
  unfold entry_of, rows. cbn [shape data]. unfold rows_of.
  rewrite (nth_map_seq_any _ d j []) by assumption.
  now rewrite prod_app.
Qed.

Lemma matrix_khatri_rao_product_entries_witness :
  exists U K M,
    unfold (mk_ndarray [1; 2]%nat [3; 4]) (Z.of_nat (length [ones [1; 1]%nat]))
    = Ok U /\
    khatri_rao ([ones [1; 1]%nat] ++ ones [2; 1]%nat :: [])
               (Some (Z.of_nat (length [ones [1; 1]%nat]))) = Ok K /\
    matrix_khatri_rao_product (mk_ndarray [1; 2]%nat [3; 4])
      ([ones [1; 1]%nat] ++ ones [2; 1]%nat :: [])
      (Z.of_nat (length [ones [1; 1]%nat]))
    = Ok (Some M) /\
    is_matrix (length (rows (ones [2; 1]%nat))) 1 M /\
    forall j a, (j < length (rows (ones [2; 1]%nat)))%nat -> (a < 1)%nat ->
      entry_of (rows M) j a
      = bigsum (length (rows K))
          (fun t => entry_of (rows U) j t * entry_of (rows K) t a).
Proof.
  apply (matrix_khatri_rao_product_entries 1 [ones [1; 1]%nat] []
           (ones [2; 1]%nat) (mk_ndarray [1; 2]%nat [3; 4])).
  - reflexivity.
  - reflexivity.
  - repeat constructor; cbn; eauto.
  - discriminate.
  - discriminate.
Defined.

(** With three factor matrices, the negative modes -2 and -3 are not
    served: [matrix_khatri_rao_product] returns [None] for them, where
    the generic formula [unfold(X, mode) @ khatri_rao(factors,
    skip=mode)] gives the matrix that the function returns for the
    same axis named by its non-negative index [mode + 3]. *)
Theorem matrix_khatri_rao_product_negative_mode (r : nat) (A B C X : ndarray)
        (mode : Z) :
  wf X ->
  shape X = map (fun F => length (rows F)) [A; B; C] ->
  Forall (factor_matrix_of_rank r) [A; B; C] ->
  ~ In 0%nat (shape X) ->
  mode = (-2)%Z \/ mode = (-3)%Z ->
  matrix_khatri_rao_product X [A; B; C] mode = Ok None /\
  exists M,
    mttkrp_spec X [A; B; C] mode = Ok M /\
    matrix_khatri_rao_product X [A; B; C] (mode + 3) = Ok (Some M).
Proof.
  intros Hwf Hs Hall Hnz Hmode. split.
  - unfold matrix_khatri_rao_product. rewrite Hs. cbn [map length Nat.eqb negb].
    destruct Hmode as [-> | ->]; reflexivity.
  - assert (Hsame : mttkrp_spec X [A; B; C] mode
                    = mttkrp_spec X [A; B; C] (mode + 3)).
    { unfold mttkrp_spec, unfold.
      assert (Hm : moveaxis X mode 0 = moveaxis X (mode + 3) 0).
      { unfold moveaxis, ndim. rewrite Hs. cbn [map length].
        destruct Hmode as [-> | ->]; reflexivity. }
      assert (Hd : shape_at X mode = shape_at X (mode + 3)).
      { unfold shape_at. rewrite Hs. destruct Hmode as [-> | ->]; reflexivity. }
      assert (Hk : khatri_rao [A; B; C] (Some mode)
                   = khatri_rao [A; B; C] (Some (mode + 3)%Z)).
      { destruct Hmode as [-> | ->]; reflexivity. }
      now rewrite Hm, Hd, Hk. }
    rewrite Hsame. rewrite Hs in Hnz. cbn [map In] in Hnz.
    destruct Hmode as [-> | ->].
    + change (-2 + 3)%Z with (Z.of_nat (length [A])).
      change [A; B; C] with ([A] ++ B :: [C]) in *.
      assert (Hne : [A] ++ [C] <> []) by discriminate.
      assert (Hd : length (rows B) <> 0%nat) by intuition congruence.
      rewrite (matrix_khatri_rao_product_eq r [A] [C] B X Hwf Hs Hall Hne Hd).
      rewrite (mttkrp_spec_eq r [A] [C] B X Hwf Hs Hall Hne Hd).
      eexists. split; reflexivity.
    + change (-3 + 3)%Z with (Z.of_nat (@length ndarray [])).
      change [A; B; C] with ([] ++ A :: [B; C]) in *.
      assert (Hne : [] ++ [B; C] <> []) by discriminate.
      assert (Hd : length (rows A) <> 0%nat) by intuition congruence.
      rewrite (matrix_khatri_rao_product_eq r [] [B; C] A X Hwf Hs Hall Hne Hd).
      rewrite (mttkrp_spec_eq r [] [B; C] A X Hwf Hs Hall Hne Hd).
      eexists. split; reflexivity.
Qed.

Lemma matrix_khatri_rao_product_negative_mode_witness :
  matrix_khatri_rao_product (mk_ndarray [1; 2; 1]%nat [3; 4])
    [ones [1; 1]%nat; ones [2; 1]%nat; ones [1; 1]%nat] (-2) = Ok None /\
  exists M,
    mttkrp_spec (mk_ndarray [1; 2; 1]%nat [3; 4])
      [ones [1; 1]%nat; ones [2; 1]%nat; ones [1; 1]%nat] (-2) = Ok M /\
    matrix_khatri_rao_product (mk_ndarray [1; 2; 1]%nat [3; 4])
      [ones [1; 1]%nat; ones [2; 1]%nat; ones [1; 1]%nat] (-2 + 3)
    = Ok (Some M).
Proof.
  apply (matrix_khatri_rao_product_negative_mode 1).
  - reflexivity.
  - reflexivity.
  - repeat constructor; cbn; eauto.
  - cbn. intros [H | [H | [H | []]]]; discriminate.
  - now left.
Defined.

(* ================================================================== *)
(** * KruskalTensor.normalize_components, called again                 *)
(* ================================================================== *)

Lemma normalize_components_any (kt : KruskalTensor) (update_weights : bool) :
  kruskal_invariant kt ->
  Forall nonzero_columns (factor_matrices kt) ->
  normalize_components kt update_weights
  = Ok (mk_KruskalTensor (rank kt)
          (map (normalised (rank kt)) (factor_matrices kt))
          (if update_weights
           then mk_ndarray [rank kt]
                  (norm_products (rank kt) (factor_matrices kt))
           else weights kt)).
Proof.
  intros H Hnz. unfold normalize_components, ones. cbn [prod fold_right].
  rewrite Nat.mul_1_r.
  rewrite (normalize_loop_eq (rank kt)); [reflexivity | | apply repeat_length].
  unfold kruskal_invariant in H. rewrite Forall_forall in *. auto.
Qed.

Lemma map_const_repeat {X} (f : X -> R) (c : R) (l : list X) :
  Forall (fun y => f y = c) l -> map f l = repeat c (length l).
Proof.
  induction 1 as [|y l Hy _ IH]; [reflexivity|].
  cbn [map length repeat]. now rewrite Hy, IH.
Qed.

Lemma zip_div_ones (l : list R) :
  forall n, (length l <= n)%nat ->
  zip_with (fun d y => y / d) (repeat 1 n) l = l.
Proof.
  unfold zip_with. induction l as [|y l IH]; intros n Hn.
  - now rewrite combine_nil.
  - destruct n as [|n]; [cbn in Hn; lia|].
    cbn [repeat combine map fst snd]. rewrite IH by (cbn in Hn; lia).
    f_equal. field.
Qed.

Lemma zip_ones_r (l : list R) :
  forall n, (length l <= n)%nat -> zip_with Rmult l (repeat 1 n) = l.
Proof.
  unfold zip_with. induction l as [|y l IH]; intros n Hn; [reflexivity|].
  destruct n as [|n]; [cbn in Hn; lia|].
  cbn [repeat combine map fst snd]. rewrite IH by (cbn in Hn; lia).
  f_equal. lra.
Qed.

Lemma col_norms_unit (r : nat) (F : ndarray) :
  factor_matrix_of_rank r F -> unit_columns F ->
  col_norms r (rows F) = repeat 1 r.
Proof.
  intros [_ [n Hs]] Hu. unfold unit_columns, cols in Hu. rewrite Hs in Hu.
  unfold cols_of in Hu. rewrite Forall_map in Hu.
  unfold col_norms, rows. rewrite Hs.
  rewrite (map_const_repeat _ 1) by exact Hu. now rewrite length_seq.
Qed.

Lemma unit_normalised (r : nat) (F : ndarray) :
  factor_matrix_of_rank r F -> unit_columns F -> normalised r F = F.
Proof.
  intros HF Hu. destruct (factor_rows r F HF) as (n & Hs & Hn & Hlen & Hd).
  unfold normalised, normalised_rows. rewrite (col_norms_unit r F HF Hu).
  replace (map (fun row => zip_with (fun d y => y / d) (repeat 1 r) row)
               (rows F)) with (rows F).
  - rewrite <- Hd. now destruct F.
  - rewrite <- (map_id (rows F)) at 1. apply map_ext_in. intros row Hin.
    symmetry. apply zip_div_ones. rewrite Forall_forall in Hlen.
    now rewrite (Hlen row Hin).
Qed.

Lemma unit_nonzero (F : ndarray) : unit_columns F -> nonzero_columns F.
Proof.
  unfold unit_columns, nonzero_columns. intros H.
  eapply Forall_impl; [|exact H]. intros col Hcol. cbv beta in *.
  destruct (norm2_zero col) as [Hex | H0]; [exact Hex | lra].
Qed.

Lemma norm_products_unit (r : nat) (fms : list ndarray) :
  Forall (fun F => factor_matrix_of_rank r F /\ unit_columns F) fms ->
  norm_products r fms = repeat 1 r.
Proof.
  unfold norm_products. induction 1 as [|F fms [HF Hu] _ IH]; [reflexivity|].
  cbn [fold_left]. rewrite (col_norms_unit r F HF Hu).
  rewrite zip_ones by (rewrite repeat_length; lia). exact IH.
Qed.

(** Calling [normalize_components()] a second time leaves the
    normalised factor matrices as they are and replaces the weights,
    which held the column norms that the first call took out, by
    ones. *)
Theorem normalize_components_twice (kt : KruskalTensor) :
  kruskal_invariant kt ->
  Forall nonzero_columns (factor_matrices kt) ->
  (once <- normalize_components kt true ;; normalize_components once true)
  = Ok (mk_KruskalTensor (rank kt)
          (map (normalised (rank kt)) (factor_matrices kt))
          (ones [rank kt])).
Proof.
  intros Hinv Hnz. rewrite (normalize_components_eq kt Hinv Hnz). cbn [bind].
  set (r := rank kt) in *. set (fms := factor_matrices kt) in *.
  assert (Hunit : Forall (fun F => factor_matrix_of_rank r F /\ unit_columns F)
                         (map (normalised r) fms)).
  { apply Forall_map. unfold kruskal_invariant in Hinv. fold r fms in Hinv.
    rewrite Forall_forall in *. intros F HF. split.
    - now apply normalised_factor, Hinv.
    - apply normalised_unit_columns; auto. }
  rewrite normalize_components_eq; cbn [rank factor_matrices].
  - rewrite (norm_products_unit r _ Hunit). f_equal. f_equal.
    + rewrite map_map. apply map_ext_in. intros F HF.
      rewrite Forall_forall in Hunit.
      destruct (Hunit (normalised r F)) as [H1 H2]; [now apply in_map|].
      now apply unit_normalised.
    + unfold ones. cbn [prod fold_right]. now rewrite Nat.mul_1_r.
  - unfold kruskal_invariant. cbn [rank factor_matrices].
    eapply Forall_impl; [|exact Hunit]. now intros F [H1 _].
  - eapply Forall_impl; [|exact Hunit]. intros F [_ H2].
    now apply unit_nonzero.
Qed.

Lemma normalize_components_twice_witness :
  (once <- normalize_components
             (mk_KruskalTensor 1 [mk_ndarray [1; 1]%nat [2]] (ones [1]%nat))
             true ;;
   normalize_components once true)
  = Ok (mk_KruskalTensor
          (rank (mk_KruskalTensor 1 [mk_ndarray [1; 1]%nat [2]] (ones [1]%nat)))
          (map (normalised
                  (rank (mk_KruskalTensor 1 [mk_ndarray [1; 1]%nat [2]]
                           (ones [1]%nat))))
               (factor_matrices
                  (mk_KruskalTensor 1 [mk_ndarray [1; 1]%nat [2]]
                     (ones [1]%nat))))
          (ones [rank (mk_KruskalTensor 1 [mk_ndarray [1; 1]%nat [2]]
                         (ones [1]%nat))])).
Proof.
  apply (normalize_components_twice
           (mk_KruskalTensor 1 [mk_ndarray [1; 1]%nat [2]] (ones [1]%nat))).
  - repeat constructor; cbn; eauto.
  - repeat constructor. cbn. lra.
Defined.

(* ================================================================== *)
(** * KruskalTensor.random_init                                        *)
(* ================================================================== *)

Lemma draw_all_shapes (draw : nat -> nat -> nat -> ndarray) (rank : nat)
      (P : ndarray -> nat -> Prop) (sizes : list nat) :
  (forall k size, In size sizes -> P (draw k size rank) size) ->
  forall start,
  Forall2 P (map (fun p => draw (fst p) (snd p) rank)
                 (combine (seq start (length sizes)) sizes)) sizes.
Proof.
  induction sizes as [|s sizes IH]; intros H start; [constructor|].
  cbn [length seq combine map fst snd]. constructor.
  - apply H. now left.
  - apply IH. intros k size Hin. apply H. now right.
Qed.

(** [KruskalTensor.random_init(sizes, rank, random_method)], for a
    method that reads 'normal' or 'uniform' whatever its case, at
    least one size, and draws of the requested shapes that have no
    zero column: the result has unit weights and one factor matrix
    per size, of that many rows and [rank] columns, each column of
    Euclidean norm one. *)
Theorem random_init_unit_components
        (randn uniform : nat -> nat -> nat -> ndarray)
        (sizes : list nat) (rank : nat) (random_method : string) :
  sizes <> [] ->
  In (Str.lower random_method) ["normal"; "uniform"]%string ->
  (forall draw k size, In draw [randn; uniform] -> In size sizes ->
     wf (draw k size rank) /\ shape (draw k size rank) = [size; rank] /\
     nonzero_columns (draw k size rank)) ->
  exists kt,
    random_init randn uniform sizes rank random_method = Ok kt /\
    weights kt = ones [rank] /\
    Forall2 (fun F size => wf F /\ shape F = [size; rank] /\ unit_columns F)
            (factor_matrices kt) sizes.
Proof.
  intros Hne Hmethod Hdraw.
  assert (Hchoice : exists draw,
    In draw [randn; uniform] /\
    random_init randn uniform sizes rank random_method
    = (kt <- KruskalTensor_init (draw_all draw rank sizes) None ;;
       normalize_components kt false)).
  { unfold random_init.
    destruct Hmethod as [<- | [<- | []]].
    - exists randn. split; [now left | reflexivity].
    - exists uniform. split; [right; now left | reflexivity]. }
  destruct Hchoice as (draw & Hin & ->).
  pose proof (draw_all_shapes draw rank
                (fun F size => wf F /\ shape F = [size; rank] /\
                               nonzero_columns F) sizes
                (fun k size Hs => Hdraw draw k size Hin Hs) 0%nat) as Hall.
  fold (draw_all draw rank sizes) in Hall.
  set (fms := draw_all draw rank sizes) in *.
  assert (Hfm : Forall (factor_matrix_of_rank rank) fms).
  { clear -Hall. induction Hall as [|F s fms sizes (Hwf & Hs & _) _ IH];
      constructor; [split; eauto | exact IH]. }
  assert (Hnz : Forall nonzero_columns fms).
  { clear -Hall. induction Hall as [|F s fms sizes (_ & _ & Hnz) _ IH];
      constructor; assumption. }
  clearbody fms.
  assert (Hinit : KruskalTensor_init fms None
                  = Ok (mk_KruskalTensor rank fms (ones [rank]))).
  { destruct Hall as [|F0 s0 rest sizes' (Hwf0 & Hs0 & Hnz0) Hrest];
      [now contradiction Hne|].
    unfold KruskalTensor_init.
    change (getitem (F0 :: rest) 0) with (Ok F0). cbn [bind].
    unfold shape_at. rewrite Hs0.
    change (getitem [s0; rank] 1) with (@Ok nat rank). cbn [bind].
    rewrite check_columns_ok; [reflexivity|].
    eapply Forall_impl; [|exact Hfm]. now intros F [_ HF]. }
  rewrite Hinit. cbn [bind].
  rewrite normalize_components_any by assumption.
  cbn [Base.rank factor_matrices weights].
  eexists. split; [reflexivity|]. cbn [weights factor_matrices].
  split; [reflexivity|].
  clear -Hall. induction Hall as [|F s fms sizes (Hwf & Hs & Hnz) _ IH];
    [constructor|].
  cbn [map]. constructor; [|exact IH].
  assert (HF : factor_matrix_of_rank rank F) by (split; eauto).
  split; [apply (normalised_factor rank F HF)|].
  split; [exact Hs | now apply normalised_unit_columns].
Qed.

Lemma random_init_unit_components_witness :
  exists kt,
    random_init (fun _ size rank => ones [size; rank])
                (fun _ size rank => ones [size; rank])
                [2%nat] 1 "Normal" = Ok kt /\
    weights kt = ones [1%nat] /\
    Forall2 (fun F size => wf F /\ shape F = [size; 1%nat] /\ unit_columns F)
            (factor_matrices kt) [2%nat].
Proof.
  apply random_init_unit_components.
  - discriminate.
  - now left.
  - intros draw k size [<- | [<- | []]] [<- | []];
      (split; [reflexivity|]; split; [reflexivity|]);
      repeat constructor; cbn; lra.
Defined.

(* ================================================================== *)
(** * BaseCP._check_valid_components                                   *)
(* ================================================================== *)

Lemma index_of_nat_inv (n i k : nat) :
  index n (Z.of_nat i) = Ok k -> k = i /\ (i < n)%nat.
Proof.
  unfold index.
  destruct (Z.leb_spec 0 (Z.of_nat i)); [|lia].
  destruct (Z.ltb_spec (Z.of_nat i) (Z.of_nat n)); cbn [andb].
  - intros [= <-]. lia.
  - destruct (Z.ltb_spec (Z.of_nat i) 0); [lia|].
    rewrite andb_false_r. discriminate.
Qed.

Lemma getitem_of_nat_inv (l : list nat) (i y : nat) :
  getitem l (Z.of_nat i) = Ok y -> (i < length l)%nat /\ y = nth i l 0%nat.
Proof.
  intros H. unfold getitem in H.
  destruct (index (length l) (Z.of_nat i)) as [k|] eqn:E; [|discriminate].
  destruct (index_of_nat_inv _ _ _ E) as [-> Hi]. split; [exact Hi|].
  cbn [bind] in H.
  destruct (nth_error l i) as [z|] eqn:En; [|discriminate].
  injection H as <-. symmetry. now apply nth_error_nth.
Qed.

Lemma skipn_nth (l : list nat) (i : nat) :
  (i < length l)%nat -> skipn i l = nth i l 0%nat :: skipn (S i) l.
Proof.
  revert i. induction l as [|y l IH]; intros [|i] Hi; cbn in Hi; try lia.
  - reflexivity.
  - cbn [skipn nth]. apply IH. lia.
Qed.

Lemma check_factors_iff (r : nat) (shp : list nat) (fms : list ndarray) :
  forall i,
  BaseCP.check_factors r (Some shp) i fms = Ok tt <->
  exists prefix rest,
    skipn i shp = prefix ++ rest /\
    map shape fms = map (fun n => [n; r]) prefix.
Proof.
  induction fms as [|F fms IH]; intros i.
  - split; [|reflexivity]. intros _. now exists [], (skipn i shp).
  - cbn [BaseCP.check_factors map]. split.
    + intros H.
      destruct (shape F) as [|len_ [|rk [|? ?]]]; cbv beta iota in H;
        try discriminate.
      destruct (rk =? r) eqn:Er; [|discriminate].
      apply Nat.eqb_eq in Er. subst rk. cbn [negb] in H.
      destruct (getitem shp (Z.of_nat i)) as [xlen|] eqn:Eg; [|discriminate].
      cbn [bind] in H.
      destruct (len_ =? xlen) eqn:El; [|discriminate].
      apply Nat.eqb_eq in El. subst len_.
      cbn [negb] in H. apply IH in H. destruct H as (prefix & rest & Hs & Hm).
      destruct (getitem_of_nat_inv _ _ _ Eg) as [Hi ->].
      exists (nth i shp 0%nat :: prefix), rest. split.
      * rewrite (skipn_nth shp i Hi), Hs. reflexivity.
      * cbn [map]. now rewrite Hm.
    + intros (prefix & rest & Hs & Hm).
      destruct prefix as [|n prefix]; [discriminate|]. cbn [map] in Hm.
      injection Hm as HF Hm. rewrite HF, Nat.eqb_refl. cbn [negb].
      assert (Hi : (i < length shp)%nat).
      { destruct (Nat.lt_ge_cases i (length shp)) as [Hlt|Hge]; [exact Hlt|].
        rewrite skipn_all2 in Hs by exact Hge. discriminate. }
      rewrite (skipn_nth shp i Hi) in Hs. cbn [app] in Hs.
      injection Hs as Hn Hs.
      rewrite (getitem_index shp _ i 0%nat) by now apply index_of_nat.
      cbn [bind]. rewrite Hn, Nat.eqb_refl. cbn [negb].
      apply IH. now exists prefix, rest.
Qed.

(** [_check_valid_components(decomposition)] changes nothing, and it
    passes exactly when the factor matrices have the shapes
    [(n, rank)] for the lengths [n] of the first modes of [X], one
    after the other: a decomposition with fewer factor matrices than
    [X] has modes is accepted. *)
Theorem check_valid_components_iff (d : KruskalTensor) (s : decomposer)
        (x : ndarray) :
  X s = Some x ->
  snd (BaseCP._check_valid_components d s) = s /\
  (fst (BaseCP._check_valid_components d s) = Ok tt <->
   exists prefix rest,
     shape x = prefix ++ rest /\
     map shape (factor_matrices d)
     = map (fun n => [n; model_rank s]) prefix).
Proof.
  intros HX. split; [reflexivity|].
  unfold BaseCP._check_valid_components. cbn [fst]. rewrite HX.
  cbn [option_map]. apply (check_factors_iff _ _ _ 0%nat).
Qed.

Lemma check_valid_components_iff_witness :
  snd (BaseCP._check_valid_components
         (mk_KruskalTensor 1 [zeros [2; 1]%nat] (ones [1]%nat))
         (set_X (zeros [2; 3]%nat) 0 example_decomposer))
  = set_X (zeros [2; 3]%nat) 0 example_decomposer /\
  (fst (BaseCP._check_valid_components
          (mk_KruskalTensor 1 [zeros [2; 1]%nat] (ones [1]%nat))
          (set_X (zeros [2; 3]%nat) 0 example_decomposer)) = Ok tt <->
   exists prefix rest,
     shape (zeros [2; 3]%nat) = prefix ++ rest /\
     map shape (factor_matrices
                  (mk_KruskalTensor 1 [zeros [2; 1]%nat] (ones [1]%nat)))
     = map (fun n => [n; model_rank
                           (set_X (zeros [2; 3]%nat) 0 example_decomposer)])
           prefix).
Proof.
  apply (check_valid_components_iff
           (mk_KruskalTensor 1 [zeros [2; 1]%nat] (ones [1]%nat))
           (set_X (zeros [2; 3]%nat) 0 example_decomposer)
           (zeros [2; 3]%nat)).
  reflexivity.
Defined.

(* ================================================================== *)
(** * CP_ALS._get_als_lhs                                              *)
(* ================================================================== *)

(** [_get_als_lhs(mode)], the entrywise product of the Gram matrices
    of the factor matrices of the other modes, is the Gram matrix
    [K.T @ K] of their Khatri-Rao product
    [K = khatri_rao(factor_matrices, skip=mode)]; the call changes
    nothing. *)
Theorem get_als_lhs_is_gram (s : decomposer) (kt : KruskalTensor)
        (A B : list ndarray) (Fn : ndarray) :
  decomposition s = Some kt ->
  factor_matrices kt = A ++ Fn :: B ->
  Forall (factor_matrix_of_rank (model_rank s)) (A ++ Fn :: B) ->
  A ++ B <> [] ->
  exists K,
    khatri_rao (A ++ Fn :: B) (Some (Z.of_nat (length A))) = Ok K /\
    CP_ALS._get_als_lhs (length A) s
    = ((KT <- transpose K ;; matmul KT K), s).
Proof.
  intros Hd Hf Hall Hne. set (r := model_rank s) in *.
  exists (of_rows r (krp_all r (map rows (A ++ B)))).
  split; [now apply khatri_rao_skip|].
  assert (Hok : Forall (rows_ok r) (map rows (A ++ B))).
  { apply map_as_rows. apply Forall_app in Hall. destruct Hall as [HA HB].
    apply Forall_app. split; [assumption | exact (Forall_inv_tail HB)]. }
  pose proof (krp_all_ok r _ Hok) as HK.
  assert (HKm : factor_matrix_of_rank r (of_rows r (krp_all r (map rows (A ++ B))))).
  { destruct (of_rows_is_matrix r _ HK) as [Hwf Hs]. split; eauto. }
  rewrite (gram_matmul r _ HKm), (rows_of_rows r _ HK).
  unfold CP_ALS._get_als_lhs, CP_ALS.factor_matrices_of, bindm, attribute,
    lift, ret.
  rewrite Hd, Hf. fold r. rewrite (als_lhs_eq r A B Fn Hall).
  do 3 f_equal. apply tabulate_ext. intros a b Ha Hb.
  symmetry. now apply gram_krp_all.
Qed.

Lemma get_als_lhs_is_gram_witness :
  exists K,
    khatri_rao ([mk_ndarray [2; 1]%nat [1; 2]] ++ ones [1; 1]%nat :: [])
               (Some (Z.of_nat (length [mk_ndarray [2; 1]%nat [1; 2]])))
    = Ok K /\
    CP_ALS._get_als_lhs (length [mk_ndarray [2; 1]%nat [1; 2]])
      (set_decomposition
         (mk_KruskalTensor 1 [mk_ndarray [2; 1]%nat [1; 2]; ones [1; 1]%nat]
            (ones [1]%nat))
         example_decomposer)
    = ((KT <- transpose K ;; matmul KT K),
       set_decomposition
         (mk_KruskalTensor 1 [mk_ndarray [2; 1]%nat [1; 2]; ones [1; 1]%nat]
            (ones [1]%nat))
         example_decomposer).
Proof.
  apply (get_als_lhs_is_gram _
           (mk_KruskalTensor 1 [mk_ndarray [2; 1]%nat [1; 2]; ones [1; 1]%nat]
              (ones [1]%nat))).
  - reflexivity.
  - reflexivity.
  - repeat constructor; cbn; eauto.
  - discriminate.
Defined.

(* ================================================================== *)
(** * BaseCP.init_components: what it leaves alone                     *)
(* ================================================================== *)

Lemma decomposition_frame_bind {A B} (m : method A) (k : A -> method B) :
  decomposition_frame m -> (forall a, decomposition_frame (k a)) ->
  decomposition_frame (bindm m k).
Proof.
  intros Hm Hk s. unfold bindm. destruct (Hm s) as (d & E).
  destruct (m s) as [[a|e] s1]; cbn [snd] in E.
  - destruct (Hk a s1) as (d' & E'). exists d'. rewrite E', E. reflexivity.
  - exists d. exact E.
Qed.

Lemma decomposition_frame_still {A} (m : method A) :
  (forall s, snd (m s) = s) -> decomposition_frame m.
Proof.
  intros H s. exists (decomposition s). rewrite H. now destruct s.
Qed.

Lemma decomposition_frame_attribute {A} (name : string)
      (get : decomposer -> option A) :
  decomposition_frame (attribute name get).
Proof.
  apply decomposition_frame_still. intros s. unfold attribute.
  now destruct (get s).
Qed.

Lemma decomposition_frame_update (kt : KruskalTensor) :
  decomposition_frame (update (set_decomposition kt)).
Proof. intros s. now exists (Some kt). Qed.

Lemma decomposition_frame_fold {P} (step : P -> method unit) (l : list P) :
  (forall p, decomposition_frame (step p)) ->
  forall m0 : method unit, decomposition_frame m0 ->
  decomposition_frame (fold_left (fun acc p => acc ;;; step p) l m0).
Proof.
  intros Hstep. induction l as [|p l IH]; intros m0 H0; [exact H0|].
  cbn [fold_left]. apply IH. apply decomposition_frame_bind; [exact H0|].
  intros _. apply Hstep.
Qed.

(** [init_random] of BaseCP and its override in CP_ALS change nothing
    but the decomposition. *)
Lemma decomposition_frame_init_random
      (random_init : list nat -> nat -> result KruskalTensor) :
  decomposition_frame (BaseCP.init_random random_init).
Proof.
  unfold BaseCP.init_random.
  apply decomposition_frame_bind;
    [apply decomposition_frame_attribute | intros x].
  apply decomposition_frame_bind;
    [now apply decomposition_frame_still | intros r].
  apply decomposition_frame_bind;
    [now apply decomposition_frame_still | intros d].
  apply decomposition_frame_update.
Qed.

Lemma decomposition_frame_init_random_step (p : nat * bool) :
  decomposition_frame (Fit.init_random_step p).
Proof.
  unfold Fit.init_random_step.
  apply decomposition_frame_bind;
    [apply decomposition_frame_attribute | intros d].
  apply decomposition_frame_bind;
    [now apply decomposition_frame_still | intros fm].
  destruct (snd p); [|now apply decomposition_frame_still].
  apply decomposition_frame_bind;
    [now apply decomposition_frame_still | intros written].
  apply decomposition_frame_bind;
    [now apply decomposition_frame_still | intros fms].
  apply decomposition_frame_update.
Qed.

Lemma decomposition_frame_init_random_als
      (random_init : list nat -> nat -> result KruskalTensor) :
  decomposition_frame (Fit.init_random random_init).
Proof.
  unfold Fit.init_random.
  apply decomposition_frame_bind;
    [apply decomposition_frame_init_random | intros _].
  apply decomposition_frame_bind;
    [now apply decomposition_frame_still | intros [l|]].
  - apply decomposition_frame_fold.
    + apply decomposition_frame_init_random_step.
    + now apply decomposition_frame_still.
  - now apply decomposition_frame_still.
Qed.

Section InitComponents.

Variable G : Type.
Variable h5py_File : string -> result (H5.file G).
Variable load_from_hdf5_group : G -> result KruskalTensor.
Variable svd_u : ndarray -> result ndarray.

(** The [init_random] of the class of the object. *)
Variable init_random : method unit.
Hypothesis init_random_frame : decomposition_frame init_random.

(** Whatever the initialisation method (a name of ASCII characters),
    the argument and the outcome, [init_components] touches no
    attribute other than the decomposition and the iteration counter,
    on an object of any class whose [init_random] changes nothing but
    the decomposition.  With a method other than 'from_checkpoint' the
    iteration counter stays too; with a method other than
    'from_checkpoint' and 'random', a call that raises has changed
    nothing. *)
Theorem init_components_frame
        (initial_decomposition : option (KruskalTensor + string))
        (s : decomposer) :
  ascii_only (init s) = true ->
  exists d it,
    snd (BaseCP.init_components_of G h5py_File load_from_hdf5_group svd_u
           init_random initial_decomposition s)
    = mk_decomposer (checkpoint_frequency s) (checkpoint_path s)
        (model_rank s) (max_its s) (convergence_tol s) (init s) (X s)
        (X_norm s) d it (rel_function_change s) (prev_SSE s)
        (non_negativity_constraints s) /\
    (Str.lower (init s) <> "from_checkpoint"%string ->
     it = current_iteration s) /\
    (Str.lower (init s) <> "from_checkpoint"%string ->
     Str.lower (init s) <> "random"%string ->
     forall e,
       fst (BaseCP.init_components_of G h5py_File load_from_hdf5_group svd_u
              init_random initial_decomposition s) = Raise e ->
       d = decomposition s).
Proof.
  intros _.
  destruct (init_random_frame s) as (d0 & Hd0).
  destruct s as [cf cp rk mi tol ini x xn dec cur rfc prev nnc].
  cbn [checkpoint_frequency checkpoint_path model_rank max_its
       convergence_tol init X X_norm decomposition current_iteration
       rel_function_change prev_SSE non_negativity_constraints] in *.
  unfold BaseCP.init_components_of, BaseCP.init_svd,
    BaseCP.load_checkpoint, BaseDecomposer.load_checkpoint,
    BaseCP._check_valid_components, bindm, attribute, lift, update, ret,
    raise, set_decomposition, set_current_iteration.
  cbn [checkpoint_frequency checkpoint_path model_rank max_its
       convergence_tol init X X_norm decomposition current_iteration
       rel_function_change prev_SSE non_negativity_constraints].
  cbv beta iota.
  repeat match goal with
         | |- context [match ?t with _ => _ end] =>
             lazymatch t with
             | context [match _ with _ => _ end] => fail
             | context [init_random] => fail
             | _ => destruct t eqn:?
             end;
             cbv beta iota;
             cbn [checkpoint_frequency checkpoint_path model_rank max_its
                  convergence_tol init X X_norm decomposition
                  current_iteration rel_function_change prev_SSE
                  non_negativity_constraints fst snd]
         end;
    first
      [ exists d0, cur; split; [exact Hd0|]; split; [reflexivity|];
        intros _ Hkind; exfalso; apply Hkind; now apply String.eqb_eq
      | do 2 eexists; (split; [reflexivity|]); split;
        [ intros Hkind; try reflexivity;
          exfalso; apply Hkind; now apply String.eqb_eq
        | intros Hkind _ e' He'; try reflexivity;
          try discriminate He';
          exfalso; apply Hkind; now apply String.eqb_eq ] ].
Qed.

End InitComponents.

Lemma init_components_frame_witness :
  exists d it,
    snd (BaseCP.init_components_of unit no_file no_loader unit_vectors_svd
           (Fit.init_random no_random) (Some (inl example_checkpoint))
           example_als)
    = mk_decomposer (checkpoint_frequency example_als)
        (checkpoint_path example_als) (model_rank example_als)
        (max_its example_als) (convergence_tol example_als)
        (init example_als) (X example_als) (X_norm example_als) d it
        (rel_function_change example_als) (prev_SSE example_als)
        (non_negativity_constraints example_als) /\
    (Str.lower (init example_als) <> "from_checkpoint"%string ->
     it = current_iteration example_als) /\
    (Str.lower (init example_als) <> "from_checkpoint"%string ->
     Str.lower (init example_als) <> "random"%string ->
     forall e,
       fst (BaseCP.init_components_of unit no_file no_loader
              unit_vectors_svd (Fit.init_random no_random)
              (Some (inl example_checkpoint)) example_als) = Raise e ->
       d = decomposition example_als).
Proof.
  apply (init_components_frame unit no_file no_loader unit_vectors_svd
           (Fit.init_random no_random)
           (decomposition_frame_init_random_als no_random)
           (Some (inl example_checkpoint)) example_als).
  reflexivity.
Defined.

(* ================================================================== *)
(** * ADMMSubproblem.update_decomposition                              *)
(* ================================================================== *)

Section AdmmFrame.

Variable lstsq : ndarray -> ndarray -> result ndarray.

Lemma assign_shape (target value written : ndarray) :
  assign target value = Ok written -> shape written = shape target.
Proof.
  intros H. apply (assign_Forall (fun _ => True)) in H; [apply H|].
  apply Forall_forall. auto.
Qed.

Lemma admm_loop_shape (self : ADMMSubproblem) (lhs rhs I : ndarray) (n : nat) :
  forall fm aux dual fm' aux' dual',
  admm_loop lstsq self lhs rhs I n fm aux dual = Ok (fm', aux', dual') ->
  shape fm' = shape fm.
Proof.
  induction n as [|n IH]; intros fm aux dual fm' aux' dual' H.
  - cbn in H. now injection H as <- <- <-.
  - cbn [admm_loop] in H.
    destruct (has_converged self fm aux) as [[|]|] eqn:Ec; cbn [bind] in H;
      [ now injection H as <- <- <- | | discriminate ].
    bind_inv H. apply IH in H. rewrite H.
    match goal with
    | E : assign fm _ = Ok _ |- _ => exact (assign_shape _ _ _ E)
    end.
Qed.


End AdmmFrame.


Lemma maximum0_fixes (A : ndarray) : nonnegative A -> maximum0 A = A.
Proof.
  unfold nonnegative, maximum0. intros H. destruct A as [sh d].
  cbn [shape data] in *. f_equal.
  induction H as [|y d Hy _ IH]; [reflexivity|].
  cbn [map]. rewrite IH. f_equal. now apply Rmax_left.
Qed.

Lemma norm2_difference_self (d : list R) : norm2 (zip_with Rminus d d) = 0.
Proof.
  destruct (norm2_zero (zip_with Rminus d d)) as [Hex | H0]; [|exact H0].
  exfalso. apply Exists_exists in Hex. destruct Hex as (y & Hin & Hy).
  unfold zip_with in Hin. apply in_map_iff in Hin.
  destruct Hin as ([a b] & <- & Hin). cbn [fst snd] in Hy.
  assert (a = b).
  { clear Hy. induction d as [|z d IH]; [destruct Hin|].
    cbn [combine] in Hin. destruct Hin as [[= <- <-] | Hin]; auto. }
  subst b. apply Hy. lra.
Qed.

Section AdmmFeasible.

Variable lstsq : ndarray -> ndarray -> result ndarray.

Lemma admm_loop_converged (self : ADMMSubproblem) (lhs rhs I : ndarray)
      (n : nat) (fm dual : ndarray) :
  0 < tol self ->
  admm_loop lstsq self lhs rhs I n fm fm dual = Ok (fm, fm, dual).
Proof.
  intros Htol. destruct n as [|n]; [reflexivity|].
  cbn [admm_loop]. unfold has_converged, sub.
  destruct (list_eq_dec Nat.eq_dec (shape fm) (shape fm)) as [_|C];
    [|now contradiction C].
  cbn [bind]. unfold norm. cbn [data]. rewrite norm2_difference_self.
  unfold Rltb. destruct (Rlt_dec 0 (tol self)); [reflexivity | contradiction].
Qed.

(** When the least-squares solution that [update_decomposition]
    starts from has no negative entry, the loop makes no pass for any
    positive tolerance, and that solution becomes the factor matrix of
    the sub-problem's mode. *)
Theorem update_decomposition_feasible
        (self : ADMMSubproblem) (X : ndarray) (fms : list ndarray)
        (K U F solution : ndarray) (n r : nat) :
  khatri_rao fms (Some (mode self)) = Ok K ->
  unfold X (mode self) = Ok U ->
  getitem fms (mode self) = Ok F ->
  shape F = [n; r] ->
  (lhs <- transpose K ;;
   lhsT <- transpose lhs ;;
   rhsT <- transpose U ;;
   S <- lstsq lhsT rhsT ;;
   transpose S) = Ok solution ->
  wf solution -> shape solution = [n; r] -> nonnegative solution ->
  0 < tol self ->
  update_decomposition lstsq self X fms
  = setitem fms (mode self) solution.
Proof.
  intros HK HU HF HsF Hsol Hwf Hs Hnn Htol.
  bind_inv Hsol.
  unfold update_decomposition. rewrite HK. cbn [bind].
  repeat match goal with
         | E : transpose _ = Ok _ |- _ => rewrite E; cbn [bind]; clear E
         end.
  rewrite HU. cbn [bind]. rewrite HF. cbn [bind].
  unfold shape_at. rewrite HsF.
  change (getitem [n; r] 1) with (@Ok nat r). cbn [bind].
  repeat match goal with
         | E : transpose _ = Ok _ |- _ => rewrite E; cbn [bind]; clear E
         | E : lstsq _ _ = Ok _ |- _ => rewrite E; cbn [bind]; clear E
         end.
  assert (Hassign : forall target, shape target = [n; r] ->
                                   assign target solution = Ok solution).
  { intros target Ht. rewrite assign_same by congruence.
    rewrite Ht, <- Hs. now destruct solution. }
  rewrite (Hassign F HsF). cbn [bind].
  unfold init_aux_factor_matrix. rewrite (maximum0_fixes _ Hnn).
  rewrite admm_loop_converged by assumption. cbn [bind fst snd].
  now rewrite (Hassign solution Hs).
Qed.

End AdmmFeasible.

Lemma update_decomposition_feasible_witness :
  update_decomposition (fun A B => Ok (mk_ndarray [1; 1]%nat [2]))
    example_subproblem (mk_ndarray [1; 1]%nat [1])
    [mk_ndarray [1; 1]%nat [5]; mk_ndarray [1; 1]%nat [1]]
  = setitem [mk_ndarray [1; 1]%nat [5]; mk_ndarray [1; 1]%nat [1]]
            (BlockParafac2.mode example_subproblem)
            (mk_ndarray [1; 1]%nat [2]).
Proof.
  apply (update_decomposition_feasible _ example_subproblem
           (mk_ndarray [1; 1]%nat [1])
           [mk_ndarray [1; 1]%nat [5]; mk_ndarray [1; 1]%nat [1]]
           (mk_ndarray [1; 1]%nat [1]) (mk_ndarray [1; 1]%nat [1])
           (mk_ndarray [1; 1]%nat [5]) (mk_ndarray [1; 1]%nat [2]) 1 1).
  - reflexivity.
  - reflexivity.
  - reflexivity.
  - reflexivity.
  - reflexivity.
  - reflexivity.
  - reflexivity.
  - repeat constructor. lra.
  - cbn. lra.
Defined.

Import Fit.

(* ================================================================== *)
(** * The explained variance                                           *)
(* ================================================================== *)

Lemma squared_error_zero (x t : list R) :
  length t = length x -> (squared_error x t = 0 <-> t = x).
Proof.
  intros Hlen. unfold squared_error. split.
  - intros H. apply (nth_ext _ _ 0 0 Hlen). intros i Hi.
    rewrite Hlen in Hi.
    pose proof (bigsum_nonneg_zero (length x) _
                  (fun j _ => square_nonneg (nth j x 0 - nth j t 0)) H i Hi)
      as Hz.
    apply square_zero in Hz. lra.
  - intros ->. rewrite (bigsum_ext _ _ (fun _ => 0)).
    + clear. induction (length x) as [|n IH];
        [apply bigsum_0 | rewrite bigsum_S, IH; lra].
    + intros i _. lra.
Qed.

Lemma squared_error_nonneg (x t : list R) : 0 <= squared_error x t.
Proof.
  unfold squared_error. apply bigsum_nonneg. intros i _.
  apply square_nonneg.
Qed.

(** For a target with a non-zero entry and a Kruskal tensor that fits
    it, [explained_variance] returns a value that is at most one, and
    one exactly when [construct_tensor()] gives the target itself. *)
Theorem explained_variance_at_most_one
        (r : nat) (s : decomposer) (x : ndarray) (kt : KruskalTensor) :
  X s = Some x -> decomposition s = Some kt ->
  AlsProps.fitting r x kt -> wf x ->
  (2 <= length (factor_matrices kt))%nat ->
  Exists (fun y => y <> 0) (data x) ->
  exists v,
    fst (explained_variance s) = Ok v /\ v <= 1 /\
    (v = 1 <-> constructed kt = Ok x).
Proof.
  intros HX Hd Hfit Hwf H2 Hnz.
  pose proof (SSE_eq r s x kt HX Hd Hfit Hwf H2) as HS.
  destruct (frame_preserves _ fitting_frame_SSE) as (_ & _ & _ & _ & HkX & _).
  specialize (HkX s). rewrite HX in HkX.
  unfold explained_variance, bindm.
  destruct (CP_ALS.SSE s) as [[sse|e] s1]; cbn [fst snd] in *;
    [|discriminate HS].
  injection HS as ->. unfold attribute. rewrite HkX.
  assert (Hn : 0 < norm x ^ 2).
  { apply pow_lt. unfold norm. now apply norm2_pos. }
  unfold is_zero. destruct (Req_dec_T (norm x ^ 2) 0) as [E0|_]; [lra|].
  cbn [ret fst]. eexists. split; [reflexivity|].
  pose proof (squared_error_nonneg (data x) (AlsProps.model_data r kt)) as H0.
  fold (AlsProps.model_error r x kt) in H0.
  assert (Hq : 0 <= AlsProps.model_error r x kt / norm x ^ 2).
  { unfold Rdiv. apply Rmult_le_pos; [exact H0|].
    left. now apply Rinv_0_lt_compat. }
  split; [lra|].
  rewrite (constructed_model r x kt Hfit H2).
  pose proof (squared_error_zero (data x) (AlsProps.model_data r kt)
                (model_data_length r x kt Hfit Hwf)) as Hz.
  fold (AlsProps.model_error r x kt) in Hz.
  split.
  - intros Hv.
    assert (He : AlsProps.model_error r x kt = 0).
    { assert (Hq0 : AlsProps.model_error r x kt / norm x ^ 2 = 0) by lra.
      unfold Rdiv in Hq0. apply Rmult_integral in Hq0.
      destruct Hq0 as [Hq0|Hq0]; [exact Hq0|].
      exfalso. apply (Rinv_neq_0_compat (norm x ^ 2)); lra. }
    apply Hz in He. rewrite He. now destruct x.
  - intros Hc.
    assert (He : AlsProps.model_data r kt = data x).
    { injection Hc as Hc. now rewrite <- Hc. }
    apply Hz in He. rewrite He. unfold Rdiv. lra.
Qed.

Lemma explained_variance_at_most_one_witness :
  exists v,
    fst (explained_variance example_als) = Ok v /\ v <= 1 /\
    (v = 1 <-> constructed example_model = Ok (mk_ndarray [1%nat; 1%nat] [1])).
Proof.
  apply (explained_variance_at_most_one 1 example_als
           (mk_ndarray [1%nat; 1%nat] [1]) example_model).
  - reflexivity.
  - reflexivity.
  - apply example_fitting.
  - reflexivity.
  - cbn. lia.
  - left. lra.
Defined.

(* ================================================================== *)
(** * CP_ALS._fit                                                      *)
(* ================================================================== *)

Section FitLoop.

Variable rightsolve : ndarray -> ndarray -> result ndarray.
Variable non_negative_rightsolve : ndarray -> ndarray -> result ndarray.
Variable print_frequency : Z.
Variable loggers : list (method unit).

(** With [max_its] zero or negative, [_fit] raises: after a loop that
    never ran, the test for the final checkpoint reads a loop variable
    that was never assigned. *)
Theorem fit_without_iterations (store_checkpoint : method unit)
        (s : decomposer) :
  (max_its s <= 0)%Z ->
  (non_negativity_constraints s = None -> decomposition s <> None) ->
  fst (_fit rightsolve non_negative_rightsolve print_frequency loggers
         store_checkpoint s)
  = Raise (NameError "it").
Proof.
  intros Hn Hd. unfold _fit, bindm, read.
  assert (Hseq : forall n, (n <= 0)%Z ->
                 map Z.of_nat (seq 0 (Z.to_nat n)) = []).
  { intros n Hle. replace (Z.to_nat n) with 0%nat by lia. reflexivity. }
  destruct (non_negativity_constraints s) as [l|] eqn:El.
  - cbn [ret]. rewrite (Hseq _ Hn). reflexivity.
  - unfold CP_ALS.factor_matrices_of, bindm, attribute.
    destruct (decomposition s) as [d|]; [|now contradiction Hd].
    cbn [ret update]. destruct s. cbn [max_its] in *.
    cbn [set_non_negativity_constraints max_its]. rewrite (Hseq _ Hn).
    reflexivity.
Qed.

(** When the relative change that the object holds is already below
    the tolerance, [_fit] makes no sweep.  It fills in the default
    constraints, one [False] for every factor matrix, when none were
    given; after that, with a checkpoint frequency of 1 or -1 it
    returns with nothing else changed, and with any other non-zero
    frequency it does nothing else but store a checkpoint. *)
Theorem fit_already_converged (store_checkpoint : method unit)
        (s : decomposer) (c : R) :
  rel_function_change s = Some (Finite c) ->
  Rabs c < convergence_tol s ->
  (0 < max_its s)%Z ->
  (non_negativity_constraints s = None -> decomposition s <> None) ->
  checkpoint_frequency s <> 0%Z ->
  (forall l, non_negativity_constraints s = Some l -> fit_entry s = s) /\
  (forall d,
     non_negativity_constraints s = None -> decomposition s = Some d ->
     fit_entry s
     = set_non_negativity_constraints
         (repeat false (length (factor_matrices d))) s) /\
  (checkpoint_frequency s = 1%Z \/ checkpoint_frequency s = (-1)%Z ->
   _fit rightsolve non_negative_rightsolve print_frequency loggers
        store_checkpoint s
   = (Ok tt, fit_entry s)) /\
  (checkpoint_frequency s <> 1%Z -> checkpoint_frequency s <> (-1)%Z ->
   _fit rightsolve non_negative_rightsolve print_frequency loggers
        store_checkpoint s
   = store_checkpoint (fit_entry s)).
Proof.
  intros Hc Htol Hn Hd Hcf.
  assert (Hentry : rel_function_change (fit_entry s) = Some (Finite c) /\
                   convergence_tol (fit_entry s) = convergence_tol s /\
                   max_its (fit_entry s) = max_its s /\
                   checkpoint_frequency (fit_entry s)
                   = checkpoint_frequency s).
  { unfold fit_entry.
    destruct (non_negativity_constraints s); [now repeat split|].
    destruct (decomposition s); now repeat split. }
  destruct Hentry as (Hc' & Htol' & Hn' & Hcf').
  assert (Hrun : _fit rightsolve non_negative_rightsolve print_frequency
                      loggers store_checkpoint s
                 = if (1 mod checkpoint_frequency s =? 0)%Z
                   then (Ok tt, fit_entry s)
                   else store_checkpoint (fit_entry s)).
  { unfold _fit. unfold bindm at 1. unfold read at 1. unfold bindm at 1.
    assert (Hprefix :
              match non_negativity_constraints s with
              | Some _ => ret tt
              | None =>
                  fms <~ CP_ALS.factor_matrices_of ;;
                  update (set_non_negativity_constraints
                            (repeat false (length fms)))
              end s = (Ok tt, fit_entry s)).
    { unfold fit_entry.
      destruct (non_negativity_constraints s); [reflexivity|].
      unfold CP_ALS.factor_matrices_of, bindm, attribute.
      destruct (decomposition s); [reflexivity|]. now contradiction Hd. }
    rewrite Hprefix. unfold bindm, read. rewrite Hn'.
    destruct (Z.to_nat (max_its s)) as [|n] eqn:En; [lia|].
    cbn [seq map fit_loop]. unfold bindm, attribute, read. rewrite Hc'.
    unfold below, Rltb. rewrite Htol'.
    destruct (Rlt_dec (Rabs c) (convergence_tol s)); [|contradiction].
    cbn [ret]. unfold divides. rewrite Hcf'.
    destruct (Z.eqb_spec (checkpoint_frequency s) 0); [contradiction|].
    cbn [ret]. change (Z.of_nat 0 + 1)%Z with 1%Z.
    now destruct (1 mod checkpoint_frequency s =? 0)%Z. }
  split; [|split].
  - intros l Hl. unfold fit_entry. now rewrite Hl.
  - intros d Hl Hdec. unfold fit_entry. now rewrite Hl, Hdec.
  - rewrite Hrun. split.
    + intros [-> | ->]; reflexivity.
    + intros H1 Hm1.
      destruct (Z.eqb_spec (1 mod checkpoint_frequency s) 0) as [E|_];
        [|reflexivity].
      exfalso. apply Z.mod_divide in E; [|exact Hcf].
      apply Z.divide_1_r in E. lia.
Qed.

End FitLoop.

Lemma fit_without_iterations_witness :
  fst (_fit example_rightsolve example_rightsolve 1 [] (ret tt)
         (set_max_its 0 example_als))
  = Raise (NameError "it").
Proof.
  apply (fit_without_iterations example_rightsolve example_rightsolve 1 []
           (ret tt) (set_max_its 0 example_als)).
  - cbn. lia.
  - discriminate.
Defined.

Lemma fit_already_converged_witness :
  _fit example_rightsolve example_rightsolve 1 [] (raise IndexError)
       example_converged
  = (Ok tt, set_non_negativity_constraints [false; false] example_converged).
Proof.
  refine (proj1 (proj2 (proj2
            (fit_already_converged example_rightsolve example_rightsolve 1 []
               (raise IndexError) example_converged 0 eq_refl _ eq_refl _ _)))
            (or_intror eq_refl)).
  - cbn. rewrite Rabs_R0. lra.
  - discriminate.
  - discriminate.
Defined.

(* A run of one iteration *)

Lemma construct_tensor_object (kt kt1 : KruskalTensor) (T : ndarray) :
  construct_tensor kt = Ok (T, kt1) ->
  rank kt1 = rank kt /\ factor_matrices kt1 = factor_matrices kt /\
  data (weights kt1) = data (weights kt) /\
  shape (weights kt1)
  = if (length (shape (weights kt)) =? 1)%nat
    then 1%nat :: shape (weights kt) else shape (weights kt).
Proof.
  unfold construct_tensor. cbv zeta. intros E.
  repeat match type of E with
         | context [bind ?m _] =>
             destruct m; cbn [bind] in E; try discriminate E
         end.
  injection E as _ <-.
  now destruct (length (shape (weights kt)) =? 1)%nat.
Qed.

Lemma SSE_run (r : nat) (s : decomposer) (x : ndarray) (kt : KruskalTensor) :
  X s = Some x -> decomposition s = Some kt -> fitting r x kt -> wf x ->
  (2 <= length (factor_matrices kt))%nat ->
  exists kt',
    CP_ALS.SSE s = (Ok (model_error r x kt), set_decomposition kt' s) /\
    fitting r x kt' /\ factor_matrices kt' = factor_matrices kt /\
    model_error r x kt' = model_error r x kt.
Proof.
  intros HX Hd Hfit Hwf H2.
  pose proof (SSE_eq r s x kt HX Hd Hfit Hwf H2) as He.
  unfold CP_ALS.SSE, CP_ALS.reconstructed_X, bindm, attribute, lift, update,
    ret in He |- *.
  rewrite HX, Hd in He |- *.
  destruct (construct_tensor kt) as [[T kt1]|] eqn:E; [|discriminate He].
  cbn [fst snd] in He |- *.
  destruct (sub x T) as [D|]; [|discriminate He].
  cbn [fst] in He.
  assert (Hn : norm D ^ 2 = model_error r x kt)
    by (injection He; intros H; exact H).
  exists kt1. rewrite Hn.
  destruct (construct_tensor_object kt kt1 T E) as (Hrk & Hfm & Hdata & Hshape).
  split; [reflexivity|].
  destruct Hfit as (Hr & Hall & Hsh & HW & Hlen).
  split; [|split].
  - unfold fitting. rewrite Hrk, Hfm, Hdata, Hshape.
    repeat (split; [assumption|]). split; [|assumption].
    destruct HW as [-> | ->]; cbn; auto.
  - exact Hfm.
  - unfold model_error, model_data. now rewrite Hfm, Hdata.
Qed.

Lemma update_convergence_run (r : nat) (s : decomposer) (x : ndarray)
      (kt : KruskalTensor) (p : R) :
  X s = Some x -> decomposition s = Some kt -> fitting r x kt -> wf x ->
  (2 <= length (factor_matrices kt))%nat ->
  prev_SSE s = Some p -> p <> 0 ->
  exists kt',
    _update_convergence s
    = (Ok tt,
       set_prev_SSE (model_error r x kt)
         (set_rel_function_change
            (Finite ((p - model_error r x kt) / p))
            (set_decomposition kt' s))) /\
    fitting r x kt' /\ factor_matrices kt' = factor_matrices kt /\
    model_error r x kt' = model_error r x kt.
Proof.
  intros HX Hd Hfit Hwf H2 Hp Hp0.
  destruct (SSE_run r s x kt HX Hd Hfit Hwf H2) as (kt1 & E1 & F1 & M1 & Q1).
  assert (H21 : (2 <= length (factor_matrices kt1))%nat) by now rewrite M1.
  set (c := Finite ((p - model_error r x kt) / p)).
  destruct (SSE_run r (set_rel_function_change c (set_decomposition kt1 s))
              x kt1 HX eq_refl F1 Hwf H21) as (kt2 & E2 & F2 & M2 & Q2).
  exists kt2.
  unfold _update_convergence, bindm, attribute, update.
  rewrite Hp, E1. cbn [prev_SSE set_decomposition]. rewrite Hp.
  unfold is_zero. destruct (Req_dec_T p 0) as [|_]; [contradiction|].
  fold c. rewrite E2, Q1.
  split; [reflexivity|]. split; [assumption|]. split; congruence.
Qed.

Lemma print_progress_run (r : nat) (s : decomposer) (x : ndarray)
      (kt : KruskalTensor) (c : ext_real) :
  X s = Some x -> decomposition s = Some kt -> fitting r x kt -> wf x ->
  (2 <= length (factor_matrices kt))%nat ->
  prod (shape x) <> 0%nat -> rel_function_change s = Some c ->
  exists kt',
    print_progress s = (Ok tt, set_decomposition kt' s) /\
    fitting r x kt' /\ factor_matrices kt' = factor_matrices kt /\
    model_error r x kt' = model_error r x kt.
Proof.
  intros HX Hd Hfit Hwf H2 Hsize Hc.
  destruct (SSE_run r s x kt HX Hd Hfit Hwf H2) as (kt1 & E1 & F1 & M1 & Q1).
  assert (H21 : (2 <= length (factor_matrices kt1))%nat) by now rewrite M1.
  destruct (SSE_run r (set_decomposition kt1 s) x kt1 HX eq_refl F1 Hwf H21)
    as (kt2 & E2 & F2 & M2 & Q2).
  exists kt2.
  unfold print_progress, MSE, loss, bindm, attribute.
  rewrite E1. cbn [X set_decomposition]. rewrite HX.
  destruct (Nat.eqb_spec (prod (shape x)) 0); [contradiction|].
  cbn [ret]. rewrite E2. cbn [rel_function_change set_decomposition].
  rewrite Hc. split; [reflexivity|]. split; [assumption|]. split; congruence.
Qed.

Lemma after_fit_iteration_run (store_checkpoint : method unit)
      (s : decomposer) (c : Z) :
  current_iteration s = Some c -> (checkpoint_frequency s < 0)%Z ->
  _after_fit_iteration [] store_checkpoint s
  = (Ok tt, set_current_iteration (c + 1) s).
Proof.
  intros Hc Hf. unfold _after_fit_iteration, bindm, attribute, read, divides.
  cbn [fold_left ret]. rewrite Hc.
  destruct (Z.eqb_spec (checkpoint_frequency s) 0); [lia|]. cbn [ret].
  assert (Hpos : (checkpoint_frequency s >? 0)%Z = false) by lia.
  destruct (_ =? 0)%Z; rewrite ?Hpos; unfold ret; cbv beta iota;
    rewrite Hc; reflexivity.
Qed.

Lemma fit_iteration_run
      (rightsolve non_negative_rightsolve
         : ndarray -> ndarray -> result ndarray)
      (print_frequency : Z) (store_checkpoint : method unit) (it : Z)
      (r : nat) (s : decomposer) (x : ndarray) (kt : KruskalTensor)
      (p : R) (c : Z) :
  X s = Some x -> wf x -> prod (shape x) <> 0%nat ->
  CP_ALS._update_als_factors rightsolve non_negative_rightsolve s
  = (Ok tt, set_decomposition kt s) ->
  fitting r x kt -> (2 <= length (factor_matrices kt))%nat ->
  prev_SSE s = Some p -> p <> 0 ->
  current_iteration s = Some c -> (checkpoint_frequency s < 0)%Z ->
  print_frequency <> 0%Z ->
  exists kt',
    fit_iteration rightsolve non_negative_rightsolve print_frequency []
                  store_checkpoint it s
    = (Ok tt,
       set_current_iteration (c + 1)
         (set_prev_SSE (model_error r x kt)
            (set_rel_function_change
               (Finite ((p - model_error r x kt) / p))
               (set_decomposition kt' s)))) /\
    fitting r x kt' /\ factor_matrices kt' = factor_matrices kt /\
    model_error r x kt' = model_error r x kt.
Proof.
  intros HX Hwf Hsize Hsweep Hfit H2 Hp Hp0 Hc Hf Hpf.
  destruct (update_convergence_run r (set_decomposition kt s) x kt p
              HX eq_refl Hfit Hwf H2 Hp Hp0)
    as (kt1 & E1 & F1 & M1 & Q1).
  assert (H21 : (2 <= length (factor_matrices kt1))%nat) by now rewrite M1.
  unfold fit_iteration, bindm at 1. rewrite Hsweep.
  unfold bindm at 1. rewrite E1.
  unfold bindm at 1, divides.
  destruct (Z.eqb_spec print_frequency 0); [contradiction|]. cbn [ret].
  destruct ((it mod print_frequency =? 0)%Z && (print_frequency >? 0)%Z).
  - set (s2 := set_prev_SSE _ (set_rel_function_change _ _)).
    destruct (print_progress_run r s2 x kt1 _ HX eq_refl F1 Hwf H21
                Hsize eq_refl) as (kt2 & E2 & F2 & M2 & Q2).
    exists kt2. unfold bindm. rewrite E2.
    rewrite (after_fit_iteration_run store_checkpoint _ c) by assumption.
    split; [reflexivity|]. split; [assumption|]. split; congruence.
  - exists kt1. unfold bindm. cbn [ret].
    rewrite (after_fit_iteration_run store_checkpoint _ c) by assumption.
    split; [reflexivity|]. split; [assumption|]. split; congruence.
Qed.

Lemma example_iteration (store_checkpoint : method unit) :
  exists kt',
    fit_iteration rank_one_rightsolve rank_one_rightsolve 1 []
                  store_checkpoint 0 example_fit
    = (Ok tt,
       set_current_iteration 1
         (set_prev_SSE 0
            (set_rel_function_change (Finite 1)
               (set_decomposition kt' example_fit)))) /\
    factor_matrices kt' = factor_matrices example_swept.
Proof.
  destruct (fit_iteration_run rank_one_rightsolve rank_one_rightsolve 1
              store_checkpoint 0 1 example_fit example_target example_swept
              20 0)
    as (kt' & E & _ & M & _); try reflexivity.
  - discriminate.
  - now apply (example_sweep_run rank_one_rightsolve example_fit
                 (mk_ndarray [1%nat] [1])).
  - exact example_swept_fitting.
  - lra.
  - discriminate.
  - exists kt'. split; [|exact M]. rewrite E, example_swept_error.
    replace ((20 - 0) / 20) with 1 by field. reflexivity.
Qed.

Lemma example_fit_run (store_checkpoint : method unit) :
  exists kt',
    _fit rank_one_rightsolve rank_one_rightsolve 1 [] store_checkpoint
         example_fit
    = (Ok tt,
       set_current_iteration 1
         (set_prev_SSE 0
            (set_rel_function_change (Finite 1)
               (set_decomposition kt' example_fit)))) /\
    factor_matrices kt' = factor_matrices example_swept.
Proof.
  destruct (example_iteration store_checkpoint) as (kt' & E & M).
  exists kt'. split; [|exact M].
  assert (Hloop : fit_loop rank_one_rightsolve rank_one_rightsolve 1 []
                    store_checkpoint [0%Z] None example_fit
                  = (Ok (Some 0%Z),
                     set_current_iteration 1
                       (set_prev_SSE 0
                          (set_rel_function_change (Finite 1)
                             (set_decomposition kt' example_fit))))).
  { cbn [fit_loop]. unfold bindm, attribute, read.
    cbn [rel_function_change example_fit below]. now rewrite E. }
  unfold _fit, bindm, read.
  cbn [non_negativity_constraints example_fit ret max_its].
  change (map Z.of_nat (seq 0 (Z.to_nat 1))) with [0%Z].
  rewrite Hloop. reflexivity.
Qed.

Lemma example_completed (store_checkpoint : method unit) :
  completed_iterations rank_one_rightsolve rank_one_rightsolve 1 []
                       store_checkpoint example_fit = 1%nat.
Proof.
  destruct (example_iteration store_checkpoint) as (kt' & E & M).
  unfold completed_iterations, fit_entry.
  cbn [non_negativity_constraints max_its example_fit].
  change (map Z.of_nat (seq 0 (Z.to_nat 1))) with [0%Z].
  cbn [completed rel_function_change example_fit below]. now rewrite E.
Qed.

(* The default checkpoint frequency *)

Lemma preserves_bind {A B C} (get : decomposer -> C) (m : method A)
      (k : A -> method B) :
  preserves get m -> (forall a, preserves get (k a)) ->
  preserves get (bindm m k).
Proof.
  intros Hm Hk s. unfold bindm. specialize (Hm s).
  destruct (m s) as [[a|e] s1]; cbn [snd] in *; [|exact Hm].
  now rewrite Hk.
Qed.

Lemma preserves_still {A C} (get : decomposer -> C) (m : method A) :
  (forall s, snd (m s) = s) -> preserves get m.
Proof. intros H s. now rewrite H. Qed.

Lemma preserves_attribute {A C} (get : decomposer -> C) (name : string)
      (field : decomposer -> option A) :
  preserves get (attribute name field).
Proof.
  apply preserves_still. intros s. unfold attribute. now destruct (field s).
Qed.

Lemma preserves_divides {C} (get : decomposer -> C) (b a : Z) :
  preserves get (divides b a).
Proof.
  apply preserves_still. intros s. unfold divides. now destruct (b =? 0)%Z.
Qed.

Lemma bindm_same {A B} (P : decomposer -> Prop) (m : method A)
      (k k' : A -> method B) (s : decomposer) :
  (forall s0, P s0 -> P (snd (m s0))) ->
  (forall a s1, P s1 -> k a s1 = k' a s1) ->
  P s -> bindm m k s = bindm m k' s.
Proof.
  intros Hm Hk Hs. unfold bindm. specialize (Hm s Hs).
  destruct (m s) as [[a|e] s1]; cbn [snd] in Hm; auto.
Qed.

Lemma mod_minus_one (a : Z) : (a mod -1 = 0)%Z.
Proof. pose proof (Z.mod_neg_bound a (-1)). lia. Qed.

Lemma fold_preserves {C} (get : decomposer -> C) (l : list (method unit)) :
  Forall (preserves get) l ->
  forall m0 : method unit,
  preserves get m0 ->
  preserves get (fold_left (fun acc log => acc ;;; log) l m0).
Proof.
  induction 1 as [|log rest Hlog _ IH]; intros m0 H0; [exact H0|].
  cbn [fold_left]. apply IH. apply preserves_bind; [exact H0 | now intros _].
Qed.

Section DefaultFrequency.

Variable rightsolve : ndarray -> ndarray -> result ndarray.
Variable non_negative_rightsolve : ndarray -> ndarray -> result ndarray.
Variable print_frequency : Z.
Variable loggers : list (method unit).

Hypothesis loggers_keep :
  Forall (preserves checkpoint_frequency) loggers.

Let default (s : decomposer) : Prop := checkpoint_frequency s = (-1)%Z.

Lemma default_kept {A} (m : method A) :
  preserves checkpoint_frequency m ->
  forall s, default s -> default (snd (m s)).
Proof. intros H s Hs. unfold default in *. now rewrite H. Qed.

Lemma loggers_preserve :
  forall m0 : method unit,
  preserves checkpoint_frequency m0 ->
  preserves checkpoint_frequency
    (fold_left (fun acc log => acc ;;; log) loggers m0).
Proof. now apply fold_preserves. Qed.

Lemma after_default (store_checkpoint : method unit) (s : decomposer) :
  default s ->
  _after_fit_iteration loggers store_checkpoint s
  = _after_fit_iteration loggers (ret tt) s.
Proof.
  intros Hs. unfold _after_fit_iteration.
  apply (bindm_same default); [|intros _ s1 H1|exact Hs].
  { apply default_kept, loggers_preserve. now apply preserves_still. }
  apply (bindm_same default); [|intros it s2 H2|exact H1].
  { apply default_kept, preserves_attribute. }
  unfold default in H2. unfold bindm, read, divides. rewrite H2.
  cbn [Z.eqb ret]. rewrite mod_minus_one. cbn [Z.eqb].
  cbv beta iota. rewrite H2. reflexivity.
Qed.

Lemma after_keeps :
  preserves checkpoint_frequency (_after_fit_iteration loggers (ret tt)).
Proof.
  unfold _after_fit_iteration.
  repeat first
    [ apply preserves_attribute
    | apply preserves_divides
    | apply loggers_preserve
    | solve [apply preserves_still; reflexivity]
    | solve [intros s; reflexivity]
    | apply preserves_bind; [|intros ?]
    | match goal with
      | |- preserves _ (if ?c then _ else _) => destruct c
      end ].
Qed.

Lemma iteration_default (store_checkpoint : method unit) (it : Z)
      (s : decomposer) :
  default s ->
  fit_iteration rightsolve non_negative_rightsolve print_frequency loggers
                store_checkpoint it s
  = fit_iteration rightsolve non_negative_rightsolve print_frequency loggers
                  (ret tt) it s.
Proof.
  intros Hs. unfold fit_iteration.
  apply (bindm_same default); [|intros _ s1 H1|exact Hs].
  { apply default_kept, frame_preserves, fitting_frame_update_als_factors. }
  apply (bindm_same default); [|intros _ s2 H2|exact H1].
  { apply default_kept, frame_preserves, fitting_frame_update_convergence. }
  apply (bindm_same default); [|intros due s3 H3|exact H2].
  { apply default_kept, preserves_divides. }
  apply (bindm_same default); [|intros _ s4 H4|exact H3].
  { apply default_kept.
    destruct (due && (print_frequency >? 0)%Z).
    - apply frame_preserves, fitting_frame_print_progress.
    - now apply preserves_still. }
  now apply after_default.
Qed.

Lemma iteration_keeps (it : Z) :
  preserves checkpoint_frequency
    (fit_iteration rightsolve non_negative_rightsolve print_frequency loggers
                   (ret tt) it).
Proof.
  unfold fit_iteration.
  apply preserves_bind;
    [apply frame_preserves, fitting_frame_update_als_factors | intros _].
  apply preserves_bind;
    [apply frame_preserves, fitting_frame_update_convergence | intros _].
  apply preserves_bind; [apply preserves_divides | intros due].
  apply preserves_bind; [|intros _; apply after_keeps].
  destruct (due && (print_frequency >? 0)%Z).
  - apply frame_preserves, fitting_frame_print_progress.
  - now apply preserves_still.
Qed.

Lemma loop_keeps (its : list Z) :
  forall last,
  preserves checkpoint_frequency
    (fit_loop rightsolve non_negative_rightsolve print_frequency loggers
              (ret tt) its last).
Proof.
  induction its as [|it its IH]; intros last.
  - now apply preserves_still.
  - cbn [fit_loop].
    apply preserves_bind; [apply preserves_attribute | intros change].
    apply preserves_bind; [now apply preserves_still | intros tolerance].
    destruct (below change tolerance); [now apply preserves_still|].
    apply preserves_bind; [apply iteration_keeps | intros _; apply IH].
Qed.

Lemma loop_default (store_checkpoint : method unit) (its : list Z) :
  forall last s,
  default s ->
  fit_loop rightsolve non_negative_rightsolve print_frequency loggers
           store_checkpoint its last s
  = fit_loop rightsolve non_negative_rightsolve print_frequency loggers
             (ret tt) its last s.
Proof.
  induction its as [|it its IH]; intros last s Hs; [reflexivity|].
  cbn [fit_loop].
  apply (bindm_same default); [|intros change s1 H1|exact Hs].
  { apply default_kept, preserves_attribute. }
  apply (bindm_same default); [|intros tolerance s2 H2|exact H1].
  { apply default_kept. now apply preserves_still. }
  destruct (below change tolerance); [reflexivity|].
  unfold bindm. rewrite (iteration_default store_checkpoint it s2 H2).
  pose proof (default_kept _ (iteration_keeps it) s2 H2) as H3.
  destruct (fit_iteration _ _ _ _ (ret tt) it s2) as [[u|e] s3];
    cbn [snd] in H3; [now apply IH | reflexivity].
Qed.

Lemma fit_default (store_checkpoint : method unit) (s : decomposer) :
  default s ->
  _fit rightsolve non_negative_rightsolve print_frequency loggers
       store_checkpoint s
  = _fit rightsolve non_negative_rightsolve print_frequency loggers
         (ret tt) s.
Proof.
  intros Hs. unfold _fit.
  apply (bindm_same default); [|intros constraints s1 H1|exact Hs].
  { apply default_kept. now apply preserves_still. }
  apply (bindm_same default); [|intros _ s2 H2|exact H1].
  { apply default_kept. destruct constraints; [now apply preserves_still|].
    apply preserves_bind.
    - unfold CP_ALS.factor_matrices_of.
      apply preserves_bind; [apply preserves_attribute | intros d].
      now apply preserves_still.
    - intros fms s0. reflexivity. }
  apply (bindm_same default); [|intros n s3 H3|exact H2].
  { apply default_kept. now apply preserves_still. }
  unfold bindm. rewrite (loop_default store_checkpoint _ None s3 H3).
  pose proof (default_kept _ (loop_keeps (map Z.of_nat (seq 0 (Z.to_nat n)))
                                         None) s3 H3) as H4.
  destruct (fit_loop _ _ _ _ (ret tt) _ None s3) as [[[it|]|e] s4];
    cbn [snd] in H4; try reflexivity.
  unfold default in H4. unfold read, divides. rewrite H4.
  cbn [Z.eqb ret]. rewrite mod_minus_one. reflexivity.
Qed.

(** With the default checkpoint frequency of -1, and loggers that do
    not change it, [_fit] never calls [store_checkpoint]: whatever
    storing a checkpoint would do, the outcome of [_fit] and the
    object it leaves are the same. *)
Theorem fit_default_never_stores (store store' : method unit)
        (s : decomposer) :
  checkpoint_frequency s = (-1)%Z ->
  _fit rightsolve non_negative_rightsolve print_frequency loggers store s
  = _fit rightsolve non_negative_rightsolve print_frequency loggers store' s.
Proof.
  intros Hs. rewrite (fit_default store s Hs).
  symmetry. now apply fit_default.
Qed.

End DefaultFrequency.

Lemma fit_default_never_stores_witness :
  _fit rank_one_rightsolve rank_one_rightsolve 1 [] (ret tt) example_fit
  = _fit rank_one_rightsolve rank_one_rightsolve 1 [] (raise IndexError)
         example_fit /\
  fst (_fit rank_one_rightsolve rank_one_rightsolve 1 [] (raise IndexError)
            example_fit) = Ok tt /\
  current_iteration
    (snd (_fit rank_one_rightsolve rank_one_rightsolve 1 []
               (raise IndexError) example_fit)) = Some 1%Z.
Proof.
  split.
  - apply (fit_default_never_stores rank_one_rightsolve rank_one_rightsolve
             1 []).
    + constructor.
    + reflexivity.
  - destruct (example_fit_run (raise IndexError)) as (kt & E & _).
    rewrite E. now split.
Defined.

(* The iteration counter *)

Lemma counts_bind {A B} (m : method A) (k : A -> method B) :
  preserves current_iteration m -> (forall a, counts (k a)) ->
  counts (bindm m k).
Proof.
  intros Hm Hk s c Hc. unfold bindm. specialize (Hm s).
  destruct (m s) as [[a|e] s1]; cbn [fst snd] in *.
  - apply Hk. congruence.
  - congruence.
Qed.

Lemma counts_increment :
  counts (it <~ attribute "current_iteration" current_iteration ;;
          update (set_current_iteration (it + 1)%Z)).
Proof.
  intros s c Hc. unfold bindm, attribute, update. now rewrite Hc.
Qed.

Section Counter.

Variable rightsolve : ndarray -> ndarray -> result ndarray.
Variable non_negative_rightsolve : ndarray -> ndarray -> result ndarray.
Variable print_frequency : Z.
Variable loggers : list (method unit).
Variable store_checkpoint : method unit.

Hypothesis loggers_keep : Forall (preserves current_iteration) loggers.
Hypothesis store_keeps : preserves current_iteration store_checkpoint.

Lemma after_counts : counts (_after_fit_iteration loggers store_checkpoint).
Proof.
  unfold _after_fit_iteration.
  apply counts_bind.
  { apply fold_preserves; [exact loggers_keep | now apply preserves_still]. }
  intros _. apply counts_bind; [apply preserves_attribute | intros it].
  apply counts_bind; [now apply preserves_still | intros frequency].
  apply counts_bind; [apply preserves_divides | intros due].
  apply counts_bind; [|intros _; apply counts_increment].
  destruct due; [|now apply preserves_still].
  apply preserves_bind; [now apply preserves_still | intros f].
  destruct (f >? 0)%Z; [exact store_keeps | now apply preserves_still].
Qed.

Lemma iteration_counts (it : Z) :
  counts (fit_iteration rightsolve non_negative_rightsolve print_frequency
            loggers store_checkpoint it).
Proof.
  unfold fit_iteration.
  apply counts_bind;
    [apply frame_preserves, fitting_frame_update_als_factors | intros _].
  apply counts_bind;
    [apply frame_preserves, fitting_frame_update_convergence | intros _].
  apply counts_bind; [apply preserves_divides | intros due].
  apply counts_bind; [|intros _; apply after_counts].
  destruct (due && (print_frequency >? 0)%Z).
  - apply frame_preserves, fitting_frame_print_progress.
  - now apply preserves_still.
Qed.

Lemma loop_counts (its : list Z) :
  forall last s c,
  current_iteration s = Some c ->
  current_iteration
    (snd (fit_loop rightsolve non_negative_rightsolve print_frequency loggers
            store_checkpoint its last s))
  = Some (c + Z.of_nat
                (completed rightsolve non_negative_rightsolve print_frequency
                   loggers store_checkpoint its s))%Z.
Proof.
  induction its as [|it its IH]; intros last s c Hc.
  - cbn. rewrite Hc. f_equal. lia.
  - cbn [fit_loop completed]. unfold bindm at 1, attribute.
    destruct (rel_function_change s) as [change|].
    2:{ cbn [snd]. rewrite Hc. f_equal. lia. }
    unfold bindm at 1, read.
    destruct (below change (convergence_tol s)).
    { cbn [ret snd]. rewrite Hc. f_equal. lia. }
    unfold bindm. pose proof (iteration_counts it s c Hc) as Hstep.
    destruct (fit_iteration _ _ _ _ _ it s) as [[u|e] s1];
      cbn [fst snd] in Hstep |- *.
    + rewrite (IH (Some it) s1 _ Hstep). f_equal. lia.
    + rewrite Hstep. f_equal. lia.
Qed.

Lemma completed_bound (its : list Z) :
  forall s,
  (completed rightsolve non_negative_rightsolve print_frequency loggers
     store_checkpoint its s <= length its)%nat.
Proof.
  induction its as [|it its IH]; intros s; [reflexivity|].
  cbn [completed length].
  destruct (rel_function_change s) as [change|]; [|lia].
  destruct (below _ _); [lia|].
  destruct (fit_iteration _ _ _ _ _ it s) as [[u|e] s1]; [|lia].
  specialize (IH s1). lia.
Qed.


End Counter.


(* ================================================================== *)
(** * CP_ALS.init_random                                               *)
(* ================================================================== *)

Lemma fold_steps {P} (step : P -> method unit) (l : list P) :
  forall (m0 : method unit) (s : decomposer),
  fold_left (fun acc p => acc ;;; step p) l m0 s
  = match m0 s with
    | (Ok _, s1) => fold_left (fun acc p => acc ;;; step p) l (ret tt) s1
    | (Raise e, s1) => (Raise e, s1)
    end.
Proof.
  induction l as [|p l IH]; intros m0 s.
  - cbn [fold_left]. destruct (m0 s) as [[[]|e] s1]; reflexivity.
  - cbn [fold_left]. rewrite IH. unfold bindm at 1.
    destruct (m0 s) as [[u|e] s1]; [|reflexivity].
    rewrite (IH (ret tt ;;; step p)). reflexivity.
Qed.

Lemma set_decomposition_same (s : decomposer) (d : KruskalTensor) :
  decomposition s = Some d -> set_decomposition d s = s.
Proof. intros H. destruct s. cbn in H. now subst. Qed.

Lemma absolute_wf (F : ndarray) : wf F -> wf (absolute F).
Proof. unfold wf, absolute. cbn [shape data]. now rewrite length_map. Qed.

Lemma assign_absolute (F : ndarray) :
  wf F -> assign F (absolute F) = Ok (absolute F).
Proof.
  intros H. rewrite assign_same; [reflexivity | now apply absolute_wf |
                                  reflexivity].
Qed.

Section InitRandom.

Variable random_init : list nat -> nat -> result KruskalTensor.

Lemma init_random_loop (rk : nat) (W : ndarray) (l : list bool) :
  forall (done todo : list ndarray) (s : decomposer),
  decomposition s = Some (mk_KruskalTensor rk (done ++ todo) W) ->
  Forall wf todo -> (length l <= length todo)%nat ->
  fold_left (fun acc p => acc ;;; init_random_step p)
            (combine (seq (length done) (length l)) l) (ret tt) s
  = (Ok tt,
     set_decomposition
       (mk_KruskalTensor rk (done ++ absolute_where l todo) W) s).
Proof.
  induction l as [|flag l IH]; intros done todo s Hd Hwf Hlen.
  - cbn [length seq combine fold_left absolute_where ret].
    now rewrite set_decomposition_same.
  - destruct todo as [|F todo]; [cbn in Hlen; lia|].
    cbn [length seq combine fold_left absolute_where].
    rewrite fold_steps. unfold bindm at 1. cbn [ret].
    unfold init_random_step, bindm, attribute, lift. rewrite Hd.
    cbn [fst snd factor_matrices rank weights].
    rewrite getitem_middle.
    assert (Hnext : forall F' s1,
      decomposition s1
      = Some (mk_KruskalTensor rk (done ++ F' :: todo) W) ->
      set_decomposition
        (mk_KruskalTensor rk (done ++ F' :: absolute_where l todo) W) s1
      = set_decomposition
          (mk_KruskalTensor rk (done ++ F' :: absolute_where l todo) W) s ->
      fold_left (fun acc p => acc ;;; init_random_step p)
                (combine (seq (S (length done)) (length l)) l) (ret tt) s1
      = (Ok tt,
         set_decomposition
           (mk_KruskalTensor rk (done ++ F' :: absolute_where l todo) W) s)).
    { intros F' s1 Hd1 Hsame.
      replace (S (length done)) with (length (done ++ [F']))
        by (rewrite length_app; cbn; lia).
      rewrite (IH (done ++ [F']) todo s1).
      - rewrite <- app_assoc. cbn [app]. now rewrite Hsame.
      - rewrite <- app_assoc. exact Hd1.
      - exact (Forall_inv_tail Hwf).
      - cbn in Hlen. lia. }
    destruct flag.
    + rewrite (assign_absolute F (Forall_inv Hwf)).
      rewrite setitem_middle. cbn [update].
      apply Hnext; [reflexivity | now destruct s].
    + cbn [ret]. now apply Hnext.
Qed.

Lemma absolute_cols (F : ndarray) :
  cols (absolute F) = map (map Rabs) (cols F).
Proof.
  unfold cols, absolute. cbn [shape data].
  destruct (shape F) as [|r [|c [|? ?]]]; try reflexivity.
  unfold cols_of. rewrite map_map. apply map_ext. intros j.
  unfold column, rows_of. rewrite !map_map. apply map_ext. intros i.
  unfold block. rewrite skipn_map, firstn_map.
  rewrite <- Rabs_R0 at 1. apply map_nth.
Qed.

Lemma norm2_absolute (u : list R) : norm2 (map Rabs u) = norm2 u.
Proof.
  unfold norm2. f_equal. rewrite map_map. f_equal. apply map_ext.
  intros y. unfold Rabs. destruct (Rcase_abs y); lra.
Qed.

Lemma absolute_unit_columns (F : ndarray) :
  unit_columns F -> unit_columns (absolute F).
Proof.
  unfold unit_columns. rewrite absolute_cols. intros H.
  apply Forall_map. eapply Forall_impl; [|exact H].
  intros col Hcol. cbv beta. now rewrite norm2_absolute.
Qed.

Lemma absolute_nonnegative (F : ndarray) : nonnegative (absolute F).
Proof.
  unfold nonnegative, absolute. cbn [data]. apply Forall_map, Forall_forall.
  intros y _. apply Rabs_pos.
Qed.

(** [init_random()] of CP_ALS with non-negativity constraints for at
    most as many modes as the random decomposition has factor
    matrices: it installs the random decomposition with the absolute
    value taken of the factor matrices of the constrained modes.
    These have no negative entry, and factor matrices with columns of
    norm one keep them. *)
Theorem init_random_absolute (s : decomposer) (x : ndarray)
        (kt : KruskalTensor) (l : list bool) :
  X s = Some x ->
  random_init (shape x) (model_rank s) = Ok kt ->
  non_negativity_constraints s = Some l ->
  (length l <= length (factor_matrices kt))%nat ->
  Forall wf (factor_matrices kt) ->
  init_random random_init s
  = (Ok tt,
     set_decomposition
       (mk_KruskalTensor (rank kt) (absolute_where l (factor_matrices kt))
                         (weights kt)) s) /\
  (Forall unit_columns (factor_matrices kt) ->
   Forall unit_columns (absolute_where l (factor_matrices kt))) /\
  (forall i F,
     nth_error l i = Some true ->
     nth_error (absolute_where l (factor_matrices kt)) i = Some F ->
     nonnegative F).
Proof.
  intros HX Hr Hl Hlen Hwf. split; [|split].
  - unfold init_random, bindm at 1.
    unfold BaseCP.init_random, bindm, attribute, lift, update.
    rewrite HX, Hr. cbn [fst snd]. unfold read.
    replace (non_negativity_constraints (set_decomposition kt s))
      with (Some l) by (now destruct s).
    destruct kt as [rk fms W]. cbn [rank factor_matrices weights] in *.
    rewrite (init_random_loop rk W l [] fms); try assumption;
      [|now destruct s].
    cbn [app]. now destruct s.
  - generalize (factor_matrices kt). clear. intros fms H. revert l.
    induction H as [|F fms HF Hrest IH]; intros l.
    + destruct l; cbn [absolute_where]; constructor.
    + destruct l as [|flag l]; cbn [absolute_where].
      * now constructor.
      * constructor; [|apply IH].
        destruct flag; [now apply absolute_unit_columns | exact HF].
  - generalize (factor_matrices kt). clear. intros fms. revert fms.
    induction l as [|flag l IH]; intros fms i F Hi HF;
      [now destruct i|].
    destruct fms as [|F0 fms]; [now destruct i|].
    cbn [absolute_where] in HF. destruct i as [|i]; cbn [nth_error] in *.
    + injection Hi as ->. injection HF as <-. apply absolute_nonnegative.
    + exact (IH fms i F Hi HF).
Qed.

End InitRandom.

Lemma init_random_absolute_witness :
  init_random (fun _ _ => Ok (mk_KruskalTensor 1 [mk_ndarray [1; 1]%nat [-1]]
                                (ones [1%nat])))
    (set_non_negativity_constraints [true] example_als)
  = (Ok tt,
     set_decomposition
       (mk_KruskalTensor
          (rank (mk_KruskalTensor 1 [mk_ndarray [1; 1]%nat [-1]]
                   (ones [1%nat])))
          (absolute_where [true]
             (factor_matrices
                (mk_KruskalTensor 1 [mk_ndarray [1; 1]%nat [-1]]
                   (ones [1%nat]))))
          (weights (mk_KruskalTensor 1 [mk_ndarray [1; 1]%nat [-1]]
                      (ones [1%nat]))))
       (set_non_negativity_constraints [true] example_als)) /\
  (Forall unit_columns
     (factor_matrices (mk_KruskalTensor 1 [mk_ndarray [1; 1]%nat [-1]]
                         (ones [1%nat]))) ->
   Forall unit_columns
     (absolute_where [true]
        (factor_matrices (mk_KruskalTensor 1 [mk_ndarray [1; 1]%nat [-1]]
                            (ones [1%nat]))))) /\
  (forall i F,
     nth_error [true] i = Some true ->
     nth_error
       (absolute_where [true]
          (factor_matrices (mk_KruskalTensor 1 [mk_ndarray [1; 1]%nat [-1]]
                              (ones [1%nat])))) i = Some F ->
     nonnegative F).
Proof.
  apply (init_random_absolute
           (fun _ _ => Ok (mk_KruskalTensor 1 [mk_ndarray [1; 1]%nat [-1]]
                             (ones [1%nat])))
           (set_non_negativity_constraints [true] example_als)
           (mk_ndarray [1%nat; 1%nat] [1])).
  - reflexivity.
  - reflexivity.
  - reflexivity.
  - cbn. lia.
  - repeat constructor.
Defined.
